(** * gguf-visualizer: the GGUF header parser, the architecture extractor,
      the half-float decoder and the point-cloud / connection generators

    A shallow embedding of [gguf-parser.js] and [point-cloud.js].

    - JavaScript numbers are IEEE 754 binary64 values.  They are modelled by
      the Standard Library's [spec_float] at precision 53 and maximal
      exponent 1024, with the library's correctly rounded operations.
    - Byte offsets, loop counters and lengths are JavaScript numbers too, but
      they only ever hold integers far below 2^53, where double arithmetic
      is exact; those are modelled by [Z].
    - Exceptions are an explicit result type, the cursor is threaded as
      explicit state, and [Math.random] is an explicit stream of draws. *)

From Stdlib Require Import ZArith List String Ascii Lia Bool SpecFloat.
From Stdlib Require Import QArith Qpower Lqa Sorted Permutation.
From Stdlib.Strings Require Import Byte.
From stdpp Require Import gmap strings pretty.

Local Open Scope Z_scope.

(* ================================================================== *)
(** * JavaScript numbers *)
(* ================================================================== *)

Module JS.

Definition prec : Z := 53.
Definition emax : Z := 1024.

Abbreviation Number := spec_float.

(** [Number(n)] of a mathematical integer (also [Number(BigInt)]):
    the nearest double, ties to even. *)
Definition fromZ (z : Z) : Number := binary_normalize prec emax z 0 false.

Definition add : Number -> Number -> Number := SFadd prec emax.
Definition sub : Number -> Number -> Number := SFsub prec emax.
Definition mul : Number -> Number -> Number := SFmul prec emax.
Definition div : Number -> Number -> Number := SFdiv prec emax.
Definition neg : Number -> Number := SFopp.

Definition NaN : Number := S754_nan.
Definition Infinity : Number := S754_infinity false.
Definition pos_zero : Number := S754_zero false.
Definition neg_zero : Number := S754_zero true.

(** A decimal literal [n / 10^k] such as [0.3 = lit 3 1]: numerator and
    denominator are exact doubles and the division is correctly rounded,
    so this is the double nearest to the decimal. *)
Definition lit (n : Z) (k : Z) : Number := div (fromZ n) (fromZ (10 ^ k)).

(** [a < b], [a > b], [a >= b], [a <= b], [a === b] on numbers. *)
Definition lt (a b : Number) : bool := SFltb a b.
Definition gt (a b : Number) : bool := SFltb b a.
Definition le (a b : Number) : bool := SFleb a b.
Definition ge (a b : Number) : bool := SFleb b a.
Definition eq (a b : Number) : bool := SFeqb a b.

(** Truthiness of a number: everything but [+0], [-0] and [NaN]. *)
Definition truthy (a : Number) : bool :=
  match a with
  | S754_zero _ | S754_nan => false
  | _ => true
  end.

Definition isFinite (a : Number) : bool :=
  match a with
  | S754_zero _ | S754_finite _ _ _ => true
  | _ => false
  end.

(** The signed mantissa of a finite number. *)
Definition smant (s : bool) (m : positive) : Z :=
  if s then Z.neg m else Z.pos m.

(** The exact integer a number denotes, when it denotes one. *)
Definition toZ (a : Number) : option Z :=
  match a with
  | S754_zero _ => Some 0
  | S754_finite s m e =>
      if 0 <=? e then Some (smant s m * 2 ^ e)
      else if (Z.pos m mod 2 ^ (- e)) =? 0 then Some (smant s m / 2 ^ (- e))
      else None
  | _ => None
  end.

(** [Math.floor]. *)
Definition Math_floor (a : Number) : Number :=
  match a with
  | S754_finite s m e =>
      if 0 <=? e then a else fromZ (smant s m / 2 ^ (- e))
  | _ => a
  end.

(** [Math.ceil]; a negative argument above [-1] gives [-0]. *)
Definition Math_ceil (a : Number) : Number :=
  match a with
  | S754_finite s m e =>
      if 0 <=? e then a
      else
        let q := - ((- smant s m) / 2 ^ (- e)) in
        if q =? 0 then S754_zero s else fromZ q
  | _ => a
  end.

(** [Math.round]: the integer nearest to the exact value, ties towards
    +Infinity; an argument in [[-0.5, 0)] gives [-0]. *)
Definition Math_round (a : Number) : Number :=
  match a with
  | S754_finite s m e =>
      if 0 <=? e then a
      else
        let q := (2 * smant s m + 2 ^ (- e)) / 2 ^ (- e + 1) in
        if q =? 0 then S754_zero s else fromZ q
  | _ => a
  end.

(** [Math.max] and [Math.min] of two arguments: [NaN] is contagious and
    [+0] counts as larger than [-0]. *)
Definition Math_max (a b : Number) : Number :=
  match a, b with
  | S754_nan, _ | _, S754_nan => S754_nan
  | S754_zero sa, S754_zero sb => S754_zero (sa && sb)
  | _, _ => if SFltb a b then b else a
  end.

Definition Math_min (a b : Number) : Number :=
  match a, b with
  | S754_nan, _ | _, S754_nan => S754_nan
  | S754_zero sa, S754_zero sb => S754_zero (sa || sb)
  | _, _ => if SFltb b a then b else a
  end.

Definition Math_sqrt : Number -> Number := SFsqrt prec emax.
Definition Math_abs : Number -> Number := SFabs.

(** [Math.pow(2, k)] for an integer [k].  ECMAScript leaves [Math.pow]
    implementation-approximated; for a power of two every engine returns
    the exact value, which is what [SFldexp] builds. *)
Definition Math_pow2 (k : Z) : Number := SFldexp prec emax (fromZ 1) k.

(** [a % b]: the remainder of the truncating division, computed exactly
    (it is always representable), with the sign of the dividend. *)
Definition rem (a b : Number) : Number :=
  match a, b with
  | S754_nan, _ | _, S754_nan => S754_nan
  | S754_infinity _, _ => S754_nan
  | _, S754_zero _ => S754_nan
  | _, S754_infinity _ => a
  | S754_zero _, _ => a
  | S754_finite sa ma ea, S754_finite _ mb eb =>
      let e := Z.min ea eb in
      let r := Z.rem (Z.pos ma * 2 ^ (ea - e)) (Z.pos mb * 2 ^ (eb - e)) in
      if r =? 0 then S754_zero sa
      else binary_normalize prec emax (if sa then - r else r) e false
  end.

(** Conversion to [Float32Array] storage: round to binary32 (precision 24,
    maximal exponent 128), ties to even. *)
Definition fround (a : Number) : Number :=
  match a with
  | S754_finite s m e => binary_round 24 128 s m e
  | _ => a
  end.

End JS.

Import JS(Number).

(* ================================================================== *)
(** * gguf-parser.js *)
(* ================================================================== *)

(** ** Float16 conversion *)

(** [ToInt32]: the operand conversion of the bitwise operators. *)
Definition ToInt32 (z : Z) : Z := (z + 2 ^ 31) mod 2 ^ 32 - 2 ^ 31.

(** [a & b] and [a >> n] on integer-valued numbers. *)
Definition js_and (a b : Z) : Z := Z.land (ToInt32 a) (ToInt32 b).
Definition js_sar (a n : Z) : Z := Z.shiftr (ToInt32 a) (n mod 32).

Definition f16ToF32 (h : Z) : Number :=
  let sign := js_sar (js_and h 0x8000) 15 in
  let exp := js_sar (js_and h 0x7C00) 10 in
  let frac := js_and h 0x03FF in
  if exp =? 0 then
    if frac =? 0 then (if sign =? 0 then JS.pos_zero else JS.neg_zero)
    else
      (* Subnormal *)
      JS.mul (JS.mul (if sign =? 0 then JS.fromZ 1 else JS.fromZ (-1))
                     (JS.Math_pow2 (-14)))
             (JS.div (JS.fromZ frac) (JS.fromZ 1024))
  else if exp =? 0x1F then
    if frac =? 0
    then (if sign =? 0 then JS.Infinity else JS.neg JS.Infinity)
    else JS.NaN
  else
    JS.mul (JS.mul (if sign =? 0 then JS.fromZ 1 else JS.fromZ (-1))
                   (JS.Math_pow2 (exp - 15)))
           (JS.add (JS.fromZ 1) (JS.div (JS.fromZ frac) (JS.fromZ 1024))).


(** ** Values of the metadata table *)

(** What [readValue] can return: a number, a boolean, a string or an array.
    A parsed string is kept as the sequence of its UTF-8 bytes (the result
    of [TextDecoder.decode] is determined by them). *)
#[warnings="-register-all"] Inductive JSValue :=
| JNum (n : Number)
| JBool (b : bool)
| JStr (s : string)
| JArr (l : list JSValue).

(** ** Files and buffers *)

(** A [File] (a [Blob]) and an [ArrayBuffer]: a length and the byte at each
    index below it.  A file of tens of gigabytes is never held in memory by
    the program, and is not held in memory here either. *)
Record File := { size : Z; contents : Z -> byte }.

Record ArrayBuffer := { byteLength : Z; bytes : Z -> byte }.

Definition ArrayBuffer_of_bytes (l : list byte) : ArrayBuffer :=
  {| byteLength := Z.of_nat (length l);
     bytes := fun i => nth (Z.to_nat i) l x00 |}.

Definition File_of_bytes (l : list byte) : File :=
  {| size := Z.of_nat (length l);
     contents := fun i => nth (Z.to_nat i) l x00 |}.

(** [await file.slice(start, end).arrayBuffer()], for [0 <= start]: the end
    is clamped to the size of the file. *)
Definition slice_arrayBuffer (file : File) (start end_ : Z) : ArrayBuffer :=
  let e := Z.min (Z.max end_ 0) (size file) in
  let s := Z.min (Z.max start 0) (size file) in
  {| byteLength := Z.max (e - s) 0;
     bytes := fun i => contents file (s + i) |}.

(** ** Exceptions *)

(** The errors the parser throws, told apart by their [message]:
    ['BUFFER_TOO_SMALL'], ["Not a valid GGUF file (got 0x..)"],
    ["Unsupported GGUF version: .."] and ["Unknown GGUF value type: .."]. *)
Inductive Error :=
| BUFFER_TOO_SMALL
| NotValidGGUF (magic : Z)
| UnsupportedVersion (version : Z)
| UnknownValueType (type : Z).

(** [e.message === 'BUFFER_TOO_SMALL'] *)
Definition is_BUFFER_TOO_SMALL (e : Error) : bool :=
  match e with BUFFER_TOO_SMALL => true | _ => false end.

(** The outcome of a call: a value, a thrown error, or [OutOfFuel] when the
    bound on the number of loop iterations of the model was too small (the
    facts below show that it never is). *)
Inductive Result (A : Type) :=
| Ok (a : A)
| Throw (e : Error)
| OutOfFuel.
Arguments Ok {A} a.
Arguments Throw {A} e.
Arguments OutOfFuel {A}.

(** ** BufferReader: a cursor over an ArrayBuffer *)

Record BufferReader := { buf : ArrayBuffer; offset : Z }.

(** A method of the cursor: it reads the cursor and returns a value and the
    moved cursor, or throws. *)
Definition M (A : Type) : Type := BufferReader -> Result (A * BufferReader).

Definition ret {A} (a : A) : M A := fun r => Ok (a, r).

Definition bind {A B} (m : M A) (k : A -> M B) : M B :=
  fun r =>
    match m r with
    | Ok (a, r') => k a r'
    | Throw e => Throw e
    | OutOfFuel => OutOfFuel
    end.

Definition throw {A} (e : Error) : M A := fun _ => Throw e.
Definition out_of_fuel {A} : M A := fun _ => OutOfFuel.

Declare Scope reader_scope.
Delimit Scope reader_scope with reader.
Notation "x <- m ;; k" := (bind m (fun x => k))
  (at level 100, m at next level, right associativity) : reader_scope.
Notation "m ;;; k" := (bind m (fun _ => k))
  (at level 100, k at level 200, right associativity) : reader_scope.
Local Open Scope reader_scope.

(** The cursor is inside its buffer. *)
Definition in_bounds (r : BufferReader) : Prop :=
  0 <= offset r <= byteLength (buf r).

(** A method that keeps the buffer, consumes at least [c] bytes and leaves
    the cursor inside the buffer. *)
Definition advances {A} (c : Z) (m : M A) : Prop :=
  forall r a r',
    in_bounds r -> m r = Ok (a, r') ->
    buf r' = buf r /\ offset r + c <= offset r' /\ in_bounds r'.

Definition new_BufferReader (buffer : ArrayBuffer) : BufferReader :=
  {| buf := buffer; offset := 0 |}.

Definition _need (n : Z) : M unit :=
  fun r =>
    if offset r + n >? byteLength (buf r) then Throw BUFFER_TOO_SMALL
    else Ok (tt, r).

(** [this.offset += n] *)
Definition advance (n : Z) : M unit :=
  fun r => Ok (tt, {| buf := buf r; offset := offset r + n |}).

(** The reads of [DataView], little-endian. *)
Definition u8 (b : ArrayBuffer) (i : Z) : Z := Z.of_N (Byte.to_N (bytes b i)).

Definition getUint8 (b : ArrayBuffer) (i : Z) : Z := u8 b i.

Definition getUint16 (b : ArrayBuffer) (i : Z) : Z :=
  u8 b i + 2 ^ 8 * u8 b (i + 1).

Definition getUint32 (b : ArrayBuffer) (i : Z) : Z :=
  u8 b i + 2 ^ 8 * u8 b (i + 1) + 2 ^ 16 * u8 b (i + 2) + 2 ^ 24 * u8 b (i + 3).

(** The unsigned 64-bit integer that the eight bytes from index [i] store,
    little-endian: the value a 64-bit read has to deliver. *)
Definition le_uint64 (b : ArrayBuffer) (i : Z) : Z :=
  u8 b i + 2 ^ 8 * u8 b (i + 1) + 2 ^ 16 * u8 b (i + 2) + 2 ^ 24 * u8 b (i + 3)
  + 2 ^ 32 * u8 b (i + 4) + 2 ^ 40 * u8 b (i + 5) + 2 ^ 48 * u8 b (i + 6)
  + 2 ^ 56 * u8 b (i + 7).

(** Two's complement reading of a [w]-bit pattern. *)
Definition signed (w : Z) (z : Z) : Z :=
  if z <? 2 ^ (w - 1) then z else z - 2 ^ w.

Definition getInt8 (b : ArrayBuffer) (i : Z) : Z := signed 8 (getUint8 b i).
Definition getInt16 (b : ArrayBuffer) (i : Z) : Z := signed 16 (getUint16 b i).
Definition getInt32 (b : ArrayBuffer) (i : Z) : Z := signed 32 (getUint32 b i).

(** The value of an IEEE 754 bit pattern with [mw] mantissa bits and [ew]
    exponent bits (binary32: 23 and 8; binary64: 52 and 11), as a double. *)
Definition decode_ieee (mw ew : Z) (bits : Z) : Number :=
  let s := Z.testbit bits (mw + ew) in
  let e := Z.land (Z.shiftr bits mw) (Z.ones ew) in
  let m := Z.land bits (Z.ones mw) in
  let bias := 2 ^ (ew - 1) - 1 in
  if e =? Z.ones ew then
    if m =? 0 then S754_infinity s else S754_nan
  else if e =? 0 then
    binary_normalize JS.prec JS.emax (if s then - m else m) (1 - bias - mw) s
  else
    binary_normalize JS.prec JS.emax
      (if s then - (m + 2 ^ mw) else m + 2 ^ mw) (e - bias - mw) s.

Definition getFloat32 (b : ArrayBuffer) (i : Z) : Number :=
  decode_ieee 23 8 (getUint32 b i).

Definition getFloat64 (b : ArrayBuffer) (i : Z) : Number :=
  decode_ieee 52 11 (getUint32 b i + 2 ^ 32 * getUint32 b (i + 4)).

Definition readUint8 : M Z :=
  _need 1 ;;; fun r => (advance 1 ;;; ret (getUint8 (buf r) (offset r))) r.

Definition readInt8 : M Z :=
  _need 1 ;;; fun r => (advance 1 ;;; ret (getInt8 (buf r) (offset r))) r.

Definition readUint16 : M Z :=
  _need 2 ;;; fun r => (advance 2 ;;; ret (getUint16 (buf r) (offset r))) r.

Definition readInt16 : M Z :=
  _need 2 ;;; fun r => (advance 2 ;;; ret (getInt16 (buf r) (offset r))) r.

Definition readUint32 : M Z :=
  _need 4 ;;; fun r => (advance 4 ;;; ret (getUint32 (buf r) (offset r))) r.

Definition readInt32 : M Z :=
  _need 4 ;;; fun r => (advance 4 ;;; ret (getInt32 (buf r) (offset r))) r.

(** [BigInt(hi) << 32n | BigInt(lo)] *)
Definition bigint_combine (hi lo : Z) : Z := Z.lor (Z.shiftl hi 32) lo.

Definition readUint64 : M Number :=
  _need 8 ;;;
  fun r =>
    let lo := getUint32 (buf r) (offset r) in
    let hi := getUint32 (buf r) (offset r + 4) in
    (advance 8 ;;;
     if hi =? 0 then ret (JS.fromZ lo)
     else ret (JS.fromZ (bigint_combine hi lo))) r.

Definition readInt64 : M Number :=
  _need 8 ;;;
  fun r =>
    let lo := getUint32 (buf r) (offset r) in
    let hi := getInt32 (buf r) (offset r + 4) in
    (advance 8 ;;;
     if (hi =? 0) && (lo <? 0x80000000) then ret (JS.fromZ lo)
     else if (hi =? -1) && (lo >=? 0x80000000) then ret (JS.fromZ (ToInt32 lo))
     else ret (JS.fromZ (bigint_combine hi lo))) r.

(** Read losslessly: the number returned by the 64-bit unsigned read at
    [off] denotes exactly the integer stored there. *)
Definition reads_uint64_exactly (b : ArrayBuffer) (off : Z) : Prop :=
  exists v r,
    readUint64 {| buf := b; offset := off |} = Ok (v, r) /\
    JS.toZ v = Some (le_uint64 b off).

Definition readFloat32 : M Number :=
  _need 4 ;;; fun r => (advance 4 ;;; ret (getFloat32 (buf r) (offset r))) r.

Definition readFloat64 : M Number :=
  _need 8 ;;; fun r => (advance 8 ;;; ret (getFloat64 (buf r) (offset r))) r.

Definition readBool : M bool :=
  v <- readUint8 ;; ret (negb (v =? 0)).

(** The integer held by a number that was read as an unsigned integer. *)
Definition int_of (n : Number) : Z :=
  match JS.toZ n with Some z => z | None => 0 end.

(** [new Uint8Array(buf, offset, len)] *)
Fixpoint Uint8Array (b : ArrayBuffer) (start : Z) (len : nat) : list byte :=
  match len with
  | O => []
  | S len' => bytes b start :: Uint8Array b (start + 1) len'
  end.

(** [new TextDecoder().decode(bytes)].  A string is held as the bytes of
    its UTF-8 encoding, so on bytes that are valid UTF-8 the decoder
    returns them as they are.  (The decoder of an engine also drops a
    leading byte-order mark and replaces invalid sequences by U+FFFD; this
    is not modelled.) *)
Definition TextDecoder_decode (l : list byte) : string :=
  string_of_list_byte l.

Definition readString : M string :=
  len <- readUint64 ;;
  _need (int_of len) ;;;
  fun r =>
    let bytes := Uint8Array (buf r) (offset r) (Z.to_nat (int_of len)) in
    (advance (int_of len) ;;; ret (TextDecoder_decode bytes)) r.

(** [for (let i = start; i < n; i++) acc = body(i, acc)], with at most
    [fuel] iterations. *)
Fixpoint for_loop {A} (fuel : nat) (i n : Z) (body : Z -> A -> M A) (acc : A)
  : M A :=
  if i <? n then
    match fuel with
    | O => out_of_fuel
    | S fuel' => acc' <- body i acc ;; for_loop fuel' (i + 1) n body acc'
    end
  else ret acc.

Module GGUFValueType.
Definition UINT8 := 0.
Definition INT8 := 1.
Definition UINT16 := 2.
Definition INT16 := 3.
Definition UINT32 := 4.
Definition INT32 := 5.
Definition FLOAT32 := 6.
Definition BOOL := 7.
Definition STRING := 8.
Definition ARRAY := 9.
Definition UINT64 := 10.
Definition INT64 := 11.
Definition FLOAT64 := 12.
End GGUFValueType.

Fixpoint readValue (fuel : nat) (type : Z) {struct fuel} : M JSValue :=
  match fuel with
  | O => out_of_fuel
  | S fuel' =>
      if type =? GGUFValueType.UINT8 then v <- readUint8 ;; ret (JNum (JS.fromZ v))
      else if type =? GGUFValueType.INT8 then v <- readInt8 ;; ret (JNum (JS.fromZ v))
      else if type =? GGUFValueType.UINT16 then v <- readUint16 ;; ret (JNum (JS.fromZ v))
      else if type =? GGUFValueType.INT16 then v <- readInt16 ;; ret (JNum (JS.fromZ v))
      else if type =? GGUFValueType.UINT32 then v <- readUint32 ;; ret (JNum (JS.fromZ v))
      else if type =? GGUFValueType.INT32 then v <- readInt32 ;; ret (JNum (JS.fromZ v))
      else if type =? GGUFValueType.FLOAT32 then v <- readFloat32 ;; ret (JNum v)
      else if type =? GGUFValueType.BOOL then v <- readBool ;; ret (JBool v)
      else if type =? GGUFValueType.STRING then v <- readString ;; ret (JStr v)
      else if type =? GGUFValueType.UINT64 then v <- readUint64 ;; ret (JNum v)
      else if type =? GGUFValueType.INT64 then v <- readInt64 ;; ret (JNum v)
      else if type =? GGUFValueType.FLOAT64 then v <- readFloat64 ;; ret (JNum v)
      else if type =? GGUFValueType.ARRAY then
        arrType <- readUint32 ;;
        arrLen <- readUint64 ;;
        arr <- for_loop fuel' 0 (int_of arrLen)
                 (fun _ arr => v <- readValue fuel' arrType ;; ret (arr ++ [v]))
                 [] ;;
        ret (JArr arr)
      else throw (UnknownValueType type)
  end.

(** ** The header *)

Module GGMLType.
Definition F32 := 0.
Definition F16 := 1.
Definition Q4_0 := 2.
Definition Q4_1 := 3.
Definition Q5_0 := 6.
Definition Q5_1 := 7.
Definition Q8_0 := 8.
Definition Q8_1 := 9.
Definition Q2_K := 10.
Definition Q3_K_S := 11.
Definition Q3_K_M := 12.
Definition Q3_K_L := 13.
Definition Q4_K_S := 14.
Definition Q4_K_M := 15.
Definition Q5_K_S := 16.
Definition Q5_K_M := 17.
Definition Q6_K := 18.
Definition Q8_K := 19.
Definition I8 := 28.
Definition I16 := 29.
Definition I32 := 30.
Definition I64 := 31.
Definition F64 := 32.
Definition BF16 := 34.
End GGMLType.

Record QuantInfo := { blockSize : Z; bytesPerBlock : Z }.

(** Block sizes and byte sizes for quantized types, as an association list
    in the order of the source. *)
Definition QUANT_INFO_table : list (Z * QuantInfo) :=
  [ (GGMLType.F32,    {| blockSize := 1;   bytesPerBlock := 4 |});
    (GGMLType.F16,    {| blockSize := 1;   bytesPerBlock := 2 |});
    (GGMLType.BF16,   {| blockSize := 1;   bytesPerBlock := 2 |});
    (GGMLType.Q4_0,   {| blockSize := 32;  bytesPerBlock := 18 |});
    (GGMLType.Q4_1,   {| blockSize := 32;  bytesPerBlock := 20 |});
    (GGMLType.Q5_0,   {| blockSize := 32;  bytesPerBlock := 22 |});
    (GGMLType.Q5_1,   {| blockSize := 32;  bytesPerBlock := 24 |});
    (GGMLType.Q8_0,   {| blockSize := 32;  bytesPerBlock := 34 |});
    (GGMLType.Q8_1,   {| blockSize := 32;  bytesPerBlock := 40 |});
    (GGMLType.Q2_K,   {| blockSize := 256; bytesPerBlock := 84 |});
    (GGMLType.Q3_K_S, {| blockSize := 256; bytesPerBlock := 110 |});
    (GGMLType.Q3_K_M, {| blockSize := 256; bytesPerBlock := 110 |});
    (GGMLType.Q3_K_L, {| blockSize := 256; bytesPerBlock := 110 |});
    (GGMLType.Q4_K_S, {| blockSize := 256; bytesPerBlock := 144 |});
    (GGMLType.Q4_K_M, {| blockSize := 256; bytesPerBlock := 144 |});
    (GGMLType.Q5_K_S, {| blockSize := 256; bytesPerBlock := 176 |});
    (GGMLType.Q5_K_M, {| blockSize := 256; bytesPerBlock := 176 |});
    (GGMLType.Q6_K,   {| blockSize := 256; bytesPerBlock := 210 |});
    (GGMLType.Q8_K,   {| blockSize := 256; bytesPerBlock := 292 |});
    (GGMLType.I8,     {| blockSize := 1;   bytesPerBlock := 1 |});
    (GGMLType.I16,    {| blockSize := 1;   bytesPerBlock := 2 |});
    (GGMLType.I32,    {| blockSize := 1;   bytesPerBlock := 4 |});
    (GGMLType.I64,    {| blockSize := 1;   bytesPerBlock := 8 |});
    (GGMLType.F64,    {| blockSize := 1;   bytesPerBlock := 8 |}) ].

(** [QUANT_INFO[type]] *)
Fixpoint assoc_Z {A} (k : Z) (l : list (Z * A)) : option A :=
  match l with
  | [] => None
  | (k', v) :: l' => if k =? k' then Some v else assoc_Z k l'
  end.

Definition QUANT_INFO (type : Z) : option QuantInfo :=
  assoc_Z type QUANT_INFO_table.

Record Tensor := {
  name : string;
  dims : list Number;
  type : Z;
  tensor_offset : Number;
  numElements : Number;
  dataSize : Number }.

Record Header := {
  metadata : gmap string JSValue;
  tensors : list Tensor;
  tensorDataOffset : Z;
  version : Z;
  tensorCount : Number }.

Definition ALIGNMENT : Z := 32.

(** [Math.ceil(a / b)] for integers [a] and a power of two [b] (the
    division is then exact in doubles). *)
Definition ceil_div (a b : Z) : Z := - ((- a) / b).

(** One entry of the tensor table. *)
Definition readTensorInfo (fuel : nat) : M Tensor :=
  name <- readString ;;
  nDims <- readUint32 ;;
  dims <- for_loop fuel 0 nDims
            (fun _ dims => d <- readUint64 ;; ret (dims ++ [d])) [] ;;
  type <- readUint32 ;;
  offset <- readUint64 ;;
  let numElements := fold_left JS.mul dims (JS.fromZ 1) in
  let dataSize :=
    match QUANT_INFO type with
    | Some info =>
        JS.mul (JS.Math_ceil (JS.div numElements (JS.fromZ (blockSize info))))
               (JS.fromZ (bytesPerBlock info))
    | None => JS.mul numElements (JS.fromZ 4)
    end in
  ret {| name := name; dims := dims; type := type; tensor_offset := offset;
         numElements := numElements; dataSize := dataSize |}.

(** The body of [_parseHeader] on the cursor; the progress callback, which
    only reports, is left out. *)
Definition parseHeaderBody (fuel : nat) : M Header :=
  (* Magic: first 4 bytes must be ASCII "GGUF" *)
  magic <- readUint32 ;;
  let expected := 0x46554747 in
  if negb (magic =? expected) then throw (NotValidGGUF magic) else
  (* Version *)
  version <- readUint32 ;;
  if (version <? 2) || (version >? 3) then throw (UnsupportedVersion version) else
  (* Counts *)
  tensorCount <- readUint64 ;;
  metadataKVCount <- readUint64 ;;
  (* Parse metadata KV pairs *)
  metadata <- for_loop fuel 0 (int_of metadataKVCount)
                (fun _ (metadata : gmap string JSValue) =>
                   key <- readString ;;
                   valueType <- readUint32 ;;
                   value <- readValue fuel valueType ;;
                   ret (<[ key := value ]> metadata)) ∅ ;;
  (* Parse tensor info entries *)
  tensors <- for_loop fuel 0 (int_of tensorCount)
               (fun _ tensors => t <- readTensorInfo fuel ;; ret (tensors ++ [t]))
               [] ;;
  (* Tensor data starts after alignment padding *)
  fun reader =>
    let headerEnd := offset reader in
    let tensorDataOffset := ceil_div headerEnd ALIGNMENT * ALIGNMENT in
    ret {| metadata := metadata; tensors := tensors;
           tensorDataOffset := tensorDataOffset; version := version;
           tensorCount := tensorCount |} reader.

(** Enough iterations for every loop over a buffer: each iteration reads at
    least one byte. *)
Definition fuel_for (buffer : ArrayBuffer) : nat :=
  S (Z.to_nat (byteLength buffer)).

(** [_parseHeader(file, readSize)], with the cursor it ends on. *)
Definition _parseHeader_reader (file : File) (readSize : Z)
  : Result (Header * BufferReader) :=
  let buffer := slice_arrayBuffer file 0 readSize in
  let reader := new_BufferReader buffer in
  parseHeaderBody (fuel_for buffer) reader.

Definition _parseHeader (file : File) (readSize : Z) : Result Header :=
  match _parseHeader_reader file readSize with
  | Ok (h, _) => Ok h
  | Throw e => Throw e
  | OutOfFuel => OutOfFuel
  end.

(** The retry loop of [parseGGUFHeader].  Next to the result it returns what
    the loop writes to the console: the size it expands to at each retry. *)
Fixpoint parseGGUFHeader_loop (fuel : nat) (file : File) (readSize : Z)
  : list Z * Result Header :=
  match fuel with
  | O => ([], OutOfFuel)
  | S fuel' =>
      match _parseHeader file readSize with
      | Ok result => ([], Ok result)
      | Throw e =>
          if is_BUFFER_TOO_SMALL e && (readSize <? size file) then
            let readSize' := Z.min (size file) (readSize * 4) in
            let (log, res) := parseGGUFHeader_loop fuel' file readSize' in
            (readSize' :: log, res)
          else ([], Throw e)
      | OutOfFuel => ([], OutOfFuel)
      end
  end.

(** The attempt on [readSize] bytes is followed by a retry on four times as
    many, capped at the size of the file. *)
Definition retried (fuel : nat) (file : File) (readSize : Z) : Prop :=
  exists log res,
    parseGGUFHeader_loop (S fuel) file readSize
    = (Z.min (size file) (readSize * 4) :: log, res).

(** [retries file readSize log]: starting from an attempt on [readSize]
    bytes, the loop expands to the sizes of [log] in turn, each time because
    the attempt before ran out of data on a slice shorter than the file. *)
Inductive retries (file : File) : Z -> list Z -> Prop :=
| retries_done readSize : retries file readSize []
| retries_again readSize log :
    _parseHeader file readSize = Throw BUFFER_TOO_SMALL ->
    readSize < size file ->
    retries file (Z.min (size file) (readSize * 4)) log ->
    retries file readSize (Z.min (size file) (readSize * 4) :: log).

(** The first size that is read: 10 MB, or the whole file when it is
    smaller. *)
Definition initial_readSize (file : File) : Z :=
  Z.min (size file) (10 * 1024 * 1024).

Definition parseGGUFHeader (file : File) : list Z * Result Header :=
  parseGGUFHeader_loop (S (Z.to_nat (Z.log2_up (size file)))) file
    (initial_readSize file).

(** ** Entries read one after the other *)

(** [read_in_turn entry r xs r']: from the cursor [r], the method [entry]
    returns the values [xs] one after the other, each read starting where
    the one before it ended; the last read ends at [r'] (which is [r] when
    there is none). *)
Inductive read_in_turn {A} (entry : M A)
  : BufferReader -> list A -> BufferReader -> Prop :=
| read_none r : read_in_turn entry r [] r
| read_next r x r1 xs r2 :
    entry r = Ok (x, r1) ->
    read_in_turn entry r1 xs r2 ->
    read_in_turn entry r (x :: xs) r2.

(** One metadata pair as the loop of [_parseHeader] reads it: the key, the
    type of the value, the value. *)
Definition readMetadataKV (fuel : nat) : M (string * JSValue) :=
  key <- readString ;;
  valueType <- readUint32 ;;
  value <- readValue fuel valueType ;;
  ret (key, value).

(** ** extractArchInfo *)

(** Known file type IDs -> human-readable quant names *)
Definition FILE_TYPE_NAMES : list (string * string) :=
  [ ("0", "F32"); ("1", "F16"); ("2", "Q4_0"); ("3", "Q4_1"); ("7", "Q8_0");
    ("8", "Q5_0"); ("9", "Q5_1"); ("10", "Q2_K"); ("11", "Q3_K_S");
    ("12", "Q3_K_M"); ("13", "Q3_K_L"); ("14", "Q4_K_S"); ("15", "Q4_K_M");
    ("16", "Q5_K_S"); ("17", "Q5_K_M"); ("18", "Q6_K"); ("19", "Q8_K") ]%string.

Fixpoint assoc_string {A} (k : string) (l : list (string * A)) : option A :=
  match l with
  | [] => None
  | (k', v) :: l' => if String.eqb k k' then Some v else assoc_string k l'
  end.

(** The architecture descriptor.  A field read from the table holds
    whatever value the table holds there; [None] is [undefined]. *)
Record ArchInfo := {
  architecture : JSValue;
  model_name : JSValue;
  fileType : option JSValue;
  fileTypeName : JSValue;
  quantVersionOverride : option JSValue;
  blockCount : JSValue;
  contextLength : JSValue;
  embeddingLength : JSValue;
  feedForwardLength : JSValue;
  headCount : JSValue;
  headCountKV : JSValue;
  expertCount : JSValue;
  expertUsedCount : JSValue;
  vocabSize : JSValue;
  ropeFreqBase : JSValue;
  ropeDimensionCount : JSValue;
  isMoE : bool;
  isGQA : bool;
  headDim : JSValue }.

(** Truthiness. *)
Definition truthy (v : JSValue) : bool :=
  match v with
  | JNum n => JS.truthy n
  | JBool b => b
  | JStr s => negb (String.eqb s "")
  | JArr _ => true
  end.

(** [a || b] when [b] is defined, and when it may be [undefined]. *)
Definition or_else (a : option JSValue) (b : JSValue) : JSValue :=
  match a with
  | Some v => if truthy v then v else b
  | None => b
  end.

Definition or_undef (a b : option JSValue) : option JSValue :=
  match a with
  | Some v => if truthy v then a else b
  | None => b
  end.

(** [a ?? b] *)
Definition nullish (a b : option JSValue) : option JSValue :=
  match a with
  | Some v => Some v
  | None => b
  end.

(** [v?.length].  The length of a string is counted in bytes of its UTF-8
    encoding, which is its length in JavaScript when it is ASCII. *)
Definition length_of (v : option JSValue) : option JSValue :=
  match v with
  | Some (JStr s) => Some (JNum (JS.fromZ (Z.of_nat (String.length s))))
  | Some (JArr l) => Some (JNum (JS.fromZ (Z.of_nat (length l))))
  | _ => None
  end.

Definition zero : JSValue := JNum JS.pos_zero.

Section ExtractArchInfo.

(** The conversions between numbers and strings are built into the
    language; the extractor is modelled for any such pair. *)
Variable NumberToString : Number -> string.
Variable StringToNumber : string -> Number.

(** [String(v)], as in a template literal or a property key. *)
Fixpoint ToString (v : JSValue) : string :=
  match v with
  | JNum n => NumberToString n
  | JBool true => "true"
  | JBool false => "false"
  | JStr s => s
  | JArr l => String.concat "," (map ToString l)
  end.

Definition ToString_opt (v : option JSValue) : string :=
  match v with
  | Some v => ToString v
  | None => "undefined"
  end.

(** [ToPrimitive]: an array becomes its string. *)
Definition ToPrimitive (v : JSValue) : JSValue :=
  match v with
  | JArr _ => JStr (ToString v)
  | _ => v
  end.

(** [ToNumber] of a primitive. *)
Definition ToNumber (v : JSValue) : Number :=
  match ToPrimitive v with
  | JNum n => n
  | JBool true => JS.fromZ 1
  | JBool false => JS.pos_zero
  | JStr s => StringToNumber s
  | JArr _ => JS.NaN
  end.

(** [a < b]: two strings are compared as strings, anything else as
    numbers. *)
Definition js_lt (a b : JSValue) : bool :=
  match ToPrimitive a, ToPrimitive b with
  | JStr s, JStr t => String.ltb s t
  | _, _ => JS.lt (ToNumber a) (ToNumber b)
  end.

(** [a > b] *)
Definition js_gt (a b : JSValue) : bool := js_lt b a.

Definition extractArchInfo (metadata : gmap string JSValue) : ArchInfo :=
  let arch := or_else (metadata !! "general.architecture") (JStr "unknown") in
  let get (key : string) : option JSValue :=
    nullish (metadata !! key) (metadata !! (ToString arch +:+ "." +:+ key)) in
  let blockCount := or_else (get "block_count") zero in
  let contextLength := or_else (get "context_length") zero in
  let embeddingLength := or_else (get "embedding_length") zero in
  let feedForwardLength := or_else (get "feed_forward_length") zero in
  let headCount := or_else (get "attention.head_count") zero in
  let headCountKV :=
    or_else (or_undef (get "attention.head_count_kv")
                      (get "attention.head_count")) zero in
  let expertCount := or_else (get "expert_count") zero in
  let expertUsedCount := or_else (get "expert_used_count") zero in
  let vocabSize :=
    or_else (or_undef (get "vocab_size")
                      (length_of (metadata !! "tokenizer.ggml.tokens"))) zero in
  let ropeFreqBase := or_else (get "rope.freq_base") zero in
  let ropeDimensionCount := or_else (get "rope.dimension_count") zero in
  {| architecture := arch;
     model_name := or_else (metadata !! "general.name") (JStr "Unknown Model");
     fileType := metadata !! "general.file_type";
     fileTypeName :=
       match assoc_string (ToString_opt (metadata !! "general.file_type"))
                          FILE_TYPE_NAMES with
       | Some n => if negb (String.eqb n "") then JStr n
                   else JStr ("Type " +:+ ToString_opt (metadata !! "general.file_type"))
       | None => JStr ("Type " +:+ ToString_opt (metadata !! "general.file_type"))
       end;
     quantVersionOverride := metadata !! "general.quantization_version";
     blockCount := blockCount;
     contextLength := contextLength;
     embeddingLength := embeddingLength;
     feedForwardLength := feedForwardLength;
     headCount := headCount;
     headCountKV := headCountKV;
     expertCount := expertCount;
     expertUsedCount := expertUsedCount;
     vocabSize := vocabSize;
     ropeFreqBase := ropeFreqBase;
     ropeDimensionCount := ropeDimensionCount;
     isMoE := js_gt expertCount (JNum (JS.fromZ 1));
     isGQA := js_gt headCountKV zero && js_lt headCountKV headCount;
     headDim :=
       if truthy embeddingLength && truthy headCount
       then JNum (JS.Math_floor (JS.div (ToNumber embeddingLength)
                                        (ToNumber headCount)))
       else zero |}.

(** The fields that are read as [get(key) || 0], with their keys. *)
Definition arch_fields : list (string * (ArchInfo -> JSValue)) :=
  [ ("block_count", blockCount);
    ("context_length", contextLength);
    ("embedding_length", embeddingLength);
    ("feed_forward_length", feedForwardLength);
    ("attention.head_count", headCount);
    ("expert_count", expertCount);
    ("expert_used_count", expertUsedCount);
    ("rope.freq_base", ropeFreqBase);
    ("rope.dimension_count", ropeDimensionCount) ]%string.

(** The architecture-namespaced form of a key. *)
Definition namespaced (metadata : gmap string JSValue) (key : string) : string :=
  ToString (architecture (extractArchInfo metadata)) +:+ "." +:+ key.

End ExtractArchInfo.

(** ** classifyTensor *)

(** [s.toLowerCase()], on the letters A-Z; the bytes of characters outside
    ASCII, some of which an engine lowers too, are left as they are. *)
Definition lower_ascii (c : ascii) : ascii :=
  let n := nat_of_ascii c in
  if (65 <=? n)%nat && (n <=? 90)%nat then ascii_of_nat (n + 32) else c.

Fixpoint toLowerCase (s : string) : string :=
  match s with
  | EmptyString => EmptyString
  | String c s' => String (lower_ascii c) (toLowerCase s')
  end.

(** [s.includes(sub)] *)
Definition includes (s sub : string) : bool :=
  match String.index 0 sub s with
  | Some _ => true
  | None => false
  end.

Definition is_digit (c : ascii) : bool :=
  let n := nat_of_ascii c in (48 <=? n)%nat && (n <=? 57)%nat.

(** The longest run of digits at the start of [s], and what follows it. *)
Fixpoint take_digits (s : string) : string * string :=
  match s with
  | String c s' =>
      if is_digit c then let (ds, rest) := take_digits s' in (String c ds, rest)
      else (EmptyString, s)
  | EmptyString => (EmptyString, EmptyString)
  end.

(** [s] without its first [n] characters. *)
Fixpoint string_drop (n : nat) (s : string) : string :=
  match n, s with
  | S n', String _ s' => string_drop n' s'
  | _, _ => s
  end.

(** A match of [lit (\d+)] at the start of [s]: the digits. *)
Definition literal_digits (lit s : string) : option (string * string) :=
  if String.prefix lit s then
    let (ds, rest) := take_digits (string_drop (String.length lit) s) in
    match ds with
    | EmptyString => None
    | _ => Some (ds, rest)
    end
  else None.

(** The first match of [/blk\.(\d+)\./] in [s]: its group. *)
Fixpoint match_blk (s : string) : option string :=
  let here :=
    match literal_digits "blk." s with
    | Some (ds, rest) => if String.prefix "." rest then Some ds else None
    | None => None
    end in
  match here, s with
  | Some ds, _ => Some ds
  | None, String _ s' => match_blk s'
  | None, EmptyString => None
  end.

(** The first match of [/ffn_(?:gate|up|down)\.(\d+)/] in [s]: its group. *)
Fixpoint match_expert (s : string) : option string :=
  let here :=
    match literal_digits "ffn_gate." s with
    | Some (ds, _) => Some ds
    | None =>
        match literal_digits "ffn_up." s with
        | Some (ds, _) => Some ds
        | None =>
            match literal_digits "ffn_down." s with
            | Some (ds, _) => Some ds
            | None => None
            end
        end
    end in
  match here, s with
  | Some ds, _ => Some ds
  | None, String _ s' => match_expert s'
  | None, EmptyString => None
  end.

(** [parseInt] of a string of decimal digits, as an exact integer; an
    engine returns the nearest double, which is the same number for up to
    15 digits. *)
Definition parseInt (ds : string) : Z :=
  fold_left (fun acc c => 10 * acc + (Z.of_nat (nat_of_ascii c) - 48))
            (list_ascii_of_string ds) 0.

Record Classification := {
  category : string;
  layerIdx : Z;
  expertIdx : Z }.

Definition classifyTensor (name : string) : Classification :=
  let n := toLowerCase name in
  (* Extract block/layer index *)
  let layerIdx := match match_blk n with Some ds => parseInt ds | None => -1 end in
  (* Expert index *)
  let expertIdx := match match_expert n with Some ds => parseInt ds | None => -1 end in
  let category :=
    if includes n "token_embd" || includes n "tok_embd" then "embedding"
    else if includes n "output_norm" || includes n "result_norm" then "output_norm"
    else if includes n "output.weight" || includes n "lm_head" then "output"
    else if includes n "attn_q" || includes n "attn.q" then "attn_q"
    else if includes n "attn_k" || includes n "attn.k" then "attn_k"
    else if includes n "attn_v" || includes n "attn.v" then "attn_v"
    else if includes n "attn_output" || includes n "attn.output"
            || includes n "attn_o" then "attn_out"
    else if includes n "attn_norm" || includes n "attn_ln" then "attn_norm"
    else if includes n "ffn_gate_exps" || includes n "ffn_gate_inp" then "moe_gate"
    else if includes n "ffn_gate" then "ffn_gate"
    else if includes n "ffn_up_exps" then "moe_up"
    else if includes n "ffn_up" then "ffn_up"
    else if includes n "ffn_down_exps" then "moe_down"
    else if includes n "ffn_down" then "ffn_down"
    else if includes n "ffn_norm" then "ffn_norm"
    else if includes n "attn" then "attn_other"
    else if includes n "ffn" then "ffn_other"
    else if includes n "norm" then "norm"
    else "other" in
  {| category := category; layerIdx := layerIdx; expertIdx := expertIdx |}.

(* ================================================================== *)
(** * point-cloud.js *)
(* ================================================================== *)

(** ** Color palettes *)

Definition Color : Type := Number * Number * Number.

Definition TENSOR_COLORS : list (string * Color) :=
  [ ("attn_q",     (JS.lit 27 2, JS.lit 53 2, JS.lit 100 2));
    ("attn_k",     (JS.lit 27 2, JS.lit 67 2, JS.lit 100 2));
    ("attn_v",     (JS.lit 27 2, JS.lit 80 2, JS.lit 100 2));
    ("attn_out",   (JS.lit 40 2, JS.lit 53 2, JS.lit 87 2));
    ("attn_norm",  (JS.lit 87 2, JS.lit 87 2, JS.lit 27 2));
    ("attn_other", (JS.lit 33 2, JS.lit 60 2, JS.lit 87 2));
    ("ffn_gate",   (JS.lit 100 2, JS.lit 53 2, JS.lit 27 2));
    ("ffn_up",     (JS.lit 100 2, JS.lit 67 2, JS.lit 27 2));
    ("ffn_down",   (JS.lit 100 2, JS.lit 40 2, JS.lit 27 2));
    ("ffn_norm",   (JS.lit 87 2, JS.lit 87 2, JS.lit 27 2));
    ("ffn_other",  (JS.lit 100 2, JS.lit 60 2, JS.lit 33 2));
    ("moe_gate",   (JS.lit 0 2, JS.lit 90 2, JS.lit 85 2));
    ("moe_up",     (JS.lit 85 2, JS.lit 25 2, JS.lit 95 2));
    ("moe_down",   (JS.lit 95 2, JS.lit 75 2, JS.lit 10 2));
    ("embedding",  (JS.lit 27 2, JS.lit 87 2, JS.lit 53 2));
    ("output",     (JS.lit 67 2, JS.lit 40 2, JS.lit 100 2));
    ("output_norm",(JS.lit 87 2, JS.lit 87 2, JS.lit 27 2));
    ("norm",       (JS.lit 87 2, JS.lit 87 2, JS.lit 27 2));
    ("other",      (JS.lit 53 2, JS.lit 53 2, JS.lit 60 2)) ]%string.

(** [TENSOR_COLORS[category] || TENSOR_COLORS.other] *)
Definition tensor_color (category : string) : Color :=
  match assoc_string category TENSOR_COLORS with
  | Some c => c
  | None => (JS.lit 53 2, JS.lit 53 2, JS.lit 60 2)
  end.

(** ** Human-readable tensor names *)

Definition KNOWN_NAMES : list (string * string) :=
  [ ("embedding",   "Token Embedding");
    ("output",      "Output Projection (LM Head)");
    ("output_norm", "Final Layer Norm");
    ("attn_q",      "Attention Query");
    ("attn_k",      "Attention Key");
    ("attn_v",      "Attention Value");
    ("attn_out",    "Attention Output");
    ("attn_norm",   "Pre-Attention Norm");
    ("attn_other",  "Attention (misc)");
    ("ffn_gate",    "FFN Gate Projection");
    ("ffn_up",      "FFN Up Projection");
    ("ffn_down",    "FFN Down Projection");
    ("ffn_norm",    "Pre-FFN Norm");
    ("ffn_other",   "FFN (misc)");
    ("moe_gate",    "MoE Router / Gate");
    ("moe_up",      "MoE Expert Up");
    ("moe_down",    "MoE Expert Down");
    ("norm",        "Layer Norm");
    ("other",       "Tensor") ]%string.

(** The decimal digits of a non-negative integer, as a template literal
    prints it. *)
Definition decimal (z : Z) : string := pretty z.

Definition getKnownName (category : string) (layerIdx expertIdx : Z) : string :=
  let base :=
    match assoc_string category KNOWN_NAMES with
    | Some n => if String.eqb n "" then category else n
    | None => category
    end in
  let parts :=
    (if layerIdx >=? 0 then ["Layer " +:+ decimal layerIdx] else [])
    ++ (if expertIdx >=? 0 then ["Expert " +:+ decimal expertIdx] else []) in
  match parts with
  | [] => base
  | _ => base +:+ " — " +:+ String.concat ", " parts
  end.

(** ** Colormaps *)

(** Diverging colormap: blue -> white -> red *)
Definition weightToColor (value maxAbsVal : Number) : Color :=
  let t := if JS.gt maxAbsVal JS.pos_zero then JS.div value maxAbsVal
           else JS.pos_zero in
  let clamped := JS.Math_max (JS.fromZ (-1)) (JS.Math_min (JS.fromZ 1) t) in
  if JS.lt clamped JS.pos_zero then
    (* Blue to white *)
    let s := JS.add (JS.fromZ 1) clamped in
    (JS.add (JS.lit 2 1) (JS.mul (JS.lit 8 1) s),
     JS.add (JS.lit 33 2) (JS.mul (JS.lit 67 2) s),
     JS.fromZ 1)
  else
    (* White to red *)
    let s := clamped in
    (JS.fromZ 1,
     JS.sub (JS.fromZ 1) (JS.mul (JS.lit 67 2) s),
     JS.sub (JS.fromZ 1) (JS.mul (JS.lit 8 1) s)).

(** Layer depth colormap: green -> blue -> purple *)
Definition layerToColor (layerIdx totalLayers : Number) : Color :=
  let t := if JS.gt totalLayers (JS.fromZ 1)
           then JS.div layerIdx (JS.sub totalLayers (JS.fromZ 1))
           else JS.pos_zero in
  if JS.lt t (JS.lit 5 1) then
    let s := JS.mul t (JS.fromZ 2) in
    let s' := JS.sub (JS.fromZ 1) s in
    (JS.add (JS.mul (JS.lit 13 2) s') (JS.mul (JS.lit 27 2) s),
     JS.add (JS.mul (JS.lit 8 1) s') (JS.mul (JS.lit 53 2) s),
     JS.add (JS.mul (JS.lit 53 2) s') (JS.mul (JS.fromZ 1) s))
  else
    let s := JS.mul (JS.sub t (JS.lit 5 1)) (JS.fromZ 2) in
    let s' := JS.sub (JS.fromZ 1) s in
    (JS.add (JS.mul (JS.lit 27 2) s') (JS.mul (JS.lit 67 2) s),
     JS.add (JS.mul (JS.lit 53 2) s') (JS.mul (JS.lit 27 2) s),
     JS.fromZ 1).

(** ** Layout *)

(** The architecture descriptor as the layout reads it: the numeric fields
    of [extractArchInfo]'s result and its [isMoE] flag. *)
Record Arch := {
  arch_blockCount : Number;
  arch_headCount : Number;
  arch_headCountKV : Number;
  arch_embeddingLength : Number;
  arch_feedForwardLength : Number;
  arch_expertCount : Number;
  arch_isMoE : bool }.

Record Region := {
  region_x : Number;
  region_y : Number;
  region_z : Number;
  region_width : Number;
  region_height : Number;
  region_depth : Number }.

(** [a || b] on numbers. *)
Definition num_or (a b : Number) : Number := if JS.truthy a then a else b.

Definition LAYER_SPACING : Number := JS.fromZ 18.
Definition STAGE_ATTN_NORM : Number := JS.pos_zero.
Definition STAGE_QKV : Number := JS.lit 25 1.
Definition STAGE_ATTN_OUT : Number := JS.fromZ 7.
Definition STAGE_FFN_NORM : Number := JS.fromZ 10.
Definition STAGE_FFN_GATE_UP : Number := JS.lit 125 1.
Definition STAGE_FFN_DOWN : Number := JS.fromZ 16.

Record Layout := {
  layers : Number;
  heads : Number;
  headsKV : Number;
  ffnMult : Number;
  experts : Number;
  attnQWidth : Number;
  attnKWidth : Number;
  attnVWidth : Number;
  attnOutWidth : Number;
  qkvTotalWidth : Number;
  ffnBlockWidth : Number;
  ffnTotalWidth : Number;
  globalBlockWidth : Number;
  layout_isMoE : bool }.

(** Per-block constants *)
Definition HEAD_WIDTH : Number := JS.fromZ 1.
Definition COMPONENT_GAP : Number := JS.lit 6 1.
Definition EXPERT_GAP : Number := JS.lit 3 1.
Definition TENSOR_HEIGHT_BASE : Number := JS.fromZ 2.
Definition BLOCK_DEPTH : Number := JS.lit 12 1.
Definition centerX : Number := JS.pos_zero.
Definition embHeight : Number := JS.mul TENSOR_HEIGHT_BASE (JS.lit 15 1).
Definition layerHeight : Number := TENSOR_HEIGHT_BASE.

(** The constants [computeLayout] derives from the descriptor. *)
Definition computeLayout (archInfo : Arch) : Layout :=
  let layers := num_or (arch_blockCount archInfo) (JS.fromZ 1) in
  let heads := num_or (arch_headCount archInfo) (JS.fromZ 1) in
  let headsKV := num_or (arch_headCountKV archInfo) heads in
  let ffnMult :=
    if JS.truthy (arch_feedForwardLength archInfo)
    then JS.div (arch_feedForwardLength archInfo)
                (JS.Math_max (arch_embeddingLength archInfo) (JS.fromZ 1))
    else JS.fromZ 4 in
  let experts :=
    if arch_isMoE archInfo then num_or (arch_expertCount archInfo) (JS.fromZ 1)
    else JS.fromZ 1 in
  (* Width calculations *)
  let attnQWidth := JS.mul heads HEAD_WIDTH in
  let attnKWidth := JS.mul headsKV HEAD_WIDTH in
  let attnVWidth := JS.mul headsKV HEAD_WIDTH in
  let attnOutWidth := JS.mul (JS.mul heads HEAD_WIDTH) (JS.lit 5 1) in
  let qkvTotalWidth :=
    JS.add (JS.add (JS.add attnQWidth attnKWidth) attnVWidth)
           (JS.mul COMPONENT_GAP (JS.fromZ 2)) in
  let ffnBlockWidth := JS.mul (JS.Math_max (JS.fromZ 2) ffnMult) HEAD_WIDTH in
  let ffnTotalWidth :=
    if arch_isMoE archInfo
    then JS.mul (JS.mul experts (JS.add ffnBlockWidth EXPERT_GAP)) (JS.lit 4 1)
    else JS.mul ffnBlockWidth (JS.lit 15 1) in
  (* Max width for embedding/output blocks *)
  let globalBlockWidth :=
    JS.mul (JS.Math_max qkvTotalWidth ffnTotalWidth) (JS.lit 8 1) in
  {| layers := layers; heads := heads; headsKV := headsKV; ffnMult := ffnMult;
     experts := experts; attnQWidth := attnQWidth; attnKWidth := attnKWidth;
     attnVWidth := attnVWidth; attnOutWidth := attnOutWidth;
     qkvTotalWidth := qkvTotalWidth; ffnBlockWidth := ffnBlockWidth;
     ffnTotalWidth := ffnTotalWidth; globalBlockWidth := globalBlockWidth;
     layout_isMoE := arch_isMoE archInfo |}.

Definition mkRegion (x y z width height depth : Number) : Region :=
  {| region_x := x; region_y := y; region_z := z;
     region_width := width; region_height := height; region_depth := depth |}.

Definition half (a : Number) : Number := JS.div a (JS.fromZ 2).

(** [layout.getRegion(category, layerIdx, expertIdx, tensor)]; the tensor
    is not looked at. *)
Definition getRegion (L : Layout) (category : string) (layerIdx expertIdx : Z)
  : Region :=
  let cat_is c := String.eqb category c in
  (* Global: Token Embedding *)
  if cat_is "embedding" then
    mkRegion (JS.sub centerX (half (globalBlockWidth L))) JS.pos_zero
             (JS.mul (JS.neg LAYER_SPACING) (JS.lit 15 1))
             (globalBlockWidth L) embHeight (JS.mul BLOCK_DEPTH (JS.fromZ 2))
  (* Global: Output Norm + Output *)
  else if cat_is "output_norm" then
    mkRegion (JS.sub centerX (half (globalBlockWidth L))) JS.pos_zero
             (JS.add (JS.mul (layers L) LAYER_SPACING) (JS.lit 5 1))
             (globalBlockWidth L) (JS.lit 3 1) BLOCK_DEPTH
  else if cat_is "output" then
    mkRegion (JS.sub centerX (half (globalBlockWidth L))) JS.pos_zero
             (JS.add (JS.mul (layers L) LAYER_SPACING) (JS.fromZ 2))
             (globalBlockWidth L) embHeight BLOCK_DEPTH
  (* Global: Misc norms / other *)
  else if (layerIdx <? 0) && (cat_is "norm" || cat_is "other") then
    mkRegion (JS.sub centerX (JS.fromZ 2)) JS.pos_zero
             (JS.add (JS.mul (layers L) LAYER_SPACING) LAYER_SPACING)
             (JS.fromZ 4) (JS.lit 3 1) BLOCK_DEPTH
  else
  (* Block-level tensors (per layer) *)
  let layerZ := JS.mul (JS.fromZ (Z.max 0 layerIdx)) LAYER_SPACING in
  (* Stage 0: Pre-Attention Norm (thin bar) *)
  if cat_is "attn_norm" then
    mkRegion (JS.sub centerX (half (qkvTotalWidth L)))
             (JS.add layerHeight (JS.lit 2 1))
             (JS.add layerZ STAGE_ATTN_NORM)
             (qkvTotalWidth L) (JS.lit 15 2) (JS.mul BLOCK_DEPTH (JS.lit 5 1))
  else
  (* Stage 1: Q, K, V (side by side, centered) *)
  let qkvBaseX := JS.sub centerX (half (qkvTotalWidth L)) in
  if cat_is "attn_q" then
    mkRegion qkvBaseX JS.pos_zero (JS.add layerZ STAGE_QKV)
             (attnQWidth L) layerHeight BLOCK_DEPTH
  else if cat_is "attn_k" then
    mkRegion (JS.add (JS.add qkvBaseX (attnQWidth L)) COMPONENT_GAP) JS.pos_zero
             (JS.add layerZ STAGE_QKV)
             (attnKWidth L) (JS.mul layerHeight (JS.lit 7 1)) BLOCK_DEPTH
  else if cat_is "attn_v" then
    mkRegion (JS.add (JS.add (JS.add qkvBaseX (attnQWidth L)) (attnKWidth L))
                     (JS.mul COMPONENT_GAP (JS.fromZ 2)))
             JS.pos_zero (JS.add layerZ STAGE_QKV)
             (attnVWidth L) (JS.mul layerHeight (JS.lit 7 1)) BLOCK_DEPTH
  (* Stage 2: Attention Output (centered) *)
  else if cat_is "attn_out" || cat_is "attn_other" then
    mkRegion (JS.sub centerX (half (attnOutWidth L))) JS.pos_zero
             (JS.add layerZ STAGE_ATTN_OUT)
             (attnOutWidth L) layerHeight BLOCK_DEPTH
  (* Stage 3: Pre-FFN Norm (thin bar) *)
  else if cat_is "ffn_norm" then
    mkRegion (JS.sub centerX (half (ffnTotalWidth L)))
             (JS.add layerHeight (JS.lit 2 1))
             (JS.add layerZ STAGE_FFN_NORM)
             (ffnTotalWidth L) (JS.lit 15 2) (JS.mul BLOCK_DEPTH (JS.lit 5 1))
  else
  (* Stage 4 & 5: FFN / MoE *)
  let moe_case : option Region :=
    if layout_isMoE L && JS.gt (experts L) (JS.fromZ 1) then
      (* MoE router: thin bar spanning all experts *)
      if cat_is "moe_gate" then
        Some (mkRegion (JS.sub centerX (half (ffnTotalWidth L)))
                (JS.add layerHeight (JS.lit 5 1))
                (JS.sub (JS.add layerZ STAGE_FFN_GATE_UP) (JS.fromZ 1))
                (ffnTotalWidth L) (JS.lit 3 1) (JS.mul BLOCK_DEPTH (JS.lit 5 1)))
      (* Packed expert tensors: span all experts *)
      else if cat_is "moe_up" then
        Some (mkRegion (JS.sub centerX (half (ffnTotalWidth L))) JS.pos_zero
                (JS.add layerZ STAGE_FFN_GATE_UP)
                (ffnTotalWidth L) layerHeight BLOCK_DEPTH)
      else if cat_is "moe_down" then
        Some (mkRegion (JS.sub centerX (half (ffnTotalWidth L))) JS.pos_zero
                (JS.add layerZ STAGE_FFN_DOWN)
                (ffnTotalWidth L) layerHeight BLOCK_DEPTH)
      else
      (* Individual expert tensors: positioned at expert column *)
      let eIdx := JS.fromZ (Z.max 0 expertIdx) in
      let expertWidth := JS.sub (JS.div (ffnTotalWidth L) (experts L)) EXPERT_GAP in
      let moeBaseX := JS.sub centerX (half (ffnTotalWidth L)) in
      let expertX := JS.add moeBaseX (JS.mul eIdx (JS.add expertWidth EXPERT_GAP)) in
      let subWidth := half expertWidth in
      if cat_is "ffn_gate" then
        Some (mkRegion expertX JS.pos_zero (JS.add layerZ STAGE_FFN_GATE_UP)
                subWidth layerHeight BLOCK_DEPTH)
      else if cat_is "ffn_up" then
        Some (mkRegion (JS.add expertX subWidth) JS.pos_zero
                (JS.add layerZ STAGE_FFN_GATE_UP)
                subWidth layerHeight BLOCK_DEPTH)
      else if cat_is "ffn_down" then
        Some (mkRegion expertX JS.pos_zero (JS.add layerZ STAGE_FFN_DOWN)
                expertWidth layerHeight BLOCK_DEPTH)
      else None
    else None in
  match moe_case with
  | Some r => r
  | None =>
  (* Dense FFN layout (centered) *)
  let ffnSubWidth :=
    JS.sub (JS.div (ffnTotalWidth L) (JS.fromZ 3))
           (JS.mul COMPONENT_GAP (JS.lit 3 1)) in
  let ffnH :=
    JS.mul layerHeight
           (JS.Math_min (JS.div (ffnMult L) (JS.fromZ 4)) (JS.lit 15 1)) in
  let pairWidth :=
    JS.add (JS.mul ffnSubWidth (JS.fromZ 2)) (JS.mul COMPONENT_GAP (JS.lit 3 1)) in
  (* Gate + Up side by side at FFN_GATE_UP stage (centered) *)
  if cat_is "ffn_gate" then
    mkRegion (JS.sub centerX (half pairWidth)) JS.pos_zero
             (JS.add layerZ STAGE_FFN_GATE_UP) ffnSubWidth ffnH BLOCK_DEPTH
  else if cat_is "ffn_up" then
    mkRegion (JS.add (JS.add (JS.sub centerX (half pairWidth)) ffnSubWidth)
                     (JS.mul COMPONENT_GAP (JS.lit 3 1)))
             JS.pos_zero (JS.add layerZ STAGE_FFN_GATE_UP)
             ffnSubWidth ffnH BLOCK_DEPTH
  (* Down centered at FFN_DOWN stage *)
  else if cat_is "ffn_down" then
    mkRegion (JS.sub centerX (half ffnSubWidth)) JS.pos_zero
             (JS.add layerZ STAGE_FFN_DOWN) ffnSubWidth ffnH BLOCK_DEPTH
  else if cat_is "ffn_other" then
    mkRegion (JS.sub centerX (half (ffnTotalWidth L))) JS.pos_zero
             (JS.add layerZ STAGE_FFN_GATE_UP)
             (ffnTotalWidth L) layerHeight BLOCK_DEPTH
  (* Fallback: unrecognized tensors *)
  else
    mkRegion (JS.sub centerX (JS.fromZ 3)) (JS.fromZ (-3))
             (if layerIdx >=? 0 then JS.add layerZ STAGE_QKV
              else JS.add (JS.mul (layers L) LAYER_SPACING) (JS.fromZ 3))
             (JS.fromZ 6) (JS.fromZ 1) BLOCK_DEPTH
  end.

(** ** Point allocation *)

(** Minimum number of points any single tensor will be rendered with. *)
Definition MIN_POINTS_PER_TENSOR : Number := JS.fromZ 400.

Record TensorAlloc := {
  alloc_tensor : Tensor;
  alloc_cls : Classification;
  pointCount : Number }.

(** [xs.reduce((s, x) => s + f(x), 0)] *)
Definition sum_by {A} (f : A -> Number) (xs : list A) : Number :=
  fold_left (fun s x => JS.add s (f x)) xs JS.pos_zero.

(** Assign point counts to each tensor proportionally, with a floor. *)
Definition rawAllocs (tensors : list Tensor) (targetPointCount : Number)
  : list TensorAlloc :=
  let totalParams := sum_by numElements tensors in
  let decimationRatio := JS.div totalParams targetPointCount in
  map (fun t =>
         {| alloc_tensor := t;
            alloc_cls := classifyTensor (name t);
            pointCount :=
              JS.Math_max MIN_POINTS_PER_TENSOR
                (JS.Math_floor (JS.div (numElements t) decimationRatio)) |})
      tensors.

(** The rescale pass ("adjust total to match target"). *)
Definition rescaleAllocs (tensorAllocs : list TensorAlloc)
    (targetPointCount : Number) : list TensorAlloc :=
  let allocTotal := sum_by pointCount tensorAllocs in
  if JS.gt allocTotal JS.pos_zero then
    let scale := JS.div targetPointCount allocTotal in
    map (fun a =>
           {| alloc_tensor := alloc_tensor a;
              alloc_cls := alloc_cls a;
              pointCount :=
                JS.Math_max MIN_POINTS_PER_TENSOR
                  (JS.Math_round (JS.mul (pointCount a) scale)) |})
        tensorAllocs
  else tensorAllocs.

Definition allocatePoints (tensors : list Tensor) (targetPointCount : Number)
  : list TensorAlloc :=
  rescaleAllocs (rawAllocs tensors targetPointCount) targetPointCount.

(** ** Typed arrays and loops over numbers *)

(** How a call ends: with a value, with a [RangeError], or not at all. *)
Inductive Run (A : Type) :=
| Returns (a : A)
| RangeError
| NeverReturns.
Arguments Returns {A} a.
Arguments RangeError {A}.
Arguments NeverReturns {A}.

(** A finite number cut to an integer, towards zero. *)
Definition trunc (a : Number) : Z :=
  match a with
  | S754_finite s m e =>
      if 0 <=? e then JS.smant s m * 2 ^ e
      else Z.quot (JS.smant s m) (2 ^ (- e))
  | _ => 0
  end.

(** [new Float32Array(len)]: [len] zeros; a [RangeError] when [len] is not
    a valid length.  (An engine also refuses lengths beyond its own limit;
    that limit is not modelled.) *)
Definition new_Float32Array (len : Number) : Run (list Number) :=
  match len with
  | S754_infinity _ => RangeError
  | _ =>
      let n := trunc len in
      if (n <? 0) || (n >? 2 ^ 53 - 1) then RangeError
      else Returns (replicate (Z.to_nat n) JS.pos_zero)
  end.

(** [array[i] = v] on a [Float32Array]: the value is rounded to binary32; a
    write past the end is ignored. *)
Definition typed_set (array : list Number) (i : Z) (v : Number) : list Number :=
  if i <? 0 then array else <[ Z.to_nat i := JS.fround v ]> array.

(** [array[i]] on an array of numbers; [undefined] turns into [NaN] once it
    is stored in a typed array. *)
Definition array_get (array : list Number) (i : Z) : Number :=
  if i <? 0 then JS.NaN else nth (Z.to_nat i) array JS.NaN.

(** The number of turns of [for (let i = 0; i < n; i++)]: none when [n] is
    [NaN], no end when [n] is [Infinity]. *)
Definition turns (n : Number) : option nat :=
  match n with
  | S754_infinity false => None
  | _ => Some (Z.to_nat (int_of (JS.Math_ceil n)))
  end.

(** ** generatePointCloud *)

Record CloudState := {
  positions : list Number;
  colors : list Number;
  globalIdx : Z;
  drawn : nat }.

Record TensorRegion := {
  tr_name : string;
  tr_knownName : string;
  tr_category : string;
  tr_layerIdx : Z;
  tr_expertIdx : Z;
  tr_dims : list Number;
  tr_type : Z;
  tr_region : Region;
  startIdx : Z;
  endIdx : Z }.

Record PointCloud := {
  pc_positions : list Number;
  pc_colors : list Number;
  tensorRegions : list TensorRegion;
  actualPointCount : Z;
  pc_drawn : nat }.

(** Find max abs value for normalization. *)
Definition maxAbsOf (weightValues : option (list Number)) : Number :=
  match weightValues with
  | Some ws =>
      let maxAbs :=
        fold_left (fun maxAbs w =>
                     let a := JS.Math_abs w in
                     if JS.gt a maxAbs && JS.isFinite a then a else maxAbs)
                  ws JS.pos_zero in
      if JS.eq maxAbs JS.pos_zero then JS.fromZ 1 else maxAbs
  | None => JS.pos_zero
  end.

Section PointCloud.

(** [Math.random]: the global generator.  Its [k]-th draw since the start
    of the run is [random k]; a state counts the draws made so far. *)
Variable random : nat -> Number.

(** The outcome of [sampleTensorWeights(file, tensorDataOffset, tensor,
    pointCount)] for the file at hand: the samples, or [None] when the
    promise is rejected. *)
Variable sampleTensorWeights : Tensor -> Number -> option (list Number).

(** The color of point [pi], and whether it took a draw. *)
Definition pointColor (archInfo : Arch) (colorMode : string)
    (cls : Classification) (weightValues : option (list Number))
    (maxAbs : Number) (pi : Z) (d : nat) : Color * nat :=
  let from_weight :=
    match weightValues with
    | Some ws =>
        if String.eqb colorMode "weight" && (pi <? Z.of_nat (length ws))
        then Some (weightToColor (array_get ws pi) maxAbs)
        else None
    | None => None
    end in
  match from_weight with
  | Some c => (c, d)
  | None =>
      if String.eqb colorMode "layer" then
        if layerIdx cls >=? 0
        then (layerToColor (JS.fromZ (layerIdx cls))
                           (num_or (arch_blockCount archInfo) (JS.fromZ 1)), d)
        else ((JS.lit 5 1, JS.lit 5 1, JS.lit 6 1), d)
      else
        (* Tensor type coloring *)
        let '(r, g, b) := tensor_color (category cls) in
        (* Add slight brightness variation *)
        let variation := JS.add (JS.lit 85 2) (JS.mul (random d) (JS.lit 3 1)) in
        ((JS.mul r variation, JS.mul g variation, JS.mul b variation), S d)
  end.

(** The position of point [pi], from three draws. *)
Definition pointPosition (tensor : Tensor) (pointCount : Number)
    (region : Region) (rows cols : Number) (pi : Z) (d : nat)
  : Number * Number * Number :=
  (* Map point index to row/col within the tensor *)
  let paramIdx :=
    JS.Math_floor (JS.mul (JS.fromZ pi) (JS.div (numElements tensor) pointCount)) in
  let row := if JS.gt rows (JS.fromZ 1)
             then JS.Math_floor (JS.div paramIdx cols) else JS.pos_zero in
  let col := JS.rem paramIdx cols in
  let rowT := if JS.gt rows (JS.fromZ 1)
              then JS.div row (JS.sub rows (JS.fromZ 1)) else JS.lit 5 1 in
  let colT := if JS.gt cols (JS.fromZ 1)
              then JS.div col (JS.sub cols (JS.fromZ 1)) else JS.lit 5 1 in
  (* Add jitter for visual density (avoid perfect grid) *)
  let jx := JS.mul (JS.sub (random d) (JS.lit 5 1)) (JS.lit 3 1) in
  let jy := JS.mul (JS.sub (random (S d)) (JS.lit 5 1)) (JS.lit 3 1) in
  let jz := JS.mul (JS.sub (random (S (S d))) (JS.lit 5 1)) (JS.lit 15 2) in
  (* Compute 3D position *)
  let x :=
    JS.add (region_x region)
      (JS.mul (JS.add colT
                 (JS.mul jx (JS.div (JS.fromZ 1) (JS.Math_max cols (JS.fromZ 1)))))
              (region_width region)) in
  let y :=
    JS.add (region_y region)
      (JS.mul (JS.add rowT
                 (JS.mul jy (JS.div (JS.fromZ 1) (JS.Math_max rows (JS.fromZ 1)))))
              (region_height region)) in
  let z := JS.add (region_z region) (JS.mul jz (region_depth region)) in
  (x, y, z).

(** One turn of the loop over the points of a tensor. *)
Definition pointBody (archInfo : Arch) (colorMode : string)
    (tensor : Tensor) (cls : Classification) (pointCount : Number)
    (region : Region) (weightValues : option (list Number))
    (maxAbs rows cols : Number) (pi : Z) (st : CloudState) : CloudState :=
  let '(x, y, z) :=
    pointPosition tensor pointCount region rows cols pi (drawn st) in
  let '((r, g, b), d') :=
    pointColor archInfo colorMode cls weightValues maxAbs pi (3 + drawn st) in
  let i := globalIdx st * 3 in
  {| positions :=
       typed_set (typed_set (typed_set (positions st) i x) (i + 1) y) (i + 2) z;
     colors :=
       typed_set
         (typed_set
            (typed_set (colors st) i (JS.Math_min (JS.fromZ 1) r))
            (i + 1) (JS.Math_min (JS.fromZ 1) g))
         (i + 2) (JS.Math_min (JS.fromZ 1) b);
     globalIdx := globalIdx st + 1;
     drawn := d' |}.

(** [for (let pi = start; pi < start + n; pi++) body(pi)] *)
Fixpoint pointLoop (body : Z -> CloudState -> CloudState)
    (n : nat) (pi : Z) (st : CloudState) : CloudState :=
  match n with
  | O => st
  | S n' => pointLoop body n' (pi + 1) (body pi st)
  end.

(** Determine tensor dimensions for point placement. *)
Definition rowsOf (tensor : Tensor) : Number :=
  match dims tensor with
  | _ :: d1 :: _ => d1
  | _ => JS.fromZ 1
  end.

Definition colsOf (tensor : Tensor) : Number :=
  match dims tensor with
  | d0 :: _ => num_or d0 (JS.fromZ 1)
  | [] => JS.fromZ 1
  end.

(** One turn of the loop over the tensors (phase 2): the points of one
    tensor and its entry in [tensorRegions]. *)
Definition tensorBody (archInfo : Arch) (colorMode : string) (L : Layout)
    (a : TensorAlloc) (weightValues : option (list Number))
    (st : CloudState) : Run (CloudState * TensorRegion) :=
  let tensor := alloc_tensor a in
  let cls := alloc_cls a in
  let region := getRegion L (category cls) (layerIdx cls) (expertIdx cls) in
  let maxAbs := maxAbsOf weightValues in
  let rows := rowsOf tensor in
  let cols := colsOf tensor in
  let startIdx := globalIdx st in
  match turns (pointCount a) with
  | None => NeverReturns
  | Some n =>
      let st' :=
        pointLoop (pointBody archInfo colorMode tensor cls (pointCount a)
                     region weightValues maxAbs rows cols) n 0 st in
      Returns
        (st',
         {| tr_name := name tensor;
            tr_knownName :=
              getKnownName (category cls) (layerIdx cls) (expertIdx cls);
            tr_category := category cls;
            tr_layerIdx := layerIdx cls;
            tr_expertIdx := expertIdx cls;
            tr_dims := dims tensor;
            tr_type := type tensor;
            tr_region := region;
            startIdx := startIdx;
            endIdx := globalIdx st' |})
  end.

Fixpoint tensorLoop (archInfo : Arch) (colorMode : string) (L : Layout)
    (allocs : list (TensorAlloc * option (list Number)))
    (st : CloudState) (regions : list TensorRegion)
  : Run (CloudState * list TensorRegion) :=
  match allocs with
  | [] => Returns (st, regions)
  | (a, weightValues) :: rest =>
      match tensorBody archInfo colorMode L a weightValues st with
      | Returns (st', tr) =>
          tensorLoop archInfo colorMode L rest st' (regions ++ [tr])
      | RangeError => RangeError
      | NeverReturns => NeverReturns
      end
  end.

(** Phase 1: the weights of every tensor, [null] for a tensor whose
    sampling failed; nothing is sampled unless the color mode is
    ['weight']. *)
Definition sampleAll (colorMode : string) (tensorAllocs : list TensorAlloc)
  : list (option (list Number)) :=
  if String.eqb colorMode "weight"
  then map (fun a => sampleTensorWeights (alloc_tensor a) (pointCount a))
           tensorAllocs
  else map (fun _ => None) tensorAllocs.

Definition generatePointCloud (archInfo : Arch) (tensors : list Tensor)
    (targetPointCount : Number) (colorMode : string) : Run PointCloud :=
  let tensorAllocs := allocatePoints tensors targetPointCount in
  let actualTotal := sum_by pointCount tensorAllocs in
  (* Prepare output buffers *)
  match new_Float32Array (JS.mul actualTotal (JS.fromZ 3)) with
  | Returns buffer =>
      let L := computeLayout archInfo in
      let allWeights := sampleAll colorMode tensorAllocs in
      match tensorLoop archInfo colorMode L (combine tensorAllocs allWeights)
              {| positions := buffer; colors := buffer;
                 globalIdx := 0; drawn := 0 |} [] with
      | Returns (st, regions) =>
          Returns {| pc_positions := positions st; pc_colors := colors st;
                     tensorRegions := regions;
                     actualPointCount := globalIdx st;
                     pc_drawn := drawn st |}
      | RangeError => RangeError
      | NeverReturns => NeverReturns
      end
  | RangeError => RangeError
  | NeverReturns => NeverReturns
  end.

End PointCloud.

(** ** Neural connection generator *)

Record LineState := {
  linePositions : list Number;
  lineColors : list Number;
  line_drawn : nat }.

(** [positions[i]] for a number [i]: the element, or [undefined] (stored as
    [NaN] in the line buffer) when [i] is not an index of the array. *)
Definition typed_get (array : list Number) (i : Number) : Number :=
  match JS.toZ i with
  | Some z => array_get array z
  | None => JS.NaN
  end.

(** The number of lines between two regions of [srcCount] and [tgtCount]
    points: scales with region size, clamped and modulated by density. *)
Definition lineCountOf (srcCount tgtCount : Z) (density : Number) : Number :=
  let baseLine :=
    JS.Math_min (JS.fromZ 100)
      (JS.Math_max (JS.fromZ 8)
         (JS.Math_floor (JS.Math_sqrt (JS.fromZ (Z.min srcCount tgtCount))))) in
  JS.Math_max (JS.fromZ 2) (JS.Math_round (JS.mul baseLine density)).

Section Connections.

Variable random : nat -> Number.

(** One sampled segment: six coordinates and six color components. *)
Definition lineBody (srcRegion tgtRegion : TensorRegion)
    (positions : list Number) (dimFactor : Number) (st : LineState)
  : LineState :=
  let srcCount := endIdx srcRegion - startIdx srcRegion in
  let tgtCount := endIdx tgtRegion - startIdx tgtRegion in
  let '(sr, sg, sb) := tensor_color (tr_category srcRegion) in
  let '(tr, tg, tb) := tensor_color (tr_category tgtRegion) in
  let d := line_drawn st in
  let sIdx :=
    JS.add (JS.fromZ (startIdx srcRegion))
           (JS.Math_floor (JS.mul (random d) (JS.fromZ srcCount))) in
  let tIdx :=
    JS.add (JS.fromZ (startIdx tgtRegion))
           (JS.Math_floor (JS.mul (random (S d)) (JS.fromZ tgtCount))) in
  let at_ (idx : Number) (k : Z) :=
    typed_get positions (JS.add (JS.mul idx (JS.fromZ 3)) (JS.fromZ k)) in
  {| linePositions :=
       linePositions st
       ++ [ typed_get positions (JS.mul sIdx (JS.fromZ 3)); at_ sIdx 1; at_ sIdx 2;
            typed_get positions (JS.mul tIdx (JS.fromZ 3)); at_ tIdx 1; at_ tIdx 2 ];
     lineColors :=
       lineColors st
       ++ [ JS.mul sr dimFactor; JS.mul sg dimFactor; JS.mul sb dimFactor;
            JS.mul tr dimFactor; JS.mul tg dimFactor; JS.mul tb dimFactor ];
     line_drawn := S (S d) |}.

Fixpoint lineLoop (body : LineState -> LineState) (n : nat) (st : LineState)
  : LineState :=
  match n with
  | O => st
  | S n' => lineLoop body n' (body st)
  end.

(** Sample random line segments between two tensor regions. *)
Definition _sampleLines (srcRegion tgtRegion : TensorRegion)
    (positions : list Number) (density dimFactor : Number) (st : LineState)
  : Run LineState :=
  let srcCount := endIdx srcRegion - startIdx srcRegion in
  let tgtCount := endIdx tgtRegion - startIdx tgtRegion in
  if (srcCount =? 0) || (tgtCount =? 0) then Returns st
  else
    match turns (lineCountOf srcCount tgtCount density) with
    | None => NeverReturns
    | Some n =>
        Returns (lineLoop (lineBody srcRegion tgtRegion positions dimFactor) n st)
    end.

End Connections.

(** A rule of the data flow: from some categories to others; with
    [matchExpert], only regions of the same expert are connected. *)
Record Rule := {
  rule_from : list string;
  rule_to : list string;
  matchExpert : bool }.

Definition INTRA_LAYER_RULES : list Rule :=
  [ {| rule_from := ["attn_norm"]; rule_to := ["attn_q"; "attn_k"; "attn_v"];
       matchExpert := false |};
    {| rule_from := ["attn_q"]; rule_to := ["attn_out"]; matchExpert := false |};
    {| rule_from := ["attn_k"]; rule_to := ["attn_out"]; matchExpert := false |};
    {| rule_from := ["attn_v"]; rule_to := ["attn_out"]; matchExpert := false |};
    {| rule_from := ["attn_out"]; rule_to := ["ffn_norm"]; matchExpert := false |};
    {| rule_from := ["ffn_norm"]; rule_to := ["ffn_gate"; "ffn_up"; "moe_gate"];
       matchExpert := false |};
    {| rule_from := ["moe_gate"]; rule_to := ["ffn_gate"; "ffn_up"; "moe_up"];
       matchExpert := false |};
    {| rule_from := ["ffn_gate"]; rule_to := ["ffn_down"]; matchExpert := true |};
    {| rule_from := ["ffn_up"]; rule_to := ["ffn_down"]; matchExpert := true |};
    {| rule_from := ["moe_up"]; rule_to := ["moe_down"]; matchExpert := false |}
  ]%string.

(** [list.includes(s)] *)
Definition among (l : list string) (s : string) : bool :=
  existsb (String.eqb s) l.

Fixpoint insert_sorted (x : Z) (l : list Z) : list Z :=
  match l with
  | [] => [x]
  | y :: l' => if x <=? y then x :: l else y :: insert_sorted x l'
  end.

(** The keys of [layerMap], sorted: the layer indices that occur. *)
Definition layersOf (tensorRegions : list TensorRegion) : list Z :=
  fold_right insert_sorted []
    (nodup Z.eq_dec
       (map tr_layerIdx (filter (fun r => tr_layerIdx r >=? 0) tensorRegions))).

(** [layerMap.get(layerIdx)] *)
Definition regionsOfLayer (tensorRegions : list TensorRegion) (l : Z)
  : list TensorRegion :=
  filter (fun r => (tr_layerIdx r >=? 0) && (tr_layerIdx r =? l)) tensorRegions.

Definition globalsOf (tensorRegions : list TensorRegion) : list TensorRegion :=
  filter (fun r => negb (tr_layerIdx r >=? 0)) tensorRegions.

(** A call of [_sampleLines]: source, target, density, dim factor. *)
Definition Job : Type := TensorRegion * TensorRegion * Number * Number.

Definition pairs (sources targets : list TensorRegion) (density dimFactor : Number)
  : list Job :=
  flat_map (fun src => map (fun tgt => (src, tgt, density, dimFactor)) targets)
           sources.

Definition with_category (cats : list string) (regions : list TensorRegion)
  : list TensorRegion :=
  filter (fun r => among cats (tr_category r)) regions.

(** The attention norms of a layer, or its Q, K, V when it has none. *)
Definition entryOf (regions : list TensorRegion) : list TensorRegion :=
  match with_category ["attn_norm"%string] regions with
  | [] => with_category ["attn_q"; "attn_k"; "attn_v"]%string regions
  | norms => norms
  end.

(** Intra-layer connections *)
Definition intraJobs (tensorRegions : list TensorRegion) (density : Number)
  : list Job :=
  flat_map (fun layerIdx =>
    let regions := regionsOfLayer tensorRegions layerIdx in
    flat_map (fun rule =>
      let sources := with_category (rule_from rule) regions in
      let targets := with_category (rule_to rule) regions in
      flat_map (fun src =>
        (* Expert-aware: only connect same expert (or both non-expert) *)
        let validTargets :=
          if matchExpert rule then
            filter (fun tgt =>
                      (tr_expertIdx src =? tr_expertIdx tgt)
                      || ((tr_expertIdx src <? 0) && (tr_expertIdx tgt <? 0)))
                   targets
          else targets in
        map (fun tgt => (src, tgt, density, JS.lit 5 1)) validTargets)
        sources)
      INTRA_LAYER_RULES)
    (layersOf tensorRegions).

(** Cross-layer: FFN down -> next layer's attn_norm (or Q,K,V) *)
Fixpoint crossJobs (tensorRegions : list TensorRegion) (layers : list Z)
    (density : Number) : list Job :=
  match layers with
  | current :: ((next :: _) as rest) =>
      let downs := with_category ["ffn_down"; "moe_down"]%string
                     (regionsOfLayer tensorRegions current) in
      let nextTargets := entryOf (regionsOfLayer tensorRegions next) in
      pairs downs nextTargets (JS.mul density (JS.lit 4 1)) (JS.lit 35 2)
      ++ crossJobs tensorRegions rest density
  | _ => []
  end.

(** Embedding -> first layer, last layer -> output_norm -> output *)
Definition boundaryJobs (tensorRegions : list TensorRegion) (layers : list Z)
    (density : Number) : list Job :=
  let globals := globalsOf tensorRegions in
  let d := JS.mul density (JS.lit 5 1) in
  match layers with
  | [] => []
  | first :: _ =>
      let embeddings := with_category ["embedding"%string] globals in
      let firstTargets := entryOf (regionsOfLayer tensorRegions first) in
      let lastRegions := regionsOfLayer tensorRegions (List.last layers first) in
      let lastDowns := with_category ["ffn_down"; "moe_down"]%string lastRegions in
      let outputNorms := with_category ["output_norm"%string] globals in
      let outputs := with_category ["output"%string] globals in
      let endTargets := match outputNorms with [] => outputs | _ => outputNorms end in
      pairs embeddings firstTargets d (JS.lit 4 1)
      ++ pairs lastDowns endTargets d (JS.lit 4 1)
      ++ pairs outputNorms outputs d (JS.lit 4 1)
  end.

(** Every call of [_sampleLines] that [generateConnections] makes, in
    order. *)
Definition connectionJobs (tensorRegions : list TensorRegion) (density : Number)
  : list Job :=
  let layers := layersOf tensorRegions in
  intraJobs tensorRegions density
  ++ crossJobs tensorRegions layers density
  ++ boundaryJobs tensorRegions layers density.

Fixpoint runJobs (random : nat -> Number) (positions : list Number)
    (jobs : list Job) (st : LineState) : Run LineState :=
  match jobs with
  | [] => Returns st
  | (src, tgt, density, dimFactor) :: rest =>
      match _sampleLines random src tgt positions density dimFactor st with
      | Returns st' => runJobs random positions rest st'
      | RangeError => RangeError
      | NeverReturns => NeverReturns
      end
  end.

Record Connections := {
  conn_positions : list Number;
  conn_colors : list Number;
  lineCount : Z;
  conn_drawn : nat }.

(** [generateConnections(tensorRegions, positions, density)]; the draws of
    [Math.random] continue from the [drawn0]-th. *)
Definition generateConnections (random : nat -> Number) (drawn0 : nat)
    (tensorRegions : list TensorRegion) (positions : list Number)
    (density : Number) : Run Connections :=
  match runJobs random positions (connectionJobs tensorRegions density)
          {| linePositions := []; lineColors := []; line_drawn := drawn0 |} with
  | Returns st =>
      Returns {| conn_positions := map JS.fround (linePositions st);
                 conn_colors := map JS.fround (lineColors st);
                 lineCount := Z.of_nat (length (linePositions st)) / 6;
                 conn_drawn := line_drawn st |}
  | RangeError => RangeError
  | NeverReturns => NeverReturns
  end.

(** ** The two generators in a row *)

(** [positions.subarray(0, n)] *)
Definition subarray (array : list Number) (n : Z) : list Number :=
  firstn (Z.to_nat n) array.

(** What the page does on a new file or a new setting: generate the point
    cloud, trim its buffers, then generate the connections from its regions
    and positions. *)
Definition regenerate (random : nat -> Number)
    (sampleTensorWeights : Tensor -> Number -> option (list Number))
    (archInfo : Arch) (tensors : list Tensor) (targetPointCount : Number)
    (colorMode : string) (density : Number) : Run (PointCloud * Connections) :=
  match generatePointCloud random sampleTensorWeights archInfo tensors
          targetPointCount colorMode with
  | Returns pc =>
      let pos := subarray (pc_positions pc) (actualPointCount pc * 3) in
      match generateConnections random (pc_drawn pc) (tensorRegions pc) pos
              density with
      | Returns conn => Returns (pc, conn)
      | RangeError => RangeError
      | NeverReturns => NeverReturns
      end
  | RangeError => RangeError
  | NeverReturns => NeverReturns
  end.

(** ** What the buffers hold for one point *)



(** The three color entries for a color [(r, g, b)]. *)
Definition colorEntries (c : Color) : list Number :=
  let '(r, g, b) := c in
  [ JS.fround (JS.Math_min (JS.fromZ 1) r);
    JS.fround (JS.Math_min (JS.fromZ 1) g);
    JS.fround (JS.Math_min (JS.fromZ 1) b) ].




(** ** What the loops write *)

(** The three position entries that one turn of the point loop stores for
    point [pi]. *)
Definition positionEntries (random : nat -> Number) (tensor : Tensor)
    (pointCount : Number) (region : Region) (pi : Z) (d : nat) : list Number :=
  let '(x, y, z) :=
    pointPosition random tensor pointCount region (rowsOf tensor) (colsOf tensor)
      pi d in
  [JS.fround x; JS.fround y; JS.fround z].

(** The invariant of the loop over the tensors, in any color mode and for
    buffers of any length: the entry [tr] of allocation [a] has the region
    of its role and one point per turn of the loop over its allocation, and
    a write that falls inside the buffers has stored the position or the
    color of its point.  (A write past the end of a typed array is
    dropped.) *)
Definition written (random : nat -> Number) (archInfo : Arch)
    (colorMode : string) (positions colors : list Number)
    (a : TensorAlloc) (w : option (list Number)) (tr : TensorRegion) : Prop :=
  tr_name tr = name (alloc_tensor a) /\
  tr_category tr = category (alloc_cls a) /\
  tr_region tr
  = getRegion (computeLayout archInfo) (category (alloc_cls a))
      (layerIdx (alloc_cls a)) (expertIdx (alloc_cls a)) /\
  0 <= startIdx tr /\
  exists n,
    turns (pointCount a) = Some n /\
    endIdx tr = startIdx tr + Z.of_nat n /\
    forall k, (k < n)%nat ->
      exists d, forall c j : nat,
        (c < 3)%nat ->
        Z.of_nat j = (startIdx tr + Z.of_nat k) * 3 + Z.of_nat c ->
        (j < length positions)%nat ->
        positions !! j
        = positionEntries random (alloc_tensor a) (pointCount a) (tr_region tr)
            (Z.of_nat k) d !! c /\
        colors !! j
        = colorEntries
            (fst (pointColor random archInfo colorMode (alloc_cls a) w
                    (maxAbsOf w) (Z.of_nat k) (3 + d))) !! c.

(** Two generators that return the same first [n] draws. *)
Definition agree (n : nat) (random1 random2 : nat -> Number) : Prop :=
  forall k, (k < n)%nat -> random1 k = random2 k.

(** The draws a run of [regenerate] has taken when it returns. *)
Definition draws_of (run : Run (PointCloud * Connections)) : nat :=
  match run with
  | Returns (_, conn) => conn_drawn conn
  | _ => O
  end.

(** ** The line count as the specification words it *)


(** ** The rescale pass without its floor *)

(** The rescaled count of one allocation, before the floor is applied. *)
Definition rescaled (scale : Number) (a : TensorAlloc) : Number :=
  JS.Math_round (JS.mul (pointCount a) scale).

(** No allocation is lifted to the floor by the rescale pass. *)
Definition floor_idle (tensorAllocs : list TensorAlloc) (targetPointCount : Number)
  : bool :=
  let scale := JS.div targetPointCount (sum_by pointCount tensorAllocs) in
  forallb (fun a => JS.le MIN_POINTS_PER_TENSOR (rescaled scale a)) tensorAllocs.

(* ================================================================== *)
(** * Numbers as rationals *)
(* ================================================================== *)

(** The rational a finite number denotes. *)
Definition Qval (x : Number) : Q :=
  match x with
  | S754_finite s m e => (inject_Z (JS.smant s m) * 2 ^ e)%Q
  | _ => 0%Q
  end.

(** Half an ulp of 1: the relative error of one correctly rounded
    operation. *)
Definition eps : Q := (1 # 9007199254740992)%Q.

(** The last step of the library's rounding: renormalise the rounded
    mantissa and check the exponent. *)
Definition round_finish (s : bool) (m e : Z) : Number :=
  let '(mrs, e') := shr_fexp JS.prec JS.emax m e loc_Exact in
  match shr_m mrs with
  | 0 => S754_zero s
  | Z.pos m' => if e' <=? JS.emax - JS.prec then S754_finite s m' e' else S754_infinity s
  | Z.neg _ => S754_nan
  end.

(** Where a remainder [r] of a division by [n] lies: exact, or below, at or
    above the half. *)
Definition location_of (r n : Z) : location :=
  if r =? 0 then loc_Exact else loc_Inexact (2 * r ?= n).

(** The sum of a list of integers. *)
Definition total (ps : list Z) : Z := fold_right Z.add 0 ps.

(* ================================================================== *)
(** * Further parts of the program *)
(* ================================================================== *)

(** ** gguf-parser.js: computeTotalParams *)

(** Compute total parameter count from tensor list. *)
Definition computeTotalParams (tensors : list Tensor) : Number :=
  fold_left (fun sum t => JS.add sum (numElements t)) tensors JS.pos_zero.

(** ** point-cloud.js: layer bounding boxes *)

(** An entry of [groups]: the running bounding box of one component. *)
Record Group := {
  g_layerIdx : Z;
  g_category : string;
  minX : Number; minY : Number; minZ : Number;
  maxX : Number; maxY : Number; maxZ : Number }.

(** An entry of the result. *)
Record Box := {
  box_layerIdx : Z;
  box_category : string;
  box_color : Color;
  box_min : Number * Number * Number;
  box_max : Number * Number * Number }.

(** [`${region.layerIdx}:${region.category}`] *)
Definition group_key (layerIdx : Z) (category : string) : string :=
  decimal layerIdx +:+ ":" +:+ category.

(** [groups.has(key)] on a [Map], kept as the list of its entries in
    insertion order. *)
Definition Map_has (key : string) (groups : list (string * Group)) : bool :=
  existsb (fun kv => String.eqb (fst kv) key) groups.

(** An update of the object that [groups.get(key)] returns. *)
Fixpoint Map_update (key : string) (f : Group -> Group)
    (groups : list (string * Group)) : list (string * Group) :=
  match groups with
  | [] => []
  | (k, b) :: rest =>
      if String.eqb k key then (k, f b) :: rest
      else (k, b) :: Map_update key f rest
  end.

(** The entry that [groups.set] stores for a new key: an empty box. *)
Definition new_group (layerIdx : Z) (category : string) : Group :=
  {| g_layerIdx := layerIdx; g_category := category;
     minX := JS.Infinity; minY := JS.Infinity; minZ := JS.Infinity;
     maxX := JS.neg JS.Infinity; maxY := JS.neg JS.Infinity;
     maxZ := JS.neg JS.Infinity |}.

(** The six assignments that widen a box by a region. *)
Definition widen (b : Group) (r : Region) : Group :=
  {| g_layerIdx := g_layerIdx b; g_category := g_category b;
     minX := JS.Math_min (minX b) (region_x r);
     minY := JS.Math_min (minY b) (region_y r);
     minZ := JS.Math_min (minZ b) (region_z r);
     maxX := JS.Math_max (maxX b) (JS.add (region_x r) (region_width r));
     maxY := JS.Math_max (maxY b) (JS.add (region_y r) (region_height r));
     maxZ := JS.Math_max (maxZ b) (JS.add (region_z r) (region_depth r)) |}.

(** One turn of the loop over the regions. *)
Definition groupBody (groups : list (string * Group)) (region : TensorRegion)
  : list (string * Group) :=
  let key := group_key (tr_layerIdx region) (tr_category region) in
  let groups1 :=
    if negb (Map_has key groups)
    then groups ++ [(key, new_group (tr_layerIdx region) (tr_category region))]
    else groups in
  Map_update key (fun b => widen b (tr_region region)) groups1.

(** The entry of [bounds] for a group: its color and its padded corners. *)
Definition box_of (b : Group) : Box :=
  let pad := JS.lit 3 1 in
  {| box_layerIdx := g_layerIdx b;
     box_category := g_category b;
     box_color := tensor_color (g_category b);
     box_min := (JS.sub (minX b) pad, JS.sub (minY b) pad, JS.sub (minZ b) pad);
     box_max := (JS.add (maxX b) pad, JS.add (maxY b) pad, JS.add (maxZ b) pad) |}.

(** [bounds.sort((a, b) => a.layerIdx - b.layerIdx)]: the sort is stable,
    so boxes of one layer keep their order. *)
Fixpoint insert_box (x : Box) (l : list Box) : list Box :=
  match l with
  | [] => [x]
  | y :: l' =>
      if box_layerIdx x <=? box_layerIdx y then x :: l else y :: insert_box x l'
  end.

Definition sort_boxes (l : list Box) : list Box := fold_right insert_box [] l.

(** Compute per-component bounding boxes: boxes are grouped by
    (layerIdx, category). *)
Definition computeLayerBounds (tensorRegions : list TensorRegion) : list Box :=
  let groups := fold_left groupBody tensorRegions [] in
  sort_boxes (map (fun kv => box_of (snd kv)) groups).

(* ================================================================== *)
(** * Vocabulary of the further properties *)
(* ================================================================== *)

(** ** Integers in a buffer, sizes *)

(** The signed 64-bit integer that the eight bytes from index [i] store,
    little-endian, two's complement. *)
Definition le_int64 (b : ArrayBuffer) (i : Z) : Z := signed 64 (le_uint64 b i).

(** The whole file as a buffer. *)
Definition whole_file (file : File) : ArrayBuffer :=
  {| byteLength := size file; bytes := contents file |}.

(** The product of a list of integers. *)
Definition product (ds : list Z) : Z := fold_right Z.mul 1 ds.

(** The byte size of a tensor of [n] elements of the given type, in exact
    arithmetic. *)
Definition byte_size (type n : Z) : Z :=
  match QUANT_INFO type with
  | Some info => ceil_div n (blockSize info) * bytesPerBlock info
  | None => n * 4
  end.

(** ** The half-float format *)

(** The significand of a binary16 pattern with exponent field [e] and
    fraction field [f], as an integer, and the exponent of two it is
    scaled by: the value is [significand * 2 ^ exponent]. *)
Definition half_significand (e f : Z) : Z := if e =? 0 then f else 1024 + f.
Definition half_exponent (e : Z) : Z := (if e =? 0 then 1 else e) - 25.

(** ** Names of tensors *)

(** A string of decimal digits. *)
Definition digits_only (s : string) : bool :=
  forallb is_digit (list_ascii_of_string s).

(** ** Regions *)

(** The regions tile the points from [from] up to [to]: each starts where
    the one before ends. *)
Fixpoint tiles (from : Z) (regions : list TensorRegion) (to : Z) : bool :=
  match regions with
  | [] => from =? to
  | tr :: rest =>
      (startIdx tr =? from) && (startIdx tr <=? endIdx tr)
      && tiles (endIdx tr) rest to
  end.

(** The regions of one component: those of a layer and a category. *)
Definition members (layerIdx : Z) (category : string)
    (tensorRegions : list TensorRegion) : list Region :=
  map tr_region
    (List.filter (fun r => (tr_layerIdx r =? layerIdx)
                           && String.eqb (tr_category r) category)
                 tensorRegions).

(** The least and the greatest of a list of numbers, as the loop folds
    them. *)
Definition lowest (xs : list Number) : Number :=
  fold_left JS.Math_min xs JS.Infinity.
Definition highest (xs : list Number) : Number :=
  fold_left JS.Math_max xs (JS.neg JS.Infinity).

(** ** Lines *)

(** A value that [Math.random] can return: [+0], or a normal double below
    1. *)
Definition unit_draw (x : Number) : bool :=
  match x with
  | S754_zero false => true
  | S754_finite false m e =>
      (Z.pos (digits2_pos m) =? 53) && (-1074 <=? e) && (e <=? -53)
  | _ => false
  end.

(** A region of whole points that lie where a double counts exactly. *)
Definition countable_region (r : TensorRegion) : bool :=
  (0 <=? startIdx r) && (startIdx r <=? endIdx r) && (endIdx r * 3 <? 2 ^ 53).

(** The three coordinates of point [p] in the position buffer. *)
Definition point_at (positions : list Number) (p : Z) : list Number :=
  [ array_get positions (p * 3); array_get positions (p * 3 + 1);
    array_get positions (p * 3 + 2) ].

(** The six coordinates of a segment from a point of [src] to a point of
    [tgt]. *)
Definition joins (positions : list Number) (src tgt : TensorRegion)
    (seg : list Number) : Prop :=
  exists p q,
    startIdx src <= p < endIdx src /\ startIdx tgt <= q < endIdx tgt /\
    seg = point_at positions p ++ point_at positions q.

(* ================================================================== *)
(** * Notions used in the proofs *)
(* ================================================================== *)

(** ** A longer buffer with the same content *)

(** The cursor at the same offset of a buffer of [n] bytes with the same
    content. *)
Definition grow (n : Z) (r : BufferReader) : BufferReader :=
  {| buf := {| byteLength := n; bytes := bytes (buf r) |}; offset := offset r |}.

(** Whatever [m] returns on a buffer, [m'] returns on any longer buffer with
    the same content, with the cursor at the same place; and an error other
    than ['BUFFER_TOO_SMALL'] that [m] throws, [m'] throws as well. *)
Definition simulates {A} (m m' : M A) : Prop :=
  forall r n,
    byteLength (buf r) <= n ->
    match m r with
    | Ok (a, r') =>
        bytes (buf r') = bytes (buf r) /\
        byteLength (buf r') = byteLength (buf r) /\
        m' (grow n r) = Ok (a, grow n r')
    | Throw e => e = BUFFER_TOO_SMALL \/ m' (grow n r) = Throw e
    | OutOfFuel => True
    end.

(** ** Checks by evaluation on the half-float patterns *)

(** Checked by evaluation for each of the 1024 fractions [f]: the factor
    [1 + f / 1024] of a normal pattern is computed exactly, with a 53-bit
    mantissa. *)
Definition normal_fraction_checked (f : Z) : bool :=
  match JS.add (JS.fromZ 1) (JS.div (JS.fromZ f) (JS.fromZ 1024)) with
  | S754_finite false m e =>
      (Z.pos (digits2_pos m) =? 53) && (e =? -52) && (Z.pos m =? (1024 + f) * 2 ^ 42)
  | _ => false
  end.

(** Checked by evaluation for each exponent field [e] of a normal pattern:
    the factors [1 * Math.pow(2, e - 15)] and [-1 * Math.pow(2, e - 15)] are
    the powers of two they should be. *)
Definition normal_exponent_checked (e : Z) : bool :=
  match JS.mul (JS.fromZ 1) (JS.Math_pow2 (e - 15)),
        JS.mul (JS.fromZ (-1)) (JS.Math_pow2 (e - 15)) with
  | S754_finite false m1 e1, S754_finite true m2 e2 =>
      (m1 =? 4503599627370496)%positive && (e1 =? e - 15 - 52)
      && (m2 =? 4503599627370496)%positive && (e2 =? e - 15 - 52)
  | _, _ => false
  end.

(** Checked by evaluation for each fraction [f] of a subnormal pattern:
    the two products are finite and denote [f * 2^-24] and its opposite. *)
Definition subnormal_checked (f : Z) : bool :=
  let x := JS.div (JS.fromZ f) (JS.fromZ 1024) in
  let p := JS.mul (JS.mul (JS.fromZ 1) (JS.Math_pow2 (-14))) x in
  let n := JS.mul (JS.mul (JS.fromZ (-1)) (JS.Math_pow2 (-14))) x in
  JS.isFinite p && JS.isFinite n
  && Qeq_bool (Qval p) (inject_Z f * 2 ^ (-24))
  && Qeq_bool (Qval n) (inject_Z (- f) * 2 ^ (-24)).

(** ** Strings *)

(** A string without decimal digits. *)
Definition digit_free (s : string) : bool :=
  forallb (fun c => negb (is_digit c)) (list_ascii_of_string s).

(** A string without a colon. *)
Definition no_colon (s : string) : bool :=
  forallb (fun c => negb (Ascii.eqb c ":")) (list_ascii_of_string s).

(** ** The groups of the bounding boxes *)

(** The key of a region, and the regions with a given key. *)
Definition key_of (r : TensorRegion) : string :=
  group_key (tr_layerIdx r) (tr_category r).

Definition with_key (k : string) (rs : list TensorRegion) : list TensorRegion :=
  List.filter (fun r => String.eqb (key_of r) k) rs.

(** What the loop has built after the regions [done]: one group per key
    that occurs, each widened by the regions of its key, in their order. *)
Definition grouped (done : list TensorRegion) (groups : list (string * Group))
  : Prop :=
  List.NoDup (map fst groups) /\
  (forall r, In r done -> In (key_of r) (map fst groups)) /\
  (forall k b, In (k, b) groups ->
     exists r0 rest,
       with_key k done = r0 :: rest /\
       b = fold_left widen (map tr_region (with_key k done))
             (new_group (tr_layerIdx r0) (tr_category r0))).

(* ================================================================== *)
(** * Sample inputs *)
(* ================================================================== *)

(** A 50 MiB file whose first metadata key announces 2^40 bytes. *)
Definition oversized_key_file : File :=
  {| size := 50 * 1024 * 1024;
     contents := fun i =>
       nth (Z.to_nat i)
         [x47; x47; x55; x46; x03; x00; x00; x00;
          x00; x00; x00; x00; x00; x00; x00; x00;
          x01; x00; x00; x00; x00; x00; x00; x00;
          x00; x00; x00; x00; x00; x01; x00; x00] x00 |}.

(** A header with no metadata and no tensor: 24 bytes, data at 32. *)
Definition empty_header_file : File :=
  File_of_bytes
    [x47; x47; x55; x46; x03; x00; x00; x00;
     x00; x00; x00; x00; x00; x00; x00; x00;
     x00; x00; x00; x00; x00; x00; x00; x00].

(** A region of [n] points starting at point [start]. *)
Definition sample_region (cat : string) (layer start n : Z) : TensorRegion :=
  {| tr_name := cat; tr_knownName := cat; tr_category := cat;
     tr_layerIdx := layer; tr_expertIdx := -1; tr_dims := [];
     tr_type := 0;
     tr_region := mkRegion JS.pos_zero JS.pos_zero JS.pos_zero
                    (JS.fromZ 1) (JS.fromZ 1) (JS.fromZ 1);
     startIdx := start; endIdx := start + n |}.

(** A generator that keeps returning 1/2, and one that keeps returning
    1/4. *)
Definition random_half : nat -> Number := fun _ => JS.lit 5 1.
Definition random_quarter : nat -> Number := fun _ => JS.lit 25 2.

(** A tensor of the given name, dimensions and type. *)
Definition sample_tensor (n : string) (ds : list Z) (ty : Z) : Tensor :=
  {| name := n; dims := map JS.fromZ ds; type := ty;
     tensor_offset := JS.pos_zero;
     numElements := fold_left JS.mul (map JS.fromZ ds) (JS.fromZ 1);
     dataSize := JS.mul (fold_left JS.mul (map JS.fromZ ds) (JS.fromZ 1))
                        (JS.fromZ 4) |}.

(** A dense two-layer, four-head descriptor. *)
Definition sample_arch : Arch :=
  {| arch_blockCount := JS.fromZ 2; arch_headCount := JS.fromZ 4;
     arch_headCountKV := JS.fromZ 4; arch_embeddingLength := JS.fromZ 8;
     arch_feedForwardLength := JS.fromZ 32; arch_expertCount := JS.pos_zero;
     arch_isMoE := false |}.

(** A norm and a query projection of layer 0. *)
Definition two_tensors : list Tensor :=
  [ sample_tensor "blk.0.attn_norm.weight" [8] 0;
    sample_tensor "blk.0.attn_q.weight" [8; 8] 0 ].

(** A generator that returns 1/2 for its first 2440 draws and 1/4 from
    then on. *)
Definition random_half_then_quarter : nat -> Number :=
  fun k => if (k <? 2440)%nat then JS.lit 5 1 else JS.lit 25 2.


(** Three projections of a layer, of 1000003, 2000000 and 500000
    elements. *)
Definition three_tensors : list Tensor :=
  [ sample_tensor "blk.0.attn_q.weight" [1000003] 0;
    sample_tensor "blk.0.ffn_up.weight" [2000; 1000] 0;
    sample_tensor "blk.0.attn_k.weight" [500000] 0 ].

(** A header with one metadata pair ([a], a UINT32 of value 7) and one
    tensor ([w], 3 x 64, of type Q4_0): 82 bytes, the pair in bytes 24 to
    40, the tensor entry in bytes 41 to 81. *)
Definition one_tensor_file : File :=
  File_of_bytes
    [x47; x47; x55; x46; x03; x00; x00; x00;
     x01; x00; x00; x00; x00; x00; x00; x00;
     x01; x00; x00; x00; x00; x00; x00; x00;
     x01; x00; x00; x00; x00; x00; x00; x00; x61;
     x04; x00; x00; x00;
     x07; x00; x00; x00;
     x01; x00; x00; x00; x00; x00; x00; x00; x77;
     x02; x00; x00; x00;
     x03; x00; x00; x00; x00; x00; x00; x00;
     x40; x00; x00; x00; x00; x00; x00; x00;
     x02; x00; x00; x00;
     x00; x00; x00; x00; x00; x00; x00; x00].

(** A token embedding of 10^9 elements and the attention norms, of 4096
    elements each, of ten layers. *)
Definition embedding_and_norms : list Tensor :=
  sample_tensor "token_embd.weight" [50000; 20000] 0
  :: map (fun layer =>
            sample_tensor ("blk." +:+ layer +:+ ".attn_norm.weight") [4096] 0)
       ["0"; "1"; "2"; "3"; "4"; "5"; "6"; "7"; "8"; "9"].

(** ** Further sample inputs *)

(** The eight bytes of -2 as a 64-bit integer. *)
Definition minus_two_buffer : ArrayBuffer :=
  ArrayBuffer_of_bytes [xfe; xff; xff; xff; xff; xff; xff; xff].

(** The string "abc" as the header stores it: a 64-bit length, then the
    bytes; one more byte follows. *)
Definition abc_buffer : ArrayBuffer :=
  ArrayBuffer_of_bytes
    [x03; x00; x00; x00; x00; x00; x00; x00; x61; x62; x63; x00].

(** An array value: element type UINT8, three elements 1, 2, 3. *)
Definition array_buffer : ArrayBuffer :=
  ArrayBuffer_of_bytes
    [x00; x00; x00; x00;
     x03; x00; x00; x00; x00; x00; x00; x00;
     x01; x02; x03].

(** An array value of element type 99 and length 0. *)
Definition empty_array_buffer : ArrayBuffer :=
  ArrayBuffer_of_bytes
    [x63; x00; x00; x00;
     x00; x00; x00; x00; x00; x00; x00; x00].

(** A file that starts with "GGML" rather than "GGUF". *)
Definition ggml_file : File :=
  File_of_bytes [x47; x47; x4d; x4c; x03; x00; x00; x00; x00; x00].

(** A GGUF file of version 1. *)
Definition version_1_file : File :=
  File_of_bytes [x47; x47; x55; x46; x01; x00; x00; x00; x00; x00].

(** The entry of a 3 x 64 tensor named [a], of type Q4_0, at offset 0. *)
Definition tensor_entry_buffer : ArrayBuffer :=
  ArrayBuffer_of_bytes
    [x01; x00; x00; x00; x00; x00; x00; x00; x61;
     x02; x00; x00; x00;
     x03; x00; x00; x00; x00; x00; x00; x00;
     x40; x00; x00; x00; x00; x00; x00; x00;
     x02; x00; x00; x00;
     x00; x00; x00; x00; x00; x00; x00; x00].

(** A region of [n] points of expert [expert], starting at point [start]. *)
Definition expert_region (cat : string) (layer expert start n : Z) : TensorRegion :=
  {| tr_name := cat; tr_knownName := cat; tr_category := cat;
     tr_layerIdx := layer; tr_expertIdx := expert; tr_dims := [];
     tr_type := 0;
     tr_region := mkRegion JS.pos_zero JS.pos_zero JS.pos_zero
                    (JS.fromZ 1) (JS.fromZ 1) (JS.fromZ 1);
     startIdx := start; endIdx := start + n |}.

(** The gates and the down projections of two experts of layer 0. *)
Definition two_experts : list TensorRegion :=
  [ expert_region "ffn_gate" 0 0 0 4; expert_region "ffn_gate" 0 1 4 4;
    expert_region "ffn_down" 0 0 8 4; expert_region "ffn_down" 0 1 12 4 ].

(** A norm and a query projection of layer 0, of four points each. *)
Definition norm_and_query : list TensorRegion :=
  [ sample_region "attn_norm" 0 0 4; sample_region "attn_q" 0 4 4 ].

(** An embedding and an output projection, and no layer. *)
Definition embedding_and_output : list TensorRegion :=
  [ sample_region "embedding" (-1) 0 4; sample_region "output" (-1) 4 4 ].

(* ================================================================== *)
(** * Facts *)
(* ================================================================== *)

(** ** Numbers *)


Lemma digits2_pos_iter_xO (p k : positive) :
  digits2_pos (Pos.iter xO p k) = (digits2_pos p + k)%positive.
Proof.
  induction k as [|k IH] using Pos.peano_ind.
  - cbn. lia.
  - rewrite Pos.iter_succ. cbn. rewrite IH. lia.
Qed.

Lemma Zpos_iter_xO (p k : positive) :
  Z.pos (Pos.iter xO p k) = Z.pos p * 2 ^ Z.pos k.
Proof.
  induction k as [|k IH] using Pos.peano_ind.
  - cbn. lia.
  - rewrite Pos.iter_succ, Pos2Z.inj_xO, IH, Pos2Z.inj_succ, Z.pow_succ_r by lia. lia.
Qed.

Lemma digits2_pos_lower (p : positive) :
  2 ^ (Z.pos (digits2_pos p) - 1) <= Z.pos p.
Proof.
  induction p as [p IH|p IH|]; cbn [digits2_pos].
  - rewrite Pos2Z.inj_succ. replace (Z.succ (Z.pos (digits2_pos p)) - 1) with (Z.succ (Z.pos (digits2_pos p) - 1)) by lia.
    rewrite Z.pow_succ_r by lia. lia.
  - rewrite Pos2Z.inj_succ. replace (Z.succ (Z.pos (digits2_pos p)) - 1) with (Z.succ (Z.pos (digits2_pos p) - 1)) by lia.
    rewrite Z.pow_succ_r by lia. lia.
  - cbn. lia.
Qed.

Lemma digits2_pos_upper (p : positive) :
  Z.pos p < 2 ^ Z.pos (digits2_pos p).
Proof.
  induction p as [p IH|p IH|]; cbn [digits2_pos].
  - rewrite Pos2Z.inj_succ, Z.pow_succ_r by lia. lia.
  - rewrite Pos2Z.inj_succ, Z.pow_succ_r by lia. lia.
  - cbn. lia.
Qed.

Lemma digits2_pos_le (p : positive) (n : Z) :
  Z.pos p < 2 ^ n -> Z.pos (digits2_pos p) <= n.
Proof.
  intros H. pose proof (digits2_pos_lower p) as L.
  destruct (Z_le_gt_dec (Z.pos (digits2_pos p)) n) as [|G]; [assumption|].
  exfalso. assert (2 ^ n <= 2 ^ (Z.pos (digits2_pos p) - 1)).
  { destruct (Z_lt_le_dec n 0). - rewrite Z.pow_neg_r in H by lia. lia.
    - apply Z.pow_le_mono_r; lia. }
  lia.
Qed.

Lemma fexp_53 (d e : Z) :
  d = 53 -> -1074 <= e -> fexp JS.prec JS.emax (d + e) - e = 0.
Proof. intros -> H. unfold fexp, SpecFloat.emin, JS.prec, JS.emax. lia. Qed.

(** Rounding a mantissa that already has 53 bits changes nothing. *)
Lemma binary_round_aux_canonical (s : bool) (m : positive) (e : Z) :
  Z.pos (digits2_pos m) = 53 -> -1074 <= e <= 971 ->
  binary_round_aux JS.prec JS.emax s (Z.pos m) e loc_Exact = S754_finite s m e.
Proof.
  intros Hm He.
  unfold binary_round_aux, shr_fexp. cbn [Zdigits2].
  rewrite (fexp_53 _ e Hm) by lia.
  cbn [shr shr_record_of_loc shr_m loc_of_shr_record round_nearest_even Zdigits2].
  rewrite (fexp_53 _ e Hm) by lia.
  cbn [shr shr_m].
  replace (e <=? JS.emax - JS.prec) with true
    by (symmetry; apply Z.leb_le; unfold JS.emax, JS.prec; lia).
  reflexivity.
Qed.

(** A positive integer below 2^53 is converted to the double with a 53-bit
    mantissa that denotes it. *)
Lemma fromZ_pos_normal (p : positive) :
  Z.pos p < 2 ^ 53 ->
  exists m e, JS.fromZ (Z.pos p) = S754_finite false m e /\
              Z.pos (digits2_pos m) = 53 /\
              - 52 <= e <= 0 /\ Z.pos m = Z.pos p * 2 ^ (- e).
Proof.
  intros Hp.
  pose proof (digits2_pos_le p 53 Hp) as Hd.
  unfold JS.fromZ, binary_normalize, binary_round.
  destruct (Z.eq_dec (Z.pos (digits2_pos p)) 53) as [E|NE].
  - assert (F : fexp JS.prec JS.emax (Z.pos (digits2_pos p) + 0) = 0).
    { unfold fexp, SpecFloat.emin, JS.prec, JS.emax. lia. }
    rewrite F. change (shl_align p 0 0) with (p, 0). cbv beta iota.
    rewrite binary_round_aux_canonical by lia.
    exists p, 0. repeat split; lia.
  - set (k := Z.to_pos (53 - Z.pos (digits2_pos p))).
    assert (Hk : Z.pos k = 53 - Z.pos (digits2_pos p))
      by (unfold k; rewrite Z2Pos.id; lia).
    assert (F : fexp JS.prec JS.emax (Z.pos (digits2_pos p) + 0) = Z.neg k).
    { unfold fexp, SpecFloat.emin, JS.prec, JS.emax. lia. }
    rewrite F.
    change (shl_align p 0 (Z.neg k)) with (Pos.iter xO p k, Z.neg k).
    cbv beta iota.
    rewrite binary_round_aux_canonical
      by (rewrite ?digits2_pos_iter_xO; lia).
    exists (Pos.iter xO p k), (Z.neg k). repeat split; try lia.
    + rewrite digits2_pos_iter_xO. lia.
    + rewrite Zpos_iter_xO. reflexivity.
Qed.

Lemma fromZ_pos_small (p : positive) :
  Z.pos p < 2 ^ 53 ->
  exists m e, JS.fromZ (Z.pos p) = S754_finite false m e /\
              - 52 <= e <= 0 /\ Z.pos m = Z.pos p * 2 ^ (- e).
Proof.
  intros Hp. destruct (fromZ_pos_normal p Hp) as (m & e & E & _ & He & Hm).
  exists m, e. auto.
Qed.

Lemma fromZ_exact (n : Z) :
  0 <= n < 2 ^ 53 -> JS.toZ (JS.fromZ n) = Some n.
Proof.
  intros [H0 H1]. destruct n as [|p|p]; [reflexivity| |lia].
  destruct (fromZ_pos_small p H1) as (m & e & -> & He & Hm).
  unfold JS.toZ, JS.smant.
  destruct (Z.leb_spec 0 e).
  - assert (e = 0) by lia. subst e. f_equal. rewrite Hm. cbn. lia.
  - rewrite Hm, Z.mod_mul by (apply Z.pow_nonzero; lia). cbn [Z.eqb].
    rewrite Z.div_mul by (apply Z.pow_nonzero; lia). reflexivity.
Qed.


(** ** The cursor *)

Lemma u8_range (b : ArrayBuffer) (i : Z) : 0 <= u8 b i < 256.
Proof.
  unfold u8. pose proof (Byte.to_N_bounded (bytes b i)). lia.
Qed.

Lemma getUint32_range (b : ArrayBuffer) (i : Z) : 0 <= getUint32 b i < 2 ^ 32.
Proof.
  unfold getUint32.
  pose proof (u8_range b i). pose proof (u8_range b (i + 1)).
  pose proof (u8_range b (i + 2)). pose proof (u8_range b (i + 3)). lia.
Qed.

Lemma le_uint64_halves (b : ArrayBuffer) (i : Z) :
  le_uint64 b i = getUint32 b i + 2 ^ 32 * getUint32 b (i + 4).
Proof.
  unfold le_uint64, getUint32.
  replace (i + 4 + 1) with (i + 5) by lia.
  replace (i + 4 + 2) with (i + 6) by lia.
  replace (i + 4 + 3) with (i + 7) by lia. lia.
Qed.

Lemma bigint_combine_add (hi lo : Z) :
  0 <= lo < 2 ^ 32 -> bigint_combine hi lo = lo + 2 ^ 32 * hi.
Proof.
  intros Hlo. unfold bigint_combine.
  rewrite <- Z.add_nocarry_lor.
  - rewrite Z.shiftl_mul_pow2 by lia. lia.
  - apply Z.bits_inj'. intros n Hn. rewrite Z.land_spec, Z.bits_0.
    destruct (Z_lt_le_dec n 32).
    + rewrite Z.shiftl_spec_low by lia. reflexivity.
    + replace (Z.testbit lo n) with false; [apply andb_false_r|].
      symmetry. destruct (Z.eq_dec lo 0) as [->|]; [apply Z.bits_0|].
      apply Z.bits_above_log2; [lia|].
      assert (Z.log2 lo < 32) by (apply Z.log2_lt_pow2; lia). lia.
Qed.

Lemma Zgtb_false (a b : Z) : a <= b -> (a >? b) = false.
Proof. intros H. rewrite Z.gtb_ltb. apply Z.ltb_ge. exact H. Qed.

Lemma readUint64_run (b : ArrayBuffer) (off : Z) :
  off + 8 <= byteLength b ->
  readUint64 {| buf := b; offset := off |}
  = Ok (JS.fromZ (le_uint64 b off), {| buf := b; offset := off + 8 |}).
Proof.
  intros H. unfold readUint64, bind, _need, advance, ret. cbn [buf offset].
  rewrite Zgtb_false by lia. cbn [buf offset].
  rewrite le_uint64_halves.
  destruct (Z.eqb_spec (getUint32 b (off + 4)) 0) as [E|NE].
  - rewrite E, Z.mul_0_r, Z.add_0_r. reflexivity.
  - rewrite bigint_combine_add by apply getUint32_range. reflexivity.
Qed.

Lemma bind_Ok {A B} (m : M A) (k : A -> M B) (r r'' : BufferReader) (b : B) :
  bind m k r = Ok (b, r'') ->
  exists a r', m r = Ok (a, r') /\ k a r' = Ok (b, r'').
Proof.
  unfold bind. destruct (m r) as [[a r']| |]; [|discriminate|discriminate].
  intros H. exists a, r'. split; [reflexivity|exact H].
Qed.

Lemma ceil_div_spec (a : Z) :
  (ceil_div a ALIGNMENT * ALIGNMENT) mod 32 = 0 /\
  a <= ceil_div a ALIGNMENT * ALIGNMENT < a + 32.
Proof.
  unfold ceil_div, ALIGNMENT. split.
  - apply Z.mod_mul. lia.
  - pose proof (Z.div_mod (- a) 32 ltac:(lia)).
    pose proof (Z.mod_pos_bound (- a) 32 ltac:(lia)). lia.
Qed.

Lemma parseHeaderBody_offset (fuel : nat) (r r' : BufferReader) (h : Header) :
  parseHeaderBody fuel r = Ok (h, r') ->
  tensorDataOffset h = ceil_div (offset r') ALIGNMENT * ALIGNMENT.
Proof.
  unfold parseHeaderBody. intros H.
  apply bind_Ok in H as (magic & r1 & _ & H).
  destruct (negb (magic =? 0x46554747)); [discriminate|].
  apply bind_Ok in H as (version & r2 & _ & H).
  destruct ((version <? 2) || (version >? 3)); [discriminate|].
  apply bind_Ok in H as (tc & r3 & _ & H).
  apply bind_Ok in H as (kv & r4 & _ & H).
  apply bind_Ok in H as (md & r5 & _ & H).
  apply bind_Ok in H as (ts & r6 & _ & H).
  unfold ret in H. injection H as <- <-. reflexivity.
Qed.


(** *** What each read consumes *)

Ltac bounds :=
  unfold in_bounds in *; cbn [buf offset] in *;
  repeat split; first [reflexivity | assumption | lia].


Lemma advances_ret {A} (a : A) : advances 0 (ret a).
Proof. intros r a' r' Hr [= <- <-]. repeat split; try apply Hr; lia. Qed.

Lemma advances_bind {A B} (c1 c2 : Z) (m : M A) (k : A -> M B) :
  advances c1 m -> (forall a, advances c2 (k a)) ->
  advances (c1 + c2) (bind m k).
Proof.
  intros Hm Hk r b r'' Hr H.
  apply bind_Ok in H as (a & r' & H1 & H2).
  destruct (Hm _ _ _ Hr H1) as (E1 & L1 & W1).
  destruct (Hk a _ _ _ W1 H2) as (E2 & L2 & W2).
  repeat split; try apply W2; [congruence | lia].
Qed.

Lemma advances_weaken {A} (c c' : Z) (m : M A) :
  c' <= c -> advances c m -> advances c' m.
Proof.
  intros Hc Hm r a r' Hr H. destruct (Hm _ _ _ Hr H) as (E & L & W).
  repeat split; try apply W; [exact E | lia].
Qed.

(** The shape of every fixed-width read: check, fetch, move. *)
Lemma advances_fixed {A} (n : Z) (f : BufferReader -> A) :
  0 <= n ->
  advances n (bind (_need n) (fun _ r => bind (advance n) (fun _ => ret (f r)) r)).
Proof.
  intros Hn r a r' Hr. unfold bind, _need, advance, ret. destruct Hr as [H0 H1].
  destruct (Z.gtb_spec (offset r + n) (byteLength (buf r))); [discriminate|].
  intros [= <- <-]. bounds.
Qed.

Lemma advances_readUint8 : advances 1 readUint8.
Proof. apply advances_fixed. lia. Qed.
Lemma advances_readInt8 : advances 1 readInt8.
Proof. apply advances_fixed. lia. Qed.
Lemma advances_readUint16 : advances 2 readUint16.
Proof. apply advances_fixed. lia. Qed.
Lemma advances_readInt16 : advances 2 readInt16.
Proof. apply advances_fixed. lia. Qed.
Lemma advances_readUint32 : advances 4 readUint32.
Proof. apply advances_fixed. lia. Qed.
Lemma advances_readInt32 : advances 4 readInt32.
Proof. apply advances_fixed. lia. Qed.
Lemma advances_readFloat32 : advances 4 readFloat32.
Proof. apply advances_fixed. lia. Qed.
Lemma advances_readFloat64 : advances 8 readFloat64.
Proof. apply advances_fixed. lia. Qed.

Lemma advances_readUint64 : advances 8 readUint64.
Proof.
  intros r a r' Hr. unfold readUint64, bind, _need, advance, ret. destruct Hr as [H0 H1].
  destruct (Z.gtb_spec (offset r + 8) (byteLength (buf r))); [discriminate|].
  cbn [buf offset].
  destruct (_ =? 0); intros [= <- <-]; bounds.
Qed.

Lemma advances_readInt64 : advances 8 readInt64.
Proof.
  intros r a r' Hr. unfold readInt64, bind, _need, advance, ret. destruct Hr as [H0 H1].
  destruct (Z.gtb_spec (offset r + 8) (byteLength (buf r))); [discriminate|].
  cbn [buf offset].
  destruct (_ && _); [|destruct (_ && _)]; intros [= <- <-]; bounds.
Qed.

Lemma advances_readBool : advances 1 readBool.
Proof.
  unfold readBool. change 1 with (1 + 0).
  apply advances_bind; [apply advances_readUint8 | intros; apply advances_ret].
Qed.

(** A number converted from a non-negative integer holds a non-negative
    integer, whatever the rounding. *)
Lemma int_of_fromZ_nonneg (n : Z) : 0 <= n -> 0 <= int_of (JS.fromZ n).
Proof.
  intros Hn. unfold int_of, JS.fromZ, binary_normalize.
  destruct n as [|p|p]; [cbn; lia| |lia].
  unfold binary_round. destruct (shl_align _ _ _) as [mz ez].
  unfold binary_round_aux. destruct (shr_fexp _ _ _ _ _) as [mrs' e'].
  destruct (shr_fexp _ _ _ _ _) as [mrs'' e''].
  destruct (shr_m mrs'') as [|m|m]; cbn; try lia.
  destruct (e'' <=? _); cbn; try lia.
  destruct (0 <=? e'') eqn:He; [|destruct (_ =? 0)]; try lia;
    first [ apply Z.mul_nonneg_nonneg; [lia | apply Z.pow_nonneg; lia]
          | apply Z.div_pos;
            [lia | apply Z.pow_pos_nonneg; [lia | apply Z.leb_gt in He; lia]] ].
Qed.

Lemma readUint64_nonneg (r r' : BufferReader) (v : Number) :
  readUint64 r = Ok (v, r') -> 0 <= int_of v.
Proof.
  unfold readUint64, bind, _need, advance, ret.
  destruct (_ >? _); [discriminate|]. cbn [buf offset].
  pose proof (getUint32_range (buf r) (offset r)) as Hlo.
  pose proof (getUint32_range (buf r) (offset r + 4)) as Hhi.
  destruct (_ =? 0); intros [= <- <-]; apply int_of_fromZ_nonneg; [lia|].
  rewrite bigint_combine_add by lia. lia.
Qed.

Lemma advances_readString : advances 8 readString.
Proof.
  intros r a r'' Hr H. unfold readString in H.
  apply bind_Ok in H as (len & r1 & H1 & H).
  pose proof (readUint64_nonneg _ _ _ H1) as Hlen.
  destruct (advances_readUint64 _ _ _ Hr H1) as (E1 & L1 & W1).
  revert H. unfold bind, _need, advance, ret.
  destruct (Z.gtb_spec (offset r1 + int_of len) (byteLength (buf r1))); [discriminate|].
  intros [= <- <-]. bounds.
Qed.

Lemma advances_for_loop {A} (body : Z -> A -> M A) :
  (forall i acc, advances 0 (body i acc)) ->
  forall fuel i n acc, advances 0 (for_loop fuel i n body acc).
Proof.
  intros Hb fuel. induction fuel as [|fuel IH]; intros i n acc; cbn [for_loop].
  - destruct (i <? n); [intros r a r' _; discriminate | apply advances_ret].
  - destruct (i <? n); [|apply advances_ret].
    change 0 with (0 + 0). apply advances_bind; [apply Hb | intros; apply IH].
Qed.

Lemma advances_readValue (fuel : nat) : forall type, advances 1 (readValue fuel type).
Proof.
  induction fuel as [|fuel IH]; intros type; cbn [readValue].
  - intros r a r' _; discriminate.
  - repeat match goal with
           | |- advances _ (if ?c then _ else _) => destruct c
           end;
      try (eapply advances_weaken;
           [| apply advances_bind with (c2 := 0);
              [first [ apply advances_readUint8 | apply advances_readInt8
                     | apply advances_readUint16 | apply advances_readInt16
                     | apply advances_readUint32 | apply advances_readInt32
                     | apply advances_readFloat32 | apply advances_readFloat64
                     | apply advances_readUint64 | apply advances_readInt64
                     | apply advances_readBool | apply advances_readString ]
              | intros; apply advances_ret ] ]; lia).
    + (* ARRAY *)
      eapply advances_weaken;
        [| apply advances_bind with (c1 := 4) (c2 := 8); [apply advances_readUint32|] ]; [lia|].
      intros arrType. 
      eapply advances_weaken;
        [| apply advances_bind with (c1 := 8) (c2 := 0); [apply advances_readUint64|] ]; [lia|].
      intros arrLen. change 0 with (0 + 0).
      apply advances_bind; [|intros; apply advances_ret].
      apply advances_for_loop. intros _ acc.
      eapply advances_weaken;
        [| apply advances_bind with (c1 := 1) (c2 := 0); [apply IH | intros; apply advances_ret] ].
      lia.
    + intros r a r' _; discriminate.
Qed.

(** *** The bound on the iterations is never reached *)

Lemma bind_terminates {A B} (m : M A) (k : A -> M B) (r : BufferReader) :
  m r <> OutOfFuel ->
  (forall a r', m r = Ok (a, r') -> k a r' <> OutOfFuel) ->
  bind m k r <> OutOfFuel.
Proof.
  unfold bind. intros Hm Hk. destruct (m r) as [[a r']| |];
    [apply Hk; reflexivity | discriminate | contradiction].
Qed.

Lemma fixed_terminates {A} (n : Z) (f : BufferReader -> A) (r : BufferReader) :
  bind (_need n) (fun _ r => bind (advance n) (fun _ => ret (f r)) r) r
  <> OutOfFuel.
Proof.
  unfold bind, _need, advance, ret. destruct (_ >? _); discriminate.
Qed.

Lemma readUint64_terminates (r : BufferReader) : readUint64 r <> OutOfFuel.
Proof.
  unfold readUint64, bind, _need, advance, ret.
  destruct (_ >? _); [discriminate|]. destruct (_ =? 0); discriminate.
Qed.

Lemma readInt64_terminates (r : BufferReader) : readInt64 r <> OutOfFuel.
Proof.
  unfold readInt64, bind, _need, advance, ret.
  destruct (_ >? _); [discriminate|].
  destruct (_ && _); [|destruct (_ && _)]; discriminate.
Qed.

Lemma readUint32_terminates (r : BufferReader) : readUint32 r <> OutOfFuel.
Proof. apply fixed_terminates. Qed.

Lemma readBool_terminates (r : BufferReader) : readBool r <> OutOfFuel.
Proof.
  unfold readBool. apply bind_terminates; [apply fixed_terminates|].
  intros; discriminate.
Qed.

Lemma readString_terminates (r : BufferReader) : readString r <> OutOfFuel.
Proof.
  unfold readString. apply bind_terminates; [apply readUint64_terminates|].
  intros len r' _. unfold bind, _need, advance, ret.
  destruct (_ >? _); discriminate.
Qed.

(** A loop whose body consumes at least one byte ends before the buffer
    does. *)
Lemma for_loop_terminates {A} (body : Z -> A -> M A) (b : ArrayBuffer) (bound : Z) :
  (forall i acc, advances 1 (body i acc)) ->
  (forall i acc r, in_bounds r -> buf r = b ->
                   byteLength b - offset r <= bound ->
                   body i acc r <> OutOfFuel) ->
  forall fuel i n acc r,
    in_bounds r -> buf r = b ->
    byteLength b - offset r <= bound ->
    byteLength b - offset r < Z.of_nat fuel ->
    for_loop fuel i n body acc r <> OutOfFuel.
Proof.
  intros Hadv Hterm fuel.
  induction fuel as [|fuel IH]; intros i n acc r Hr Hb Hbound Hfuel.
  - unfold in_bounds in Hr. rewrite Hb in Hr. lia.
  - cbn [for_loop]. destruct (i <? n); [|discriminate].
    apply bind_terminates; [apply Hterm; assumption|].
    intros acc' r' Hbody.
    destruct (Hadv _ _ _ _ _ Hr Hbody) as (E & L & W).
    apply IH; [exact W | congruence | lia | lia].
Qed.

Lemma readValue_terminates (fuel : nat) :
  forall type r,
    in_bounds r ->
    byteLength (buf r) - offset r < Z.of_nat fuel ->
    readValue fuel type r <> OutOfFuel.
Proof.
  induction fuel as [|fuel IH]; intros type r Hr Hfuel.
  - unfold in_bounds in Hr. lia.
  - cbn [readValue].
    repeat match goal with
           | |- (if ?c then _ else _) _ <> _ => destruct c
           end;
      try (apply bind_terminates;
           [first [ apply fixed_terminates | apply readUint64_terminates
                  | apply readInt64_terminates | apply readBool_terminates
                  | apply readString_terminates ]
           | intros; discriminate ]).
    + (* ARRAY *)
      apply bind_terminates; [apply readUint32_terminates|].
      intros arrType r1 H1.
      destruct (advances_readUint32 _ _ _ Hr H1) as (E1 & L1 & W1).
      apply bind_terminates; [apply readUint64_terminates|].
      intros arrLen r2 H2.
      destruct (advances_readUint64 _ _ _ W1 H2) as (E2 & L2 & W2).
      apply bind_terminates; [|intros; discriminate].
      apply for_loop_terminates
        with (b := buf r) (bound := byteLength (buf r) - offset r2);
        try solve [congruence | lia | exact W2].
      * intros _ acc.
        eapply advances_weaken;
          [| apply advances_bind with (c1 := 1) (c2 := 0);
             [apply advances_readValue | intros; apply advances_ret] ].
        lia.
      * intros _ acc r3 Hr3 Hb3 Hbound3.
        apply bind_terminates; [|intros; discriminate].
        apply IH; [exact Hr3|]. rewrite Hb3. lia.
    + discriminate.
Qed.

Lemma advances_readTensorInfo (fuel : nat) : advances 24 (readTensorInfo fuel).
Proof.
  unfold readTensorInfo.
  eapply advances_weaken;
    [| apply advances_bind with (c1 := 8) (c2 := 16); [apply advances_readString|] ]; [lia|].
  intros name.
  eapply advances_weaken;
    [| apply advances_bind with (c1 := 4) (c2 := 12); [apply advances_readUint32|] ]; [lia|].
  intros nDims.
  eapply advances_weaken;
    [| apply advances_bind with (c1 := 0) (c2 := 12) ]; [lia | |].
  { apply advances_for_loop. intros _ acc.
    eapply advances_weaken;
      [| apply advances_bind with (c1 := 8) (c2 := 0);
         [apply advances_readUint64 | intros; apply advances_ret] ].
    lia. }
  intros dims.
  eapply advances_weaken;
    [| apply advances_bind with (c1 := 4) (c2 := 8); [apply advances_readUint32|] ]; [lia|].
  intros type.
  eapply advances_weaken;
    [| apply advances_bind with (c1 := 8) (c2 := 0);
       [apply advances_readUint64 | intros; apply advances_ret] ].
  lia.
Qed.

Lemma readTensorInfo_terminates (fuel : nat) (r : BufferReader) :
  in_bounds r ->
  byteLength (buf r) - offset r < Z.of_nat fuel ->
  readTensorInfo fuel r <> OutOfFuel.
Proof.
  intros Hr Hfuel. unfold readTensorInfo.
  apply bind_terminates; [apply readString_terminates|].
  intros name r1 H1.
  destruct (advances_readString _ _ _ Hr H1) as (E1 & L1 & W1).
  apply bind_terminates; [apply readUint32_terminates|].
  intros nDims r2 H2.
  destruct (advances_readUint32 _ _ _ W1 H2) as (E2 & L2 & W2).
  apply bind_terminates.
  { apply for_loop_terminates
      with (b := buf r) (bound := byteLength (buf r) - offset r2);
      try solve [congruence | lia | exact W2].
    - intros _ acc.
      eapply advances_weaken;
        [| apply advances_bind with (c1 := 8) (c2 := 0);
           [apply advances_readUint64 | intros; apply advances_ret] ].
      lia.
    - intros _ acc r3 _ _ _.
      apply bind_terminates; [apply readUint64_terminates | intros; discriminate]. }
  intros dims r3 _.
  apply bind_terminates; [apply readUint32_terminates|].
  intros type r4 _.
  apply bind_terminates; [apply readUint64_terminates | intros; discriminate].
Qed.

Lemma parseHeaderBody_terminates (fuel : nat) (r : BufferReader) :
  in_bounds r ->
  byteLength (buf r) - offset r < Z.of_nat fuel ->
  parseHeaderBody fuel r <> OutOfFuel.
Proof.
  intros Hr Hfuel. unfold parseHeaderBody.
  apply bind_terminates; [apply readUint32_terminates|].
  intros magic r1 H1.
  destruct (advances_readUint32 _ _ _ Hr H1) as (E1 & L1 & W1).
  destruct (negb _); [discriminate|].
  apply bind_terminates; [apply readUint32_terminates|].
  intros version r2 H2.
  destruct (advances_readUint32 _ _ _ W1 H2) as (E2 & L2 & W2).
  destruct (_ || _); [discriminate|].
  apply bind_terminates; [apply readUint64_terminates|].
  intros tensorCount r3 H3.
  destruct (advances_readUint64 _ _ _ W2 H3) as (E3 & L3 & W3).
  apply bind_terminates; [apply readUint64_terminates|].
  intros metadataKVCount r4 H4.
  destruct (advances_readUint64 _ _ _ W3 H4) as (E4 & L4 & W4).
  assert (Hmd : forall (i : Z) (acc : gmap string JSValue),
             advances 13
               (bind readString (fun key =>
                bind readUint32 (fun valueType =>
                bind (readValue fuel valueType) (fun value =>
                ret (<[ key := value ]> acc)))))).
  { intros _ acc.
    eapply advances_weaken;
      [| apply advances_bind with (c1 := 8) (c2 := 5); [apply advances_readString|] ]; [lia|].
    intros key.
    eapply advances_weaken;
      [| apply advances_bind with (c1 := 4) (c2 := 1); [apply advances_readUint32|] ]; [lia|].
    intros valueType.
    eapply advances_weaken;
      [| apply advances_bind with (c1 := 1) (c2 := 0);
         [apply advances_readValue | intros; apply advances_ret] ].
    lia. }
  apply bind_terminates.
  { apply for_loop_terminates
      with (b := buf r) (bound := byteLength (buf r) - offset r4);
      try solve [congruence | lia | exact W4].
    - intros i acc. eapply advances_weaken; [|apply (Hmd i acc)]. lia.
    - intros _ acc r5 Hr5 Hb5 Hbound5.
      apply bind_terminates; [apply readString_terminates|].
      intros key r6 H6.
      destruct (advances_readString _ _ _ Hr5 H6) as (E6 & L6 & W6).
      apply bind_terminates; [apply readUint32_terminates|].
      intros valueType r7 H7.
      destruct (advances_readUint32 _ _ _ W6 H7) as (E7 & L7 & W7).
      apply bind_terminates; [|intros; discriminate].
      apply readValue_terminates; [exact W7|].
      replace (buf r7) with (buf r) by congruence. lia. }
  intros metadata r5 H5.
  assert (W5 : buf r5 = buf r4 /\ offset r4 + 0 <= offset r5 /\ in_bounds r5).
  { revert H5. apply advances_for_loop; [|exact W4].
    intros i acc. eapply advances_weaken; [|apply (Hmd i acc)]. lia. }
  destruct W5 as (E5 & L5 & W5).
  apply bind_terminates; [|intros; discriminate].
  apply for_loop_terminates
    with (b := buf r) (bound := byteLength (buf r) - offset r5);
    try solve [congruence | lia | exact W5].
  - intros _ acc.
    eapply advances_weaken;
      [| apply advances_bind with (c1 := 24) (c2 := 0);
         [apply advances_readTensorInfo | intros; apply advances_ret] ].
    lia.
  - intros _ acc r6 Hr6 Hb6 Hbound6.
    apply bind_terminates; [|intros; discriminate].
    apply readTensorInfo_terminates; [exact Hr6|].
    rewrite Hb6. lia.
Qed.

Lemma _parseHeader_reader_terminates (file : File) (readSize : Z) :
  _parseHeader_reader file readSize <> OutOfFuel.
Proof.
  unfold _parseHeader_reader. apply parseHeaderBody_terminates.
  - unfold in_bounds, new_BufferReader, slice_arrayBuffer. cbn [buf offset byteLength]. lia.
  - unfold fuel_for, new_BufferReader, slice_arrayBuffer. cbn [buf offset byteLength]. lia.
Qed.

Lemma _parseHeader_terminates (file : File) (readSize : Z) :
  _parseHeader file readSize <> OutOfFuel.
Proof.
  unfold _parseHeader.
  pose proof (_parseHeader_reader_terminates file readSize) as H.
  destruct (_parseHeader_reader file readSize) as [[h r]| |];
    [discriminate | discriminate | contradiction].
Qed.

(** *** The retry loop *)

Lemma is_BUFFER_TOO_SMALL_true (e : Error) :
  is_BUFFER_TOO_SMALL e = true <-> e = BUFFER_TOO_SMALL.
Proof. destruct e; cbn; split; congruence. Qed.

Lemma last_cons {A} (l : list A) : forall a d, List.last (a :: l) d = List.last l a.
Proof.
  induction l as [|b l IH]; intros a d; [reflexivity|].
  change (List.last (a :: b :: l) d) with (List.last (b :: l) d).
  rewrite (IH b d), (IH b a). reflexivity.
Qed.

(** One turn of the loop, by the outcome of its attempt. *)
Lemma parseGGUFHeader_loop_step (fuel : nat) (file : File) (readSize : Z) :
  parseGGUFHeader_loop (S fuel) file readSize =
  match _parseHeader file readSize with
  | Ok result => ([], Ok result)
  | Throw e =>
      if is_BUFFER_TOO_SMALL e && (readSize <? size file) then
        (Z.min (size file) (readSize * 4)
           :: fst (parseGGUFHeader_loop fuel file (Z.min (size file) (readSize * 4))),
         snd (parseGGUFHeader_loop fuel file (Z.min (size file) (readSize * 4))))
      else ([], Throw e)
  | OutOfFuel => ([], OutOfFuel)
  end.
Proof.
  cbn [parseGGUFHeader_loop].
  destruct (_parseHeader file readSize) as [h|e|]; try reflexivity.
  destruct (_ && _); [|reflexivity].
  destruct (parseGGUFHeader_loop fuel file _); reflexivity.
Qed.

(** What a run of the loop did: the sizes it expanded to, and the attempt
    its result comes from. *)
Lemma parseGGUFHeader_loop_trace (file : File) (fuel : nat) :
  forall readSize log res,
    parseGGUFHeader_loop fuel file readSize = (log, res) ->
    retries file readSize log /\
    (res = OutOfFuel \/ res = _parseHeader file (List.last log readSize)).
Proof.
  induction fuel as [|fuel IH]; intros readSize log res.
  - cbn. intros [= <- <-]. split; [constructor | left; reflexivity].
  - rewrite parseGGUFHeader_loop_step.
    destruct (_parseHeader file readSize) as [h|e|] eqn:Hat.
    + intros [= <- <-]. split; [constructor | right; cbn; congruence].
    + destruct (is_BUFFER_TOO_SMALL e && (readSize <? size file)) eqn:Hc.
      * apply andb_prop in Hc as [He Hlt].
        apply is_BUFFER_TOO_SMALL_true in He. subst e.
        apply Z.ltb_lt in Hlt.
        destruct (parseGGUFHeader_loop fuel file (Z.min (size file) (readSize * 4)))
          as [log' res'] eqn:Hrec.
        cbn [fst snd]. intros [= <- <-].
        destruct (IH _ _ _ Hrec) as [Hr Hres].
        split; [constructor; assumption|].
        destruct Hres as [->| ->]; [left; reflexivity | right].
        rewrite last_cons. reflexivity.
      * intros [= <- <-]. split; [constructor | right; cbn; congruence].
    + intros [= <- <-]. split; [constructor | left; reflexivity].
Qed.

(** The loop ends: [fuel] turns are enough once the size, multiplied by four
    at each turn, covers the file within [fuel] turns. *)
Lemma parseGGUFHeader_loop_terminates (file : File) (fuel : nat) :
  forall readSize,
    size file <= readSize \/
    (1 <= readSize /\ size file <= readSize * 4 ^ Z.of_nat fuel) ->
    snd (parseGGUFHeader_loop (S fuel) file readSize) <> OutOfFuel.
Proof.
  induction fuel as [|fuel IH]; intros readSize Hsz;
    rewrite parseGGUFHeader_loop_step;
    pose proof (_parseHeader_terminates file readSize) as Hterm;
    destruct (_parseHeader file readSize) as [h|e|]; try discriminate;
    try contradiction.
  - destruct (Z.ltb_spec readSize (size file)) as [Hlt|Hge].
    + exfalso. destruct Hsz as [|[_ H]]; [lia|]. cbn in H. lia.
    + rewrite andb_false_r. discriminate.
  - destruct (is_BUFFER_TOO_SMALL e && (readSize <? size file)) eqn:Hc;
      [|discriminate].
    apply andb_prop in Hc as [_ Hlt]. apply Z.ltb_lt in Hlt.
    cbn [snd]. apply IH.
    destruct Hsz as [|[H1 H]]; [lia|].
    destruct (Z.min_spec (size file) (readSize * 4)) as [[_ ->]|[_ ->]];
      [left; lia | right].
    split; [lia|].
    rewrite Nat2Z.inj_succ, Z.pow_succ_r in H by lia. lia.
Qed.

Lemma parseGGUFHeader_terminates (file : File) :
  snd (parseGGUFHeader file) <> OutOfFuel.
Proof.
  unfold parseGGUFHeader. apply parseGGUFHeader_loop_terminates.
  unfold initial_readSize.
  destruct (Z_le_gt_dec (size file) (10 * 1024 * 1024)) as [Hle|Hgt].
  - left. lia.
  - right. rewrite Z.min_r by lia. split; [lia|].
    assert (Hs : 0 < size file) by lia.
    destruct (Z.log2_up_spec (size file)) as [_ Hup]; [lia|].
    rewrite Z2Nat.id by apply Z.log2_up_nonneg.
    assert (Hpow : 2 ^ Z.log2_up (size file) <= 4 ^ Z.log2_up (size file)).
    { apply Z.pow_le_mono_l. lia. }
    nia.
Qed.

(** Every size the loop reads stays within the file. *)
Lemma retries_within (file : File) (readSize : Z) (log : list Z) :
  retries file readSize log -> readSize <= size file ->
  List.last log readSize <= size file.
Proof.
  induction 1 as [readSize|readSize log Hat Hlt Hr IH]; intros Hle; [exact Hle|].
  rewrite last_cons. apply IH. lia.
Qed.
(* ================================================================== *)
(** * Facts: correctly rounded arithmetic *)
(* ================================================================== *)

(** ** Rounding in [SpecFloat] *)

(** [iter_pos] is iteration. *)
Lemma iter_pos_succ {A} (f : A -> A) (p : positive) :
  forall x, SpecFloat.iter_pos f (Pos.succ p) x = f (SpecFloat.iter_pos f p x).
Proof.
  assert (comm : forall q x, SpecFloat.iter_pos f q (f x) = f (SpecFloat.iter_pos f q x)).
  { induction q as [q IH|q IH|]; intros x; cbn [SpecFloat.iter_pos];
      rewrite ?IH; reflexivity. }
  induction p as [p IH|p IH|]; intros x.
  - change (Pos.succ p~1) with ((Pos.succ p)~0)%positive.
    cbn [SpecFloat.iter_pos]. rewrite !IH, !comm. reflexivity.
  - change (Pos.succ p~0) with (p~1)%positive.
    cbn [SpecFloat.iter_pos]. rewrite !comm. reflexivity.
  - reflexivity.
Qed.

Lemma Zpos_xI_div2 (p : positive) : Z.pos p~1 / 2 = Z.pos p.
Proof. rewrite Pos2Z.inj_xI. symmetry. apply Z.div_unique with (r := 1); lia. Qed.

Lemma Zpos_xO_div2 (p : positive) : Z.pos p~0 / 2 = Z.pos p.
Proof. rewrite Pos2Z.inj_xO. symmetry. apply Z.div_unique with (r := 0); lia. Qed.

(** The record after [k] right shifts of an exact mantissa [M]: the
    quotient by 2^k, the last bit shifted out, and whether any bit before
    it was set. *)
Lemma shr_exact (M : Z) (k : positive) :
  0 <= M ->
  SpecFloat.iter_pos shr_1 k {| shr_m := M; shr_r := false; shr_s := false |}
  = {| shr_m := M / 2 ^ Z.pos k;
       shr_r := Z.odd (M / 2 ^ (Z.pos k - 1));
       shr_s := negb (M mod 2 ^ (Z.pos k - 1) =? 0) |}.
Proof.
  intros HM. induction k as [|k IH] using Pos.peano_ind.
  - cbn [SpecFloat.iter_pos]. change (Z.pos 1 - 1) with 0. rewrite Z.pow_0_r, Z.div_1_r, Z.mod_1_r.
    change (2 ^ 1) with 2. cbn [Z.eqb negb].
    destruct M as [|p|p]; [reflexivity| |lia].
    destruct p; cbn [shr_1 orb Z.odd];
      rewrite ?Zpos_xI_div2, ?Zpos_xO_div2; reflexivity.
  - rewrite iter_pos_succ, IH. clear IH.
    rewrite Pos2Z.inj_succ.
    replace (Z.succ (Z.pos k) - 1) with (Z.pos k) by lia.
    set (Q := M / 2 ^ Z.pos k).
    assert (HQ : 0 <= Q) by (apply Z.div_pos; [lia | apply Z.pow_pos_nonneg; lia]).
    assert (Hdiv : M / 2 ^ Z.succ (Z.pos k) = Q / 2).
    { rewrite Z.pow_succ_r by lia. unfold Q.
      rewrite Z.mul_comm, <- Z.div_div by (try apply Z.pow_pos_nonneg; lia). reflexivity. }
    assert (Hmod : (M mod 2 ^ Z.pos k =? 0)
                   = negb (Z.odd (M / 2 ^ (Z.pos k - 1)))
                     && (M mod 2 ^ (Z.pos k - 1) =? 0)).
    { replace (2 ^ Z.pos k) with (2 ^ (Z.pos k - 1) * 2)
        by (rewrite Z.mul_comm, <- Z.pow_succ_r by lia; f_equal; lia).
      rewrite Z.rem_mul_r by (try apply Z.pow_nonzero; lia).
      set (b := M / 2 ^ (Z.pos k - 1)). set (P := 2 ^ (Z.pos k - 1)).
      assert (0 < P) by (apply Z.pow_pos_nonneg; lia).
      pose proof (Z.mod_pos_bound M P ltac:(lia)).
      rewrite (Zmod_odd b).
      destruct (Z.odd b); cbn [negb andb].
      - apply Z.eqb_neq. nia.
      - rewrite Z.mul_0_r, Z.add_0_r. reflexivity. }
    rewrite Hdiv.
    assert (Hs : orb (Z.odd (M / 2 ^ (Z.pos k - 1)))
                     (negb (M mod 2 ^ (Z.pos k - 1) =? 0))
                 = negb (M mod 2 ^ Z.pos k =? 0)).
    { rewrite Hmod. destruct (Z.odd _), (_ =? 0); reflexivity. }
    fold Q. destruct Q as [|q|q]; [| |lia].
    + cbn [shr_1]. rewrite Hs. reflexivity.
    + destruct q; cbn [shr_1]; rewrite Hs; cbn [Z.odd];
        rewrite ?Zpos_xI_div2, ?Zpos_xO_div2; reflexivity.
Qed.

(** The number of binary digits is determined by the bracket of powers of
    two. *)
Lemma digits2_pos_unique (p : positive) (d : Z) :
  2 ^ (d - 1) <= Z.pos p < 2 ^ d -> Z.pos (digits2_pos p) = d.
Proof.
  intros [Hlo Hhi].
  pose proof (digits2_pos_lower p) as L. pose proof (digits2_pos_upper p) as U.
  set (D := Z.pos (digits2_pos p)) in *.
  assert (HD : 0 < D) by (unfold D; lia).
  assert (Hd : 0 < d).
  { destruct (Z_lt_le_dec 0 d); [assumption|].
    exfalso. destruct (Z.eq_dec d 0) as [->|]; [cbn in Hhi; lia|].
    rewrite Z.pow_neg_r in Hhi by lia. lia. }
  destruct (Z.lt_trichotomy D d) as [H|[H|H]]; [|exact H|].
  - exfalso. assert (2 ^ D <= 2 ^ (d - 1)) by (apply Z.pow_le_mono_r; lia). lia.
  - exfalso. assert (2 ^ d <= 2 ^ (D - 1)) by (apply Z.pow_le_mono_r; lia). lia.
Qed.

Lemma fexp_normal (x : Z) : -1021 <= x -> fexp JS.prec JS.emax x = x - 53.
Proof. intros H. unfold fexp, SpecFloat.emin, JS.prec, JS.emax. lia. Qed.

(** Round to nearest even on a shifted exact mantissa stays within half a
    unit of the last kept place. *)
Lemma round_nearest_even_shifted (M k : Z) :
  0 <= M -> 0 < k ->
  let m1 := M / 2 ^ k in
  let m2 := round_nearest_even m1
              (loc_of_shr_record
                 {| shr_m := m1;
                    shr_r := Z.odd (M / 2 ^ (k - 1));
                    shr_s := negb (M mod 2 ^ (k - 1) =? 0) |}) in
  (m2 = m1 \/ m2 = m1 + 1) /\
  2 * Z.abs (m2 * 2 ^ k - M) <= 2 ^ k /\
  (M mod 2 ^ k = 0 -> m2 = m1).
Proof.
  intros HM Hk. cbv zeta.
  set (P := 2 ^ (k - 1)).
  assert (HP : 0 < P) by (apply Z.pow_pos_nonneg; lia).
  assert (H2k : 2 ^ k = P * 2).
  { unfold P. rewrite Z.mul_comm, <- Z.pow_succ_r by lia. f_equal. lia. }
  rewrite H2k.
  pose proof (Z.div_mod M P ltac:(lia)) as Hdm.
  pose proof (Z.mod_pos_bound M P ltac:(lia)) as Hmb.
  set (b := M / P) in *. set (lo := M mod P) in *.
  assert (Hb : 0 <= b) by (apply Z.div_pos; lia).
  assert (Hm1 : M / (P * 2) = b / 2).
  { unfold b. rewrite Z.div_div by lia. reflexivity. }
  rewrite Hm1.
  pose proof (Z.div_mod b 2 ltac:(lia)) as Hb2. rewrite (Zmod_odd b) in Hb2.
  assert (Hrem : M mod (P * 2) = lo + P * (if Z.odd b then 1 else 0)).
  { rewrite Z.rem_mul_r by lia. fold lo b. rewrite (Zmod_odd b). reflexivity. }
  rewrite Hrem.
  unfold loc_of_shr_record, round_nearest_even.
  destruct (Z.odd b) eqn:Hodd; destruct (Z.eqb_spec lo 0) as [Hlo|Hlo]; cbn [negb].
  - (* exactly half *)
    destruct (Z.even (b / 2)); repeat split; try (left; reflexivity);
      try (right; reflexivity); try lia.
  - repeat split; try (right; reflexivity); lia.
  - repeat split; try (left; reflexivity); lia.
  - repeat split; try (left; reflexivity); lia.
Qed.

Lemma binary_round_aux_steps (s : bool) (m e : Z) (l : location) :
  binary_round_aux JS.prec JS.emax s m e l
  = round_finish s
      (round_nearest_even (shr_m (fst (shr_fexp JS.prec JS.emax m e l)))
         (loc_of_shr_record (fst (shr_fexp JS.prec JS.emax m e l))))
      (snd (shr_fexp JS.prec JS.emax m e l)).
Proof.
  unfold binary_round_aux, round_finish.
  destruct (shr_fexp JS.prec JS.emax m e l) as [mrs e']. reflexivity.
Qed.

(** A mantissa of exactly 53 bits in the exponent range is left alone by
    the final normalisation step. *)
Lemma shr_fexp_canonical (m : positive) (e : Z) :
  Z.pos (digits2_pos m) = 53 -> -1074 <= e ->
  shr_fexp JS.prec JS.emax (Z.pos m) e loc_Exact
  = ({| shr_m := Z.pos m; shr_r := false; shr_s := false |}, e).
Proof.
  intros Hd He. unfold shr_fexp. cbn [Zdigits2]. rewrite Hd.
  rewrite fexp_normal by lia.
  replace (53 + e - 53 - e) with 0 by lia. reflexivity.
Qed.

Lemma shr_fexp_shift (M kp : positive) (E : Z) :
  Z.pos (digits2_pos M) = 53 + Z.pos kp -> -1074 <= E + Z.pos kp ->
  shr_fexp JS.prec JS.emax (Z.pos M) E loc_Exact
  = ({| shr_m := Z.pos M / 2 ^ Z.pos kp;
        shr_r := Z.odd (Z.pos M / 2 ^ (Z.pos kp - 1));
        shr_s := negb (Z.pos M mod 2 ^ (Z.pos kp - 1) =? 0) |}, E + Z.pos kp).
Proof.
  intros Hd He. unfold shr_fexp. cbn [Zdigits2]. rewrite Hd.
  rewrite fexp_normal by lia.
  replace (53 + Z.pos kp + E - 53 - E) with (Z.pos kp) by lia.
  cbn [shr shr_record_of_loc]. rewrite shr_exact by lia. reflexivity.
Qed.

(** The last step of a rounding: a rounded mantissa of 53 bits is kept, and
    one that has grown to [2^53] is renormalised into the next binade. *)
Lemma round_finish_normal (s : bool) (m e : Z) :
  2 ^ 52 <= m <= 2 ^ 53 -> -1074 <= e <= 970 ->
  exists m' e',
    round_finish s m e = S754_finite s m' e' /\
    Z.pos (digits2_pos m') = 53 /\
    e <= e' <= e + 1 /\
    Z.pos m' * 2 ^ (e' - e) = m.
Proof.
  intros Hm He. unfold round_finish.
  destruct m as [|p|p]; [lia| |lia].
  destruct (Z.eq_dec (Z.pos p) (2 ^ 53)) as [Hc|Hc].
  - rewrite (shr_fexp_shift p 1 e);
      [|apply digits2_pos_unique; rewrite Hc; vm_compute; split; [discriminate|reflexivity]|lia].
    cbn [shr_m]. rewrite Hc.
    change (2 ^ 53 / 2 ^ 1) with (Z.pos 4503599627370496).
    cbv iota.
    replace (e + 1 <=? JS.emax - JS.prec) with true
      by (symmetry; apply Z.leb_le; unfold JS.emax, JS.prec; lia).
    exists 4503599627370496%positive, (e + 1).
    replace (e + 1 - e) with 1 by lia.
    repeat split; try lia.
  - assert (Hr : 2 ^ 52 <= Z.pos p < 2 ^ 53) by lia.
    rewrite shr_fexp_canonical; [|apply digits2_pos_unique; lia|lia].
    cbn [shr_m].
    replace (e <=? JS.emax - JS.prec) with true
      by (symmetry; apply Z.leb_le; unfold JS.emax, JS.prec; lia).
    exists p, e. replace (e - e) with 0 by lia.
    repeat split; try lia.
    apply digits2_pos_unique; lia.
Qed.

Lemma digits_bracket (M : positive) (d : Z) :
  Z.pos (digits2_pos M) = d -> 2 ^ (d - 1) <= Z.pos M < 2 ^ d.
Proof.
  intros <-. split; [apply digits2_pos_lower|apply digits2_pos_upper].
Qed.

Lemma div_pow2_bracket (M k : Z) :
  0 <= k -> 2 ^ (52 + k) <= M < 2 ^ (53 + k) ->
  2 ^ 52 <= M / 2 ^ k < 2 ^ 53.
Proof.
  intros Hk [HL HU].
  assert (H2k : 0 < 2 ^ k) by (apply Z.pow_pos_nonneg; lia).
  rewrite Z.pow_add_r in HL, HU by lia.
  split.
  - apply Z.div_le_lower_bound; lia.
  - apply Z.div_lt_upper_bound; lia.
Qed.

(** Rounding an exact product or sum: [k] low bits are dropped, to nearest
    even, with a possible carry into the next binade. *)
Lemma binary_round_aux_exact (s : bool) (M : positive) (E k : Z) :
  0 <= k ->
  Z.pos (digits2_pos M) = 53 + k ->
  -1074 <= E + k <= 970 ->
  exists m' e',
    binary_round_aux JS.prec JS.emax s (Z.pos M) E loc_Exact = S754_finite s m' e' /\
    Z.pos (digits2_pos m') = 53 /\
    E + k <= e' <= E + k + 1 /\
    2 * Z.abs (Z.pos m' * 2 ^ (e' - E) - Z.pos M) <= 2 ^ k /\
    (Z.pos M mod 2 ^ k = 0 -> Z.pos m' * 2 ^ (e' - E) = Z.pos M).
Proof.
  intros Hk HD HE.
  pose proof (digits_bracket M _ HD) as HB.
  replace (53 + k - 1) with (52 + k) in HB by lia.
  rewrite binary_round_aux_steps.
  destruct k as [|kp|kp]; [| |lia].
  - (* nothing to drop *)
    rewrite shr_fexp_canonical by lia.
    cbn [fst snd loc_of_shr_record shr_m shr_r shr_s round_nearest_even].
    destruct (round_finish_normal s (Z.pos M) E) as (m' & e' & -> & Hd' & He' & Hv);
      [cbn in HB |- *; lia|lia|].
    exists m', e'. replace (E + 0) with E by lia.
    rewrite Hv. cbn [Z.pow].
    repeat split; try assumption; lia.
  - rewrite (shr_fexp_shift M kp E) by lia.
    cbn [fst snd shr_m].
    pose proof (round_nearest_even_shifted (Z.pos M) (Z.pos kp) ltac:(lia) ltac:(lia))
      as (Hm2 & Herr & Hex).
    cbv zeta in Hm2, Herr, Hex.
    pose proof (div_pow2_bracket (Z.pos M) (Z.pos kp) ltac:(lia) HB) as Hm1.
    set (m1 := Z.pos M / 2 ^ Z.pos kp) in *.
    remember (round_nearest_even m1 _) as m2 eqn:Em2 in *.
    assert (H2k : 0 < 2 ^ Z.pos kp) by (apply Z.pow_pos_nonneg; lia).
    destruct (round_finish_normal s m2 (E + Z.pos kp)) as (m' & e' & -> & Hd' & He' & Hv);
      [lia|lia|].
    exists m', e'.
    assert (Hsplit : 2 ^ (e' - E) = 2 ^ (e' - (E + Z.pos kp)) * 2 ^ Z.pos kp).
    { rewrite <- Z.pow_add_r by lia. f_equal. lia. }
    rewrite Hsplit, Z.mul_assoc, Hv.
    repeat split; try assumption; try lia.
    intros H0. specialize (Hex H0).
    assert (Z.pos M = 2 ^ Z.pos kp * m1).
    { unfold m1. pose proof (Z.div_mod (Z.pos M) (2 ^ Z.pos kp) ltac:(lia)). lia. }
    lia.
Qed.

Lemma new_location_spec (n r : Z) : new_location n r = location_of r n.
Proof.
  unfold new_location, new_location_even, new_location_odd, location_of.
  destruct (Z.even n) eqn:Hev; [reflexivity|].
  destruct (r =? 0); [reflexivity|]. f_equal.
  assert (Hodd : Z.odd n = true) by (rewrite <- Z.negb_even, Hev; reflexivity).
  apply Z.odd_spec in Hodd. destruct Hodd as [h Hh].
  destruct (Z.compare_spec (2 * r + 1) n), (Z.compare_spec (2 * r) n);
    try reflexivity; lia.
Qed.

Lemma loc_of_shr_record_of_loc (m : Z) (l : location) :
  loc_of_shr_record (shr_record_of_loc m l) = l.
Proof. destruct l as [|[]]; reflexivity. Qed.

(** Round to nearest even of a quotient [q] with remainder [r] out of [n]:
    the result is [q] or [q + 1] and within half of [q + r/n]. *)
Lemma round_nearest_even_location (q r n : Z) :
  0 <= r < n ->
  let m := round_nearest_even q (location_of r n) in
  (m = q \/ m = q + 1) /\ 2 * Z.abs (m * n - (q * n + r)) <= n.
Proof.
  intros Hr. cbv zeta. unfold location_of, round_nearest_even.
  destruct (Z.eqb_spec r 0) as [->|Hr0].
  - split; [left; reflexivity|lia].
  - destruct (Z.compare_spec (2 * r) n).
    + destruct (Z.even q); split; auto; lia.
    + split; [left; reflexivity|lia].
    + split; [right; reflexivity|lia].
Qed.

(** One more bit dropped from a quotient with a remainder. *)
Lemma round_nearest_even_location_shifted (q r n : Z) :
  0 < q -> 0 <= r < n ->
  let mrs := shr_1 (shr_record_of_loc q (location_of r n)) in
  let m := round_nearest_even (shr_m mrs) (loc_of_shr_record mrs) in
  (m = q / 2 \/ m = q / 2 + 1) /\
  2 * Z.abs (m * 2 * n - (q * n + r)) <= 2 * n.
Proof.
  intros Hq Hr. cbv zeta.
  pose proof (Z.div_mod q 2 ltac:(lia)) as Hdm.
  pose proof (Z.mod_pos_bound q 2 ltac:(lia)) as Hmb.
  unfold location_of.
  destruct q as [|p|p]; [lia| |lia].
  destruct (Z.eqb_spec r 0) as [->|Hr0].
  - destruct p as [p|p|]; cbn [shr_record_of_loc shr_1 orb shr_m loc_of_shr_record
                                round_nearest_even].
    + rewrite Zpos_xI_div2 in *.
      destruct (Z.even (Z.pos p)); split; auto; lia.
    + rewrite Zpos_xO_div2 in *. split; auto; lia.
    + change (1 / 2) with 0 in *. cbn [Z.even]. split; auto; lia.
  - destruct (Z.compare_spec (2 * r) n);
      destruct p as [p|p|]; cbn [shr_record_of_loc shr_1 orb shr_m loc_of_shr_record
                                  round_nearest_even];
      rewrite ?Zpos_xI_div2, ?Zpos_xO_div2 in *;
      try change (1 / 2) with 0 in *;
      split; auto; lia.
Qed.

(** Rounding a quotient of 53 or 54 bits with its remainder. *)
Lemma binary_round_aux_quotient (s : bool) (q : positive) (E k r n : Z) :
  0 <= k <= 1 ->
  Z.pos (digits2_pos q) = 53 + k ->
  -1074 <= E + k <= 970 ->
  0 <= r < n ->
  exists m' e',
    binary_round_aux JS.prec JS.emax s (Z.pos q) E (location_of r n)
      = S754_finite s m' e' /\
    Z.pos (digits2_pos m') = 53 /\
    E + k <= e' <= E + k + 1 /\
    2 * Z.abs (Z.pos m' * 2 ^ (e' - E) * n - (Z.pos q * n + r)) <= 2 ^ k * n.
Proof.
  intros Hk HD HE Hr.
  pose proof (digits_bracket q _ HD) as HB.
  replace (53 + k - 1) with (52 + k) in HB by lia.
  rewrite binary_round_aux_steps.
  unfold shr_fexp at 1 2 3. cbn [Zdigits2]. rewrite HD.
  rewrite fexp_normal by lia.
  replace (53 + k + E - 53 - E) with k by lia.
  assert (Hk' : k = 0 \/ k = 1) by lia.
  destruct Hk' as [-> | ->]; cbn [shr fst snd SpecFloat.iter_pos].
  - rewrite loc_of_shr_record_of_loc.
    replace (shr_m (shr_record_of_loc (Z.pos q) (location_of r n))) with (Z.pos q)
      by (destruct (location_of r n) as [|[]]; reflexivity).
    pose proof (round_nearest_even_location (Z.pos q) r n Hr) as (Hm & Herr).
    cbv zeta in Hm, Herr.
    remember (round_nearest_even (Z.pos q) _) as m2 eqn:Em2 in *.
    destruct (round_finish_normal s m2 E) as (m' & e' & -> & Hd' & He' & Hv);
      [cbn in HB |- *; lia|lia|].
    exists m', e'. rewrite Hv. replace (E + 0) with E by lia.
    repeat split; try assumption; lia.
  - pose proof (round_nearest_even_location_shifted (Z.pos q) r n ltac:(lia) Hr)
      as (Hm & Herr).
    cbv zeta in Hm, Herr.
    remember (round_nearest_even _ _) as m2 eqn:Em2 in *.
    pose proof (div_pow2_bracket (Z.pos q) 1 ltac:(lia) HB) as Hq2.
    change (2 ^ 1) with 2 in Hq2 |- *.
    destruct (round_finish_normal s m2 (E + 1)) as (m' & e' & -> & Hd' & He' & Hv);
      [lia|lia|].
    exists m', e'.
    assert (Hsplit : 2 ^ (e' - E) = 2 ^ (e' - (E + 1)) * 2).
    { replace (e' - E) with (e' - (E + 1) + 1) by lia.
      rewrite Z.pow_add_r by lia. reflexivity. }
    rewrite Hsplit, Z.mul_assoc, Hv.
    repeat split; try assumption; lia.
Qed.

(** ** Products, quotients and sums of normal numbers *)

Lemma pow2_lt_inv (a b : Z) : 0 <= b -> 2 ^ a < 2 ^ b -> a < b.
Proof.
  intros Hb H. destruct (Z_lt_le_dec a b) as [|Hle]; [assumption|exfalso].
  assert (2 ^ b <= 2 ^ a) by (apply Z.pow_le_mono_r; lia). lia.
Qed.

Lemma digits_between (p : positive) (a b : Z) :
  0 <= a -> 2 ^ a <= Z.pos p < 2 ^ b -> a < Z.pos (digits2_pos p) <= b.
Proof.
  intros Ha [HL HU].
  pose proof (digits2_pos_lower p) as L. pose proof (digits2_pos_upper p) as U.
  assert (Hb : 0 <= b).
  { destruct (Z_lt_le_dec b 0); [|assumption]. rewrite Z.pow_neg_r in HU; lia. }
  split.
  - apply pow2_lt_inv; lia.
  - assert (Z.pos (digits2_pos p) - 1 < b) by (apply pow2_lt_inv; lia). lia.
Qed.

(** The product of two normal numbers: correctly rounded, hence within a
    relative [2^-53] of the exact product. *)
Lemma mul_normal (m1 m2 : positive) (e1 e2 : Z) :
  Z.pos (digits2_pos m1) = 53 -> Z.pos (digits2_pos m2) = 53 ->
  -1126 <= e1 + e2 <= 916 ->
  exists m' e',
    JS.mul (S754_finite false m1 e1) (S754_finite false m2 e2)
      = S754_finite false m' e' /\
    Z.pos (digits2_pos m') = 53 /\
    e1 + e2 + 52 <= e' <= e1 + e2 + 54 /\
    2 ^ 53 * Z.abs (Z.pos m' * 2 ^ (e' - (e1 + e2)) - Z.pos m1 * Z.pos m2)
      <= Z.pos m1 * Z.pos m2.
Proof.
  intros H1 H2 He.
  apply digits_bracket in H1, H2.
  change (2 ^ (53 - 1)) with (2 ^ 52) in *.
  assert (HM : 2 ^ 104 <= Z.pos (m1 * m2) < 2 ^ 106).
  { rewrite Pos2Z.inj_mul.
    change (2 ^ 104) with (2 ^ 52 * 2 ^ 52). change (2 ^ 106) with (2 ^ 53 * 2 ^ 53).
    split; [apply Z.mul_le_mono_nonneg; lia|apply Z.mul_lt_mono_nonneg; lia]. }
  pose proof (digits_between _ 104 106 ltac:(lia) HM) as HD.
  set (k := Z.pos (digits2_pos (m1 * m2)) - 53).
  assert (HDk : Z.pos (digits2_pos (m1 * m2)) = 53 + k) by (unfold k; lia).
  pose proof (digits_bracket _ _ HDk) as HB.
  replace (53 + k - 1) with (52 + k) in HB by lia.
  destruct (binary_round_aux_exact false (m1 * m2) (e1 + e2) k)
    as (m' & e' & Hr & Hd' & He' & Herr & _); [lia|assumption|lia|].
  exists m', e'. unfold JS.mul, SFmul. cbn [xorb]. rewrite Hr.
  rewrite Pos2Z.inj_mul in *.
  rewrite Z.pow_add_r in HB by lia.
  change (2 ^ 53) with 9007199254740992 in *.
  change (2 ^ 52) with 4503599627370496 in *.
  repeat split; try assumption; lia.
Qed.

(** The quotient of two normal numbers: correctly rounded, hence within a
    relative [2^-53] of the exact quotient. *)
Lemma div_normal (m1 m2 : positive) (e1 e2 : Z) :
  Z.pos (digits2_pos m1) = 53 -> Z.pos (digits2_pos m2) = 53 ->
  -1021 <= e1 - e2 <= 1021 ->
  exists m' e',
    JS.div (S754_finite false m1 e1) (S754_finite false m2 e2)
      = S754_finite false m' e' /\
    Z.pos (digits2_pos m') = 53 /\
    e1 - e2 - 53 <= e' <= e1 - e2 - 51 /\
    2 ^ 53 * Z.abs (Z.pos m' * 2 ^ (e' - (e1 - e2 - 53)) * Z.pos m2
                    - Z.pos m1 * 2 ^ 53)
      <= Z.pos m1 * 2 ^ 53.
Proof.
  intros H1 H2 He.
  unfold JS.div, SFdiv, SFdiv_core_binary. cbn [xorb Zdigits2].
  rewrite H1, H2.
  replace (53 + e1 - (53 + e2)) with (e1 - e2) by lia.
  rewrite fexp_normal by lia.
  replace (Z.min (e1 - e2 - 53) (e1 - e2)) with (e1 - e2 - 53) by lia.
  replace (e1 - e2 - (e1 - e2 - 53)) with 53 by lia.
  cbv zeta iota.
  rewrite Z.shiftl_mul_pow2 by lia.
  apply digits_bracket in H1, H2.
  change (2 ^ (53 - 1)) with (2 ^ 52) in *.
  pose proof (Z_div_mod (Z.pos m1 * 2 ^ 53) (Z.pos m2) ltac:(lia)) as Hdm.
  destruct (Z.div_eucl (Z.pos m1 * 2 ^ 53) (Z.pos m2)) as [q r].
  destruct Hdm as [Hdm Hr].
  rewrite new_location_spec.
  change (2 ^ 53) with 9007199254740992 in *.
  change (2 ^ 52) with 4503599627370496 in *.
  assert (Hq : 2 ^ 52 <= q < 2 ^ 54).
  { change (2 ^ 52) with 4503599627370496. change (2 ^ 54) with 18014398509481984.
    split; nia. }
  destruct q as [|q|q]; [cbn in Hq; lia| |lia].
  pose proof (digits_between q 52 54 ltac:(lia) Hq) as HD.
  set (k := Z.pos (digits2_pos q) - 53).
  assert (HDk : Z.pos (digits2_pos q) = 53 + k) by (unfold k; lia).
  pose proof (digits_bracket _ _ HDk) as HB.
  replace (53 + k - 1) with (52 + k) in HB by lia.
  destruct (binary_round_aux_quotient false q (e1 - e2 - 53) k r (Z.pos m2))
    as (m' & e' & Hres & Hd' & He' & Herr); [lia|assumption|lia|lia|].
  exists m', e'. rewrite Hres.
  rewrite Z.pow_add_r in HB by lia.
  change (2 ^ 52) with 4503599627370496 in *.
  repeat split; try assumption; try lia.
  assert (Hk2 : 2 ^ k = 1 \/ 2 ^ k = 2).
  { assert (k = 0 \/ k = 1) as [-> | ->] by lia; [left|right]; reflexivity. }
  nia.
Qed.

(** Two normal mantissas denoting the same multiple of a power of two are
    the same. *)
Lemma normal_unique (a b : positive) (i j : Z) :
  0 <= i -> 0 <= j ->
  Z.pos (digits2_pos a) = 53 -> Z.pos (digits2_pos b) = 53 ->
  Z.pos a * 2 ^ i = Z.pos b * 2 ^ j -> a = b /\ i = j.
Proof.
  intros Hi Hj Ha Hb H.
  apply digits_bracket in Ha, Hb. change (2 ^ (53 - 1)) with (2 ^ 52) in *.
  change (2 ^ 53) with (2 ^ 52 * 2) in *.
  assert (Hij : i = j).
  { destruct (Z.lt_trichotomy i j) as [L|[L|L]]; [exfalso|exact L|exfalso].
    - replace j with (i + (j - i)) in H by lia. rewrite Z.pow_add_r in H by lia.
      assert (0 < 2 ^ i) by (apply Z.pow_pos_nonneg; lia).
      assert (2 ^ 1 <= 2 ^ (j - i)) by (apply Z.pow_le_mono_r; lia).
      change (2 ^ 1) with 2 in *.
      rewrite Z.mul_assoc, (Z.mul_comm (Z.pos b)), <- Z.mul_assoc in H.
      rewrite (Z.mul_comm (Z.pos a)) in H.
      apply Z.mul_cancel_l in H; [|lia]. nia.
    - replace i with (j + (i - j)) in H by lia. rewrite Z.pow_add_r in H by lia.
      assert (0 < 2 ^ j) by (apply Z.pow_pos_nonneg; lia).
      assert (2 ^ 1 <= 2 ^ (i - j)) by (apply Z.pow_le_mono_r; lia).
      change (2 ^ 1) with 2 in *.
      rewrite Z.mul_assoc, (Z.mul_comm (Z.pos a)), <- Z.mul_assoc in H.
      rewrite (Z.mul_comm (Z.pos b)) in H.
      apply Z.mul_cancel_l in H; [|lia]. nia. }
  subst j. split; [|reflexivity].
  assert (0 < 2 ^ i) by (apply Z.pow_pos_nonneg; lia).
  apply Z.mul_cancel_r in H; [|lia]. congruence.
Qed.

(** Rounding a multiple of a normal mantissa changes nothing. *)
Lemma binary_round_multiple (s : bool) (M c : positive) (E j : Z) :
  Z.pos M = Z.pos c * 2 ^ j -> 0 <= j ->
  Z.pos (digits2_pos c) = 53 -> -1074 <= E + j <= 970 ->
  binary_round JS.prec JS.emax s M E = S754_finite s c (E + j).
Proof.
  intros HM Hj Hc HE.
  pose proof (digits_bracket c _ Hc) as HB.
  change (2 ^ (53 - 1)) with (2 ^ 52) in HB.
  assert (H2j : 0 < 2 ^ j) by (apply Z.pow_pos_nonneg; lia).
  assert (HD : Z.pos (digits2_pos M) = 53 + j).
  { apply digits2_pos_unique. rewrite HM.
    replace (53 + j - 1) with (52 + j) by lia.
    rewrite !Z.pow_add_r by lia. nia. }
  unfold binary_round. rewrite HD, fexp_normal by lia.
  unfold shl_align.
  replace (53 + j + E - 53 - E) with j by lia.
  assert (Hsh : (match j with Z.neg d => (Pos.iter xO M d, 53 + j + E - 53)
                 | _ => (M, E) end) = (M, E)) by (destruct j; [reflexivity|reflexivity|lia]).
  rewrite Hsh.
  destruct (binary_round_aux_exact s M E j Hj HD HE)
    as (m' & e' & -> & Hd' & He' & _ & Hex).
  assert (Hmod : Z.pos M mod 2 ^ j = 0) by (rewrite HM; apply Z.mod_mul; lia).
  specialize (Hex Hmod). rewrite HM in Hex.
  destruct (normal_unique m' c (e' - E) j ltac:(lia) Hj Hd' Hc Hex) as [-> He].
  f_equal. lia.
Qed.

Lemma shl_align_value (m : positive) (e e' : Z) :
  e' <= e -> Z.pos (fst (shl_align m e e')) = Z.pos m * 2 ^ (e - e').
Proof.
  intros H. unfold shl_align.
  destruct (e' - e) as [|d|d] eqn:Hd; cbn [fst]; [|lia|].
  - replace (e - e') with 0 by lia. cbn. lia.
  - rewrite Zpos_iter_xO. f_equal. f_equal. lia.
Qed.

(** Addition of non-negative integers is exact below [2^53]. *)
Lemma add_fromZ (a b : Z) :
  0 <= a -> 0 < b -> a + b < 2 ^ 53 ->
  JS.add (JS.fromZ a) (JS.fromZ b) = JS.fromZ (a + b).
Proof.
  intros Ha Hb Hab.
  destruct b as [|b|b]; [lia| |lia].
  destruct (fromZ_pos_normal b ltac:(lia)) as (mb & eb & Eb & Db & Reb & Vb).
  destruct a as [|a|a]; [|clear Ha|lia].
  - change (0 + Z.pos b) with (Z.pos b). rewrite Eb. reflexivity.
  - destruct (fromZ_pos_normal a ltac:(lia)) as (ma & ea & Ea & Da & Rea & Va).
    destruct (fromZ_pos_normal (a + b) ltac:(lia)) as (mc & ec & Ec & Dc & Rec & Vc).
    change (Z.pos a + Z.pos b) with (Z.pos (a + b)). rewrite Ea, Eb, Ec.
    unfold JS.add, SFadd. cbn [cond_Zopp].
    set (ez := Z.min ea eb).
    pose proof (shl_align_value ma ea ez ltac:(lia)) as Sa.
    pose proof (shl_align_value mb eb ez ltac:(lia)) as Sb.
    change (Z.pos (fst (shl_align ma ea ez)) + Z.pos (fst (shl_align mb eb ez)))
      with (Z.pos (fst (shl_align ma ea ez) + fst (shl_align mb eb ez))).
    cbn [binary_normalize].
    apply digits_bracket in Da as Ba, Db as Bb, Dc as Bc.
    change (2 ^ (53 - 1)) with (2 ^ 52) in *.
    change (2 ^ 53) with (2 ^ 52 * 2) in *.
    rewrite Pos2Z.inj_add in Vc.
    (* the sum is at least as large as each summand *)
    assert (Hec : ez <= ec).
    { assert (ea <= ec); [|lia].
      destruct (Z_le_gt_dec ea ec) as [|Hgt]; [assumption|exfalso].
      assert (E1 : 2 ^ (- ec) = 2 ^ (- ea) * 2 ^ (ea - ec)).
      { rewrite <- Z.pow_add_r by lia. f_equal. lia. }
      assert (2 ^ 1 <= 2 ^ (ea - ec)) by (apply Z.pow_le_mono_r; lia).
      change (2 ^ 1) with 2 in *.
      assert (0 < 2 ^ (- ea)) by (apply Z.pow_pos_nonneg; lia).
      rewrite E1 in Vc. nia. }
    rewrite (binary_round_multiple false _ mc ez (ec - ez));
      [f_equal; lia| |lia|assumption|lia].
    rewrite Pos2Z.inj_add, Sa, Sb, Va, Vb, Vc.
    rewrite <- !Z.mul_assoc, <- !Z.pow_add_r by lia.
    replace (- ea + (ea - ez)) with (- ez) by lia.
    replace (- eb + (eb - ez)) with (- ez) by lia.
    replace (- ec + (ec - ez)) with (- ez) by lia.
    ring.
Qed.

Lemma sum_by_fromZ {A} (f : A -> Number) (xs : list A) (ps : list Z) :
  map f xs = map JS.fromZ ps ->
  Forall (fun p => 0 < p) ps -> total ps < 2 ^ 53 ->
  sum_by f xs = JS.fromZ (total ps).
Proof.
  unfold sum_by. change JS.pos_zero with (JS.fromZ 0).
  assert (G : forall acc, 0 <= acc -> map f xs = map JS.fromZ ps ->
            Forall (fun p => 0 < p) ps -> acc + total ps < 2 ^ 53 ->
            fold_left (fun s x => JS.add s (f x)) xs (JS.fromZ acc)
            = JS.fromZ (acc + total ps)).
  { revert ps. induction xs as [|x xs IH]; intros ps acc Hacc Hmap Hpos Hsum.
    - destruct ps; [|discriminate]. cbn. f_equal. lia.
    - destruct ps as [|p ps]; [discriminate|].
      cbn [map] in Hmap. injection Hmap as Hx Hmap.
      apply Forall_cons in Hpos as [Hp Hpos].
      cbn [total fold_right] in Hsum. fold (total ps) in Hsum.
      assert (0 <= total ps).
      { clear -Hpos. induction Hpos; cbn; [lia|]. fold (total l). lia. }
      cbn [fold_left]. rewrite Hx, add_fromZ by lia.
      rewrite IH with (ps := ps) by (assumption || lia).
      cbn [total fold_right]. fold (total ps). f_equal. lia. }
  intros. rewrite G by (assumption || lia). reflexivity.
Qed.

(** Integers below [2^53] compare as numbers the way they compare as
    integers. *)
Lemma SFcompare_fromZ (a b : Z) :
  0 < a < 2 ^ 53 -> 0 < b < 2 ^ 53 ->
  SFcompare (JS.fromZ a) (JS.fromZ b) = Some (a ?= b).
Proof.
  intros Ha Hb.
  destruct a as [|a|a]; [lia| |lia]. destruct b as [|b|b]; [lia| |lia].
  destruct (fromZ_pos_normal a ltac:(lia)) as (ma & ea & -> & Da & Rea & Va).
  destruct (fromZ_pos_normal b ltac:(lia)) as (mb & eb & -> & Db & Reb & Vb).
  apply digits_bracket in Da, Db.
  change (2 ^ (53 - 1)) with (2 ^ 52) in *.
  change (2 ^ 53) with (2 ^ 52 * 2) in *.
  cbn [SFcompare]. f_equal.
  assert (Pa : 0 < 2 ^ (- ea)) by (apply Z.pow_pos_nonneg; lia).
  assert (Pb : 0 < 2 ^ (- eb)) by (apply Z.pow_pos_nonneg; lia).
  destruct (Z.compare_spec ea eb) as [He|He|He].
  - subst eb. change (Pos.compare_cont Eq ma mb) with (Z.pos ma ?= Z.pos mb).
    rewrite Va, Vb.
    destruct (Z.compare_spec (Z.pos a) (Z.pos b)) as [H|H|H].
    + rewrite H. apply Z.compare_refl.
    + apply Z.compare_lt_iff. nia.
    + apply Z.compare_gt_iff. nia.
  - symmetry. apply Z.compare_lt_iff.
    assert (E1 : 2 ^ (- ea) = 2 ^ (- eb) * 2 ^ (eb - ea)).
    { rewrite <- Z.pow_add_r by lia. f_equal. lia. }
    assert (2 ^ 1 <= 2 ^ (eb - ea)) by (apply Z.pow_le_mono_r; lia).
    change (2 ^ 1) with 2 in *. rewrite E1 in Va.
    destruct (Z_lt_le_dec (Z.pos a) (Z.pos b)); [assumption|exfalso]. nia.
  - symmetry. apply Z.compare_gt_iff.
    assert (E1 : 2 ^ (- eb) = 2 ^ (- ea) * 2 ^ (ea - eb)).
    { rewrite <- Z.pow_add_r by lia. f_equal. lia. }
    assert (2 ^ 1 <= 2 ^ (ea - eb)) by (apply Z.pow_le_mono_r; lia).
    change (2 ^ 1) with 2 in *. rewrite E1 in Vb.
    destruct (Z_lt_le_dec (Z.pos b) (Z.pos a)); [assumption|exfalso]. nia.
Qed.

Lemma le_fromZ (a b : Z) :
  0 < a < 2 ^ 53 -> 0 < b < 2 ^ 53 ->
  JS.le (JS.fromZ a) (JS.fromZ b) = (a <=? b).
Proof.
  intros Ha Hb. unfold JS.le, SFleb. rewrite SFcompare_fromZ by assumption.
  unfold Z.leb. destruct (a ?= b); reflexivity.
Qed.

Lemma Math_max_fromZ (a b : Z) :
  0 < a < 2 ^ 53 -> 0 < b < 2 ^ 53 ->
  JS.Math_max (JS.fromZ a) (JS.fromZ b) = JS.fromZ (Z.max a b).
Proof.
  intros Ha Hb.
  assert (L : SFltb (JS.fromZ a) (JS.fromZ b) = (a <? b)).
  { unfold SFltb. rewrite SFcompare_fromZ by assumption.
    unfold Z.ltb. destruct (a ?= b); reflexivity. }
  destruct a as [|a|a]; [lia| |lia]. destruct b as [|b|b]; [lia| |lia].
  destruct (fromZ_pos_normal a ltac:(lia)) as (ma & ea & Ea & _).
  destruct (fromZ_pos_normal b ltac:(lia)) as (mb & eb & Eb & _).
  unfold JS.Math_max. rewrite Ea, Eb in *. rewrite L.
  destruct (Z.ltb_spec (Z.pos a) (Z.pos b)).
  - rewrite Z.max_r by lia. symmetry; assumption.
  - rewrite Z.max_l by lia. symmetry; assumption.
Qed.

(** ** Relative errors, on the rationals *)

Lemma Qpow2_pos (e : Z) : (0 < 2 ^ e)%Q.
Proof. apply Qpower_0_lt. reflexivity. Qed.

Lemma Qpow2_add (a b : Z) : (2 ^ (a + b) == 2 ^ a * 2 ^ b)%Q.
Proof. apply Qpower_plus. discriminate. Qed.

Lemma Qpow2_inject (k : Z) : 0 <= k -> (inject_Z (2 ^ k) == 2 ^ k)%Q.
Proof. intros H. rewrite Zpower_Qpower by assumption. reflexivity. Qed.

Lemma Qval_scaled (m : positive) (e g : Z) :
  g <= e ->
  (Qval (S754_finite false m e) == inject_Z (Z.pos m * 2 ^ (e - g)) * 2 ^ g)%Q.
Proof.
  intros H. cbn [Qval JS.smant].
  rewrite inject_Z_mult, Qpow2_inject by lia.
  replace e with ((e - g) + g) at 1 by lia.
  rewrite Qpow2_add. ring.
Qed.

Lemma Qval_fromZ (n : Z) :
  0 < n < 2 ^ 53 -> (Qval (JS.fromZ n) == inject_Z n)%Q.
Proof.
  intros Hn. destruct n as [|p|p]; [lia| |lia].
  destruct (fromZ_pos_normal p ltac:(lia)) as (m & e & -> & _ & He & Hm).
  cbn [Qval JS.smant]. rewrite Hm, inject_Z_mult, Qpow2_inject by lia.
  rewrite <- Qmult_assoc, <- Qpow2_add.
  replace (- e + e) with 0 by lia. change (2 ^ 0)%Q with 1%Q. ring.
Qed.

(** An integer bound on a relative error, read on the scaled rationals. *)
Lemma rel_scaled (X N g : Z) :
  2 ^ 53 * Z.abs (X - N) <= N ->
  ((1 - eps) * (inject_Z N * 2 ^ g) <= inject_Z X * 2 ^ g /\
   inject_Z X * 2 ^ g <= (1 + eps) * (inject_Z N * 2 ^ g))%Q.
Proof.
  intros H. change (2 ^ 53) with 9007199254740992 in H.
  assert (H1 : 9007199254740992 * X <= 9007199254740993 * N) by lia.
  assert (H2 : 9007199254740991 * N <= 9007199254740992 * X) by lia.
  rewrite Zle_Qle in H1, H2. rewrite !inject_Z_mult in H1, H2.
  pose proof (Qpow2_pos g) as Hg.
  set (P := (2 ^ g)%Q) in *. set (x := inject_Z X) in *. set (n := inject_Z N) in *.
  unfold eps.
  change (inject_Z 9007199254740992) with (9007199254740992 # 1)%Q in *.
  change (inject_Z 9007199254740993) with (9007199254740993 # 1)%Q in *.
  change (inject_Z 9007199254740991) with (9007199254740991 # 1)%Q in *.
  split; nra.
Qed.

Lemma Qval_mul (m1 m2 : positive) (e1 e2 : Z) :
  Z.pos (digits2_pos m1) = 53 -> Z.pos (digits2_pos m2) = 53 ->
  -1126 <= e1 + e2 <= 916 ->
  exists m' e',
    JS.mul (S754_finite false m1 e1) (S754_finite false m2 e2)
      = S754_finite false m' e' /\
    Z.pos (digits2_pos m') = 53 /\
    let xy := (Qval (S754_finite false m1 e1) * Qval (S754_finite false m2 e2))%Q in
    ((1 - eps) * xy <= Qval (S754_finite false m' e') <= (1 + eps) * xy)%Q.
Proof.
  intros H1 H2 He.
  destruct (mul_normal m1 m2 e1 e2 H1 H2 He) as (m' & e' & Hr & Hd & He' & Herr).
  exists m', e'. split; [assumption|]. split; [assumption|]. cbv zeta.
  rewrite (Qval_scaled m' e' (e1 + e2)) by lia.
  assert (Hxy : (Qval (S754_finite false m1 e1) * Qval (S754_finite false m2 e2)
                 == inject_Z (Z.pos m1 * Z.pos m2) * 2 ^ (e1 + e2))%Q).
  { cbn [Qval JS.smant]. rewrite inject_Z_mult, Qpow2_add. ring. }
  rewrite Hxy. apply rel_scaled. assumption.
Qed.

Lemma Qval_div (m1 m2 : positive) (e1 e2 : Z) :
  Z.pos (digits2_pos m1) = 53 -> Z.pos (digits2_pos m2) = 53 ->
  -1021 <= e1 - e2 <= 1021 ->
  exists m' e',
    JS.div (S754_finite false m1 e1) (S754_finite false m2 e2)
      = S754_finite false m' e' /\
    Z.pos (digits2_pos m') = 53 /\
    e1 - e2 - 53 <= e' <= e1 - e2 - 51 /\
    let x := Qval (S754_finite false m1 e1) in
    let zy := (Qval (S754_finite false m' e') * Qval (S754_finite false m2 e2))%Q in
    ((1 - eps) * x <= zy <= (1 + eps) * x)%Q.
Proof.
  intros H1 H2 He.
  destruct (div_normal m1 m2 e1 e2 H1 H2 He) as (m' & e' & Hr & Hd & He' & Herr).
  exists m', e'. do 3 (split; [assumption|]). cbv zeta.
  rewrite (Qval_scaled m' e' (e1 - e2 - 53)) by lia.
  rewrite (Qval_scaled m1 e1 (e1 - 53)) by lia.
  replace (e1 - (e1 - 53)) with 53 by lia.
  assert (Hzy : (inject_Z (Z.pos m' * 2 ^ (e' - (e1 - e2 - 53))) * 2 ^ (e1 - e2 - 53)
                 * Qval (S754_finite false m2 e2)
                 == inject_Z (Z.pos m' * 2 ^ (e' - (e1 - e2 - 53)) * Z.pos m2)
                    * 2 ^ (e1 - 53))%Q).
  { cbn [Qval JS.smant]. rewrite (inject_Z_mult _ (Z.pos m2)).
    replace (e1 - 53) with ((e1 - e2 - 53) + e2) by lia.
    rewrite Qpow2_add. ring. }
  rewrite Hzy. apply rel_scaled. assumption.
Qed.

Lemma Qval_normal_large (m : positive) (e : Z) :
  Z.pos (digits2_pos m) = 53 -> 0 <= e ->
  (inject_Z (2 ^ 52) <= Qval (S754_finite false m e))%Q.
Proof.
  intros Hd He. apply digits_bracket in Hd. change (2 ^ (53 - 1)) with (2 ^ 52) in Hd.
  cbn [Qval JS.smant].
  assert (H1 : (1 <= 2 ^ e)%Q) by (apply Qpower_1_le; [discriminate|assumption]).
  assert (H2 : (inject_Z (2 ^ 52) <= inject_Z (Z.pos m))%Q) by (rewrite <- Zle_Qle; lia).
  assert (H0 : (0 <= inject_Z (2 ^ 52))%Q) by discriminate.
  set (a := inject_Z (2 ^ 52)) in *. set (b := inject_Z (Z.pos m)) in *.
  set (P := (2 ^ e)%Q) in *. nra.
Qed.

(** [Math.round] of a positive normal number below [2^52]: the nearest
    integer. *)
Lemma Math_round_normal (m : positive) (e : Z) :
  Z.pos (digits2_pos m) = 53 ->
  (Qval (S754_finite false m e) < inject_Z (2 ^ 52))%Q ->
  exists q,
    JS.Math_round (S754_finite false m e)
      = (if q =? 0 then S754_zero false else JS.fromZ q) /\
    0 <= q <= 2 ^ 52 /\
    (Qval (S754_finite false m e) - (1 # 2) <= inject_Z q
     <= Qval (S754_finite false m e) + (1 # 2))%Q.
Proof.
  intros Hd Hu.
  assert (Hneg : e < 0).
  { destruct (Z_lt_le_dec e 0) as [|Hge]; [assumption|exfalso].
    pose proof (Qval_normal_large m e Hd Hge). lra. }
  pose proof (digits_bracket _ _ Hd) as HB. change (2 ^ (53 - 1)) with (2 ^ 52) in HB.
  unfold JS.Math_round. replace (0 <=? e) with false by (symmetry; apply Z.leb_gt; lia).
  cbn [JS.smant].
  set (P := 2 ^ (- e)).
  assert (HP : 2 <= P).
  { unfold P. change 2 with (2 ^ 1) at 1. apply Z.pow_le_mono_r; lia. }
  assert (HP2 : 2 ^ (- e + 1) = 2 * P).
  { unfold P. rewrite Z.pow_add_r by lia. change (2 ^ 1) with 2. lia. }
  rewrite HP2.
  pose proof (Z.div_mod (2 * Z.pos m + P) (2 * P) ltac:(lia)) as Hdm.
  pose proof (Z.mod_pos_bound (2 * Z.pos m + P) (2 * P) ltac:(lia)) as Hmb.
  set (q := (2 * Z.pos m + P) / (2 * P)) in *.
  exists q. split; [reflexivity|].
  change (2 ^ 53) with 9007199254740992 in *.
  change (2 ^ 52) with 4503599627370496 in *.
  assert (Hq : 0 <= q <= 4503599627370496) by (split; nia).
  split; [assumption|].
  assert (HU : (Qval (S754_finite false m e) * inject_Z P == inject_Z (Z.pos m))%Q).
  { cbn [Qval JS.smant]. unfold P. rewrite Qpow2_inject by lia.
    rewrite <- Qmult_assoc, <- Qpow2_add.
    replace (e + - e) with 0 by lia. change (2 ^ 0)%Q with 1%Q. ring. }
  assert (H1 : 2 * P * q <= 2 * Z.pos m + P) by lia.
  assert (H2 : 2 * Z.pos m + P <= 2 * P * q + 2 * P) by lia.
  rewrite Zle_Qle in H1, H2.
  repeat first [rewrite inject_Z_plus in H1 | rewrite inject_Z_mult in H1].
  repeat first [rewrite inject_Z_plus in H2 | rewrite inject_Z_mult in H2].
  assert (HPq : (0 < inject_Z P)%Q) by (change 0%Q with (inject_Z 0); rewrite <- Zlt_Qlt; lia).
  change (inject_Z 2) with 2%Q in *.
  set (U := Qval _) in *. set (Pq := inject_Z P) in *.
  set (mq := inject_Z (Z.pos m)) in *. set (qq := inject_Z q) in *.
  clear Hu.
  split; apply (Qmult_le_r _ _ Pq HPq); lra.
Qed.

(** ** The two allocation passes *)

Lemma Qval_normal_pos (m : positive) (e : Z) :
  (0 < Qval (S754_finite false m e))%Q.
Proof.
  cbn [Qval JS.smant]. apply Qmult_lt_0_compat; [reflexivity|apply Qpow2_pos].
Qed.

Lemma total_nonneg (ps : list Z) : Forall (fun p => 0 < p) ps -> 0 <= total ps.
Proof. induction 1; cbn; [lia|]. fold (total l). lia. Qed.

(** One allocation through the rescale pass, when the floor stays idle. *)
Lemma rescale_one (p : Z) (ms : positive) (es : Z) :
  0 < p < 2 ^ 53 ->
  Z.pos (digits2_pos ms) = 53 -> -105 <= es <= 1 ->
  let scale := S754_finite false ms es in
  (inject_Z p * Qval scale <= inject_Z (2 ^ 51))%Q ->
  JS.le MIN_POINTS_PER_TENSOR (JS.Math_round (JS.mul (JS.fromZ p) scale)) = true ->
  exists q,
    JS.Math_max MIN_POINTS_PER_TENSOR (JS.Math_round (JS.mul (JS.fromZ p) scale))
      = JS.fromZ q /\
    400 <= q <= 2 ^ 52 /\
    ((1 - eps) * (inject_Z p * Qval scale) - (1 # 2) <= inject_Z q /\
     inject_Z q <= (1 + eps) * (inject_Z p * Qval scale) + (1 # 2))%Q.
Proof.
  intros Hp Hms Hes scale Hbound Hle.
  pose proof (Qval_fromZ p Hp) as Vp.
  destruct p as [|p|p]; [lia| |lia].
  destruct (fromZ_pos_normal p ltac:(lia)) as (mp & ep & Ep & Dp & Rep & _).
  rewrite Ep in *.
  destruct (Qval_mul mp ms ep es Dp Hms ltac:(lia)) as (mu & eu & Eu & Du & Bu).
  cbv zeta in Bu. fold scale in Eu, Bu. rewrite Eu in *.
  rewrite Vp in Bu.
  pose proof (Qval_normal_pos ms es) as Hs. fold scale in Hs.
  change (inject_Z (2 ^ 51)) with (2251799813685248 # 1)%Q in Hbound.
  assert (Hu : (Qval (S754_finite false mu eu) < inject_Z (2 ^ 52))%Q).
  { change (inject_Z (2 ^ 52)) with (4503599627370496 # 1)%Q.
    unfold eps in Bu. lra. }
  destruct (Math_round_normal mu eu Du Hu) as (q & Er & Hq & Bq).
  rewrite Er in *.
  unfold MIN_POINTS_PER_TENSOR in *.
  destruct (Z.eqb_spec q 0) as [Hq0|Hq0].
  - exfalso. revert Hle. vm_compute. discriminate.
  - assert (Hq53 : 0 < q < 2 ^ 53).
    { change (2 ^ 52) with 4503599627370496 in Hq.
      change (2 ^ 53) with 9007199254740992. lia. }
    rewrite le_fromZ in Hle by (assumption || (vm_compute; split; reflexivity)).
    apply Z.leb_le in Hle.
    exists q. rewrite Math_max_fromZ by (assumption || (vm_compute; split; reflexivity)).
    rewrite Z.max_r by lia.
    split; [reflexivity|]. split; [lia|]. lra.
Qed.

(** The whole rescale pass for a fixed scale. *)
Lemma rescale_all (ms : positive) (es : Z) (B : Z) :
  Z.pos (digits2_pos ms) = 53 -> -105 <= es <= 1 ->
  let scale := S754_finite false ms es in
  B < 2 ^ 53 ->
  (inject_Z B * Qval scale <= inject_Z (2 ^ 51))%Q ->
  forall (allocs : list TensorAlloc) (ps : list Z),
    map pointCount allocs = map JS.fromZ ps ->
    Forall (fun p => 0 < p <= B) ps ->
    forallb (fun a => JS.le MIN_POINTS_PER_TENSOR (rescaled scale a)) allocs = true ->
    exists qs,
      map (fun a => JS.Math_max MIN_POINTS_PER_TENSOR (rescaled scale a)) allocs
        = map JS.fromZ qs /\
      Forall (fun q => 400 <= q) qs /\
      let n := inject_Z (Z.of_nat (length allocs)) in
      ((1 - eps) * (inject_Z (total ps) * Qval scale) - n * (1 # 2)
         <= inject_Z (total qs) /\
       inject_Z (total qs)
         <= (1 + eps) * (inject_Z (total ps) * Qval scale) + n * (1 # 2))%Q.
Proof.
  intros Hms Hes scale HB Hbound allocs.
  pose proof (Qval_normal_pos ms es) as Hs. fold scale in Hs.
  induction allocs as [|a allocs IH]; intros ps Hmap Hps Hidle.
  - destruct ps; [|discriminate]. exists [].
    split; [reflexivity|]. split; [constructor|].
    cbv zeta. cbn [length total fold_right].
    change (inject_Z (Z.of_nat 0)) with 0%Q. change (inject_Z 0) with 0%Q.
    unfold eps. set (s := Qval scale) in *. split; lra.
  - destruct ps as [|p ps]; [discriminate|].
    cbn [map] in Hmap. injection Hmap as Ha Hmap.
    apply Forall_cons in Hps as [Hp Hps].
    cbn [forallb] in Hidle. apply andb_true_iff in Hidle as [Hle Hidle].
    destruct (IH ps Hmap Hps Hidle) as (qs & Eqs & Fqs & Bqs).
    cbn [map]. unfold rescaled in Hle. unfold rescaled at 1. rewrite Ha in *.
    assert (HpB : (inject_Z p * Qval scale <= inject_Z (2 ^ 51))%Q).
    { assert (Hpq : (inject_Z p <= inject_Z B)%Q) by (rewrite <- Zle_Qle; lia).
      set (x := inject_Z p) in *. set (b := inject_Z B) in *.
      set (s := Qval scale) in *. set (c := inject_Z (2 ^ 51)) in *.
      apply Qle_trans with (b * s)%Q; [|assumption].
      apply Qmult_le_compat_r; lra. }
    destruct (rescale_one p ms es ltac:(lia) Hms Hes HpB Hle) as (q & Eq & Hq & Bq).
    fold scale in Eq, Bq.
    exists (q :: qs). cbn [map]. rewrite Eq.
    split; [f_equal; exact Eqs|].
    split; [constructor; [lia|assumption]|].
    cbv zeta in Bqs |- *.
    cbn [length total fold_right]. fold (total ps). fold (total qs).
    rewrite Nat2Z.inj_succ. unfold Z.succ.
    rewrite !inject_Z_plus.
    change (inject_Z 1) with 1%Q.
    set (x := inject_Z p) in *. set (s := Qval scale) in *.
    set (tp := inject_Z (total ps)) in *. set (tq := inject_Z (total qs)) in *.
    set (n := inject_Z (Z.of_nat (length allocs))) in *.
    set (y := inject_Z q) in *. unfold eps in *.
    split; lra.
Qed.

Lemma le_total (ps : list Z) :
  Forall (fun p => 0 < p) ps -> Forall (fun p => 0 < p <= total ps) ps.
Proof.
  induction 1 as [|p ps Hp Hps IH]; constructor.
  - pose proof (total_nonneg ps Hps). cbn. fold (total ps). lia.
  - eapply Forall_impl; [exact IH|]. cbn. fold (total ps).
    intros q Hq. lia.
Qed.

Lemma floor_total (qs : list Z) :
  Forall (fun q => 400 <= q) qs -> 400 * Z.of_nat (length qs) <= total qs.
Proof.
  induction 1 as [|q qs Hq Hqs IH]; [cbn; lia|].
  cbn [length total fold_right]. fold (total qs). lia.
Qed.

Lemma fromZ_normal (n : Z) :
  0 < n < 2 ^ 53 ->
  exists m e, JS.fromZ n = S754_finite false m e /\
              Z.pos (digits2_pos m) = 53 /\ - 52 <= e <= 0.
Proof.
  intros Hn. destruct n as [|p|p]; [lia| |lia].
  destruct (fromZ_pos_normal p ltac:(lia)) as (m & e & E & D & R & _).
  exists m, e. auto.
Qed.

Lemma gt_zero_fromZ (n : Z) : 0 < n < 2 ^ 53 -> JS.gt (JS.fromZ n) JS.pos_zero = true.
Proof.
  intros Hn. destruct (fromZ_normal n Hn) as (m & e & -> & _). reflexivity.
Qed.

(** The rescale pass on integer allocations: when the floor stays idle, the
    new total is within one point per tensor of the target. *)
Lemma rescaleAllocs_near_target (allocs : list TensorAlloc) (ps : list Z) (t : Z) :
  allocs <> [] -> 0 < t < 2 ^ 50 ->
  map pointCount allocs = map JS.fromZ ps ->
  Forall (fun p => 0 < p) ps -> total ps < 2 ^ 53 ->
  floor_idle allocs (JS.fromZ t) = true ->
  exists qs,
    map pointCount (rescaleAllocs allocs (JS.fromZ t)) = map JS.fromZ qs /\
    Forall (fun q => 400 <= q) qs /\
    sum_by pointCount (rescaleAllocs allocs (JS.fromZ t)) = JS.fromZ (total qs) /\
    Z.abs (total qs - t) <= Z.of_nat (length allocs).
Proof.
  intros Hne Ht Hmap Hps Htot Hidle.
  assert (Hlen : length ps = length allocs).
  { apply (f_equal (@length _)) in Hmap. rewrite !length_map in Hmap. lia. }
  assert (HA : 0 < total ps).
  { destruct ps as [|p ps]; [destruct allocs; [congruence|discriminate]|].
    apply Forall_cons in Hps as [Hp Hps]. pose proof (total_nonneg ps Hps).
    cbn. fold (total ps). lia. }
  pose proof (sum_by_fromZ pointCount allocs ps Hmap Hps Htot) as Hsum.
  unfold floor_idle in Hidle. cbv zeta in Hidle.
  unfold rescaleAllocs. cbv zeta. rewrite Hsum in *.
  rewrite gt_zero_fromZ by lia.
  set (A := total ps) in *.
  assert (Ht53 : 0 < t < 2 ^ 53) by (change (2 ^ 53) with (2 ^ 50 * 8); lia).
  pose proof (Qval_fromZ t Ht53) as Vt.
  pose proof (Qval_fromZ A ltac:(lia)) as VA.
  destruct (fromZ_normal t Ht53) as (mt & et & Et & Dt & Ret).
  destruct (fromZ_normal A ltac:(lia)) as (mA & eA & EAp & DA & ReA).
  rewrite Et, EAp in *.
  destruct (Qval_div mt mA et eA Dt DA ltac:(lia)) as (ms & es & Es & Ds & Res & Bs).
  cbv zeta in Bs. rewrite Es in *. rewrite Vt, VA in Bs.
  set (scale := S754_finite false ms es) in *.
  assert (HT : (inject_Z t <= (1125899906842624 # 1))%Q).
  { change (1125899906842624 # 1)%Q with (inject_Z (2 ^ 50)).
    rewrite <- Zle_Qle. lia. }
  assert (HT0 : (0 < inject_Z t)%Q)
    by (change 0%Q with (inject_Z 0); rewrite <- Zlt_Qlt; lia).
  assert (Hbound : (inject_Z (A) * Qval scale <= inject_Z (2 ^ 51))%Q).
  { change (inject_Z (2 ^ 51)) with (2251799813685248 # 1)%Q.
    rewrite Qmult_comm. unfold eps in Bs. lra. }
  destruct (rescale_all ms es (A) Ds ltac:(lia) ltac:(lia) Hbound
              allocs ps Hmap ltac:(apply le_total; assumption) Hidle)
    as (qs & Eqs & Fqs & Bqs).
  fold scale in Eqs, Bqs. cbv zeta in Bqs.
  assert (Hmapq : map pointCount
            (map (fun a => {| alloc_tensor := alloc_tensor a; alloc_cls := alloc_cls a;
                              pointCount := JS.Math_max MIN_POINTS_PER_TENSOR
                                (JS.Math_round (JS.mul (pointCount a) scale)) |}) allocs)
          = map JS.fromZ qs).
  { rewrite map_map. cbn [pointCount]. exact Eqs. }
  assert (Hlenq : length qs = length allocs).
  { apply (f_equal (@length _)) in Eqs. rewrite !length_map in Eqs. lia. }
  pose proof (floor_total qs Fqs) as Hfl. rewrite Hlenq in Hfl.
  assert (Hn : 1 <= Z.of_nat (length allocs)) by (destruct allocs; [congruence|cbn; lia]).
  (* the bound, on the rationals *)
  assert (HQ : (inject_Z t
                  <= inject_Z (total qs) + inject_Z (Z.of_nat (length allocs)) /\
                inject_Z (total qs)
                  <= inject_Z t + inject_Z (Z.of_nat (length allocs)))%Q).
  { assert (Hnq : (1 <= inject_Z (Z.of_nat (length allocs)))%Q)
      by (change 1%Q with (inject_Z 1); rewrite <- Zle_Qle; lia).
    fold A in Bqs.
    assert (HsA : (Qval scale * inject_Z A == inject_Z A * Qval scale)%Q) by ring.
    rewrite HsA in Bs.
    set (T := inject_Z t) in *. set (n := inject_Z (Z.of_nat (length allocs))) in *.
    set (w := (inject_Z A * Qval scale)%Q) in *. set (Q := inject_Z (total qs)) in *.
    unfold eps in *. split; lra. }
  rewrite <- !inject_Z_plus, <- !Zle_Qle in HQ.
  exists qs. split; [exact Hmapq|]. split; [exact Fqs|].
  split; [|lia].
  apply sum_by_fromZ; [exact Hmapq| |].
  - eapply Forall_impl; [exact Fqs|]. cbv beta. intros; lia.
  - change (2 ^ 53) with 9007199254740992. change (2 ^ 50) with 1125899906842624 in Ht. lia.
Qed.

(** [Math.floor] of a positive normal number below [2^52]. *)
Lemma Math_floor_normal (m : positive) (e : Z) :
  Z.pos (digits2_pos m) = 53 ->
  (Qval (S754_finite false m e) < inject_Z (2 ^ 52))%Q ->
  exists f,
    JS.Math_floor (S754_finite false m e) = JS.fromZ f /\
    0 <= f < 2 ^ 52 /\
    (inject_Z f <= Qval (S754_finite false m e))%Q.
Proof.
  intros Hd Hu.
  assert (Hneg : e < 0).
  { destruct (Z_lt_le_dec e 0) as [|Hge]; [assumption|exfalso].
    pose proof (Qval_normal_large m e Hd Hge). lra. }
  pose proof (digits_bracket _ _ Hd) as HB. change (2 ^ (53 - 1)) with (2 ^ 52) in HB.
  unfold JS.Math_floor. replace (0 <=? e) with false by (symmetry; apply Z.leb_gt; lia).
  cbn [JS.smant].
  set (P := 2 ^ (- e)).
  assert (HP : 2 <= P).
  { unfold P. change 2 with (2 ^ 1) at 1. apply Z.pow_le_mono_r; lia. }
  pose proof (Z.div_mod (Z.pos m) P ltac:(lia)) as Hdm.
  pose proof (Z.mod_pos_bound (Z.pos m) P ltac:(lia)) as Hmb.
  set (f := Z.pos m / P) in *.
  exists f. split; [reflexivity|].
  change (2 ^ 53) with 9007199254740992 in *.
  change (2 ^ 52) with 4503599627370496 in *.
  assert (Hf : 0 <= f < 4503599627370496) by (split; nia).
  split; [assumption|].
  assert (HU : (Qval (S754_finite false m e) * inject_Z P == inject_Z (Z.pos m))%Q).
  { cbn [Qval JS.smant]. unfold P. rewrite Qpow2_inject by lia.
    rewrite <- Qmult_assoc, <- Qpow2_add.
    replace (e + - e) with 0 by lia. change (2 ^ 0)%Q with 1%Q. ring. }
  assert (H1 : f * P <= Z.pos m) by lia.
  rewrite Zle_Qle, inject_Z_mult in H1.
  assert (HPq : (0 < inject_Z P)%Q)
    by (change 0%Q with (inject_Z 0); rewrite <- Zlt_Qlt; lia).
  clear Hu.
  set (U := Qval _) in *. set (Pq := inject_Z P) in *.
  apply (Qmult_le_r _ _ Pq HPq). lra.
Qed.

Lemma Math_max_floor_fromZ (f : Z) :
  0 <= f < 2 ^ 53 ->
  JS.Math_max MIN_POINTS_PER_TENSOR (JS.fromZ f) = JS.fromZ (Z.max 400 f).
Proof.
  intros Hf. unfold MIN_POINTS_PER_TENSOR.
  destruct (Z.eq_dec f 0) as [->|Hf0]; [reflexivity|].
  apply Math_max_fromZ; [vm_compute; split; reflexivity|lia].
Qed.

(** One tensor through the first pass. *)
Lemma raw_one (n : Z) (mr : positive) (er : Z) :
  0 < n < 2 ^ 53 ->
  Z.pos (digits2_pos mr) = 53 -> -105 <= er <= 1 ->
  let ratio := S754_finite false mr er in
  (inject_Z n <= inject_Z (2 ^ 51) * Qval ratio)%Q ->
  exists p,
    JS.Math_max MIN_POINTS_PER_TENSOR
      (JS.Math_floor (JS.div (JS.fromZ n) ratio)) = JS.fromZ p /\
    400 <= p <= 2 ^ 52 /\
    (inject_Z (p - 400) * Qval ratio <= (1 + eps) * inject_Z n)%Q.
Proof.
  intros Hn Hmr Her ratio Hbound.
  pose proof (Qval_fromZ n Hn) as Vn.
  destruct (fromZ_normal n Hn) as (mn & en & En & Dn & Ren).
  rewrite En in *.
  destruct (Qval_div mn mr en er Dn Hmr ltac:(lia)) as (md & ed & Ed & Dd & _ & Bd).
  cbv zeta in Bd. fold ratio in Ed, Bd. rewrite Ed, Vn in *.
  pose proof (Qval_normal_pos mr er) as Hr. fold ratio in Hr.
  pose proof (Qval_normal_pos md ed) as Hd0.
  assert (Hn0 : (0 < inject_Z n)%Q)
    by (change 0%Q with (inject_Z 0); rewrite <- Zlt_Qlt; lia).
  change (inject_Z (2 ^ 51)) with (2251799813685248 # 1)%Q in Hbound.
  assert (Hu : (Qval (S754_finite false md ed) < inject_Z (2 ^ 52))%Q).
  { change (inject_Z (2 ^ 52)) with (4503599627370496 # 1)%Q.
    apply (Qmult_lt_r _ _ (Qval ratio) Hr).
    set (d := Qval (S754_finite false md ed)) in *. set (r := Qval ratio) in *.
    set (x := inject_Z n) in *. unfold eps in *. lra. }
  destruct (Math_floor_normal md ed Dd Hu) as (f & Ef & Hf & Bf).
  rewrite Ef.
  change (2 ^ 52) with 4503599627370496 in *.
  rewrite Math_max_floor_fromZ by (change (2 ^ 53) with 9007199254740992; lia).
  exists (Z.max 400 f). split; [reflexivity|]. split; [lia|].
  assert (Hpf : (inject_Z (Z.max 400 f - 400) <= inject_Z f)%Q)
    by (rewrite <- Zle_Qle; lia).
  assert (Hp0 : (0 <= inject_Z (Z.max 400 f - 400))%Q)
    by (change 0%Q with (inject_Z 0); rewrite <- Zle_Qle; lia).
  apply Qle_trans with (Qval (S754_finite false md ed) * Qval ratio)%Q; [|lra].
  apply Qmult_le_compat_r; lra.
Qed.

(** The whole first pass for a fixed ratio. *)
Lemma raw_all (mr : positive) (er : Z) (N : Z) :
  Z.pos (digits2_pos mr) = 53 -> -105 <= er <= 1 ->
  let ratio := S754_finite false mr er in
  N < 2 ^ 53 ->
  (inject_Z N <= inject_Z (2 ^ 51) * Qval ratio)%Q ->
  forall (tensors : list Tensor) (ns : list Z),
    map numElements tensors = map JS.fromZ ns ->
    Forall (fun n => 0 < n <= N) ns ->
    exists ps,
      map (fun t => JS.Math_max MIN_POINTS_PER_TENSOR
                      (JS.Math_floor (JS.div (numElements t) ratio))) tensors
        = map JS.fromZ ps /\
      Forall (fun p => 0 < p) ps /\
      let n := inject_Z (Z.of_nat (length tensors)) in
      ((inject_Z (total ps) - n * (400 # 1)) * Qval ratio
         <= (1 + eps) * inject_Z (total ns))%Q.
Proof.
  intros Hmr Her ratio HN Hbound tensors.
  pose proof (Qval_normal_pos mr er) as Hr. fold ratio in Hr.
  induction tensors as [|t tensors IH]; intros ns Hmap Hns.
  - destruct ns; [|discriminate]. exists [].
    split; [reflexivity|]. split; [constructor|].
    cbv zeta. cbn [length total fold_right].
    change (inject_Z (Z.of_nat 0)) with 0%Q. change (inject_Z 0) with 0%Q.
    unfold eps. set (s := Qval ratio) in *. lra.
  - destruct ns as [|n ns]; [discriminate|].
    cbn [map] in Hmap. injection Hmap as Ht Hmap.
    apply Forall_cons in Hns as [Hn Hns].
    destruct (IH ns Hmap Hns) as (ps & Eps & Fps & Bps).
    cbn [map]. rewrite Ht.
    assert (HnB : (inject_Z n <= inject_Z (2 ^ 51) * Qval ratio)%Q).
    { apply Qle_trans with (inject_Z N); [rewrite <- Zle_Qle; lia|assumption]. }
    destruct (raw_one n mr er ltac:(lia) Hmr Her HnB) as (p & Ep & Hp & Bp).
    fold ratio in Ep, Bp.
    exists (p :: ps). cbn [map]. rewrite Ep.
    split; [f_equal; exact Eps|].
    split; [constructor; [lia|assumption]|].
    cbv zeta in Bps |- *.
    cbn [length total fold_right]. fold (total ps). fold (total ns).
    rewrite Nat2Z.inj_succ. unfold Z.succ.
    unfold Z.sub in Bp. rewrite !inject_Z_plus in *.
    change (inject_Z 1) with 1%Q. change (inject_Z (- (400))) with (- (400 # 1))%Q in Bp.
    set (x := inject_Z p) in *. set (r := Qval ratio) in *.
    set (tp := inject_Z (total ps)) in *. set (tn := inject_Z (total ns)) in *.
    set (k := inject_Z (Z.of_nat (length tensors))) in *.
    set (y := inject_Z n) in *. unfold eps in *.
    lra.
Qed.

Lemma rawAllocs_integers (tensors : list Tensor) (ns : list Z) (t : Z) :
  tensors <> [] -> 0 < t < 2 ^ 50 ->
  map numElements tensors = map JS.fromZ ns ->
  Forall (fun n => 0 < n) ns -> total ns < 2 ^ 53 ->
  Z.of_nat (length tensors) <= 2 ^ 40 ->
  exists ps,
    map pointCount (rawAllocs tensors (JS.fromZ t)) = map JS.fromZ ps /\
    Forall (fun p => 0 < p) ps /\ total ps < 2 ^ 53.
Proof.
  intros Hne Ht Hmap Hns Htot Hlen.
  assert (HN : 0 < total ns).
  { destruct ns as [|n ns]; [destruct tensors; [congruence|discriminate]|].
    apply Forall_cons in Hns as [Hn Hns]. pose proof (total_nonneg ns Hns).
    cbn. fold (total ns). lia. }
  pose proof (sum_by_fromZ numElements tensors ns Hmap Hns Htot) as Hsum.
  unfold rawAllocs. cbv zeta. rewrite Hsum, map_map. cbn [pointCount].
  set (N := total ns) in *.
  assert (Ht53 : 0 < t < 2 ^ 53) by (change (2 ^ 53) with (2 ^ 50 * 8); lia).
  pose proof (Qval_fromZ t Ht53) as Vt.
  pose proof (Qval_fromZ N ltac:(lia)) as VN.
  destruct (fromZ_normal t Ht53) as (mt & et & Et & Dt & Ret).
  destruct (fromZ_normal N ltac:(lia)) as (mN & eN & EN & DN & ReN).
  rewrite Et, EN in *.
  destruct (Qval_div mN mt eN et DN Dt ltac:(lia)) as (mr & er & Er & Dr & Rer & Br).
  cbv zeta in Br. rewrite Er. rewrite Vt, VN in Br.
  set (ratio := S754_finite false mr er) in *.
  pose proof (Qval_normal_pos mr er) as Hr. fold ratio in Hr.
  assert (HT : (inject_Z t <= (1125899906842624 # 1))%Q).
  { change (1125899906842624 # 1)%Q with (inject_Z (2 ^ 50)).
    rewrite <- Zle_Qle. lia. }
  assert (HT0 : (0 < inject_Z t)%Q)
    by (change 0%Q with (inject_Z 0); rewrite <- Zlt_Qlt; lia).
  assert (HN0 : (0 < inject_Z N)%Q)
    by (change 0%Q with (inject_Z 0); rewrite <- Zlt_Qlt; lia).
  assert (HrT : (Qval ratio * inject_Z t <= Qval ratio * (1125899906842624 # 1))%Q).
  { rewrite !(Qmult_comm (Qval ratio)). apply Qmult_le_compat_r; lra. }
  assert (Hbound : (inject_Z N <= inject_Z (2 ^ 51) * Qval ratio)%Q).
  { change (inject_Z (2 ^ 51)) with (2251799813685248 # 1)%Q.
    unfold eps in Br. lra. }
  destruct (raw_all mr er N Dr ltac:(lia) ltac:(lia) Hbound tensors ns Hmap
              ltac:(apply le_total; assumption))
    as (ps & Eps & Fps & Bps).
  fold ratio in Eps, Bps. cbv zeta in Bps. fold N in Bps.
  exists ps. split; [exact Eps|]. split; [exact Fps|].
  (* the first-pass total: at most 400 per tensor plus twice the target *)
  assert (HQ : (inject_Z (total ps)
                <= inject_Z (Z.of_nat (length tensors)) * (400 # 1)
                   + (2 # 1) * inject_Z t)%Q).
  { apply (Qmult_le_r _ _ (Qval ratio) Hr).
    set (r := Qval ratio) in *. set (T := inject_Z t) in *.
    set (n := inject_Z (Z.of_nat (length tensors))) in *.
    set (P := inject_Z (total ps)) in *. set (Nq := inject_Z N) in *.
    unfold eps in *. lra. }
  change (400 # 1)%Q with (inject_Z 400) in HQ.
  change (2 # 1)%Q with (inject_Z 2) in HQ.
  rewrite <- !inject_Z_mult, <- inject_Z_plus, <- Zle_Qle in HQ.
  change (2 ^ 53) with 9007199254740992.
  change (2 ^ 50) with 1125899906842624 in Ht.
  change (2 ^ 40) with 1099511627776 in Hlen. lia.
Qed.


(** ** The 64-bit read *)

Lemma fromZ_exact_upto (n : Z) :
  0 <= n <= 2 ^ 53 -> JS.toZ (JS.fromZ n) = Some n.
Proof.
  intros [H0 H1]. destruct (Z.eq_dec n (2 ^ 53)) as [->|NE].
  - vm_compute. reflexivity.
  - apply fromZ_exact. lia.
Qed.

Lemma le_uint64_range (b : ArrayBuffer) (i : Z) : 0 <= le_uint64 b i < 2 ^ 64.
Proof.
  rewrite le_uint64_halves.
  pose proof (getUint32_range b i). pose proof (getUint32_range b (i + 4)). lia.
Qed.

(** C1 (as stated, refuted).  The eight bytes [01 00 00 00 00 00 20 00] store
    2^53 + 1; the 64-bit unsigned read returns the double 2^53: the stored
    value has been rounded. *)
Lemma readUint64_rounds_above_2_53 :
  let b := ArrayBuffer_of_bytes [x01; x00; x00; x00; x00; x00; x20; x00] in
  0 + 8 <= byteLength b /\
  le_uint64 b 0 = 2 ^ 53 + 1 /\
  readUint64 (new_BufferReader b)
  = Ok (JS.fromZ (2 ^ 53), {| buf := b; offset := 8 |}) /\
  JS.toZ (JS.fromZ (2 ^ 53)) = Some (2 ^ 53) /\
  ~ reads_uint64_exactly b 0.
Proof.
  cbv zeta.
  assert (Hrun : readUint64 (new_BufferReader (ArrayBuffer_of_bytes [x01; x00; x00; x00; x00; x00; x20; x00]))
       = Ok (JS.fromZ (2 ^ 53), {| buf := ArrayBuffer_of_bytes [x01; x00; x00; x00; x00; x00; x20; x00]; offset := 8 |})).
  { unfold new_BufferReader. rewrite readUint64_run by (vm_compute; discriminate).
    reflexivity. }
  split; [vm_compute; discriminate|].
  split; [reflexivity|].
  split; [exact Hrun|].
  split; [reflexivity|].
  intros (v & r & Hv & Hz). unfold new_BufferReader in Hrun.
  rewrite Hrun in Hv. injection Hv as <- _.
  vm_compute in Hz. discriminate.
Qed.

(** C1 (amended).  With at least 8 bytes remaining, the 64-bit unsigned read
    returns [Number] of the little-endian value -- the nearest double -- and
    moves the cursor by 8; the number denotes the stored value exactly
    whenever that value is at most 2^53. *)
Theorem readUint64_exact_upto_2_53 (b : ArrayBuffer) (off : Z) :
  0 <= off -> off + 8 <= byteLength b ->
  readUint64 {| buf := b; offset := off |}
  = Ok (JS.fromZ (le_uint64 b off), {| buf := b; offset := off + 8 |}) /\
  (le_uint64 b off <= 2 ^ 53 -> reads_uint64_exactly b off).
Proof.
  intros H0 H8. split; [apply readUint64_run; exact H8|].
  intros Hle. exists (JS.fromZ (le_uint64 b off)), {| buf := b; offset := off + 8 |}.
  split; [apply readUint64_run; exact H8|].
  apply fromZ_exact_upto. pose proof (le_uint64_range b off). lia.
Qed.

Lemma readUint64_exact_upto_2_53_witness :
  let b := ArrayBuffer_of_bytes [xff; xff; xff; xff; xff; xff; x1f; x00; x00] in
  le_uint64 b 0 = 2 ^ 53 - 1 /\ reads_uint64_exactly b 0.
Proof.
  cbv zeta. split; [reflexivity|].
  apply (readUint64_exact_upto_2_53
           (ArrayBuffer_of_bytes [xff; xff; xff; xff; xff; xff; x1f; x00; x00]) 0);
    [lia | vm_compute; discriminate | vm_compute; discriminate].
Defined.

(** ** The retry loop and the data offset *)

(** An insufficient-data failure only comes out of the loop from an attempt
    that covered the whole file. *)
Lemma parseGGUFHeader_loop_surfaces (file : File) (fuel : nat) :
  forall readSize,
    snd (parseGGUFHeader_loop fuel file readSize) = Throw BUFFER_TOO_SMALL ->
    size file <= List.last (fst (parseGGUFHeader_loop fuel file readSize)) readSize.
Proof.
  induction fuel as [|fuel IH]; intros readSize; [discriminate|].
  rewrite parseGGUFHeader_loop_step.
  destruct (_parseHeader file readSize) as [h|e|]; try discriminate.
  destruct (is_BUFFER_TOO_SMALL e && (readSize <? size file)) eqn:Hc.
  - cbn [fst snd]. intros H. rewrite last_cons. apply IH. exact H.
  - cbn [fst snd]. intros [= ->]. cbn in Hc. apply Z.ltb_ge in Hc. exact Hc.
Qed.

(** A run of [parseGGUFHeader]: the sizes it expands to are those of
    [retries], its result is the outcome of the last attempt, and the bound
    on the number of turns is not reached. *)
Lemma parseGGUFHeader_run (file : File) :
  let first := Z.min (size file) (10 * 1024 * 1024) in
  let log := fst (parseGGUFHeader file) in
  let res := snd (parseGGUFHeader file) in
  retries file first log /\
  res = _parseHeader file (List.last log first) /\
  res <> OutOfFuel /\
  (res = Throw BUFFER_TOO_SMALL -> List.last log first = size file).
Proof.
  cbv zeta.
  pose proof (parseGGUFHeader_terminates file) as Hterm.
  destruct (parseGGUFHeader file) as [log res] eqn:Hrun. cbn [fst snd] in *.
  assert (Hrun' := Hrun). unfold parseGGUFHeader, initial_readSize in Hrun'.
  destruct (parseGGUFHeader_loop_trace _ _ _ _ _ Hrun') as [Hretries Hres].
  destruct Hres as [->|Hres]; [contradiction|].
  split; [exact Hretries|]. split; [exact Hres|]. split; [exact Hterm|].
  intros Hbts. apply Z.le_antisymm.
  - apply retries_within; [exact Hretries | lia].
  - pose proof (parseGGUFHeader_loop_surfaces file _ _
                  ltac:(rewrite Hrun'; exact Hbts)) as H.
    rewrite Hrun' in H. exact H.
Qed.

(** C6 (amended).  The first attempt reads min(file size, 10 MiB).  An
    attempt that runs out of data on a slice shorter than the file is
    followed by a retry on four times as many bytes, capped at the file
    size; an attempt that fails in any other way, or that runs out of data
    when the slice already is the whole file, ends the loop with that
    failure; the loop always ends, and its result is the outcome of its last
    attempt. *)
Theorem parseGGUFHeader_retry_policy (file : File) :
  let first := Z.min (size file) (10 * 1024 * 1024) in
  let log := fst (parseGGUFHeader file) in
  let res := snd (parseGGUFHeader file) in
  (* the run as a whole *)
  retries file first log /\
  res = _parseHeader file (List.last log first) /\
  res <> OutOfFuel /\
  (res = Throw BUFFER_TOO_SMALL -> List.last log first = size file) /\
  (* each turn of the loop *)
  (forall fuel readSize,
     _parseHeader file readSize = Throw BUFFER_TOO_SMALL ->
     readSize < size file ->
     retried fuel file readSize) /\
  (forall fuel readSize,
     _parseHeader file readSize = Throw BUFFER_TOO_SMALL ->
     size file <= readSize ->
     parseGGUFHeader_loop (S fuel) file readSize = ([], Throw BUFFER_TOO_SMALL)) /\
  (forall fuel readSize e,
     _parseHeader file readSize = Throw e ->
     e <> BUFFER_TOO_SMALL ->
     parseGGUFHeader_loop (S fuel) file readSize = ([], Throw e)).
Proof.
  cbv zeta.
  destruct (parseGGUFHeader_run file) as (Hretries & Hres & Hterm & Hfull).
  split; [exact Hretries|]. split; [exact Hres|]. split; [exact Hterm|].
  split; [exact Hfull|]. split; [|split].
  - intros fuel readSize Hat Hlt. unfold retried.
    rewrite parseGGUFHeader_loop_step, Hat. cbn [is_BUFFER_TOO_SMALL andb].
    apply Z.ltb_lt in Hlt. rewrite Hlt. eauto.
  - intros fuel readSize Hat Hge.
    rewrite parseGGUFHeader_loop_step, Hat. cbn [is_BUFFER_TOO_SMALL andb].
    apply Z.ltb_ge in Hge. rewrite Hge. reflexivity.
  - intros fuel readSize e Hat Hne.
    rewrite parseGGUFHeader_loop_step, Hat.
    destruct e; try reflexivity. contradiction.
Qed.

(** C6 (as stated, refuted).  A file cut off after its magic and version:
    the only attempt reads all 8 bytes and runs out of data, and the loop
    does not retry; the failure comes out. *)
Lemma parseGGUFHeader_truncated_not_retried :
  let file := File_of_bytes [x47; x47; x55; x46; x03; x00; x00; x00] in
  initial_readSize file = 8 /\
  _parseHeader file 8 = Throw BUFFER_TOO_SMALL /\
  (forall fuel, ~ retried fuel file 8) /\
  parseGGUFHeader file = ([], Throw BUFFER_TOO_SMALL).
Proof.
  cbv zeta.
  assert (Hat : _parseHeader (File_of_bytes [x47; x47; x55; x46; x03; x00; x00; x00]) 8
                = Throw BUFFER_TOO_SMALL) by (vm_compute; reflexivity).
  split; [reflexivity|]. split; [exact Hat|]. split; [|vm_compute; reflexivity].
  intros fuel (log & res & H).
  rewrite parseGGUFHeader_loop_step, Hat in H. discriminate.
Qed.

Lemma parseGGUFHeader_retry_policy_witness :
  parseGGUFHeader oversized_key_file
  = ([40 * 1024 * 1024; 50 * 1024 * 1024], Throw BUFFER_TOO_SMALL) /\
  retries oversized_key_file (10 * 1024 * 1024)
    [40 * 1024 * 1024; 50 * 1024 * 1024].
Proof.
  assert (H : parseGGUFHeader oversized_key_file
              = ([40 * 1024 * 1024; 50 * 1024 * 1024], Throw BUFFER_TOO_SMALL))
    by (lazy; reflexivity).
  split; [exact H|].
  pose proof (parseGGUFHeader_retry_policy oversized_key_file) as P.
  cbv zeta in P. rewrite H in P. exact (proj1 P).
Defined.

Lemma advances_parseHeaderBody (fuel : nat) : advances 24 (parseHeaderBody fuel).
Proof.
  unfold parseHeaderBody.
  eapply advances_weaken;
    [| apply advances_bind with (c1 := 4) (c2 := 20); [apply advances_readUint32|] ]; [lia|].
  intros magic. destruct (negb _); [intros r a r' _; discriminate|].
  eapply advances_weaken;
    [| apply advances_bind with (c1 := 4) (c2 := 16); [apply advances_readUint32|] ]; [lia|].
  intros version. destruct (_ || _); [intros r a r' _; discriminate|].
  eapply advances_weaken;
    [| apply advances_bind with (c1 := 8) (c2 := 8); [apply advances_readUint64|] ]; [lia|].
  intros tensorCount.
  eapply advances_weaken;
    [| apply advances_bind with (c1 := 8) (c2 := 0); [apply advances_readUint64|] ]; [lia|].
  intros metadataKVCount.
  change 0 with (0 + 0). apply advances_bind.
  { apply advances_for_loop. intros _ acc.
    eapply advances_weaken;
      [| apply advances_bind with (c1 := 8) (c2 := 0); [apply advances_readString|] ]; [lia|].
    intros key.
    eapply advances_weaken;
      [| apply advances_bind with (c1 := 4) (c2 := 0); [apply advances_readUint32|] ]; [lia|].
    intros valueType.
    eapply advances_weaken;
      [| apply advances_bind with (c1 := 1) (c2 := 0);
         [apply advances_readValue | intros; apply advances_ret] ].
    lia. }
  intros metadata. change 0 with (0 + 0). apply advances_bind.
  { apply advances_for_loop. intros _ acc.
    eapply advances_weaken;
      [| apply advances_bind with (c1 := 24) (c2 := 0);
         [apply advances_readTensorInfo | intros; apply advances_ret] ].
    lia. }
  intros tensors r a r' Hr [= <- <-]. bounds.
Qed.

(** A loop whose turns each read one entry and add it to what was read
    before reads the entries in turn. *)
Lemma for_loop_read_in_turn {A B} (entry : M A) (f : B -> A -> B)
    (body : Z -> B -> M B) :
  (forall i acc r, body i acc r = (x <- entry ;; ret (f acc x)) r) ->
  forall fuel i n acc r res r',
    for_loop fuel i n body acc r = Ok (res, r') ->
    exists xs,
      read_in_turn entry r xs r' /\
      res = fold_left f xs acc /\
      Z.of_nat (length xs) = Z.max 0 (n - i).
Proof.
  intros Hbody fuel. induction fuel as [|fuel IH]; intros i n acc r res r' H.
  - cbn [for_loop] in H. destruct (Z.ltb_spec i n); [discriminate|].
    injection H as <- <-. exists []. split; [constructor|]. split; [reflexivity|].
    cbn [length]. lia.
  - cbn [for_loop] in H. destruct (Z.ltb_spec i n) as [Hlt|Hge].
    + apply bind_Ok in H as (acc1 & r1 & Hb & H).
      rewrite Hbody in Hb. apply bind_Ok in Hb as (x & r1' & Hx & Hret).
      injection Hret as <- <-.
      destruct (IH _ _ _ _ _ _ H) as (xs & Hxs & Hres & Hlen).
      exists (x :: xs). split; [econstructor; eassumption|].
      split; [exact Hres|]. cbn [length]. lia.
    + injection H as <- <-. exists []. split; [constructor|]. split; [reflexivity|].
      cbn [length]. lia.
Qed.

(** Where the fixed-size reads leave the cursor. *)
Lemma readUint32_at (r r' : BufferReader) (v : Z) :
  readUint32 r = Ok (v, r') ->
  r' = {| buf := buf r; offset := offset r + 4 |} /\ offset r + 4 <= byteLength (buf r).
Proof.
  unfold readUint32, bind, _need, advance, ret.
  destruct (Z.gtb_spec (offset r + 4) (byteLength (buf r))); [discriminate|].
  cbn [buf offset]. intros [= _ <-]. split; [reflexivity|lia].
Qed.

Lemma readUint64_at (r r' : BufferReader) (v : Number) :
  readUint64 r = Ok (v, r') ->
  v = JS.fromZ (le_uint64 (buf r) (offset r)) /\
  r' = {| buf := buf r; offset := offset r + 8 |} /\
  offset r + 8 <= byteLength (buf r).
Proof.
  intros H.
  assert (Hb : offset r + 8 <= byteLength (buf r)).
  { unfold readUint64, bind, _need in H.
    destruct (Z.gtb_spec (offset r + 8) (byteLength (buf r))); [discriminate|lia]. }
  destruct r as [b off]. cbn [buf offset] in *.
  rewrite (readUint64_run b off Hb) in H. injection H as <- <-. auto.
Qed.

(** The metadata loop and the tensor loop read their entries in turn. *)
Lemma parseHeaderBody_layout (fuel : nat) (r r' : BufferReader) (h : Header) :
  offset r = 0 ->
  parseHeaderBody fuel r = Ok (h, r') ->
  exists (pairs : list (string * JSValue)) (table : BufferReader),
    tensorCount h = JS.fromZ (le_uint64 (buf r) 8) /\
    Z.of_nat (length pairs) = int_of (JS.fromZ (le_uint64 (buf r) 16)) /\
    read_in_turn (readMetadataKV fuel) {| buf := buf r; offset := 24 |} pairs table /\
    metadata h = fold_left (fun m kv => <[ fst kv := snd kv ]> m) pairs ∅ /\
    Z.of_nat (length (tensors h)) = int_of (tensorCount h) /\
    read_in_turn (readTensorInfo fuel) table (tensors h) r'.
Proof.
  unfold parseHeaderBody. intros Hoff H.
  apply bind_Ok in H as (magic & r1 & H1 & H).
  destruct (negb (magic =? 0x46554747)); [discriminate|].
  apply bind_Ok in H as (version & r2 & H2 & H).
  destruct ((version <? 2) || (version >? 3)); [discriminate|].
  apply bind_Ok in H as (tc & r3 & H3 & H).
  apply bind_Ok in H as (kv & r4 & H4 & H).
  apply bind_Ok in H as (md & r5 & H5 & H).
  apply bind_Ok in H as (ts & r6 & H6 & H).
  unfold ret in H. injection H as <- <-. cbn [tensorCount metadata tensors].
  apply readUint32_at in H1 as [-> _]. apply readUint32_at in H2 as [-> _].
  cbn [buf offset] in *.
  pose proof (readUint64_nonneg _ _ _ H3) as Htc.
  pose proof (readUint64_nonneg _ _ _ H4) as Hkv.
  apply readUint64_at in H3 as (-> & -> & _). cbn [buf offset] in *.
  apply readUint64_at in H4 as (-> & -> & _). cbn [buf offset] in *.
  rewrite Hoff in *. cbn in H5, Htc, Hkv |- *.
  apply (for_loop_read_in_turn (readMetadataKV fuel)
           (fun m kv => <[ fst kv := snd kv ]> m)) in H5 as (pairs & Hp & Hmd & Hlp).
  2:{ intros i acc r0. unfold readMetadataKV, bind, ret.
      destruct (readString r0) as [[key ra]| |]; [|reflexivity|reflexivity].
      destruct (readUint32 ra) as [[vt rb]| |]; [|reflexivity|reflexivity].
      destruct (readValue fuel vt rb) as [[v rc]| |]; reflexivity. }
  apply (for_loop_read_in_turn (readTensorInfo fuel) (fun ts t => ts ++ [t]))
    in H6 as (entries & He & Hts & Hle).
  2:{ intros i acc r0. reflexivity. }
  assert (Happ : forall (xs acc : list Tensor),
             fold_left (fun ts t => ts ++ [t]) xs acc = acc ++ xs).
  { induction xs as [|x xs IH]; intros acc; cbn [fold_left].
    - rewrite app_nil_r. reflexivity.
    - rewrite IH, <- app_assoc. reflexivity. }
  rewrite Happ in Hts. cbn [app] in Hts. subst ts.
  change (0 + 4 + 4 + 8 + 8) with 24 in *. change (0 + 4 + 4 + 8) with 16 in *.
  change (0 + 4 + 4) with 8 in *.
  exists pairs, r5. split; [reflexivity|]. split; [lia|]. split; [exact Hp|].
  split; [exact Hmd|]. split; [lia|]. exact He.
Qed.

(** C7.  When [_parseHeader] succeeds, the cursor has read, after the 24
    bytes of magic, version and counts, as many metadata pairs as the count
    at byte 16 announces, one after the other, and then as many tensor-info
    entries as the count at byte 8 announces, each starting where the one
    before ended; these are the tensors returned.  The data-section offset
    is the smallest multiple of 32 at or after the position where the last
    of these entries ended: it is divisible by 32, at least that position,
    and no multiple of 32 lies between the two.  That position is inside the
    slice that was read. *)
Theorem tensorDataOffset_aligned (file : File) (readSize : Z)
    (h : Header) (reader : BufferReader) :
  _parseHeader_reader file readSize = Ok (h, reader) ->
  let buffer := slice_arrayBuffer file 0 readSize in
  let fuel := fuel_for buffer in
  (exists (pairs : list (string * JSValue)) (table : BufferReader),
     tensorCount h = JS.fromZ (le_uint64 buffer 8) /\
     Z.of_nat (length pairs) = int_of (JS.fromZ (le_uint64 buffer 16)) /\
     read_in_turn (readMetadataKV fuel) {| buf := buffer; offset := 24 |} pairs table /\
     metadata h = fold_left (fun m kv => <[ fst kv := snd kv ]> m) pairs ∅ /\
     Z.of_nat (length (tensors h)) = int_of (tensorCount h) /\
     read_in_turn (readTensorInfo fuel) table (tensors h) reader) /\
  (tensorDataOffset h) mod 32 = 0 /\
  offset reader <= tensorDataOffset h /\
  (forall k : Z, offset reader <= 32 * k -> tensorDataOffset h <= 32 * k) /\
  24 <= offset reader <= byteLength buffer.
Proof.
  unfold _parseHeader_reader. intros H. cbv zeta.
  assert (Hb : in_bounds (new_BufferReader (slice_arrayBuffer file 0 readSize))).
  { unfold in_bounds, new_BufferReader, slice_arrayBuffer.
    cbn [buf offset byteLength]. lia. }
  destruct (advances_parseHeaderBody _ _ _ _ Hb H) as (E & L & W).
  split.
  { apply parseHeaderBody_layout in H; [|reflexivity]. exact H. }
  apply parseHeaderBody_offset in H. rewrite H.
  destruct (ceil_div_spec (offset reader)) as [Hm [Hl Hu]].
  split; [exact Hm|]. split; [exact Hl|]. split.
  - intros k Hk.
    set (d := ceil_div (offset reader) ALIGNMENT * ALIGNMENT) in *.
    pose proof (Z.div_mod d 32 ltac:(lia)). rewrite Hm in *. lia.
  - unfold in_bounds in W. rewrite E in W. cbn [buf offset new_BufferReader] in *. lia.
Qed.

Lemma tensorDataOffset_aligned_witness :
  exists h reader,
    _parseHeader_reader one_tensor_file 82 = Ok (h, reader) /\
    map name (tensors h) = ["w"%string] /\
    (exists table : BufferReader,
       offset table = 41 /\
       read_in_turn (readTensorInfo (fuel_for (slice_arrayBuffer one_tensor_file 0 82)))
         table (tensors h) reader) /\
    offset reader = 82 /\ tensorDataOffset h = 96 /\
    (tensorDataOffset h) mod 32 = 0.
Proof.
  assert (H : match _parseHeader_reader one_tensor_file 82 with
              | Ok (h, reader) =>
                  (offset reader =? 82) && (tensorDataOffset h =? 96)
                  && match tensors h with
                     | [t] => String.eqb (name t) "w"
                     | _ => false
                     end
              | _ => false
              end = true) by (vm_compute; reflexivity).
  assert (Hkv : match readMetadataKV (fuel_for (slice_arrayBuffer one_tensor_file 0 82))
                        {| buf := slice_arrayBuffer one_tensor_file 0 82; offset := 24 |}
                with
                | Ok (_, r) => offset r =? 41
                | _ => false
                end = true) by (vm_compute; reflexivity).
  destruct (_parseHeader_reader one_tensor_file 82) as [[h reader]| |] eqn:E;
    [|discriminate H|discriminate H].
  apply andb_prop in H as [H Hn]. apply andb_prop in H as [Ho Ht].
  apply Z.eqb_eq in Ho. apply Z.eqb_eq in Ht.
  destruct (tensorDataOffset_aligned one_tensor_file 82 h reader E)
    as ((pairs & table & _ & Hpairs & Hread & _ & _ & Htable) & Hmod & _).
  exists h, reader. split; [reflexivity|]. split.
  { destruct (tensors h) as [|t [|t' ts]]; try discriminate Hn.
    apply String.eqb_eq in Hn. cbn [map]. rewrite Hn. reflexivity. }
  split.
  { exists table. split; [|exact Htable].
    assert (Hone : Z.of_nat (length pairs) = 1)
      by (rewrite Hpairs; vm_compute; reflexivity).
    destruct Hread as [r|r x r1 xs r2 Hx Hxs]; [discriminate Hone|].
    destruct Hxs as [r1|r1 y r3 ys r4 Hy Hys]; [|cbn [length] in Hone; lia].
    rewrite Hx in Hkv. apply Z.eqb_eq in Hkv. exact Hkv. }
  split; [exact Ho|]. split; [exact Ht|exact Hmod].
Defined.

(** The same for the public entry point: a header it returns is the result
    of an attempt, and is aligned as above. *)
Lemma parseGGUFHeader_aligned (file : File) (h : Header) :
  snd (parseGGUFHeader file) = Ok h ->
  exists readSize reader,
    _parseHeader_reader file readSize = Ok (h, reader) /\
    (tensorDataOffset h) mod 32 = 0 /\
    offset reader <= tensorDataOffset h < offset reader + 32.
Proof.
  intros Hres.
  destruct (parseGGUFHeader_run file) as (_ & Hlast & _).
  cbv zeta in Hlast. rewrite Hres in Hlast. symmetry in Hlast.
  unfold _parseHeader in Hlast.
  destruct (_parseHeader_reader file _) as [[h' reader]| |] eqn:E; try discriminate.
  injection Hlast as ->.
  eexists _, reader. split; [exact E|].
  unfold _parseHeader_reader in E. apply parseHeaderBody_offset in E. rewrite E.
  destruct (ceil_div_spec (offset reader)) as (Hm & Hl & Hu).
  split; [exact Hm|]. split; [exact Hl|exact Hu].
Qed.

(** ** The architecture extractor *)

Lemma SFltb_irrefl (n : Number) : SFltb n n = false.
Proof.
  unfold SFltb, SFcompare.
  destruct n as [s|s| |s m e]; try destruct s; try reflexivity;
    rewrite Z.compare_refl, Pos.compare_cont_refl; reflexivity.
Qed.

Lemma String_ltb_irrefl (s : string) : String.ltb s s = false.
Proof.
  unfold String.ltb. pose proof (String.compare_antisym s s) as H.
  destruct (String.compare s s); try reflexivity; discriminate.
Qed.

Section ExtractArchInfoFacts.

Variable NumberToString : Number -> string.
Variable StringToNumber : string -> Number.

#[local] Abbreviation extract := (extractArchInfo NumberToString StringToNumber).
#[local] Abbreviation js_lt' := (js_lt NumberToString StringToNumber).
#[local] Abbreviation js_gt' := (js_gt NumberToString StringToNumber).

(** Nothing is smaller than itself. *)
Lemma js_lt_irrefl (v : JSValue) : js_lt' v v = false.
Proof.
  unfold js_lt. destruct (ToPrimitive NumberToString v);
    first [apply SFltb_irrefl | apply String_ltb_irrefl].
Qed.

(** How a [get(key) || 0] field is resolved: the bare key first, the
    namespaced key when the bare key is absent, zero when the value found
    is falsy or when both are absent. *)
Lemma arch_field_resolution (metadata : gmap string JSValue)
    (key : string) (field : ArchInfo -> JSValue) :
  In (key, field) arch_fields ->
  field (extract metadata) =
  or_else (nullish (metadata !! key)
                   (metadata !! namespaced NumberToString StringToNumber metadata key))
          zero.
Proof.
  unfold arch_fields. cbn [In].
  intros H. repeat (destruct H as [[= <- <-]|H]; [reflexivity|]). destruct H.
Qed.

(** C2 (amended).  Each field read as [get(key) || 0] is resolved from the
    bare key first: its value is used whenever the bare key is present,
    whatever the namespaced key holds; the architecture-namespaced key is
    used only when the bare key is absent; the field is zero when the value
    found is falsy and when both keys are absent. *)
Theorem extractArchInfo_bare_key_first (metadata : gmap string JSValue)
    (key : string) (field : ArchInfo -> JSValue) :
  In (key, field) arch_fields ->
  (forall v, metadata !! key = Some v ->
             field (extract metadata) = if truthy v then v else zero) /\
  (forall v, metadata !! key = None ->
             metadata !! namespaced NumberToString StringToNumber metadata key = Some v ->
             field (extract metadata) = if truthy v then v else zero) /\
  (metadata !! key = None ->
   metadata !! namespaced NumberToString StringToNumber metadata key = None ->
   field (extract metadata) = zero).
Proof.
  intros Hin. rewrite (arch_field_resolution metadata key field Hin).
  repeat split.
  - intros v ->. reflexivity.
  - intros v -> ->. reflexivity.
  - intros -> ->. reflexivity.
Qed.

(** C10.  When the table has no key/value head count under either key, the
    key/value head count is the attention head count, and [isGQA] is
    false. *)
Theorem extractArchInfo_headCountKV_absent (metadata : gmap string JSValue) :
  metadata !! "attention.head_count_kv" = None ->
  metadata !! namespaced NumberToString StringToNumber metadata
                "attention.head_count_kv" = None ->
  headCountKV (extract metadata) = headCount (extract metadata) /\
  isGQA (extract metadata) = false.
Proof.
  intros Hbare Hns.
  assert (E : headCountKV (extract metadata) = headCount (extract metadata)).
  { unfold namespaced in Hns. cbn [extractArchInfo architecture] in Hns.
    cbn [extractArchInfo headCountKV headCount].
    rewrite Hbare, Hns. cbn [nullish or_undef].
    destruct (nullish _ _) as [v|]; [|reflexivity].
    cbn [or_undef or_else]. destruct (truthy v) eqn:Hv; cbn [or_else]; rewrite ?Hv; reflexivity. }
  split; [exact E|].
  change (isGQA (extract metadata))
    with (js_gt' (headCountKV (extract metadata)) zero
          && js_lt' (headCountKV (extract metadata)) (headCount (extract metadata))).
  rewrite E, js_lt_irrefl. apply andb_false_r.
Qed.

End ExtractArchInfoFacts.

(** C2 (as stated, refuted).  A table with architecture "llama" that holds
    32 under "llama.block_count" and 7 under "block_count": the block count
    is 7, the value of the bare key, not 32. *)
Lemma extractArchInfo_bare_key_wins :
  let metadata : gmap string JSValue :=
    <[ "general.architecture" := JStr "llama" ]>
      (<[ "llama.block_count" := JNum (JS.fromZ 32) ]>
         (<[ "block_count" := JNum (JS.fromZ 7) ]> ∅)) in
  metadata !! "llama.block_count" = Some (JNum (JS.fromZ 32)) /\
  metadata !! "block_count" = Some (JNum (JS.fromZ 7)) /\
  forall NumberToString StringToNumber,
    namespaced NumberToString StringToNumber metadata "block_count"
    = "llama.block_count" /\
    blockCount (extractArchInfo NumberToString StringToNumber metadata)
    = JNum (JS.fromZ 7) /\
    blockCount (extractArchInfo NumberToString StringToNumber metadata)
    <> JNum (JS.fromZ 32).
Proof.
  cbv zeta. split; [reflexivity|]. split; [reflexivity|].
  intros N S. split; [reflexivity|]. split; [reflexivity|].
  vm_compute. discriminate.
Qed.

Lemma extractArchInfo_bare_key_first_witness :
  let metadata : gmap string JSValue :=
    <[ "general.architecture" := JStr "llama" ]>
      (<[ "llama.block_count" := JNum (JS.fromZ 32) ]> ∅) in
  blockCount (extractArchInfo (fun _ => EmptyString) (fun _ => JS.NaN) metadata)
  = JNum (JS.fromZ 32).
Proof.
  cbv zeta.
  pose proof (extractArchInfo_bare_key_first (fun _ => EmptyString) (fun _ => JS.NaN)
                (<[ "general.architecture" := JStr "llama" ]>
                   (<[ "llama.block_count" := JNum (JS.fromZ 32) ]> ∅))
                "block_count" blockCount ltac:(left; reflexivity)) as (_ & H & _).
  exact (H (JNum (JS.fromZ 32)) eq_refl eq_refl).
Defined.

Lemma extractArchInfo_headCountKV_absent_witness :
  let metadata : gmap string JSValue :=
    <[ "general.architecture" := JStr "llama" ]>
      (<[ "llama.attention.head_count" := JNum (JS.fromZ 32) ]> ∅) in
  headCount (extractArchInfo (fun _ => EmptyString) (fun _ => JS.NaN) metadata)
  = JNum (JS.fromZ 32) /\
  headCountKV (extractArchInfo (fun _ => EmptyString) (fun _ => JS.NaN) metadata)
  = headCount (extractArchInfo (fun _ => EmptyString) (fun _ => JS.NaN) metadata) /\
  isGQA (extractArchInfo (fun _ => EmptyString) (fun _ => JS.NaN) metadata) = false.
Proof.
  cbv zeta. split; [reflexivity|].
  apply (extractArchInfo_headCountKV_absent (fun _ => EmptyString) (fun _ => JS.NaN)
           (<[ "general.architecture" := JStr "llama" ]>
              (<[ "llama.attention.head_count" := JNum (JS.fromZ 32) ]> ∅)));
    reflexivity.
Defined.

(** ** The half-float decoder *)

(** C8. The half-float decoder maps the bit pattern [0x3C00] to exactly 1.0,
    [0xC000] to exactly -2.0, [0x7C00] to +Infinity and [0x0000] to (positive)
    zero. *)
Theorem f16ToF32_known_patterns :
  f16ToF32 0x3C00 = JS.fromZ 1 /\
  f16ToF32 0xC000 = JS.fromZ (-2) /\
  f16ToF32 0x7C00 = JS.Infinity /\
  f16ToF32 0x0000 = JS.pos_zero.
Proof. repeat split; vm_compute; reflexivity. Qed.

(* ================================================================== *)
(** * Facts about the point cloud and the connections *)
(* ================================================================== *)

(** ** The connection generator *)

Lemma lineBody_lengths (random : nat -> Number) (src tgt : TensorRegion)
    (positions : list Number) (dimFactor : Number) (st : LineState) :
  length (linePositions (lineBody random src tgt positions dimFactor st))
  = (length (linePositions st) + 6)%nat /\
  length (lineColors (lineBody random src tgt positions dimFactor st))
  = (length (lineColors st) + 6)%nat /\
  line_drawn (lineBody random src tgt positions dimFactor st)
  = (line_drawn st + 2)%nat.
Proof.
  unfold lineBody.
  destruct (tensor_color (tr_category src)) as [[sr sg] sb].
  destruct (tensor_color (tr_category tgt)) as [[tr tg] tb].
  cbn [linePositions lineColors line_drawn].
  rewrite !length_app. cbn [length]. lia.
Qed.

(** [n] turns of the loop push [n] segments and take [2 n] draws. *)
Lemma lineLoop_lengths (random : nat -> Number) (src tgt : TensorRegion)
    (positions : list Number) (dimFactor : Number) (n : nat) :
  forall st,
    let st' := lineLoop (lineBody random src tgt positions dimFactor) n st in
    length (linePositions st') = (length (linePositions st) + 6 * n)%nat /\
    length (lineColors st') = (length (lineColors st) + 6 * n)%nat /\
    line_drawn st' = (line_drawn st + 2 * n)%nat.
Proof.
  induction n as [|n IH]; intros st; cbn [lineLoop].
  - cbv zeta. lia.
  - cbv zeta in *.
    destruct (IH (lineBody random src tgt positions dimFactor st)) as (P & C & D).
    destruct (lineBody_lengths random src tgt positions dimFactor st) as (P' & C' & D').
    lia.
Qed.




(** ** The draws a run depends on *)

Section Draws.

Variables random1 random2 : nat -> Number.
Variable N : nat.
Hypothesis Hagree : agree N random1 random2.

Lemma pointColor_draws (archInfo : Arch) (colorMode : string)
    (cls : Classification) (weightValues : option (list Number))
    (maxAbs : Number) (pi : Z) (d : nat) :
  (d <= snd (pointColor random1 archInfo colorMode cls weightValues maxAbs pi d))%nat /\
  ((snd (pointColor random1 archInfo colorMode cls weightValues maxAbs pi d) <= N)%nat ->
   pointColor random2 archInfo colorMode cls weightValues maxAbs pi d
   = pointColor random1 archInfo colorMode cls weightValues maxAbs pi d).
Proof.
  unfold pointColor.
  destruct (match weightValues with Some ws => _ | None => None end) as [c|];
    [cbn; split; [lia | reflexivity]|].
  destruct (String.eqb colorMode "layer").
  - destruct (layerIdx cls >=? 0); cbn; split; (lia || reflexivity).
  - destruct (tensor_color (category cls)) as [[r g] b]. cbn [snd]. split; [lia|].
    intros Hd. rewrite (Hagree d) by lia. reflexivity.
Qed.

Lemma pointPosition_draws (tensor : Tensor) (pointCount : Number)
    (region : Region) (rows cols : Number) (pi : Z) (d : nat) :
  (d + 3 <= N)%nat ->
  pointPosition random2 tensor pointCount region rows cols pi d
  = pointPosition random1 tensor pointCount region rows cols pi d.
Proof.
  intros Hd. unfold pointPosition.
  rewrite (Hagree d), (Hagree (S d)), (Hagree (S (S d))) by lia. reflexivity.
Qed.

Lemma pointBody_draws (archInfo : Arch) (colorMode : string)
    (tensor : Tensor) (cls : Classification) (pointCount : Number)
    (region : Region) (weightValues : option (list Number))
    (maxAbs rows cols : Number) (pi : Z) (st : CloudState) :
  let st1 := pointBody random1 archInfo colorMode tensor cls pointCount region
               weightValues maxAbs rows cols pi st in
  (drawn st + 3 <= drawn st1)%nat /\
  ((drawn st1 <= N)%nat ->
   pointBody random2 archInfo colorMode tensor cls pointCount region
     weightValues maxAbs rows cols pi st = st1).
Proof.
  cbv zeta. unfold pointBody.
  destruct (pointColor_draws archInfo colorMode cls weightValues maxAbs pi
              (3 + drawn st)) as [Hle Heq].
  destruct (pointPosition random1 tensor pointCount region rows cols pi (drawn st))
    as [[x y] z] eqn:Hp.
  destruct (pointColor random1 archInfo colorMode cls weightValues maxAbs pi
              (3 + drawn st)) as [[[r g] b] d'] eqn:Hc.
  cbn [snd drawn] in *. split; [lia|].
  intros Hd. rewrite pointPosition_draws, Hp by lia. rewrite Heq by lia.
  reflexivity.
Qed.

Lemma pointLoop_draws (archInfo : Arch) (colorMode : string)
    (tensor : Tensor) (cls : Classification) (pointCount : Number)
    (region : Region) (weightValues : option (list Number))
    (maxAbs rows cols : Number) (n : nat) :
  forall pi st,
    let body r := pointBody r archInfo colorMode tensor cls pointCount region
                    weightValues maxAbs rows cols in
    let st1 := pointLoop (body random1) n pi st in
    (drawn st <= drawn st1)%nat /\
    ((drawn st1 <= N)%nat -> pointLoop (body random2) n pi st = st1).
Proof.
  induction n as [|n IH]; intros pi st; cbv zeta; cbn [pointLoop].
  - split; [lia | reflexivity].
  - destruct (pointBody_draws archInfo colorMode tensor cls pointCount region
                weightValues maxAbs rows cols pi st) as [Hle Heq].
    cbv zeta in *.
    destruct (IH (pi + 1)
                (pointBody random1 archInfo colorMode tensor cls pointCount region
                   weightValues maxAbs rows cols pi st)) as [Hle' Heq'].
    split; [lia|]. intros Hd. rewrite Heq by lia. apply Heq'. exact Hd.
Qed.

Lemma tensorBody_draws (archInfo : Arch) (colorMode : string) (L : Layout)
    (a : TensorAlloc) (weightValues : option (list Number))
    (st st1 : CloudState) (tr : TensorRegion) :
  tensorBody random1 archInfo colorMode L a weightValues st = Returns (st1, tr) ->
  (drawn st <= drawn st1)%nat /\
  ((drawn st1 <= N)%nat ->
   tensorBody random2 archInfo colorMode L a weightValues st = Returns (st1, tr)).
Proof.
  unfold tensorBody. destruct (turns (pointCount a)) as [n|]; [|discriminate].
  destruct (pointLoop_draws archInfo colorMode (alloc_tensor a) (alloc_cls a)
              (pointCount a)
              (getRegion L (category (alloc_cls a)) (layerIdx (alloc_cls a))
                 (expertIdx (alloc_cls a)))
              weightValues (maxAbsOf weightValues) (rowsOf (alloc_tensor a))
              (colsOf (alloc_tensor a)) n 0 st) as [Hle Heq].
  cbv zeta in *. intros [= <- <-]. split; [exact Hle|].
  intros Hd. rewrite Heq by exact Hd. reflexivity.
Qed.

Lemma tensorLoop_draws (archInfo : Arch) (colorMode : string) (L : Layout)
    (allocs : list (TensorAlloc * option (list Number))) :
  forall st regions st1 regions1,
    tensorLoop random1 archInfo colorMode L allocs st regions
    = Returns (st1, regions1) ->
    (drawn st <= drawn st1)%nat /\
    ((drawn st1 <= N)%nat ->
     tensorLoop random2 archInfo colorMode L allocs st regions
     = Returns (st1, regions1)).
Proof.
  induction allocs as [|[a w] rest IH]; intros st regions st1 regions1;
    cbn [tensorLoop].
  - intros [= <- <-]. split; [lia | reflexivity].
  - destruct (tensorBody random1 archInfo colorMode L a w st)
      as [[st' tr]| |] eqn:Hb; try discriminate.
    intros Hrest.
    destruct (tensorBody_draws _ _ _ _ _ _ _ _ Hb) as [Hle Heq].
    destruct (IH _ _ _ _ Hrest) as [Hle' Heq'].
    split; [lia|]. intros Hd. rewrite Heq by lia. apply Heq'. exact Hd.
Qed.

Lemma generatePointCloud_draws
    (sampleTensorWeights : Tensor -> Number -> option (list Number))
    (archInfo : Arch) (tensors : list Tensor) (targetPointCount : Number)
    (colorMode : string) (pc : PointCloud) :
  generatePointCloud random1 sampleTensorWeights archInfo tensors
    targetPointCount colorMode = Returns pc ->
  (pc_drawn pc <= N)%nat ->
  generatePointCloud random2 sampleTensorWeights archInfo tensors
    targetPointCount colorMode = Returns pc.
Proof.
  unfold generatePointCloud.
  destruct (new_Float32Array _) as [buffer| |]; try discriminate.
  destruct (tensorLoop random1 _ _ _ _ _ _) as [[st regions]| |] eqn:Hloop;
    try discriminate.
  intros [= <-]. cbn [pc_drawn]. intros Hd.
  destruct (tensorLoop_draws _ _ _ _ _ _ _ _ Hloop) as [_ Heq].
  rewrite Heq by exact Hd. reflexivity.
Qed.

Lemma lineBody_draws (src tgt : TensorRegion) (positions : list Number)
    (dimFactor : Number) (st : LineState) :
  (line_drawn st + 2 <= N)%nat ->
  lineBody random2 src tgt positions dimFactor st
  = lineBody random1 src tgt positions dimFactor st.
Proof.
  intros Hd. unfold lineBody.
  rewrite (Hagree (line_drawn st)), (Hagree (S (line_drawn st))) by lia.
  reflexivity.
Qed.

Lemma lineLoop_draws (src tgt : TensorRegion) (positions : list Number)
    (dimFactor : Number) (n : nat) :
  forall st,
    (line_drawn st + 2 * n <= N)%nat ->
    lineLoop (lineBody random2 src tgt positions dimFactor) n st
    = lineLoop (lineBody random1 src tgt positions dimFactor) n st.
Proof.
  induction n as [|n IH]; intros st Hd; cbn [lineLoop]; [reflexivity|].
  rewrite lineBody_draws by lia. apply IH.
  destruct (lineBody_lengths random1 src tgt positions dimFactor st) as (_ & _ & D).
  lia.
Qed.

Lemma _sampleLines_draws (src tgt : TensorRegion) (positions : list Number)
    (density dimFactor : Number) (st st1 : LineState) :
  _sampleLines random1 src tgt positions density dimFactor st = Returns st1 ->
  (line_drawn st <= line_drawn st1)%nat /\
  ((line_drawn st1 <= N)%nat ->
   _sampleLines random2 src tgt positions density dimFactor st = Returns st1).
Proof.
  unfold _sampleLines. destruct (_ || _); [intros [= <-]; split; [lia|reflexivity]|].
  destruct (turns _) as [n|]; [|discriminate].
  intros [= <-].
  destruct (lineLoop_lengths random1 src tgt positions dimFactor n st) as (_ & _ & D).
  cbv zeta in D. split; [lia|].
  intros Hd. rewrite lineLoop_draws by lia. reflexivity.
Qed.

Lemma runJobs_draws (positions : list Number) (jobs : list Job) :
  forall st st1,
    runJobs random1 positions jobs st = Returns st1 ->
    (line_drawn st <= line_drawn st1)%nat /\
    ((line_drawn st1 <= N)%nat ->
     runJobs random2 positions jobs st = Returns st1).
Proof.
  induction jobs as [|[[[src tgt] density] dimFactor] rest IH]; intros st st1;
    cbn [runJobs].
  - intros [= <-]. split; [lia | reflexivity].
  - destruct (_sampleLines random1 src tgt positions density dimFactor st)
      as [st'| |] eqn:Hs; try discriminate.
    intros Hrest.
    destruct (_sampleLines_draws _ _ _ _ _ _ _ Hs) as [Hle Heq].
    destruct (IH _ _ Hrest) as [Hle' Heq'].
    split; [lia|]. intros Hd. rewrite Heq by lia. apply Heq'. exact Hd.
Qed.

Lemma generateConnections_draws (drawn0 : nat)
    (tensorRegions : list TensorRegion) (positions : list Number)
    (density : Number) (conn : Connections) :
  generateConnections random1 drawn0 tensorRegions positions density
  = Returns conn ->
  (drawn0 <= conn_drawn conn)%nat /\
  ((conn_drawn conn <= N)%nat ->
   generateConnections random2 drawn0 tensorRegions positions density
   = Returns conn).
Proof.
  unfold generateConnections.
  destruct (runJobs random1 _ _ _) as [st| |] eqn:Hrun; try discriminate.
  intros [= <-]. cbn [conn_drawn].
  destruct (runJobs_draws _ _ _ _ Hrun) as [Hle Heq]. cbn [line_drawn] in Hle.
  split; [exact Hle|]. intros Hd. rewrite Heq by exact Hd. reflexivity.
Qed.

End Draws.

(** C3 (amended).  The buffers are a function of the arguments and of the
    draws of the global generator: when a run returns after [n] draws of
    [Math.random], every run on the same arguments in which [Math.random]
    returns the same first [n] draws returns the same position, color and
    line buffers. *)
Theorem regenerate_same_draws (random1 random2 : nat -> Number)
    (sampleTensorWeights : Tensor -> Number -> option (list Number))
    (archInfo : Arch) (tensors : list Tensor) (targetPointCount : Number)
    (colorMode : string) (density : Number)
    (pc : PointCloud) (conn : Connections) :
  regenerate random1 sampleTensorWeights archInfo tensors targetPointCount
    colorMode density = Returns (pc, conn) ->
  agree (conn_drawn conn) random1 random2 ->
  regenerate random2 sampleTensorWeights archInfo tensors targetPointCount
    colorMode density = Returns (pc, conn).
Proof.
  unfold regenerate. intros Hrun Hagree.
  destruct (generatePointCloud random1 _ _ _ _ _) as [pc1| |] eqn:Hpc;
    try discriminate.
  destruct (generateConnections random1 _ _ _ _) as [conn1| |] eqn:Hconn;
    try discriminate.
  injection Hrun as -> ->.
  destruct (generateConnections_draws random1 random2 _ Hagree _ _ _ _ _ Hconn)
    as [Hle Heq].
  rewrite (generatePointCloud_draws random1 random2 _ Hagree _ _ _ _ _ _ Hpc)
    by exact Hle.
  rewrite Heq by lia. reflexivity.
Qed.

(** ** Writes into the point buffers *)

Lemma typed_set_length (array : list Number) (i : Z) (v : Number) :
  length (typed_set array i v) = length array.
Proof. unfold typed_set. destruct (i <? 0); [reflexivity | apply length_insert]. Qed.

Lemma typed_set_other (array : list Number) (i : Z) (v : Number) (j : nat) :
  Z.of_nat j <> i -> typed_set array i v !! j = array !! j.
Proof.
  intros Hne. unfold typed_set. destruct (Z.ltb_spec i 0); [reflexivity|].
  apply list_lookup_insert_ne. lia.
Qed.

Lemma typed_set_same (array : list Number) (i : Z) (v : Number) (j : nat) :
  Z.of_nat j = i -> (j < length array)%nat ->
  typed_set array i v !! j = Some (JS.fround v).
Proof.
  intros <- Hlt. unfold typed_set.
  destruct (Z.ltb_spec (Z.of_nat j) 0); [lia|].
  rewrite Nat2Z.id. apply list_lookup_insert_eq. exact Hlt.
Qed.

(** Three consecutive writes at [i], [i + 1], [i + 2]. *)
Lemma typed_set3_lookup (array : list Number) (i : Z) (x y z : Number) (j : nat) :
  let array' := typed_set (typed_set (typed_set array i x) (i + 1) y) (i + 2) z in
  length array' = length array /\
  (Z.of_nat j < i -> array' !! j = array !! j) /\
  (forall c : nat, (c < 3)%nat -> Z.of_nat j = i + Z.of_nat c ->
                   (j < length array)%nat -> array' !! j = [JS.fround x; JS.fround y; JS.fround z] !! c).
Proof.
  cbv zeta. split; [rewrite !typed_set_length; reflexivity|]. split.
  - intros Hlt. rewrite !typed_set_other by lia. reflexivity.
  - intros c Hc Hj Hlen.
    destruct c as [|[|[|c]]]; [| | |lia]; cbn [lookup list_lookup].
    + rewrite !typed_set_other by lia. apply typed_set_same; [lia | exact Hlen].
    + rewrite typed_set_other by lia.
      apply typed_set_same; [lia | rewrite typed_set_length; exact Hlen].
    + apply typed_set_same; [lia | rewrite !typed_set_length; exact Hlen].
Qed.

Section Buffers.

Variable random : nat -> Number.
Variable archInfo : Arch.
Variable colorMode : string.

(** What one turn of the point loop does to the buffers. *)
Lemma pointBody_writes (tensor : Tensor) (cls : Classification)
    (pointCount : Number) (region : Region)
    (weightValues : option (list Number)) (maxAbs : Number)
    (pi : Z) (st : CloudState) (j : nat) :
  let st' := pointBody random archInfo colorMode tensor cls pointCount region
               weightValues maxAbs (rowsOf tensor) (colsOf tensor) pi st in
  globalIdx st' = globalIdx st + 1 /\
  length (positions st') = length (positions st) /\
  length (colors st') = length (colors st) /\
  (drawn st <= drawn st')%nat /\
  (Z.of_nat j < globalIdx st * 3 ->
   positions st' !! j = positions st !! j /\ colors st' !! j = colors st !! j) /\
  (forall c : nat, (c < 3)%nat -> Z.of_nat j = globalIdx st * 3 + Z.of_nat c ->
     (j < length (positions st))%nat -> (j < length (colors st))%nat ->
     positions st' !! j
     = positionEntries random tensor pointCount region pi (drawn st) !! c /\
     colors st' !! j
     = colorEntries
         (fst (pointColor random archInfo colorMode cls weightValues maxAbs pi
                 (3 + drawn st))) !! c).
Proof.
  cbv zeta. unfold pointBody, positionEntries, colorEntries.
  destruct (pointColor_draws random random 0 ltac:(intros k Hk; reflexivity)
              archInfo colorMode cls weightValues maxAbs pi (3 + drawn st))
    as [Hd _].
  destruct (pointPosition random tensor pointCount region
              (rowsOf tensor) (colsOf tensor) pi (drawn st)) as [[x y] z].
  destruct (pointColor random archInfo colorMode cls weightValues maxAbs pi
              (3 + drawn st)) as [[[r g] b] d'].
  cbn [globalIdx positions colors drawn fst snd] in *.
  destruct (typed_set3_lookup (positions st) (globalIdx st * 3) x y z j)
    as (Lp & Op & Sp).
  destruct (typed_set3_lookup (colors st) (globalIdx st * 3)
              (JS.Math_min (JS.fromZ 1) r) (JS.Math_min (JS.fromZ 1) g)
              (JS.Math_min (JS.fromZ 1) b) j) as (Lc & Oc & Sc).
  cbv zeta in *.
  split; [reflexivity|]. split; [exact Lp|]. split; [exact Lc|]. split; [lia|].
  split.
  - intros Hlt. split; [apply Op | apply Oc]; exact Hlt.
  - intros c Hc Hj Hlp Hlc. split; [apply Sp | apply Sc]; assumption.
Qed.

End Buffers.

Section Buffers2.

Variable random : nat -> Number.
Variable archInfo : Arch.
Variable colorMode : string.

(** What the loop over the points of one tensor does to the buffers. *)
Lemma pointLoop_writes (tensor : Tensor) (cls : Classification)
    (pointCount : Number) (region : Region)
    (weightValues : option (list Number)) (maxAbs : Number) (n : nat) :
  forall pi st,
    let st' :=
      pointLoop (pointBody random archInfo colorMode tensor cls pointCount
                   region weightValues maxAbs (rowsOf tensor) (colsOf tensor))
                n pi st in
    globalIdx st' = globalIdx st + Z.of_nat n /\
    length (positions st') = length (positions st) /\
    length (colors st') = length (colors st) /\
    (forall j : nat, Z.of_nat j < globalIdx st * 3 ->
       positions st' !! j = positions st !! j /\
       colors st' !! j = colors st !! j) /\
    (forall k, (k < n)%nat ->
       exists d, forall c j : nat,
         (c < 3)%nat ->
         Z.of_nat j = (globalIdx st + Z.of_nat k) * 3 + Z.of_nat c ->
         (j < length (positions st))%nat -> (j < length (colors st))%nat ->
         positions st' !! j
         = positionEntries random tensor pointCount region (pi + Z.of_nat k) d !! c /\
         colors st' !! j
         = colorEntries
             (fst (pointColor random archInfo colorMode cls weightValues maxAbs
                     (pi + Z.of_nat k) (3 + d))) !! c).
Proof.
  induction n as [|n IH]; intros pi st; cbv zeta; cbn [pointLoop].
  - split; [lia|]. split; [reflexivity|]. split; [reflexivity|].
    split; [intros; split; reflexivity|]. intros k Hk. lia.
  - set (st1 := pointBody random archInfo colorMode tensor cls pointCount region
                  weightValues maxAbs (rowsOf tensor) (colsOf tensor) pi st).
    destruct (IH (pi + 1) st1) as (G & Lp & Lc & Keep & Pts). cbv zeta in *.
    assert (B : forall j,
               globalIdx st1 = globalIdx st + 1 /\
               length (positions st1) = length (positions st) /\
               length (colors st1) = length (colors st) /\
               (drawn st <= drawn st1)%nat /\
               (Z.of_nat j < globalIdx st * 3 ->
                positions st1 !! j = positions st !! j /\
                colors st1 !! j = colors st !! j) /\
               (forall c : nat, (c < 3)%nat ->
                  Z.of_nat j = globalIdx st * 3 + Z.of_nat c ->
                  (j < length (positions st))%nat -> (j < length (colors st))%nat ->
                  positions st1 !! j
                  = positionEntries random tensor pointCount region pi (drawn st) !! c /\
                  colors st1 !! j
                  = colorEntries
                      (fst (pointColor random archInfo colorMode cls weightValues
                              maxAbs pi (3 + drawn st))) !! c)).
    { intros j. apply pointBody_writes. }
    destruct (B O) as (G1 & Lp1 & Lc1 & _).
    split; [lia|]. split; [congruence|]. split; [congruence|]. split.
    + intros j Hj. destruct (Keep j ltac:(lia)) as [Kp Kc].
      destruct (B j) as (_ & _ & _ & _ & Old & _).
      destruct (Old Hj) as [Op Oc]. split; congruence.
    + intros k Hk. destruct k as [|k].
      * exists (drawn st). intros c j Hc Hj Hlp Hlc.
        destruct (Keep j ltac:(lia)) as [Kp Kc].
        destruct (B j) as (_ & _ & _ & _ & _ & New).
        destruct (New c Hc ltac:(lia) Hlp Hlc) as [Np Nc].
        replace (pi + Z.of_nat 0) with pi by lia. split; congruence.
      * destruct (Pts k ltac:(lia)) as [d Hd]. exists d.
        intros c j Hc Hj Hlp Hlc.
        replace (pi + Z.of_nat (S k)) with (pi + 1 + Z.of_nat k) by lia.
        apply Hd; [exact Hc | lia | congruence | congruence].
Qed.

End Buffers2.

Section Buffers3.

Variable random : nat -> Number.
Variable archInfo : Arch.
Variable colorMode : string.

(** The loop over the tensors: every tensor ends up written, and nothing a
    later tensor writes touches the points of an earlier one. *)
Lemma tensorLoop_writes (allocs : list (TensorAlloc * option (list Number))) :
  forall st regions st1 regions1,
    0 <= globalIdx st ->
    length (colors st) = length (positions st) ->
    tensorLoop random archInfo colorMode (computeLayout archInfo) allocs st regions
    = Returns (st1, regions1) ->
    globalIdx st <= globalIdx st1 /\
    length (positions st1) = length (positions st) /\
    length (colors st1) = length (colors st) /\
    (forall j : nat, Z.of_nat j < globalIdx st * 3 ->
       positions st1 !! j = positions st !! j /\
       colors st1 !! j = colors st !! j) /\
    exists new,
      regions1 = regions ++ new /\
      forall ti a w,
        allocs !! ti = Some (a, w) ->
        exists tr,
          new !! ti = Some tr /\
          written random archInfo colorMode (positions st1) (colors st1) a w tr.
Proof.
  induction allocs as [|[a w] rest IH]; intros st regions st1 regions1 Hg Hlen;
    cbn [tensorLoop].
  - intros [= <- <-]. split; [lia|]. split; [reflexivity|]. split; [reflexivity|].
    split; [intros; split; reflexivity|].
    exists []. split; [rewrite app_nil_r; reflexivity|].
    intros ti a w H. rewrite lookup_nil in H. discriminate.
  - unfold tensorBody at 1.
    destruct (turns (pointCount a)) as [n|] eqn:Hn; [|discriminate].
    set (region := getRegion (computeLayout archInfo) (category (alloc_cls a))
                     (layerIdx (alloc_cls a)) (expertIdx (alloc_cls a))).
    set (st' := pointLoop _ n 0 st).
    destruct (pointLoop_writes random archInfo colorMode (alloc_tensor a)
                (alloc_cls a) (pointCount a) region w (maxAbsOf w) n 0 st)
      as (G & Lp & Lc & Keep & Pts).
    cbv zeta in *. fold st' in G, Lp, Lc, Keep, Pts.
    intros Hrest.
    assert (Hg' : 0 <= globalIdx st') by lia.
    assert (Hlen' : length (colors st') = length (positions st')) by congruence.
    destruct (IH _ _ _ _ Hg' Hlen' Hrest)
      as (G1 & Lp1 & Lc1 & Keep1 & new & Hnew & Hall).
    split; [lia|]. split; [congruence|]. split; [congruence|]. split.
    + intros j Hj. destruct (Keep1 j ltac:(lia)) as [Kp Kc].
      destruct (Keep j Hj) as [Kp' Kc']. split; congruence.
    + eexists (_ :: new). split; [rewrite Hnew, <- app_assoc; reflexivity|].
      intros ti a' w' Hti. destruct ti as [|ti].
      * cbn in Hti. injection Hti as <- <-.
        eexists. split; [reflexivity|].
        unfold written. cbn [tr_name tr_category tr_region startIdx endIdx].
        split; [reflexivity|]. split; [reflexivity|]. split; [reflexivity|].
        split; [exact Hg|].
        exists n. split; [exact Hn|]. split; [exact G|].
        intros k Hk. destruct (Pts k Hk) as [d Hd]. exists d.
        intros c j Hc Hj Hlp.
        destruct (Keep1 j ltac:(lia)) as [Kp Kc].
        replace (Z.of_nat k) with (0 + Z.of_nat k) at 2 4 by lia.
        rewrite Kp, Kc.
        apply Hd; [exact Hc | exact Hj | congruence | congruence].
      * cbn in Hti. destruct (Hall ti a' w' Hti) as (tr & Htr & Hp).
        exists tr. split; [exact Htr | exact Hp].
Qed.

(** The loop over the tensors returns as soon as no point count is
    infinite. *)
Lemma tensorLoop_returns (allocs : list (TensorAlloc * option (list Number))) :
  Forall (fun aw => turns (pointCount (fst aw)) <> None) allocs ->
  forall L st regions,
    exists st1 regions1,
      tensorLoop random archInfo colorMode L allocs st regions
      = Returns (st1, regions1).
Proof.
  induction 1 as [|[a w] rest Ha _ IH]; intros L st regions; cbn [tensorLoop].
  - eauto.
  - unfold tensorBody. cbn [fst] in Ha.
    destruct (turns (pointCount a)) as [n|]; [|contradiction]. apply IH.
Qed.

End Buffers3.






(** C3 (as stated, refuted).  The generators take no seed and no random
    source: the draws come from the global [Math.random].  Two runs on the
    same descriptor, tensor list, target, color mode and density, one in
    which [Math.random] keeps returning 1/2 and one in which it keeps
    returning 1/4, return different position buffers. *)
Lemma regenerate_depends_on_Math_random :
  exists pc1 conn1 pc2 conn2,
    regenerate random_half (fun _ _ => None) sample_arch two_tensors
      (JS.fromZ 100) "layer" (JS.fromZ 1) = Returns (pc1, conn1) /\
    regenerate random_quarter (fun _ _ => None) sample_arch two_tensors
      (JS.fromZ 100) "layer" (JS.fromZ 1) = Returns (pc2, conn2) /\
    pc_positions pc1 !! 0%nat = Some (S754_finite true 13841203 (-21)) /\
    pc_positions pc2 !! 0%nat = Some (S754_finite true 14100726 (-21)) /\
    pc_positions pc1 <> pc_positions pc2.
Proof.
  pose (first_position := fun r : Run (PointCloud * Connections) =>
          match r with
          | Returns (pc, _) => pc_positions pc !! 0%nat
          | _ => None
          end).
  assert (H1 : first_position
                 (regenerate random_half (fun _ _ => None) sample_arch two_tensors
                    (JS.fromZ 100) "layer" (JS.fromZ 1))
               = Some (S754_finite true 13841203 (-21)))
    by (vm_compute; reflexivity).
  assert (H2 : first_position
                 (regenerate random_quarter (fun _ _ => None) sample_arch two_tensors
                    (JS.fromZ 100) "layer" (JS.fromZ 1))
               = Some (S754_finite true 14100726 (-21)))
    by (vm_compute; reflexivity).
  destruct (regenerate random_half _ _ _ _ _ _) as [[pc1 conn1]| |];
    [|discriminate H1|discriminate H1].
  destruct (regenerate random_quarter _ _ _ _ _ _) as [[pc2 conn2]| |];
    [|discriminate H2|discriminate H2].
  cbn in H1, H2.
  exists pc1, conn1, pc2, conn2.
  split; [reflexivity|]. split; [reflexivity|]. split; [exact H1|]. split; [exact H2|].
  intros Heq. rewrite Heq, H2 in H1. discriminate.
Qed.

Lemma regenerate_same_draws_witness :
  exists pc conn,
    regenerate random_half (fun _ _ => None) sample_arch two_tensors
      (JS.fromZ 100) "layer" (JS.fromZ 1) = Returns (pc, conn) /\
    conn_drawn conn = 2440%nat /\
    regenerate random_half_then_quarter (fun _ _ => None) sample_arch two_tensors
      (JS.fromZ 100) "layer" (JS.fromZ 1) = Returns (pc, conn).
Proof.
  assert (H : draws_of
                (regenerate random_half (fun _ _ => None) sample_arch two_tensors
                   (JS.fromZ 100) "layer" (JS.fromZ 1)) = 2440%nat)
    by (vm_compute; reflexivity).
  destruct (regenerate random_half (fun _ _ => None) sample_arch two_tensors
              (JS.fromZ 100) "layer" (JS.fromZ 1)) as [[pc conn]| |] eqn:E;
    [|discriminate H|discriminate H].
  cbn [draws_of] in H.
  exists pc, conn. split; [reflexivity|]. split; [exact H|].
  apply (regenerate_same_draws random_half random_half_then_quarter _ _ _ _ _ _ _ _ E).
  intros k Hk. rewrite H in Hk. unfold random_half, random_half_then_quarter.
  destruct (Nat.ltb_spec k 2440); [reflexivity | lia].
Defined.
(* ================================================================== *)
(** * Point allocation *)
(* ================================================================== *)

(** C4, on a model of the usual shape.  For a token embedding of 10^9
    elements and ten norms of 4096 elements at a target of 1,000,000
    points, the proportional pass gives 999959 points and ten times the
    floor of 400; the rescale pass ("adjust total to match target exactly")
    scales the embedding down to 996016 points and lifts the ten norms,
    scaled to 398, back to 400.  The total is 1,000,016: 16 points away
    from the target, for 11 tensors. *)
Theorem allocatePoints_misses_target :
  let tensorAllocs := allocatePoints embedding_and_norms (JS.fromZ 1000000) in
  length embedding_and_norms = 11%nat /\
  map pointCount (rawAllocs embedding_and_norms (JS.fromZ 1000000))
  = map JS.fromZ (999959 :: repeat 400 10) /\
  map pointCount tensorAllocs = map JS.fromZ (996016 :: repeat 400 10) /\
  sum_by pointCount tensorAllocs = JS.fromZ 1000016 /\
  ~ Z.abs (1000016 - 1000000) <= Z.of_nat (length embedding_and_norms).
Proof.
  cbv zeta. split; [reflexivity|].
  split; [vm_compute; reflexivity|].
  split; [vm_compute; reflexivity|].
  split; [vm_compute; reflexivity|].
  cbn. lia.
Qed.

(** The same on a small input: both tensors of [two_tensors] are lifted to
    the floor of 400 points by the rescale pass, so a target of 100 points
    is answered with 800, which is 700 away from the target for 2
    tensors. *)
Lemma allocatePoints_floor_exceeds_target :
  map pointCount (allocatePoints two_tensors (JS.fromZ 100))
    = map JS.fromZ [400; 400] /\
  sum_by pointCount (allocatePoints two_tensors (JS.fromZ 100)) = JS.fromZ 800 /\
  ~ Z.abs (800 - 100) <= Z.of_nat (length two_tensors).
Proof.
  split; [vm_compute; reflexivity|].
  split; [vm_compute; reflexivity|].
  cbn. lia.
Qed.

(** X28.  For a non-empty list of tensors whose element counts are positive
    integers with a total below 2^53, and an integer target below 2^50,
    whenever the rescale pass lifts no allocation to the floor of 400
    points, the allocations are integers of at least 400 and their sum
    differs from the target by at most the number of tensors. *)
Theorem allocatePoints_sum_near_target
    (tensors : list Tensor) (ns : list Z) (t : Z) :
  tensors <> [] ->
  0 < t < 2 ^ 50 ->
  map numElements tensors = map JS.fromZ ns ->
  forallb (Z.ltb 0) ns = true ->
  total ns < 2 ^ 53 ->
  Z.of_nat (length tensors) <= 2 ^ 40 ->
  floor_idle (rawAllocs tensors (JS.fromZ t)) (JS.fromZ t) = true ->
  exists qs,
    map pointCount (allocatePoints tensors (JS.fromZ t)) = map JS.fromZ qs /\
    Forall (fun q => 400 <= q) qs /\
    sum_by pointCount (allocatePoints tensors (JS.fromZ t)) = JS.fromZ (total qs) /\
    Z.abs (total qs - t) <= Z.of_nat (length tensors).
Proof.
  intros Hne Ht Hmap Hns Htot Hlen Hidle.
  assert (Hns' : Forall (fun n => 0 < n) ns).
  { clear -Hns. induction ns as [|n ns IH]; [constructor|].
    cbn [forallb] in Hns. apply andb_true_iff in Hns as [Hn Hns].
    constructor; [apply Z.ltb_lt; exact Hn|exact (IH Hns)]. }
  destruct (rawAllocs_integers tensors ns t Hne Ht Hmap Hns' Htot Hlen)
    as (ps & Eps & Fps & Hps).
  assert (Hlenr : length (rawAllocs tensors (JS.fromZ t)) = length tensors)
    by (unfold rawAllocs; cbv zeta; apply length_map).
  assert (Hner : rawAllocs tensors (JS.fromZ t) <> []).
  { intros E. rewrite E in Hlenr. destruct tensors; [congruence|discriminate]. }
  destruct (rescaleAllocs_near_target _ ps t Hner Ht Eps Fps Hps Hidle)
    as (qs & Eqs & Fqs & Es & Hq).
  exists qs. unfold allocatePoints. rewrite Hlenr in Hq. auto.
Qed.

Lemma allocatePoints_sum_near_target_witness :
  exists qs,
    map pointCount (allocatePoints three_tensors (JS.fromZ 5000)) = map JS.fromZ qs /\
    Forall (fun q => 400 <= q) qs /\
    sum_by pointCount (allocatePoints three_tensors (JS.fromZ 5000))
      = JS.fromZ (total qs) /\
    Z.abs (total qs - 5000) <= Z.of_nat (length three_tensors).
Proof.
  apply (allocatePoints_sum_near_target three_tensors [1000003; 2000000; 500000] 5000).
  - discriminate.
  - vm_compute. split; reflexivity.
  - vm_compute. reflexivity.
  - vm_compute. reflexivity.
  - vm_compute. reflexivity.
  - vm_compute. discriminate.
  - vm_compute. reflexivity.
Defined.

(* ================================================================== *)
(** * Further facts about doubles *)
(* ================================================================== *)

(** ** Negative integers *)

Lemma binary_round_aux_opp (m e : Z) (l : location) :
  binary_round_aux JS.prec JS.emax true m e l
  = SFopp (binary_round_aux JS.prec JS.emax false m e l).
Proof.
  unfold binary_round_aux.
  destruct (shr_fexp JS.prec JS.emax m e l) as [mrs e'].
  destruct (shr_fexp JS.prec JS.emax _ e' loc_Exact) as [mrs' e''].
  destruct (shr_m mrs'); try reflexivity.
  destruct (e'' <=? JS.emax - JS.prec); reflexivity.
Qed.

Lemma binary_round_opp (p : positive) (e : Z) :
  binary_round JS.prec JS.emax true p e
  = SFopp (binary_round JS.prec JS.emax false p e).
Proof.
  unfold binary_round. destruct (shl_align p e _) as [mz ez].
  apply binary_round_aux_opp.
Qed.

Lemma SFopp_involutive (x : Number) : SFopp (SFopp x) = x.
Proof. destruct x; cbn; rewrite ?negb_involutive; reflexivity. Qed.

Lemma fromZ_opp (n : Z) : JS.fromZ (- n) = SFopp (JS.fromZ n) \/ n = 0.
Proof.
  destruct n as [|p|p]; [right; reflexivity| |]; left.
  - change (- Z.pos p) with (Z.neg p). unfold JS.fromZ, binary_normalize.
    apply binary_round_opp.
  - change (- Z.neg p) with (Z.pos p). unfold JS.fromZ, binary_normalize.
    rewrite binary_round_opp, SFopp_involutive. reflexivity.
Qed.

Lemma toZ_opp (x : Number) (z : Z) :
  JS.toZ x = Some z -> JS.toZ (SFopp x) = Some (- z).
Proof.
  destruct x as [s| | |s m e]; cbn [JS.toZ SFopp]; try discriminate.
  - intros [= <-]. reflexivity.
  - assert (Hs : JS.smant (negb s) m = - JS.smant s m) by (destruct s; reflexivity).
    rewrite Hs.
    destruct (0 <=? e).
    + intros [= <-]. f_equal. lia.
    + destruct (Z.eqb_spec (Z.pos m mod 2 ^ (- e)) 0) as [Hm|]; [|discriminate].
      intros [= <-]. f_equal.
      assert (He : JS.smant s m mod 2 ^ (- e) = 0).
      { destruct s; cbn [JS.smant]; [|exact Hm].
        change (Z.neg m) with (- Z.pos m).
        apply Z.mod_opp_l_z; [|exact Hm].
        intros H0. rewrite H0 in Hm. rewrite Z.mod_0_r in Hm. lia. }
      destruct (Z.eq_dec (2 ^ (- e)) 0) as [H0|H0].
      * rewrite H0, !Z.div_0_r. reflexivity.
      * rewrite Z.div_opp_l_z by assumption. reflexivity.
Qed.

(** Integers of magnitude at most [2^53] are doubles. *)
Lemma fromZ_exact_signed (n : Z) :
  - 2 ^ 53 <= n <= 2 ^ 53 -> JS.toZ (JS.fromZ n) = Some n.
Proof.
  intros Hn. destruct (Z_le_gt_dec 0 n).
  - destruct (Z.eq_dec n (2 ^ 53)) as [->|]; [vm_compute; reflexivity|].
    apply fromZ_exact. lia.
  - replace n with (- (- n)) by lia.
    destruct (fromZ_opp (- n)) as [-> | H0]; [|lia].
    apply toZ_opp.
    destruct (Z.eq_dec (- n) (2 ^ 53)) as [->|]; [vm_compute; reflexivity|].
    apply fromZ_exact. lia.
Qed.

Lemma fromZ_truthy (n : Z) : 0 < n < 2 ^ 53 -> JS.truthy (JS.fromZ n) = true.
Proof.
  intros Hn. destruct (fromZ_normal n Hn) as (m & e & -> & _). reflexivity.
Qed.

(** ** Exact products and quotients *)

(** Rounding a product that is a multiple of a normal mantissa changes
    nothing. *)
Lemma binary_round_aux_multiple (s : bool) (M c : positive) (E j : Z) :
  Z.pos M = Z.pos c * 2 ^ j -> 0 <= j ->
  Z.pos (digits2_pos c) = 53 -> -1074 <= E + j <= 970 ->
  binary_round_aux JS.prec JS.emax s (Z.pos M) E loc_Exact
  = S754_finite s c (E + j).
Proof.
  intros HM Hj Hc HE.
  pose proof (digits_bracket c _ Hc) as HB.
  change (2 ^ (53 - 1)) with (2 ^ 52) in HB.
  assert (H2j : 0 < 2 ^ j) by (apply Z.pow_pos_nonneg; lia).
  assert (HD : Z.pos (digits2_pos M) = 53 + j).
  { apply digits2_pos_unique. rewrite HM.
    replace (53 + j - 1) with (52 + j) by lia.
    rewrite !Z.pow_add_r by lia. nia. }
  destruct (binary_round_aux_exact s M E j Hj HD HE)
    as (m' & e' & -> & Hd' & He' & _ & Hex).
  assert (Hmod : Z.pos M mod 2 ^ j = 0) by (rewrite HM; apply Z.mod_mul; lia).
  specialize (Hex Hmod). rewrite HM in Hex.
  destruct (normal_unique m' c (e' - E) j ltac:(lia) Hj Hd' Hc Hex) as [-> He].
  f_equal. lia.
Qed.

(** Multiplication of positive integers is exact below [2^53]. *)
Lemma mul_fromZ (a b : Z) :
  0 < a -> 0 < b -> a * b < 2 ^ 53 ->
  JS.mul (JS.fromZ a) (JS.fromZ b) = JS.fromZ (a * b).
Proof.
  intros Ha Hb Hab.
  assert (Ha' : a < 2 ^ 53) by nia. assert (Hb' : b < 2 ^ 53) by nia.
  destruct a as [|a|a]; [lia| |lia]. destruct b as [|b|b]; [lia| |lia].
  destruct (fromZ_pos_normal a Ha') as (ma & ea & Ea & Da & Rea & Va).
  destruct (fromZ_pos_normal b Hb') as (mb & eb & Eb & Db & Reb & Vb).
  change (Z.pos a * Z.pos b) with (Z.pos (a * b)) in *.
  destruct (fromZ_pos_normal (a * b) Hab) as (mc & ec & Ec & Dc & Rec & Vc).
  rewrite Ea, Eb, Ec. unfold JS.mul, SFmul. cbn [xorb].
  apply digits_bracket in Da as Ba, Db as Bb, Dc as Bc.
  change (2 ^ (53 - 1)) with (2 ^ 52) in *.
  rewrite Pos2Z.inj_mul in Vc.
  assert (Pa : 0 < 2 ^ (- ea)) by (apply Z.pow_pos_nonneg; lia).
  assert (Pb : 0 < 2 ^ (- eb)) by (apply Z.pow_pos_nonneg; lia).
  assert (HM : Z.pos (ma * mb) = Z.pos a * Z.pos b * 2 ^ (- ea - eb)).
  { rewrite Pos2Z.inj_mul, Va, Vb.
    replace (- ea - eb) with (- ea + - eb) by lia.
    rewrite Z.pow_add_r by lia. ring. }
  assert (Hec : ea + eb <= ec).
  { destruct (Z_le_gt_dec (ea + eb) ec) as [|Hgt]; [assumption|exfalso].
    assert (E1 : 2 ^ (- ec) = 2 ^ (- ea - eb) * 2 ^ (ea + eb - ec)).
    { rewrite <- Z.pow_add_r by lia. f_equal. lia. }
    assert (2 ^ 1 <= 2 ^ (ea + eb - ec)) by (apply Z.pow_le_mono_r; lia).
    change (2 ^ 1) with 2 in *.
    assert (HMlo : 2 ^ 52 * 2 ^ 52 <= Z.pos (ma * mb)).
    { rewrite Pos2Z.inj_mul. apply Z.mul_le_mono_nonneg; lia. }
    rewrite E1, Z.mul_assoc, <- HM in Vc.
    change (2 ^ 53) with (2 ^ 52 * 2) in Bc.
    change (2 ^ 52) with 4503599627370496 in *. nia. }
  replace ec with ((ea + eb) + (ec - (ea + eb))) at 1 by lia.
  apply binary_round_aux_multiple; try assumption; try lia.
  rewrite HM, Vc.
  replace (- ea - eb) with (- ec + (ec - (ea + eb))) by lia.
  rewrite Z.pow_add_r by lia. ring.
Qed.

(** Multiplying by a power of two only raises the exponent. *)
Lemma mul_pow2 (s : bool) (m : positive) (e k : Z) :
  Z.pos (digits2_pos m) = 53 -> -1074 <= e + k <= 970 ->
  JS.mul (S754_finite s 4503599627370496 (k - 52)) (S754_finite false m e)
  = S754_finite s m (e + k).
Proof.
  intros Hm He. unfold JS.mul, SFmul.
  replace (xorb s false) with s by (destruct s; reflexivity).
  rewrite (binary_round_aux_multiple s (4503599627370496 * m) m (k - 52 + e) 52);
    [f_equal; lia | | lia | exact Hm | lia].
  rewrite Pos2Z.inj_mul. change (2 ^ 52) with 4503599627370496. lia.
Qed.

Lemma product_pos (ds : list Z) : Forall (fun d => 0 < d) ds -> 0 < product ds.
Proof.
  induction 1 as [|d ds Hd _ IH]; cbn; [lia|]. fold (product ds). nia.
Qed.

Lemma product_fromZ (ds : list Z) :
  Forall (fun d => 0 < d) ds ->
  forall acc, 0 < acc -> acc * product ds < 2 ^ 53 ->
    fold_left JS.mul (map JS.fromZ ds) (JS.fromZ acc) = JS.fromZ (acc * product ds).
Proof.
  induction 1 as [|d ds Hd Hds IH]; intros acc Hacc Hb; cbn [map fold_left product fold_right].
  - f_equal. lia.
  - fold (product ds) in *. pose proof (product_pos ds Hds) as Hp.
    cbn [product fold_right] in Hb. fold (product ds) in Hb.
    rewrite mul_fromZ by nia.
    rewrite IH by nia. f_equal. ring.
Qed.

(** The double of a power of two. *)
Lemma fromZ_pow2 (k : Z) :
  0 <= k <= 52 -> JS.fromZ (2 ^ k) = S754_finite false 4503599627370496 (k - 52).
Proof.
  intros Hk.
  assert (Hp : 0 < 2 ^ k) by (apply Z.pow_pos_nonneg; lia).
  assert (Hlt : 2 ^ k < 2 ^ 53) by (apply Z.pow_lt_mono_r; lia).
  destruct (2 ^ k) as [|p|p] eqn:Ep; try lia.
  destruct (fromZ_pos_normal p Hlt) as (m & e & -> & D & He & Hm).
  apply digits_bracket in D. change (2 ^ (53 - 1)) with (2 ^ 52) in D.
  rewrite <- Ep, <- Z.pow_add_r in Hm by lia. rewrite Hm in D.
  assert (k + - e < 53) by (apply pow2_lt_inv; lia).
  assert (51 < k + - e).
  { destruct (Z_lt_le_dec 51 (k + - e)) as [|Hle]; [assumption|exfalso].
    assert (2 ^ (k + - e) <= 2 ^ 51) by (apply Z.pow_le_mono_r; lia).
    change (2 ^ 51) with 2251799813685248 in *.
    change (2 ^ 52) with 4503599627370496 in *. lia. }
  replace (k + - e) with 52 in Hm by lia.
  f_equal; [|lia]. change (2 ^ 52) with 4503599627370496 in Hm. lia.
Qed.

(** Dividing a normal number by a power of two only lowers its exponent. *)
Lemma div_by_pow2 (m1 : positive) (e1 e2 : Z) :
  Z.pos (digits2_pos m1) = 53 -> -1000 <= e1 - e2 <= 900 ->
  JS.div (S754_finite false m1 e1) (S754_finite false 4503599627370496 e2)
  = S754_finite false m1 (e1 - e2 - 52).
Proof.
  intros H1 He.
  unfold JS.div, SFdiv, SFdiv_core_binary. cbn [xorb Zdigits2].
  rewrite H1. change (Z.pos (digits2_pos 4503599627370496)) with 53.
  replace (53 + e1 - (53 + e2)) with (e1 - e2) by lia.
  rewrite fexp_normal by lia.
  replace (Z.min (e1 - e2 - 53) (e1 - e2)) with (e1 - e2 - 53) by lia.
  replace (e1 - e2 - (e1 - e2 - 53)) with 53 by lia.
  cbv zeta iota.
  rewrite Z.shiftl_mul_pow2 by lia.
  pose proof (Z_div_mod (Z.pos m1 * 2 ^ 53) 4503599627370496 ltac:(lia)) as Hdm.
  destruct (Z.div_eucl (Z.pos m1 * 2 ^ 53) 4503599627370496) as [q r].
  destruct Hdm as [Hdm Hr].
  change (2 ^ 53) with 9007199254740992 in *.
  assert (r = 0) by lia. assert (q = Z.pos (m1~0)) by lia. subst q r.
  rewrite new_location_spec. change (location_of 0 4503599627370496) with loc_Exact.
  rewrite (binary_round_aux_multiple false (m1~0) m1 (e1 - e2 - 53) 1);
    [f_equal; lia | lia | lia | exact H1 | lia].
Qed.

(** [Math.ceil(n / blockSize)] is exact for a block size that is a power of
    two. *)
Lemma Math_ceil_div_pow2 (n k : Z) :
  0 < n < 2 ^ 53 -> 0 <= k <= 52 ->
  JS.Math_ceil (JS.div (JS.fromZ n) (JS.fromZ (2 ^ k))) = JS.fromZ (ceil_div n (2 ^ k)).
Proof.
  intros Hn Hk. rewrite fromZ_pow2 by exact Hk.
  destruct n as [|p|p]; try lia.
  destruct (fromZ_pos_normal p ltac:(lia)) as (m & e & E & D & He & Hm).
  rewrite E, div_by_pow2 by (try assumption; lia).
  replace (e - (k - 52) - 52) with (e - k) by lia.
  assert (P2 : 0 < 2 ^ (- e)) by (apply Z.pow_pos_nonneg; lia).
  assert (Pk : 0 < 2 ^ k) by (apply Z.pow_pos_nonneg; lia).
  unfold JS.Math_ceil, JS.smant, ceil_div.
  destruct (Z.leb_spec 0 (e - k)).
  - assert (e = 0) by lia. assert (k = 0) by lia. subst e k.
    change (0 - 0) with 0. change (2 ^ 0) with 1. rewrite Z.div_1_r.
    replace (- - Z.pos p) with (Z.pos p) by lia. symmetry. exact E.
  - replace (- (e - k)) with (k + - e) by lia. rewrite Z.pow_add_r by lia.
    replace (- Z.pos m) with (- Z.pos p * 2 ^ (- e)) by lia.
    rewrite Z.div_mul_cancel_r by lia.
    assert (Hq : 0 < - (- Z.pos p / 2 ^ k)).
    { assert (- Z.pos p / 2 ^ k < 0); [|lia].
      apply Z.div_lt_upper_bound; lia. }
    destruct (Z.eqb_spec (- (- Z.pos p / 2 ^ k)) 0); [lia|reflexivity].
Qed.

Lemma ceil_div_pos (n b : Z) : 0 < n -> 0 < b -> 0 < ceil_div n b <= n.
Proof.
  intros Hn Hb. unfold ceil_div.
  assert (- n / b < 0) by (apply Z.div_lt_upper_bound; lia).
  assert (- n <= - n / b); [|lia].
  apply Z.div_le_lower_bound; nia.
Qed.

Lemma div_fromZ_exact (q b : Z) :
  0 < q -> 0 < b -> q * b < 2 ^ 53 ->
  JS.div (JS.fromZ (q * b)) (JS.fromZ b) = JS.fromZ q.
Proof.
  intros Hq Hb Hqb.
  destruct q as [|q|q]; try lia. destruct b as [|b|b]; try lia.
  change (Z.pos q * Z.pos b) with (Z.pos (q * b)) in *.
  assert (Hq' : Z.pos q < 2 ^ 53) by nia.
  assert (Hb' : Z.pos b < 2 ^ 53) by nia.
  destruct (fromZ_pos_normal (q * b) Hqb) as (ma & ea & -> & Da & Ea & Ma).
  destruct (fromZ_pos_normal b Hb') as (mb & eb & -> & Db & Eb & Mb).
  destruct (fromZ_pos_normal q Hq') as (mq & eq & -> & Dq & Eq & Mq).
  unfold JS.div, SFdiv, SFdiv_core_binary. cbn [xorb Zdigits2].
  rewrite Da, Db.
  replace (53 + ea - (53 + eb)) with (ea - eb) by lia.
  rewrite fexp_normal by lia.
  replace (Z.min (ea - eb - 53) (ea - eb)) with (ea - eb - 53) by lia.
  replace (ea - eb - (ea - eb - 53)) with 53 by lia.
  cbv zeta iota.
  rewrite Z.shiftl_mul_pow2 by lia.
  set (u := - ea) in *. set (v := - eb) in *. set (w := - eq) in *.
  assert (Hu : 0 <= u <= 52) by (unfold u; lia).
  assert (Hv : 0 <= v <= 52) by (unfold v; lia).
  assert (Hw : 0 <= w <= 52) by (unfold w; lia).
  pose proof (digits_bracket _ _ Da) as Ba.
  pose proof (digits_bracket _ _ Db) as Bb.
  pose proof (digits_bracket _ _ Dq) as Bq.
  change (2 ^ (53 - 1)) with (2 ^ 52) in *.
  rewrite Pos2Z.inj_mul in Ma.
  assert (Pu : 0 < 2 ^ u) by (apply Z.pow_pos_nonneg; lia).
  assert (Pv : 0 < 2 ^ v) by (apply Z.pow_pos_nonneg; lia).
  assert (Pw : 0 < 2 ^ w) by (apply Z.pow_pos_nonneg; lia).
  assert (Hj : 0 <= 53 + u - v - w).
  { destruct (Z_le_gt_dec 0 (53 + u - v - w)) as [|Hneg]; [assumption|exfalso].
    assert (Hs : 2 ^ (v + w) = 2 ^ u * 2 ^ (v + w - u)).
    { rewrite <- Z.pow_add_r by lia. f_equal. lia. }
    assert (Hbig : 2 ^ 54 <= 2 ^ (v + w - u)) by (apply Z.pow_le_mono_r; lia).
    rewrite Z.pow_add_r in Hs by lia.
    assert (Hprod : Z.pos mb * Z.pos mq = Z.pos ma * 2 ^ (v + w - u)).
    { rewrite Mb, Mq, Ma.
      transitivity (Z.pos q * Z.pos b * (2 ^ v * 2 ^ w)); [ring|].
      rewrite Hs. ring. }
    change (2 ^ 54) with 18014398509481984 in *.
    change (2 ^ 53) with 9007199254740992 in *.
    change (2 ^ 52) with 4503599627370496 in *.
    assert (Z.pos mb * Z.pos mq < 9007199254740992 * 9007199254740992) by nia.
    assert (4503599627370496 * 18014398509481984 <= Z.pos ma * 2 ^ (v + w - u)) by nia.
    lia. }
  set (j := 53 + u - v - w) in *.
  assert (Pj : 0 < 2 ^ j) by (apply Z.pow_pos_nonneg; lia).
  assert (HN : Z.pos ma * 2 ^ 53 = Z.pos mb * (Z.pos mq * 2 ^ j)).
  { rewrite Ma, Mb, Mq.
    transitivity (Z.pos q * Z.pos b * (2 ^ u * 2 ^ 53)); [ring|].
    transitivity (Z.pos q * Z.pos b * (2 ^ v * 2 ^ w * 2 ^ j)); [|ring].
    f_equal. rewrite <- !Z.pow_add_r by lia. f_equal. unfold j. lia. }
  assert (HD : Z.div_eucl (Z.pos ma * 2 ^ 53) (Z.pos mb) = (Z.pos mq * 2 ^ j, 0)).
  { rewrite HN.
    pose proof (Z_div_mod (Z.pos mb * (Z.pos mq * 2 ^ j)) (Z.pos mb) ltac:(lia)) as Hdm.
    destruct (Z.div_eucl (Z.pos mb * (Z.pos mq * 2 ^ j)) (Z.pos mb)) as [q0 r].
    destruct Hdm as [Hdm Hr].
    assert (q0 = Z.pos mq * 2 ^ j) by nia.
    f_equal; [assumption|]. subst q0. lia. }
  change IntDef.Z.div_eucl with Z.div_eucl.
  rewrite HD. rewrite new_location_spec.
  assert (HL : location_of 0 (Z.pos mb) = loc_Exact) by reflexivity.
  rewrite HL.
  destruct (Z.pos mq * 2 ^ j) as [|M|M] eqn:EM; [lia| |lia].
  rewrite (binary_round_aux_multiple false M mq (ea - eb - 53) j);
    [f_equal; unfold j, u, v, w; lia | lia | lia | exact Dq | unfold j, u, v, w; lia].
Qed.

(** ** Whole parts *)

Lemma Math_floor_between (m : positive) (e q : Z) :
  Z.pos (digits2_pos m) = 53 -> 0 <= q -> q + 1 <= 2 ^ 52 ->
  (inject_Z q <= Qval (S754_finite false m e))%Q ->
  (Qval (S754_finite false m e) < inject_Z (q + 1))%Q ->
  JS.Math_floor (S754_finite false m e) = JS.fromZ q.
Proof.
  intros Hd Hq0 Hq Hlo Hhi.
  assert (Hneg : e < 0).
  { destruct (Z_lt_le_dec e 0) as [|Hge]; [assumption|exfalso].
    pose proof (Qval_normal_large m e Hd Hge) as Hl.
    rewrite Zle_Qle in Hq. lra. }
  unfold JS.Math_floor. replace (0 <=? e) with false by (symmetry; apply Z.leb_gt; lia).
  cbn [JS.smant]. f_equal.
  set (P := 2 ^ (- e)).
  assert (HP : 0 < P) by (apply Z.pow_pos_nonneg; lia).
  assert (HU : (Qval (S754_finite false m e) * inject_Z P == inject_Z (Z.pos m))%Q).
  { cbn [Qval JS.smant]. unfold P. rewrite Qpow2_inject by lia.
    rewrite <- Qmult_assoc, <- Qpow2_add.
    replace (e + - e) with 0 by lia. change (2 ^ 0)%Q with 1%Q. ring. }
  assert (HPq : (0 < inject_Z P)%Q)
    by (change 0%Q with (inject_Z 0); rewrite <- Zlt_Qlt; lia).
  assert (L : q * P <= Z.pos m).
  { rewrite Zle_Qle, inject_Z_mult, <- HU. apply Qmult_le_compat_r; [exact Hlo|lra]. }
  assert (U : Z.pos m < (q + 1) * P).
  { rewrite Zlt_Qlt, inject_Z_mult, <- HU. apply Qmult_lt_compat_r; [exact HPq|exact Hhi]. }
  symmetry. apply (Z.div_unique_pos _ _ q (Z.pos m - q * P)); lia.
Qed.

Lemma Math_floor_fromZ (q : Z) : 0 <= q < 2 ^ 53 -> JS.Math_floor (JS.fromZ q) = JS.fromZ q.
Proof.
  intros Hq. destruct q as [|p|p]; [reflexivity| |lia].
  destruct (fromZ_pos_small p ltac:(lia)) as (m & e & E & He & Hm).
  rewrite E. unfold JS.Math_floor, JS.smant.
  destruct (Z.leb_spec 0 e); [reflexivity|].
  rewrite Hm, Z.div_mul by (apply Z.pow_nonzero; lia). exact E.
Qed.

(** [Math.floor(a / b)] on whole numbers is the integer quotient: the
    rounding of the division never reaches the next whole number. *)
Lemma floor_div_fromZ (a b : Z) :
  0 < a < 2 ^ 53 -> 0 < b < 2 ^ 53 ->
  JS.Math_floor (JS.div (JS.fromZ a) (JS.fromZ b)) = JS.fromZ (a / b).
Proof.
  intros Ha Hb.
  pose proof (Z.div_mod a b ltac:(lia)) as Hdm.
  pose proof (Z.mod_pos_bound a b ltac:(lia)) as Hr.
  assert (Hq0 : 0 <= a / b) by (apply Z.div_pos; lia).
  set (q := a / b) in *. set (r := a mod b) in *.
  destruct (Z.eq_dec r 0) as [R0|R1].
  - assert (Hq : 0 < q) by nia.
    replace a with (q * b) by lia.
    rewrite div_fromZ_exact by (try lia; nia).
    apply Math_floor_fromZ. nia.
  - assert (Hb2 : 2 <= b) by lia.
    pose proof (Qval_fromZ a Ha) as Va. pose proof (Qval_fromZ b Hb) as Vb.
    destruct (fromZ_normal a Ha) as (ma & ea & Ea & Da & Ra).
    destruct (fromZ_normal b Hb) as (mb & eb & Eb & Db & Rb).
    rewrite Ea, Eb in *.
    destruct (Qval_div ma mb ea eb Da Db ltac:(lia)) as (m' & e' & -> & D' & _ & Hrel).
    cbv zeta in Hrel. rewrite Va, Vb in Hrel.
    change (2 ^ 53) with 9007199254740992 in *.
    assert (Hqa : (inject_Z a == inject_Z q * inject_Z b + inject_Z r)%Q).
    { rewrite <- inject_Z_mult, <- inject_Z_plus.
      replace (q * b + r) with a by lia. reflexivity. }
    assert (Qa : (inject_Z a < 9007199254740992)%Q).
    { change 9007199254740992%Q with (inject_Z 9007199254740992).
      rewrite <- Zlt_Qlt. lia. }
    assert (Qa0 : (0 < inject_Z a)%Q)
      by (change 0%Q with (inject_Z 0); rewrite <- Zlt_Qlt; lia).
    assert (Qb0 : (0 < inject_Z b)%Q)
      by (change 0%Q with (inject_Z 0); rewrite <- Zlt_Qlt; lia).
    assert (Qr1 : (1 <= inject_Z r)%Q)
      by (change 1%Q with (inject_Z 1); rewrite <- Zle_Qle; lia).
    assert (Qr2 : (inject_Z r + 1 <= inject_Z b)%Q).
    { change 1%Q with (inject_Z 1). rewrite <- inject_Z_plus, <- Zle_Qle. lia. }
    unfold eps in Hrel. destruct Hrel as [Hl Hu].
    set (V := Qval (S754_finite false m' e')) in *.
    set (A := inject_Z a) in *. set (B := inject_Z b) in *.
    set (Qq := inject_Z q) in *. set (Rr := inject_Z r) in *.
    assert (He : ((1 # 9007199254740992) * A < 1)%Q) by lra.
    apply Math_floor_between.
    + exact D'.
    + exact Hq0.
    + change (2 ^ 52) with 4503599627370496. nia.
    + fold V Qq. apply (Qmult_le_r _ _ B Qb0). lra.
    + fold V. rewrite inject_Z_plus. fold Qq. change (inject_Z 1) with 1%Q.
      apply (Qmult_lt_r _ _ B Qb0). lra.
Qed.

(** ** Whole numbers as loop bounds and lengths *)

Lemma Math_ceil_fromZ (q : Z) : 0 < q < 2 ^ 53 -> JS.Math_ceil (JS.fromZ q) = JS.fromZ q.
Proof.
  intros Hq. destruct q as [|p|p]; try lia.
  destruct (fromZ_pos_small p ltac:(lia)) as (m & e & E & He & Hm).
  rewrite E. unfold JS.Math_ceil, JS.smant.
  destruct (Z.leb_spec 0 e); [reflexivity|].
  assert (H2 : 0 < 2 ^ (- e)) by (apply Z.pow_pos_nonneg; lia).
  replace (- Z.pos m) with (- Z.pos p * 2 ^ (- e)) by lia.
  rewrite Z.div_mul by lia.
  replace (- - Z.pos p) with (Z.pos p) by lia. cbn [Z.eqb]. exact E.
Qed.

Lemma turns_fromZ (q : Z) :
  0 < q < 2 ^ 53 -> turns (JS.fromZ q) = Some (Z.to_nat q).
Proof.
  intros Hq. unfold turns. rewrite Math_ceil_fromZ by exact Hq.
  unfold int_of. rewrite fromZ_exact by lia.
  destruct q as [|p|p]; try lia.
  destruct (fromZ_pos_small p ltac:(lia)) as (m & e & -> & _). reflexivity.
Qed.

Lemma trunc_fromZ (n : Z) : 0 <= n < 2 ^ 53 -> trunc (JS.fromZ n) = n.
Proof.
  intros Hn. destruct n as [|p|p]; [reflexivity| |lia].
  destruct (fromZ_pos_small p ltac:(lia)) as (m & e & -> & He & Hm).
  unfold trunc, JS.smant. destruct (Z.leb_spec 0 e).
  - assert (e = 0) by lia. subst e. cbn in Hm. lia.
  - rewrite Hm. apply Z.quot_mul. apply Z.pow_nonzero; lia.
Qed.

(** ** Lists *)

Lemma forallb_Forall_Z (P : Z -> bool) (Q : Z -> Prop) (l : list Z) :
  (forall z, P z = true -> Q z) -> forallb P l = true -> Forall Q l.
Proof.
  intros HPQ. induction l as [|z l IH]; [constructor|].
  cbn [forallb]. intros H. apply andb_true_iff in H as [Hz Hl].
  constructor; [apply HPQ, Hz | apply IH, Hl].
Qed.

Lemma forallb_pos_Forall (ds : list Z) :
  forallb (Z.ltb 0) ds = true -> Forall (fun d => 0 < d) ds.
Proof.
  apply forallb_Forall_Z. intros z Hz. apply Z.ltb_lt, Hz.
Qed.

Lemma forallb_seqZ (P : Z -> bool) (a n x : Z) :
  forallb P (seqZ a n) = true -> a <= x < a + n -> P x = true.
Proof.
  intros H Hx. rewrite forallb_forall in H. apply H.
  apply list_elem_of_In, elem_of_seqZ. lia.
Qed.

Lemma map_fst_combine {A B} (l : list A) (k : list B) :
  length k = length l -> map fst (combine l k) = l.
Proof.
  revert k. induction l as [|a l IH]; intros [|b k] H; try discriminate H;
    [reflexivity|]. cbn. f_equal. apply IH. injection H as H. exact H.
Qed.

(* ================================================================== *)
(** * Further properties of the cursor *)
(* ================================================================== *)

Lemma getInt32_range (b : ArrayBuffer) (i : Z) :
  - 2 ^ 31 <= getInt32 b i < 2 ^ 31.
Proof.
  unfold getInt32, signed. pose proof (getUint32_range b i).
  change (2 ^ (32 - 1)) with (2 ^ 31). change (2 ^ 32) with (2 ^ 31 * 2) in *.
  destruct (Z.ltb_spec (getUint32 b i) (2 ^ 31)); lia.
Qed.

Lemma le_int64_halves (b : ArrayBuffer) (i : Z) :
  le_int64 b i = getUint32 b i + 2 ^ 32 * getInt32 b (i + 4).
Proof.
  unfold le_int64, getInt32, signed. rewrite le_uint64_halves.
  pose proof (getUint32_range b i). pose proof (getUint32_range b (i + 4)).
  change (2 ^ (64 - 1)) with (2 ^ 31 * 2 ^ 32).
  change (2 ^ (32 - 1)) with (2 ^ 31).
  change (2 ^ 64) with (2 ^ 32 * 2 ^ 32).
  change (2 ^ 32) with 4294967296 in *. change (2 ^ 31) with 2147483648 in *.
  destruct (Z.ltb_spec (getUint32 b (i + 4)) 2147483648);
    destruct (Z.ltb_spec (getUint32 b i + 4294967296 * getUint32 b (i + 4))
                (2147483648 * 4294967296)); lia.
Qed.

Lemma readInt64_run (b : ArrayBuffer) (off : Z) :
  off + 8 <= byteLength b ->
  readInt64 {| buf := b; offset := off |}
  = Ok (JS.fromZ (le_int64 b off), {| buf := b; offset := off + 8 |}).
Proof.
  intros H8. unfold readInt64, bind, _need, advance, ret. cbn [buf offset].
  rewrite Zgtb_false by lia. cbn [buf offset].
  rewrite le_int64_halves.
  pose proof (getUint32_range b off) as Hlo.
  pose proof (getInt32_range b (off + 4)) as Hhi.
  set (lo := getUint32 b off) in *. set (hi := getInt32 b (off + 4)) in *.
  change (2 ^ 32) with 4294967296 in *. change (2 ^ 31) with 2147483648 in *.
  destruct (Z.eqb_spec hi 0) as [E0|N0]; cbn [andb].
  - destruct (Z.ltb_spec lo 2147483648); cbn [andb].
    + replace (lo + 4294967296 * hi) with lo by lia. reflexivity.
    + destruct (Z.eqb_spec hi (-1)); [lia|]. cbn [andb].
      rewrite bigint_combine_add by (change (2 ^ 32) with 4294967296; lia).
      reflexivity.
  - destruct (Z.eqb_spec hi (-1)) as [E1|N1]; cbn [andb].
    + destruct (Z.geb_spec lo 2147483648) as [Hge|Hlt].
      * assert (HT : ToInt32 lo = lo + 4294967296 * hi).
        { unfold ToInt32.
          change (2 ^ 31) with 2147483648. change (2 ^ 32) with 4294967296.
          rewrite E1.
          replace (lo + 2147483648) with ((lo - 2147483648) + 1 * 4294967296) by lia.
          rewrite Z.mod_add, Z.mod_small by lia. lia. }
        rewrite HT. reflexivity.
      * rewrite bigint_combine_add by (change (2 ^ 32) with 4294967296; lia).
        reflexivity.
    + rewrite bigint_combine_add by (change (2 ^ 32) with 4294967296; lia).
      reflexivity.
Qed.

(** X1.  With at least 8 bytes left, [readInt64] returns the double nearest
    to the signed 64-bit integer stored little-endian at the cursor and
    moves the cursor by 8; when that integer lies within [-2^53, 2^53] the
    double denotes it exactly. *)
Theorem readInt64_exact_within_2_53 (b : ArrayBuffer) (off : Z) :
  off + 8 <= byteLength b ->
  readInt64 {| buf := b; offset := off |}
  = Ok (JS.fromZ (le_int64 b off), {| buf := b; offset := off + 8 |}) /\
  (- 2 ^ 53 <= le_int64 b off <= 2 ^ 53 ->
   JS.toZ (JS.fromZ (le_int64 b off)) = Some (le_int64 b off)).
Proof.
  intros H8. split; [apply readInt64_run; exact H8|].
  apply fromZ_exact_signed.
Qed.

Lemma readInt64_exact_within_2_53_witness :
  readInt64 {| buf := minus_two_buffer; offset := 0 |}
  = Ok (JS.fromZ (-2), {| buf := minus_two_buffer; offset := 8 |}) /\
  JS.toZ (JS.fromZ (-2)) = Some (-2).
Proof.
  destruct (readInt64_exact_within_2_53 minus_two_buffer 0) as [Hrun Hex].
  - vm_compute. discriminate.
  - split; [exact Hrun|]. apply Hex. vm_compute. split; discriminate.
Defined.

(** X2.  With the 8 bytes of the length in the buffer and a length of at
    most 2^53, [readString] throws ['BUFFER_TOO_SMALL'] when fewer bytes
    follow than the length announces, and otherwise returns the decoding of
    exactly the announced bytes and leaves the cursor right after them. *)
Theorem readString_reads_length_then_bytes (b : ArrayBuffer) (off : Z) :
  off + 8 <= byteLength b ->
  le_uint64 b off <= 2 ^ 53 ->
  readString {| buf := b; offset := off |}
  = if off + 8 + le_uint64 b off >? byteLength b
    then Throw BUFFER_TOO_SMALL
    else Ok (TextDecoder_decode
               (Uint8Array b (off + 8) (Z.to_nat (le_uint64 b off))),
             {| buf := b; offset := off + 8 + le_uint64 b off |}).
Proof.
  intros H8 Hn.
  pose proof (le_uint64_range b off) as Hr.
  unfold readString, bind. rewrite readUint64_run by exact H8.
  unfold int_of. rewrite fromZ_exact_upto by lia.
  unfold _need, advance, ret. cbn [buf offset].
  destruct (off + 8 + le_uint64 b off >? byteLength b); reflexivity.
Qed.

Lemma readString_reads_length_then_bytes_witness :
  readString {| buf := abc_buffer; offset := 0 |}
  = Ok ("abc"%string, {| buf := abc_buffer; offset := 11 |}).
Proof.
  rewrite (readString_reads_length_then_bytes abc_buffer 0).
  - vm_compute. reflexivity.
  - vm_compute. discriminate.
  - vm_compute. discriminate.
Defined.

(** X3.  A value that [readValue] returns was read inside the buffer:
    starting from a cursor inside the buffer, the call keeps the buffer,
    moves the cursor forward by at least one byte and never past the end. *)
Theorem readValue_stays_in_bounds (fuel : nat) (type : Z)
    (r r' : BufferReader) (v : JSValue) :
  0 <= offset r <= byteLength (buf r) ->
  readValue fuel type r = Ok (v, r') ->
  buf r' = buf r /\ offset r < offset r' <= byteLength (buf r).
Proof.
  intros Hb Hrun.
  destruct (advances_readValue fuel type r v r' Hb Hrun) as (E & L & W).
  unfold in_bounds in W. rewrite E in W. split; [exact E|lia].
Qed.

Lemma readValue_stays_in_bounds_witness :
  exists v r',
    readValue 5 GGUFValueType.ARRAY (new_BufferReader array_buffer) = Ok (v, r') /\
    buf r' = array_buffer /\ 0 < offset r' <= 15.
Proof.
  assert (H : match readValue 5 GGUFValueType.ARRAY (new_BufferReader array_buffer) with
              | Ok _ => true | _ => false end = true) by (vm_compute; reflexivity).
  destruct (readValue 5 GGUFValueType.ARRAY (new_BufferReader array_buffer))
    as [[v r']| |] eqn:E; [|discriminate H|discriminate H].
  exists v, r'. split; [reflexivity|].
  apply (readValue_stays_in_bounds 5 GGUFValueType.ARRAY
           (new_BufferReader array_buffer) r' v); [vm_compute; split; discriminate|exact E].
Defined.

(** A loop whose body appends one element appends as many as it has
    turns. *)
Lemma for_loop_push_length {A} (read : M A) :
  forall fuel i n (acc acc' : list A) r r',
    for_loop fuel i n (fun _ arr => v <- read ;; ret (arr ++ [v])) acc r
    = Ok (acc', r') ->
    Z.of_nat (length acc') = Z.of_nat (length acc) + Z.max 0 (n - i).
Proof.
  induction fuel as [|fuel IH]; intros i n acc acc' r r' H; cbn [for_loop] in H.
  - destruct (Z.ltb_spec i n); [discriminate|].
    injection H as <- _. lia.
  - destruct (Z.ltb_spec i n).
    + apply bind_Ok in H as (acc1 & r1 & H1 & H2).
      apply bind_Ok in H1 as (v & r0 & _ & Hv). injection Hv as <- _.
      apply IH in H2. rewrite length_app in H2. cbn [length] in H2. lia.
    + injection H as <- _. lia.
Qed.

(** X4.  An array value has as many elements as the 64-bit count that
    follows its element type announces, as [readUint64] returns that
    count. *)
Theorem readValue_array_length (fuel : nat) (r r' : BufferReader) (v : JSValue) :
  readValue fuel GGUFValueType.ARRAY r = Ok (v, r') ->
  exists arr,
    v = JArr arr /\
    Z.of_nat (length arr)
    = int_of (JS.fromZ (le_uint64 (buf r) (offset r + 4))).
Proof.
  destruct fuel as [|fuel]; [discriminate|].
  cbn [readValue]. change (GGUFValueType.ARRAY =? GGUFValueType.UINT8) with false.
  cbv beta iota.
  change (GGUFValueType.ARRAY =? _) with false at 1.
  repeat (change (GGUFValueType.ARRAY =? _) with false at 1; cbv iota).
  change (GGUFValueType.ARRAY =? GGUFValueType.ARRAY) with true. cbv iota.
  intros H.
  apply bind_Ok in H as (arrType & r1 & H1 & H).
  apply bind_Ok in H as (arrLen & r2 & H2 & H).
  apply bind_Ok in H as (arr & r3 & H3 & H). injection H as <- _.
  exists arr. split; [reflexivity|].
  apply for_loop_push_length in H3. cbn [length] in H3.
  (* the length is the 64-bit integer after the element type *)
  unfold readUint32, bind, _need, advance, ret in H1. cbn [buf offset] in H1.
  destruct (offset r + 4 >? byteLength (buf r)); [discriminate|].
  injection H1 as _ <-.
  pose proof (readUint64_nonneg _ _ _ H2) as Hnn.
  unfold readUint64, bind, _need, advance, ret in H2. cbn [buf offset] in H2.
  destruct (offset r + 4 + 8 >? byteLength (buf r)); [discriminate|].
  cbn [buf offset] in H2.
  rewrite le_uint64_halves.
  replace (offset r + 4 + 4) with (offset r + 4 + 4) by lia.
  destruct (getUint32 (buf r) (offset r + 4 + 4) =? 0) eqn:Hhi.
  - injection H2 as <- _. apply Z.eqb_eq in Hhi. rewrite Hhi.
    replace (getUint32 (buf r) (offset r + 4) + 2 ^ 32 * 0)
      with (getUint32 (buf r) (offset r + 4)) by lia.
    pose proof (int_of_fromZ_nonneg (getUint32 (buf r) (offset r + 4))
                  ltac:(pose proof (getUint32_range (buf r) (offset r + 4)); lia)).
    lia.
  - injection H2 as <- _.
    rewrite bigint_combine_add in * by apply getUint32_range.
    lia.
Qed.

Lemma readValue_array_length_witness :
  exists arr r',
    readValue 5 GGUFValueType.ARRAY (new_BufferReader array_buffer)
    = Ok (JArr arr, r') /\
    Z.of_nat (length arr) = 3.
Proof.
  assert (H : match readValue 5 GGUFValueType.ARRAY (new_BufferReader array_buffer) with
              | Ok _ => true | _ => false end = true) by (vm_compute; reflexivity).
  destruct (readValue 5 GGUFValueType.ARRAY (new_BufferReader array_buffer))
    as [[v r']| |] eqn:E; [|discriminate H|discriminate H].
  destruct (readValue_array_length 5 _ r' v E) as (arr & -> & Hlen).
  exists arr, r'. split; [reflexivity|].
  rewrite Hlen. vm_compute. reflexivity.
Defined.

(** X5.  A type tag outside 0..12 makes [readValue] throw ["Unknown GGUF
    value type"].  But an array of announced length 0 is returned as the
    empty array whatever its element tag is: the element type is looked at
    only when an element is read. *)
Theorem readValue_unknown_type (fuel : nat) (type : Z) (r : BufferReader) :
  (type < 0 \/ 12 < type ->
   readValue (S fuel) type r = Throw (UnknownValueType type)) /\
  (offset r + 12 <= byteLength (buf r) ->
   le_uint64 (buf r) (offset r + 4) = 0 ->
   readValue (S fuel) GGUFValueType.ARRAY r
   = Ok (JArr [], {| buf := buf r; offset := offset r + 12 |})).
Proof.
  split.
  - intros Ht. cbn [readValue].
    unfold GGUFValueType.UINT8, GGUFValueType.INT8, GGUFValueType.UINT16,
      GGUFValueType.INT16, GGUFValueType.UINT32, GGUFValueType.INT32,
      GGUFValueType.FLOAT32, GGUFValueType.BOOL, GGUFValueType.STRING,
      GGUFValueType.UINT64, GGUFValueType.INT64, GGUFValueType.FLOAT64,
      GGUFValueType.ARRAY.
    repeat match goal with
           | |- context [type =? ?k] =>
               replace (type =? k) with false by (symmetry; apply Z.eqb_neq; lia)
           end.
    reflexivity.
  - intros H12 Hlen. cbn [readValue].
    change (GGUFValueType.ARRAY =? GGUFValueType.UINT8) with false.
    repeat (change (GGUFValueType.ARRAY =? _) with false at 1; cbv iota).
    change (GGUFValueType.ARRAY =? GGUFValueType.ARRAY) with true. cbv iota.
    unfold bind at 1. unfold readUint32, bind at 1, _need, advance, ret.
    cbn [buf offset]. rewrite Zgtb_false by lia. cbn [buf offset bind].
    unfold bind.
    rewrite (readUint64_run (buf r) (offset r + 4)) by lia.
    rewrite Hlen. change (int_of (JS.fromZ 0)) with 0.
    destruct fuel; cbn [for_loop]; unfold ret; do 3 f_equal; lia.
Qed.

Lemma readValue_unknown_type_witness :
  readValue 3 99 (new_BufferReader empty_array_buffer)
  = Throw (UnknownValueType 99) /\
  readValue 3 GGUFValueType.ARRAY (new_BufferReader empty_array_buffer)
  = Ok (JArr [], {| buf := empty_array_buffer; offset := 12 |}).
Proof.
  destruct (readValue_unknown_type 2 99 (new_BufferReader empty_array_buffer))
    as [Hu _].
  destruct (readValue_unknown_type 2 99 (new_BufferReader empty_array_buffer))
    as [_ He].
  split.
  - apply Hu. right. lia.
  - apply He; vm_compute; [discriminate|reflexivity].
Defined.

(* ================================================================== *)
(** * Further properties of the header parser *)
(* ================================================================== *)

(** ** The retry loop *)

Lemma retries_grow (file : File) (readSize : Z) (log : list Z) :
  retries file readSize log ->
  1 <= readSize \/ size file <= readSize ->
  forall i a b,
    (readSize :: log) !! i = Some a ->
    (readSize :: log) !! S i = Some b ->
    a < b <= size file /\ b = Z.min (size file) (a * 4).
Proof.
  induction 1 as [readSize|readSize log Hat Hlt Hrest IH]; intros Hpos i a b Ha Hb.
  - destruct i; discriminate.
  - destruct i as [|i].
    + cbn in Ha, Hb. injection Ha as <-. injection Hb as <-. lia.
    + apply (IH ltac:(lia) i a b); assumption.
Qed.

Lemma parseGGUFHeader_loop_attempts (file : File) (fuel : nat) :
  forall readSize,
    snd (parseGGUFHeader_loop fuel file readSize) <> OutOfFuel ->
    (length (fst (parseGGUFHeader_loop fuel file readSize)) < fuel)%nat.
Proof.
  induction fuel as [|fuel IH]; intros readSize; [cbn; congruence|].
  rewrite parseGGUFHeader_loop_step.
  destruct (_parseHeader file readSize) as [h|e|]; cbn [fst snd length]; try lia.
  destruct (is_BUFFER_TOO_SMALL e && (readSize <? size file));
    cbn [fst snd length]; [|lia].
  intros H. specialize (IH _ H). lia.
Qed.

(** X6.  The retry loop of [parseGGUFHeader] makes at most
    [log2_up (size file)] retries, and each retry reads strictly more than
    the attempt before it and never more than the file: min(size, 4 times
    the size before). *)
Theorem parseGGUFHeader_attempts_grow (file : File) :
  let first := initial_readSize file in
  let log := fst (parseGGUFHeader file) in
  Z.of_nat (length log) <= Z.log2_up (size file) /\
  forall i a b,
    (first :: log) !! i = Some a -> (first :: log) !! S i = Some b ->
    a < b <= size file /\ b = Z.min (size file) (a * 4).
Proof.
  cbv zeta.
  pose proof (parseGGUFHeader_terminates file) as Hterm.
  split.
  - pose proof (parseGGUFHeader_loop_attempts file _ _ Hterm) as Hlen.
    fold (parseGGUFHeader file) in Hlen.
    pose proof (Z.log2_up_nonneg (size file)). lia.
  - destruct (parseGGUFHeader file) as [log res] eqn:Hrun. cbn [fst].
    unfold parseGGUFHeader in Hrun.
    destruct (parseGGUFHeader_loop_trace _ _ _ _ _ Hrun) as [Hretries _].
    apply retries_grow; [exact Hretries|].
    unfold initial_readSize. lia.
Qed.

Lemma parseGGUFHeader_attempts_grow_witness :
  fst (parseGGUFHeader oversized_key_file)
  = [40 * 1024 * 1024; 50 * 1024 * 1024] /\
  10 * 1024 * 1024 < 40 * 1024 * 1024 <= size oversized_key_file.
Proof.
  assert (H : parseGGUFHeader oversized_key_file
              = ([40 * 1024 * 1024; 50 * 1024 * 1024], Throw BUFFER_TOO_SMALL))
    by (lazy; reflexivity).
  split; [rewrite H; reflexivity|].
  destruct (parseGGUFHeader_attempts_grow oversized_key_file) as (_ & G).
  rewrite H in G.
  exact (proj1 (G 0%nat (10 * 1024 * 1024) (40 * 1024 * 1024) eq_refl eq_refl)).
Defined.

(** X7.  A file of at least 4 bytes that does not start with the magic
    "GGUF" is rejected with ["Not a valid GGUF file"], quoting the 32-bit
    word that was found; a file with the magic and a version below 2 or
    above 3 is rejected with ["Unsupported GGUF version"].  Neither is
    retried. *)
Theorem parseGGUFHeader_checks_magic_and_version (file : File) :
  let magic := getUint32 (whole_file file) 0 in
  let version := getUint32 (whole_file file) 4 in
  (4 <= size file -> magic <> 0x46554747 ->
   parseGGUFHeader file = ([], Throw (NotValidGGUF magic))) /\
  (8 <= size file -> magic = 0x46554747 -> version < 2 \/ 3 < version ->
   parseGGUFHeader file = ([], Throw (UnsupportedVersion version))).
Proof.
  cbv zeta.
  assert (Hstep : forall e, ~ e = BUFFER_TOO_SMALL ->
            _parseHeader file (initial_readSize file) = Throw e ->
            parseGGUFHeader file = ([], Throw e)).
  { intros e Hne Hat. unfold parseGGUFHeader.
    rewrite parseGGUFHeader_loop_step, Hat.
    destruct e; try reflexivity. congruence. }
  assert (Hbuf : 0 <= size file ->
            slice_arrayBuffer file 0 (initial_readSize file)
            = {| byteLength := initial_readSize file;
                 bytes := fun i => contents file (0 + i) |}).
  { intros H0. unfold slice_arrayBuffer, initial_readSize.
    replace (Z.min (Z.max 0 0) (size file)) with 0 by lia. f_equal. lia. }
  split.
  - intros H4 Hmagic. apply Hstep; [discriminate|].
    unfold _parseHeader, _parseHeader_reader. rewrite Hbuf by lia.
    unfold parseHeaderBody, bind at 1, new_BufferReader.
    unfold readUint32, bind at 1, _need, advance, ret. cbn [buf offset byteLength].
    rewrite Zgtb_false by (unfold initial_readSize; lia).
    cbn [bind buf offset].
    change (getUint32 {| byteLength := initial_readSize file;
                         bytes := fun i => contents file (0 + i) |} 0)
      with (getUint32 (whole_file file) 0).
    apply Z.eqb_neq in Hmagic. rewrite Hmagic. reflexivity.
  - intros H8 Hmagic Hver. apply Hstep; [discriminate|].
    unfold _parseHeader, _parseHeader_reader. rewrite Hbuf by lia.
    unfold parseHeaderBody, bind at 1, new_BufferReader.
    unfold readUint32 at 1, bind at 1, _need, advance, ret.
    cbn [buf offset byteLength].
    rewrite Zgtb_false by (unfold initial_readSize; lia).
    cbn [bind buf offset].
    change (getUint32 {| byteLength := initial_readSize file;
                         bytes := fun i => contents file (0 + i) |} 0)
      with (getUint32 (whole_file file) 0).
    rewrite Hmagic. change (negb (0x46554747 =? 0x46554747)) with false. cbv iota.
    unfold bind at 1. unfold readUint32 at 1, bind at 1, _need, advance, ret.
    cbn [buf offset byteLength].
    rewrite Zgtb_false by (unfold initial_readSize; lia).
    cbn [bind buf offset].
    change (getUint32 {| byteLength := initial_readSize file;
                         bytes := fun i => contents file (0 + i) |} (0 + 4))
      with (getUint32 (whole_file file) 4).
    replace ((getUint32 (whole_file file) 4 <? 2) || (getUint32 (whole_file file) 4 >? 3))
      with true; [reflexivity|].
    symmetry. apply orb_true_iff.
    destruct Hver; [left; apply Z.ltb_lt; lia|right; apply Z.gtb_lt; lia].
Qed.

Lemma parseGGUFHeader_checks_magic_and_version_witness :
  parseGGUFHeader ggml_file = ([], Throw (NotValidGGUF 0x4c4d4747)) /\
  parseGGUFHeader version_1_file = ([], Throw (UnsupportedVersion 1)).
Proof.
  split.
  - apply (proj1 (parseGGUFHeader_checks_magic_and_version ggml_file));
      vm_compute; discriminate.
  - apply (proj2 (parseGGUFHeader_checks_magic_and_version version_1_file));
      vm_compute; first [discriminate | reflexivity | (left; reflexivity)].
Defined.

(** ** Reading a longer slice *)

Lemma simulates_ret {A} (a : A) : simulates (ret a) (ret a).
Proof. intros r n _. cbn. auto. Qed.

Lemma simulates_bind {A B} (m m' : M A) (k k' : A -> M B) :
  simulates m m' -> (forall a, simulates (k a) (k' a)) ->
  simulates (bind m k) (bind m' k').
Proof.
  intros Hm Hk r n Hn. unfold bind. specialize (Hm r n Hn).
  destruct (m r) as [[a r1]|e|]; [| |exact I].
  - destruct Hm as (E1 & L1 & S1). rewrite S1.
    specialize (Hk a r1 n ltac:(lia)).
    destruct (k a r1) as [[b r2]|e|]; [|exact Hk|exact I].
    destruct Hk as (E2 & L2 & S2). repeat split; congruence.
  - destruct Hm as [->|S]; [left; reflexivity|right; rewrite S; reflexivity].
Qed.

Lemma simulates_throw {A} (e : Error) : simulates (@throw A e) (throw e).
Proof. intros r n _. right. reflexivity. Qed.

(** The shape of every fixed-width read: check, fetch, move. *)
Lemma simulates_fixed {A} (k : Z) (f : BufferReader -> A) :
  (forall n r, f (grow n r) = f r) ->
  simulates (bind (_need k) (fun _ r => bind (advance k) (fun _ => ret (f r)) r))
            (bind (_need k) (fun _ r => bind (advance k) (fun _ => ret (f r)) r)).
Proof.
  intros Hf r n Hn. unfold bind, _need, advance, ret.
  cbn [grow buf offset byteLength bytes].
  destruct (Z.gtb_spec (offset r + k) (byteLength (buf r))); [left; reflexivity|].
  cbn [buf offset].
  rewrite (Zgtb_false (offset r + k) n) by lia.
  change {| buf := {| byteLength := n; bytes := bytes (buf r) |}; offset := offset r |}
    with (grow n r).
  rewrite Hf. auto.
Qed.

Lemma simulates_readUint8 : simulates readUint8 readUint8.
Proof. apply (simulates_fixed 1). reflexivity. Qed.

Lemma simulates_readInt8 : simulates readInt8 readInt8.
Proof. apply (simulates_fixed 1). reflexivity. Qed.

Lemma simulates_readUint16 : simulates readUint16 readUint16.
Proof. apply (simulates_fixed 2). reflexivity. Qed.

Lemma simulates_readInt16 : simulates readInt16 readInt16.
Proof. apply (simulates_fixed 2). reflexivity. Qed.

Lemma simulates_readUint32 : simulates readUint32 readUint32.
Proof. apply (simulates_fixed 4). reflexivity. Qed.

Lemma simulates_readInt32 : simulates readInt32 readInt32.
Proof. apply (simulates_fixed 4). reflexivity. Qed.

Lemma simulates_readFloat32 : simulates readFloat32 readFloat32.
Proof. apply (simulates_fixed 4). reflexivity. Qed.

Lemma simulates_readFloat64 : simulates readFloat64 readFloat64.
Proof. apply (simulates_fixed 8). reflexivity. Qed.

Lemma simulates_readUint64 : simulates readUint64 readUint64.
Proof.
  intros r n Hn. unfold readUint64, bind, _need, advance, ret.
  cbn [grow buf offset byteLength bytes].
  destruct (Z.gtb_spec (offset r + 8) (byteLength (buf r))); [left; reflexivity|].
  rewrite (Zgtb_false (offset r + 8) n) by lia. cbv zeta.
  change (getUint32 {| byteLength := n; bytes := bytes (buf r) |})
    with (getUint32 (buf r)).
  destruct (_ =? 0); cbn [buf offset]; auto.
Qed.

Lemma simulates_readInt64 : simulates readInt64 readInt64.
Proof.
  intros r n Hn. unfold readInt64, bind, _need, advance, ret.
  cbn [grow buf offset byteLength bytes].
  destruct (Z.gtb_spec (offset r + 8) (byteLength (buf r))); [left; reflexivity|].
  rewrite (Zgtb_false (offset r + 8) n) by lia. cbv zeta.
  change (getUint32 {| byteLength := n; bytes := bytes (buf r) |})
    with (getUint32 (buf r)).
  change (getInt32 {| byteLength := n; bytes := bytes (buf r) |})
    with (getInt32 (buf r)).
  destruct (_ && _); [|destruct (_ && _)]; cbn [buf offset]; auto.
Qed.

Lemma simulates_readBool : simulates readBool readBool.
Proof.
  apply simulates_bind; [apply simulates_readUint8|].
  intros v. apply simulates_ret.
Qed.

Lemma Uint8Array_grow (n : Z) (b : ArrayBuffer) (len : nat) :
  forall start,
    Uint8Array {| byteLength := n; bytes := bytes b |} start len
    = Uint8Array b start len.
Proof.
  induction len as [|len IH]; intros start; cbn [Uint8Array bytes]; [reflexivity|].
  rewrite IH. reflexivity.
Qed.

Lemma simulates_readString : simulates readString readString.
Proof.
  apply simulates_bind; [apply simulates_readUint64|]. intros len.
  apply (simulates_fixed (int_of len)
           (fun r => TextDecoder_decode
                       (Uint8Array (buf r) (offset r) (Z.to_nat (int_of len))))).
  intros n r. cbn [grow buf offset]. rewrite Uint8Array_grow. reflexivity.
Qed.

(** A loop with more fuel. *)
Lemma simulates_for_loop {A} (body body' : Z -> A -> M A) :
  (forall i acc, simulates (body i acc) (body' i acc)) ->
  forall fuel fuel' i n acc,
    (fuel <= fuel')%nat ->
    simulates (for_loop fuel i n body acc) (for_loop fuel' i n body' acc).
Proof.
  intros Hb fuel. induction fuel as [|fuel IH]; intros fuel' i n acc Hf;
    cbn [for_loop].
  - destruct fuel'; cbn [for_loop]; (destruct (i <? n);
      [intros r k _; exact I | apply simulates_ret]).
  - destruct fuel' as [|fuel']; [lia|]. cbn [for_loop].
    destruct (i <? n); [|apply simulates_ret].
    apply simulates_bind; [apply Hb|]. intros acc'. apply IH. lia.
Qed.

Lemma simulates_readValue (fuel : nat) :
  forall fuel' type,
    (fuel <= fuel')%nat -> simulates (readValue fuel type) (readValue fuel' type).
Proof.
  induction fuel as [|fuel IH]; intros fuel' type Hf.
  - intros r n _. exact I.
  - destruct fuel' as [|fuel']; [lia|]. cbn [readValue].
    repeat match goal with
           | |- simulates (if ?c then _ else _) _ => destruct c
           end;
      try (apply simulates_bind;
           [first [ apply simulates_readUint8 | apply simulates_readInt8
                  | apply simulates_readUint16 | apply simulates_readInt16
                  | apply simulates_readUint32 | apply simulates_readInt32
                  | apply simulates_readFloat32 | apply simulates_readFloat64
                  | apply simulates_readUint64 | apply simulates_readInt64
                  | apply simulates_readBool | apply simulates_readString ]
           | intros; apply simulates_ret ]).
    + (* ARRAY *)
      apply simulates_bind; [apply simulates_readUint32|]. intros arrType.
      apply simulates_bind; [apply simulates_readUint64|]. intros arrLen.
      apply simulates_bind; [|intros; apply simulates_ret].
      apply simulates_for_loop; [|lia].
      intros _ acc. apply simulates_bind; [apply IH; lia|].
      intros; apply simulates_ret.
    + apply simulates_throw.
Qed.

Lemma simulates_readTensorInfo (fuel fuel' : nat) :
  (fuel <= fuel')%nat -> simulates (readTensorInfo fuel) (readTensorInfo fuel').
Proof.
  intros Hf. unfold readTensorInfo.
  apply simulates_bind; [apply simulates_readString|]. intros nm.
  apply simulates_bind; [apply simulates_readUint32|]. intros nDims.
  apply simulates_bind.
  { apply simulates_for_loop; [|exact Hf]. intros _ acc.
    apply simulates_bind; [apply simulates_readUint64|].
    intros; apply simulates_ret. }
  intros ds.
  apply simulates_bind; [apply simulates_readUint32|]. intros ty.
  apply simulates_bind; [apply simulates_readUint64|]. intros off.
  apply simulates_ret.
Qed.

Lemma simulates_parseHeaderBody (fuel fuel' : nat) :
  (fuel <= fuel')%nat -> simulates (parseHeaderBody fuel) (parseHeaderBody fuel').
Proof.
  intros Hf. unfold parseHeaderBody.
  apply simulates_bind; [apply simulates_readUint32|]. intros magic. cbv zeta.
  destruct (negb _); [apply simulates_throw|].
  apply simulates_bind; [apply simulates_readUint32|]. intros version.
  destruct (_ || _); [apply simulates_throw|].
  apply simulates_bind; [apply simulates_readUint64|]. intros tc.
  apply simulates_bind; [apply simulates_readUint64|]. intros kv.
  apply simulates_bind.
  { apply simulates_for_loop; [|exact Hf]. intros _ md.
    apply simulates_bind; [apply simulates_readString|]. intros key.
    apply simulates_bind; [apply simulates_readUint32|]. intros vt.
    apply simulates_bind; [apply simulates_readValue; exact Hf|].
    intros; apply simulates_ret. }
  intros md.
  apply simulates_bind.
  { apply simulates_for_loop; [|exact Hf]. intros _ ts.
    apply simulates_bind; [apply simulates_readTensorInfo; exact Hf|].
    intros; apply simulates_ret. }
  intros ts r n Hn. unfold ret. cbn [grow offset]. auto.
Qed.

(** What a slice gives, every longer slice gives, unless the slice was too
    short. *)
Lemma _parseHeader_longer (file : File) (readSize readSize' : Z) :
  readSize <= readSize' ->
  _parseHeader file readSize = Throw BUFFER_TOO_SMALL \/
  _parseHeader file readSize' = _parseHeader file readSize.
Proof.
  intros Hle.
  pose proof (_parseHeader_terminates file readSize) as Hterm.
  unfold _parseHeader, _parseHeader_reader in *. cbv zeta in *.
  set (b := slice_arrayBuffer file 0 readSize) in *.
  set (b' := slice_arrayBuffer file 0 readSize').
  assert (Hlen : byteLength b <= byteLength b').
  { unfold b, b', slice_arrayBuffer. cbn [byteLength]. lia. }
  assert (Hfuel : (fuel_for b <= fuel_for b')%nat) by (unfold fuel_for; lia).
  pose proof (simulates_parseHeaderBody _ _ Hfuel (new_BufferReader b)
                (byteLength b') Hlen) as S.
  change (grow (byteLength b') (new_BufferReader b)) with (new_BufferReader b') in S.
  destruct (parseHeaderBody (fuel_for b) (new_BufferReader b)) as [[h r]|e|].
  - destruct S as (_ & _ & S). right. rewrite S. reflexivity.
  - destruct S as [->|S]; [left; reflexivity|right; rewrite S; reflexivity].
  - contradiction.
Qed.

(** A slice that reaches the end of the file is the whole file. *)
Lemma _parseHeader_beyond (file : File) (readSize : Z) :
  size file <= readSize ->
  _parseHeader file readSize = _parseHeader file (size file).
Proof.
  intros H. unfold _parseHeader, _parseHeader_reader. cbv zeta.
  replace (slice_arrayBuffer file 0 readSize)
    with (slice_arrayBuffer file 0 (size file)); [reflexivity|].
  unfold slice_arrayBuffer. cbv zeta. f_equal. lia.
Qed.

Lemma parseGGUFHeader_loop_whole (file : File) (fuel : nat) :
  forall readSize log res,
    readSize <= size file ->
    parseGGUFHeader_loop fuel file readSize = (log, res) ->
    res = OutOfFuel \/ res = _parseHeader file (size file).
Proof.
  induction fuel as [|fuel IH]; intros readSize log res Hrs;
    cbn [parseGGUFHeader_loop].
  - intros [= _ <-]. left. reflexivity.
  - destruct (_parseHeader_longer file readSize (size file) Hrs) as [Hshort|Hsame].
    + rewrite Hshort. cbn [is_BUFFER_TOO_SMALL andb].
      destruct (Z.ltb_spec readSize (size file)).
      * destruct (parseGGUFHeader_loop fuel file _) as [log' res'] eqn:E'.
        intros [= _ <-].
        apply (IH (Z.min (size file) (readSize * 4)) log'); [lia|exact E'].
      * intros [= _ <-]. right. rewrite <- Hshort. apply _parseHeader_beyond. lia.
    + rewrite <- Hsame.
      destruct (_parseHeader file (size file)) as [h|e|] eqn:Ew.
      * intros [= _ <-]. right. reflexivity.
      * destruct (is_BUFFER_TOO_SMALL e && (readSize <? size file)) eqn:Ec.
        -- destruct (parseGGUFHeader_loop fuel file _) as [log' res'] eqn:E'.
           intros [= _ <-].
           apply (IH (Z.min (size file) (readSize * 4)) log'); [lia|exact E'].
        -- intros [= _ <-]. right. reflexivity.
      * intros [= _ <-]. left. reflexivity.
Qed.

(** X8.  Reading slices is transparent: what [parseGGUFHeader] returns or
    throws is what parsing the whole file in one slice returns or throws. *)
Theorem parseGGUFHeader_is_the_parse_of_the_file (file : File) :
  snd (parseGGUFHeader file) = _parseHeader file (size file).
Proof.
  pose proof (parseGGUFHeader_terminates file) as Hterm.
  destruct (parseGGUFHeader file) as [log res] eqn:E. cbn [snd] in *.
  unfold parseGGUFHeader in E.
  apply parseGGUFHeader_loop_whole in E as [E|E];
    [contradiction | exact E | unfold initial_readSize; lia].
Qed.

(** ** Sizes of tensors *)

Lemma QUANT_INFO_blocks (type : Z) (info : QuantInfo) :
  QUANT_INFO type = Some info ->
  (blockSize info = 2 ^ 0 \/ blockSize info = 2 ^ 5 \/ blockSize info = 2 ^ 8) /\
  0 < bytesPerBlock info.
Proof.
  unfold QUANT_INFO, QUANT_INFO_table. cbn [assoc_Z].
  repeat (destruct (type =? _);
          [intros [= <-]; cbn; split; [auto|lia]|]).
  discriminate.
Qed.

(** X9.  For a tensor entry whose dimensions are positive integers, with a
    product and a byte size below 2^53, [numElements] is exactly the product
    of the dimensions and [dataSize] is exactly
    ceil(numElements / blockSize) * bytesPerBlock for the type of the tensor
    (4 bytes per element for a type that [QUANT_INFO] does not list): the
    double arithmetic rounds nowhere. *)
Theorem readTensorInfo_sizes_exact (fuel : nat) (r r' : BufferReader)
    (t : Tensor) (ds : list Z) :
  readTensorInfo fuel r = Ok (t, r') ->
  dims t = map JS.fromZ ds ->
  forallb (Z.ltb 0) ds = true ->
  product ds < 2 ^ 53 ->
  byte_size (type t) (product ds) < 2 ^ 53 ->
  numElements t = JS.fromZ (product ds) /\
  dataSize t = JS.fromZ (byte_size (type t) (product ds)).
Proof.
  intros Hrun Hdims Hpos Hprod Hbytes.
  apply forallb_pos_Forall in Hpos.
  pose proof (product_pos ds Hpos) as Hp.
  unfold readTensorInfo in Hrun.
  apply bind_Ok in Hrun as (nm & r1 & _ & Hrun).
  apply bind_Ok in Hrun as (nDims & r2 & _ & Hrun).
  apply bind_Ok in Hrun as (dims0 & r3 & _ & Hrun).
  apply bind_Ok in Hrun as (ty & r4 & _ & Hrun).
  apply bind_Ok in Hrun as (off & r5 & _ & Hrun).
  cbv zeta in Hrun. injection Hrun as <- _.
  cbn [dims type numElements dataSize] in *. subst dims0.
  change (binary_round JS.prec JS.emax false 1 0) with (JS.fromZ 1).
  change (binary_round JS.prec JS.emax false 4 0) with (JS.fromZ 4).
  assert (Hn : fold_left JS.mul (map JS.fromZ ds) (JS.fromZ 1) = JS.fromZ (product ds)).
  { rewrite (product_fromZ ds Hpos 1) by lia. f_equal. lia. }
  rewrite Hn. split; [reflexivity|].
  unfold byte_size in *.
  destruct (QUANT_INFO ty) as [info|] eqn:Hq.
  - destruct (QUANT_INFO_blocks ty info Hq) as [Hb Hbpb].
    assert (Hk : exists k, 0 <= k <= 52 /\ blockSize info = 2 ^ k).
    { destruct Hb as [Hb|[Hb|Hb]]; [exists 0|exists 5|exists 8]; split; auto; lia. }
    destruct Hk as (k & Hk & Hbk). rewrite Hbk in *.
    rewrite Math_ceil_div_pow2 by lia.
    assert (Pk : 0 < 2 ^ k) by (apply Z.pow_pos_nonneg; lia).
    pose proof (ceil_div_pos (product ds) (2 ^ k) Hp Pk).
    apply mul_fromZ; lia.
  - apply mul_fromZ; lia.
Qed.

Lemma readTensorInfo_sizes_exact_witness :
  exists t r',
    readTensorInfo 10 {| buf := tensor_entry_buffer; offset := 0 |} = Ok (t, r') /\
    numElements t = JS.fromZ 192 /\ dataSize t = JS.fromZ 108.
Proof.
  assert (H : match readTensorInfo 10 {| buf := tensor_entry_buffer; offset := 0 |} with
              | Ok (t, _) => Some (dims t, type t)
              | _ => None
              end = Some (map JS.fromZ [3; 64], 2)) by (vm_compute; reflexivity).
  destruct (readTensorInfo 10 {| buf := tensor_entry_buffer; offset := 0 |})
    as [[t r']| |] eqn:E; try discriminate H.
  injection H as Hd Hty.
  exists t, r'. split; [reflexivity|].
  destruct (readTensorInfo_sizes_exact 10 _ r' t [3; 64] E Hd) as [Hn Hs];
    [reflexivity | cbn; lia | rewrite Hty; vm_compute; reflexivity |].
  rewrite Hty in Hs. split; [exact Hn | exact Hs].
Defined.

(** X10.  [computeTotalParams] is the exact sum of the element counts when
    these are positive integers with a sum below 2^53. *)
Theorem computeTotalParams_exact (tensors : list Tensor) (ns : list Z) :
  map numElements tensors = map JS.fromZ ns ->
  forallb (Z.ltb 0) ns = true ->
  total ns < 2 ^ 53 ->
  computeTotalParams tensors = JS.fromZ (total ns) /\
  JS.toZ (computeTotalParams tensors) = Some (total ns).
Proof.
  intros Hmap Hpos Htot. apply forallb_pos_Forall in Hpos.
  assert (E : computeTotalParams tensors = JS.fromZ (total ns))
    by (apply (sum_by_fromZ numElements tensors ns Hmap Hpos Htot)).
  split; [exact E|]. rewrite E. apply fromZ_exact.
  pose proof (total_nonneg ns Hpos). lia.
Qed.

Lemma computeTotalParams_exact_witness :
  computeTotalParams three_tensors = JS.fromZ 3500003 /\
  JS.toZ (computeTotalParams three_tensors) = Some 3500003.
Proof.
  assert (Hmap : map numElements three_tensors = map JS.fromZ [1000003; 2000000; 500000])
    by (vm_compute; reflexivity).
  apply (computeTotalParams_exact three_tensors [1000003; 2000000; 500000] Hmap);
    [reflexivity | cbn; lia].
Defined.

(* ================================================================== *)
(** * The half-float decoder on every pattern *)
(* ================================================================== *)

(** The three fields of a 16-bit pattern. *)
Lemma f16_fields (h : Z) :
  0 <= h < 65536 ->
  js_sar (js_and h 0x8000) 15 = h / 32768 /\
  js_sar (js_and h 0x7C00) 10 = h / 1024 mod 32 /\
  js_and h 0x03FF = h mod 1024.
Proof.
  intros Hh.
  assert (T : forall z, 0 <= z < 2 ^ 31 -> ToInt32 z = z).
  { intros z Hz. unfold ToInt32. rewrite Z.mod_small; [lia|].
    change (2 ^ 32) with (2 * 2 ^ 31). lia. }
  assert (Hland : forall m, 0 <= m < 65536 -> 0 <= Z.land h m < 2 ^ 31).
  { intros m Hm.
    assert (H0 : 0 <= Z.land h m) by (apply Z.land_nonneg; lia).
    split; [exact H0|].
    destruct (Z.eq_dec (Z.land h m) 0) as [->|NE]; [reflexivity|].
    apply Z.log2_lt_pow2; [lia|].
    pose proof (Z.log2_land h m ltac:(lia) ltac:(lia)) as Hl.
    assert (Hm0 : 0 < m).
    { destruct (Z.eq_dec m 0) as [->|]; [rewrite Z.land_0_r in NE; lia|lia]. }
    assert (Z.log2 m < 16) by (apply Z.log2_lt_pow2; [lia|change (2 ^ 16) with 65536; lia]).
    lia. }
  unfold js_sar, js_and.
  rewrite (T h) by (change (2 ^ 31) with 2147483648; lia).
  change (ToInt32 32768) with 32768. change (ToInt32 31744) with 31744.
  change (ToInt32 1023) with 1023.
  rewrite !T by (apply Hland; lia).
  change (15 mod 32) with 15. change (10 mod 32) with 10.
  rewrite !Z.shiftr_land.
  change (Z.shiftr 32768 15) with (Z.ones 1).
  change (Z.shiftr 31744 10) with (Z.ones 5).
  change 1023 with (Z.ones 10).
  rewrite !Z.land_ones, !Z.shiftr_div_pow2 by lia.
  change (2 ^ 15) with 32768. change (2 ^ 10) with 1024.
  change (2 ^ 5) with 32. change (2 ^ 1) with 2.
  split; [|split; reflexivity].
  apply Z.mod_small. split; [apply Z.div_pos; lia|].
  apply Z.div_lt_upper_bound; lia.
Qed.

Lemma normal_fractions_checked :
  forallb normal_fraction_checked (seqZ 0 1024) = true.
Proof. vm_compute. reflexivity. Qed.

Lemma normal_exponents_checked :
  forallb normal_exponent_checked (seqZ 1 30) = true.
Proof. vm_compute. reflexivity. Qed.

Lemma subnormals_checked : forallb subnormal_checked (seqZ 1 1023) = true.
Proof. vm_compute. reflexivity. Qed.

(** X11.  On every 16-bit pattern [f16ToF32] returns exactly the number
    that IEEE 754 binary16 gives it.  With sign bit [s], exponent field [e]
    and fraction field [f]: a signed infinity for [e = 31] and [f = 0], NaN
    for [e = 31] and [f <> 0], a zero of sign [s] for [e = 0] and [f = 0],
    and otherwise the finite number (-1)^s * (1024 + f) * 2^(e - 25), or
    (-1)^s * f * 2^(-24) for a subnormal ([e = 0]). *)
Theorem f16ToF32_is_binary16 (h : Z) :
  0 <= h < 65536 ->
  let s := h / 32768 in
  let e := h / 1024 mod 32 in
  let f := h mod 1024 in
  (e = 31 ->
   f16ToF32 h = if f =? 0 then S754_infinity (negb (s =? 0)) else JS.NaN) /\
  (e = 0 -> f = 0 -> f16ToF32 h = S754_zero (negb (s =? 0))) /\
  (e < 31 ->
   JS.isFinite (f16ToF32 h) = true /\
   (Qval (f16ToF32 h)
    == inject_Z ((if s =? 0 then 1 else -1) * half_significand e f)
       * 2 ^ half_exponent e)%Q).
Proof.
  intros Hh. cbv zeta.
  destruct (f16_fields h Hh) as (Hs & He & Hf).
  assert (Rs : h / 32768 = 0 \/ h / 32768 = 1).
  { assert (0 <= h / 32768) by (apply Z.div_pos; lia).
    assert (h / 32768 < 2) by (apply Z.div_lt_upper_bound; lia). lia. }
  pose proof (Z.mod_pos_bound (h / 1024) 32 ltac:(lia)) as Re.
  pose proof (Z.mod_pos_bound h 1024 ltac:(lia)) as Rf.
  unfold f16ToF32. cbv zeta. rewrite Hs, He, Hf.
  set (s := h / 32768) in *. set (e := h / 1024 mod 32) in *.
  set (f := h mod 1024) in *. clearbody s e f. clear Hs He Hf Hh h.
  split; [|split].
  - intros ->. cbn [Z.eqb]. destruct (f =? 0); [|reflexivity].
    destruct Rs as [-> | ->]; reflexivity.
  - intros -> ->. cbn [Z.eqb]. destruct Rs as [-> | ->]; reflexivity.
  - intros He31. unfold half_significand, half_exponent.
    destruct (Z.eqb_spec e 0) as [E0|NE0].
    + (* zero or subnormal *)
      destruct (Z.eqb_spec f 0) as [F0|NF0].
      * subst f. destruct Rs as [-> | ->]; cbn; split; reflexivity.
      * pose proof (forallb_seqZ _ 1 1023 f subnormals_checked ltac:(lia)) as Hc.
        unfold subnormal_checked in Hc. cbv zeta in Hc.
        apply andb_true_iff in Hc as [Hc Hn]. apply andb_true_iff in Hc as [Hc Hp].
        apply andb_true_iff in Hc as [Fp Fn].
        apply Qeq_bool_iff in Hp, Hn.
        destruct Rs as [-> | ->]; cbn [Z.eqb].
        -- split; [exact Fp|]. rewrite Hp. rewrite Z.mul_1_l. reflexivity.
        -- split; [exact Fn|]. rewrite Hn.
           replace (-1 * f) with (- f) by lia. reflexivity.
    + (* normal *)
      replace (e =? 31) with false by (symmetry; apply Z.eqb_neq; lia).
      pose proof (forallb_seqZ _ 0 1024 f normal_fractions_checked ltac:(lia)) as Hc.
      pose proof (forallb_seqZ _ 1 30 e normal_exponents_checked ltac:(lia)) as Hx.
      unfold normal_fraction_checked in Hc. unfold normal_exponent_checked in Hx.
      destruct (JS.add (JS.fromZ 1) (JS.div (JS.fromZ f) (JS.fromZ 1024)))
        as [| | |[] m em]; try discriminate Hc.
      apply andb_true_iff in Hc as [Hc Hm]. apply andb_true_iff in Hc as [Hd Hem].
      apply Z.eqb_eq in Hd, Hem, Hm. subst em.
      destruct (JS.mul (JS.fromZ 1) (JS.Math_pow2 (e - 15)))
        as [| | |[] m1 e1] eqn:P1; try discriminate Hx.
      destruct (JS.mul (JS.fromZ (-1)) (JS.Math_pow2 (e - 15)))
        as [| | |[] m2 e2] eqn:P2; try discriminate Hx.
      apply andb_true_iff in Hx as [Hx He2]. apply andb_true_iff in Hx as [Hx Hm2].
      apply andb_true_iff in Hx as [Hm1 He1].
      apply Pos.eqb_eq in Hm1, Hm2. apply Z.eqb_eq in He1, He2. subst m1 m2 e1 e2.
      assert (V : forall sg : bool,
                 (Qval (S754_finite sg m (-52 + (e - 15)))
                  == inject_Z ((if sg then -1 else 1) * (1024 + f)) * 2 ^ (e - 25))%Q).
      { intros sg. cbn [Qval]. unfold JS.smant.
        replace (if sg then Z.neg m else Z.pos m)
          with ((if sg then -1 else 1) * (1024 + f) * 2 ^ 42)
          by (destruct sg; lia).
        rewrite inject_Z_mult, Qpow2_inject by lia.
        rewrite <- Qmult_assoc, <- Qpow2_add.
        replace (42 + (-52 + (e - 15))) with (e - 25) by lia. reflexivity. }
      destruct Rs as [-> | ->]; cbn [Z.eqb]; rewrite ?P1, ?P2;
        rewrite mul_pow2 by (try exact Hd; lia); (split; [reflexivity|]).
      * apply (V false).
      * apply (V true).
Qed.

Lemma f16ToF32_is_binary16_witness :
  JS.isFinite (f16ToF32 0x3555) = true /\
  (Qval (f16ToF32 0x3555) == 1365 # 4096)%Q.
Proof.
  destruct (f16ToF32_is_binary16 0x3555 ltac:(lia)) as (_ & _ & H).
  destruct (H ltac:(vm_compute; reflexivity)) as [Hfin Hval].
  split; [exact Hfin|]. rewrite Hval. vm_compute. reflexivity.
Defined.

(* ================================================================== *)
(** * Further properties of the architecture descriptor *)
(* ================================================================== *)

Section ExtractArchInfoExtras.

Variable NumberToString : Number -> string.

Variable StringToNumber : string -> Number.

#[local] Abbreviation extract' := (extractArchInfo NumberToString StringToNumber).

(** X12.  When the metadata holds no [vocab_size], neither bare nor under
    the architecture, and holds an array [tokenizer.ggml.tokens] (of fewer
    than 2^53 entries), [vocabSize] is the length of that array. *)
Theorem extractArchInfo_vocabSize_from_tokens
    (metadata : gmap string JSValue) (tokens : list JSValue) :
  metadata !! "vocab_size" = None ->
  metadata !! namespaced NumberToString StringToNumber metadata "vocab_size" = None ->
  metadata !! "tokenizer.ggml.tokens" = Some (JArr tokens) ->
  Z.of_nat (length tokens) < 2 ^ 53 ->
  vocabSize (extract' metadata) = JNum (JS.fromZ (Z.of_nat (length tokens))).
Proof.
  intros Hbare Hns Htok Hlen.
  unfold namespaced in Hns. cbn [extractArchInfo architecture] in Hns.
  cbn [extractArchInfo vocabSize].
  rewrite Hbare, Hns, Htok. cbn [nullish or_undef length_of or_else truthy].
  destruct tokens as [|t tokens]; [reflexivity|].
  rewrite fromZ_truthy; [reflexivity|]. cbn [length] in *. lia.
Qed.

(** X13.  Without [general.architecture] the architecture is ['unknown'],
    and every architectural field is then resolved with ["unknown.<field>"]
    as its namespaced key. *)
Theorem extractArchInfo_without_architecture
    (metadata : gmap string JSValue) (key : string) (field : ArchInfo -> JSValue) :
  metadata !! "general.architecture" = None ->
  In (key, field) arch_fields ->
  architecture (extract' metadata) = JStr "unknown" /\
  field (extract' metadata)
  = or_else (nullish (metadata !! key) (metadata !! ("unknown." +:+ key))) zero.
Proof.
  intros Harch Hin. split.
  - cbn [extractArchInfo architecture]. rewrite Harch. reflexivity.
  - rewrite (arch_field_resolution NumberToString StringToNumber metadata key field Hin).
    unfold namespaced. cbn [extractArchInfo architecture]. rewrite Harch.
    reflexivity.
Qed.

(** X27.  When [embeddingLength] and [headCount] are positive whole
    numbers below 2^53, [headDim] is exactly the integer quotient of the
    first by the second: the rounding of the division never changes the
    whole part. *)
Theorem extractArchInfo_headDim_is_the_quotient
    (metadata : gmap string JSValue) (a b : Z) :
  embeddingLength (extract' metadata) = JNum (JS.fromZ a) ->
  headCount (extract' metadata) = JNum (JS.fromZ b) ->
  0 < a < 2 ^ 53 -> 0 < b < 2 ^ 53 ->
  headDim (extract' metadata) = JNum (JS.fromZ (a / b)).
Proof.
  intros Hemb Hhead Ha Hb.
  cbn [extractArchInfo embeddingLength] in Hemb.
  cbn [extractArchInfo headCount] in Hhead.
  cbn [extractArchInfo headDim].
  rewrite Hemb, Hhead. cbn [truthy ToNumber ToPrimitive].
  rewrite !fromZ_truthy by assumption. cbn [andb].
  rewrite floor_div_fromZ by assumption. reflexivity.
Qed.

End ExtractArchInfoExtras.

Lemma extractArchInfo_vocabSize_from_tokens_witness :
  let metadata : gmap string JSValue :=
    <[ "tokenizer.ggml.tokens" := JArr [JStr "a"; JStr "b"; JStr "c"] ]> ∅ in
  vocabSize (extractArchInfo (fun _ => EmptyString) (fun _ => JS.NaN) metadata)
  = JNum (JS.fromZ 3).
Proof.
  cbv zeta.
  apply (extractArchInfo_vocabSize_from_tokens (fun _ => EmptyString) (fun _ => JS.NaN)
           (<[ "tokenizer.ggml.tokens" := JArr [JStr "a"; JStr "b"; JStr "c"] ]> ∅)
           [JStr "a"; JStr "b"; JStr "c"]).
  - reflexivity.
  - reflexivity.
  - reflexivity.
  - vm_compute. reflexivity.
Defined.

Lemma extractArchInfo_without_architecture_witness :
  let metadata : gmap string JSValue :=
    <[ "unknown.block_count" := JNum (JS.fromZ 7) ]> ∅ in
  architecture (extractArchInfo (fun _ => EmptyString) (fun _ => JS.NaN) metadata)
  = JStr "unknown" /\
  blockCount (extractArchInfo (fun _ => EmptyString) (fun _ => JS.NaN) metadata)
  = JNum (JS.fromZ 7).
Proof.
  cbv zeta.
  assert (Hn : (<[ "unknown.block_count" := JNum (JS.fromZ 7) ]> ∅ : gmap string JSValue)
               !! "general.architecture" = None) by reflexivity.
  assert (Hin : In ("block_count"%string, blockCount) arch_fields)
    by (left; reflexivity).
  destruct (extractArchInfo_without_architecture (fun _ => EmptyString) (fun _ => JS.NaN)
              _ _ _ Hn Hin) as [Ha Hb].
  split; [exact Ha|]. rewrite Hb. reflexivity.
Defined.

Lemma extractArchInfo_headDim_is_the_quotient_witness :
  let metadata : gmap string JSValue :=
    <[ "general.architecture" := JStr "llama" ]>
      (<[ "llama.embedding_length" := JNum (JS.fromZ 100) ]>
         (<[ "llama.attention.head_count" := JNum (JS.fromZ 7) ]> ∅)) in
  headDim (extractArchInfo (fun _ => EmptyString) (fun _ => JS.NaN) metadata)
  = JNum (JS.fromZ 14).
Proof.
  cbv zeta.
  apply (extractArchInfo_headDim_is_the_quotient (fun _ => EmptyString) (fun _ => JS.NaN)
           (<[ "general.architecture" := JStr "llama" ]>
              (<[ "llama.embedding_length" := JNum (JS.fromZ 100) ]>
                 (<[ "llama.attention.head_count" := JNum (JS.fromZ 7) ]> ∅)))
           100 7).
  - vm_compute. reflexivity.
  - vm_compute. reflexivity.
  - vm_compute. split; reflexivity.
  - vm_compute. split; reflexivity.
Defined.

(* ================================================================== *)
(** * Further properties of the classification of tensors *)
(* ================================================================== *)

(** ** Strings *)

Lemma append_cons (c : ascii) (a b : string) :
  String c a +:+ b = String c (a +:+ b).
Proof. reflexivity. Qed.

Lemma append_nil (b : string) : "" +:+ b = b.
Proof. reflexivity. Qed.

Lemma prefix_cons (a b : ascii) (s1 s2 : string) :
  String.prefix (String a s1) (String b s2) = Ascii.eqb a b && String.prefix s1 s2.
Proof.
  cbn [String.prefix]. destruct (ascii_dec a b) as [->|N].
  - rewrite Ascii.eqb_refl. reflexivity.
  - apply Ascii.eqb_neq in N. rewrite N. reflexivity.
Qed.

Lemma includes_cons (b : ascii) (s sub : string) :
  includes (String b s) sub = String.prefix sub (String b s) || includes s sub.
Proof.
  unfold includes. cbn [String.index].
  destruct (String.prefix sub (String b s)); [reflexivity|].
  destruct (String.index 0 sub s); reflexivity.
Qed.

Lemma is_digit_neq (c d : ascii) :
  is_digit c = false -> is_digit d = true -> Ascii.eqb c d = false.
Proof.
  intros Hc Hd. apply Ascii.eqb_neq. intros ->. congruence.
Qed.

(** A word that starts with a character that is no digit does not occur
    in, or across the end of, a run of digits. *)
Lemma includes_digits (c : ascii) (sub' ds tail : string) :
  is_digit c = false -> digits_only ds = true ->
  includes (ds +:+ tail) (String c sub') = includes tail (String c sub').
Proof.
  intros Hc. induction ds as [|d ds IH]; intros Hds; [reflexivity|].
  cbn [digits_only list_ascii_of_string forallb] in Hds.
  apply andb_true_iff in Hds as [Hd Hds].
  rewrite append_cons, includes_cons, prefix_cons.
  rewrite (is_digit_neq c d Hc Hd). cbn [andb orb]. apply IH. exact Hds.
Qed.

Lemma toLowerCase_app (a b : string) :
  toLowerCase (a +:+ b) = toLowerCase a +:+ toLowerCase b.
Proof.
  induction a as [|c a IH]; [reflexivity|].
  rewrite append_cons. cbn [toLowerCase]. rewrite IH. reflexivity.
Qed.

Lemma lower_ascii_digit (d : ascii) : is_digit d = true -> lower_ascii d = d.
Proof.
  unfold is_digit, lower_ascii. intros H.
  apply andb_true_iff in H as [H1 H2].
  apply Nat.leb_le in H1, H2.
  replace (65 <=? nat_of_ascii d)%nat with false; [reflexivity|].
  symmetry. apply Nat.leb_gt. lia.
Qed.

Lemma toLowerCase_digits (ds : string) :
  digits_only ds = true -> toLowerCase ds = ds.
Proof.
  induction ds as [|d ds IH]; intros H; [reflexivity|].
  cbn [digits_only list_ascii_of_string forallb] in H.
  apply andb_true_iff in H as [Hd Hds].
  cbn [toLowerCase]. rewrite lower_ascii_digit, IH by assumption. reflexivity.
Qed.

Lemma take_digits_app (ds : string) (c : ascii) (tail : string) :
  digits_only ds = true -> is_digit c = false ->
  take_digits (ds +:+ String c tail) = (ds, String c tail).
Proof.
  intros Hds Hc. induction ds as [|d ds IH].
  - rewrite append_nil. cbn [take_digits]. rewrite Hc. reflexivity.
  - cbn [digits_only list_ascii_of_string forallb] in Hds.
    apply andb_true_iff in Hds as [Hd Hds].
    rewrite append_cons. cbn [take_digits]. rewrite Hd, (IH Hds). reflexivity.
Qed.

Lemma match_blk_here (s ds rest : string) :
  literal_digits "blk." s = Some (ds, rest) ->
  String.prefix "." rest = true ->
  match_blk s = Some ds.
Proof.
  intros H1 H2. destruct s; cbn [match_blk]; rewrite H1, H2; reflexivity.
Qed.

Lemma literal_digits_ne (c a : ascii) (lit s : string) :
  Ascii.eqb a c = false -> literal_digits (String a lit) (String c s) = None.
Proof.
  intros H. unfold literal_digits. rewrite prefix_cons, H. reflexivity.
Qed.

Lemma match_expert_skip (c : ascii) (s : string) :
  Ascii.eqb "f" c = false -> match_expert (String c s) = match_expert s.
Proof.
  intros H. cbn [match_expert].
  rewrite !(literal_digits_ne c "f") by exact H. reflexivity.
Qed.

Lemma match_expert_digits (ds tail : string) :
  digits_only ds = true -> match_expert (ds +:+ tail) = match_expert tail.
Proof.
  induction ds as [|d ds IH]; intros H; [reflexivity|].
  cbn [digits_only list_ascii_of_string forallb] in H.
  apply andb_true_iff in H as [Hd Hds].
  rewrite append_cons, match_expert_skip; [apply IH; exact Hds|].
  apply is_digit_neq; [reflexivity|exact Hd].
Qed.

Lemma prefix_nil (t : string) : String.prefix "" t = true.
Proof. destruct t; reflexivity. Qed.

Lemma prefix_app (lit t : string) : String.prefix lit (lit +:+ t) = true.
Proof.
  induction lit as [|c lit IH]; [apply prefix_nil|].
  rewrite append_cons, prefix_cons, Ascii.eqb_refl. exact IH.
Qed.

Lemma string_drop_app (lit t : string) :
  string_drop (String.length lit) (lit +:+ t) = t.
Proof. induction lit as [|c lit IH]; [destruct t; reflexivity|exact IH]. Qed.

(** The literal, then digits. *)
Lemma literal_digits_app (lit t ds rest : string) :
  take_digits t = (ds, rest) -> ds <> ""%string ->
  literal_digits lit (lit +:+ t) = Some (ds, rest).
Proof.
  intros Ht Hne. unfold literal_digits.
  rewrite prefix_app, string_drop_app, Ht. destruct ds; congruence.
Qed.

Lemma literal_digits_other (lit s : string) :
  String.prefix lit s = false -> literal_digits lit s = None.
Proof. intros H. unfold literal_digits. rewrite H. reflexivity. Qed.

Lemma match_expert_eq (s : string) :
  match_expert s
  = match
      match literal_digits "ffn_gate." s with
      | Some (ds, _) => Some ds
      | None =>
          match literal_digits "ffn_up." s with
          | Some (ds, _) => Some ds
          | None =>
              match literal_digits "ffn_down." s with
              | Some (ds, _) => Some ds
              | None => None
              end
          end
      end, s
    with
    | Some ds, _ => Some ds
    | None, String _ s' => match_expert s'
    | None, EmptyString => None
    end.
Proof. destruct s; reflexivity. Qed.

Lemma match_expert_here (t ds rest : string) :
  take_digits t = (ds, rest) -> ds <> ""%string ->
  match_expert ("ffn_gate." +:+ t) = Some ds /\
  match_expert ("ffn_up." +:+ t) = Some ds /\
  match_expert ("ffn_down." +:+ t) = Some ds.
Proof.
  intros Ht Hne. repeat split; rewrite match_expert_eq.
  - rewrite (literal_digits_app "ffn_gate." t ds rest Ht Hne). reflexivity.
  - rewrite (literal_digits_other "ffn_gate." ("ffn_up." +:+ t) eq_refl).
    rewrite (literal_digits_app "ffn_up." t ds rest Ht Hne). reflexivity.
  - rewrite (literal_digits_other "ffn_gate." ("ffn_down." +:+ t) eq_refl).
    rewrite (literal_digits_other "ffn_up." ("ffn_down." +:+ t) eq_refl).
    rewrite (literal_digits_app "ffn_down." t ds rest Ht Hne). reflexivity.
Qed.

Lemma includes_nil (c : ascii) (sub : string) : includes "" (String c sub) = false.
Proof. reflexivity. Qed.

(** A word without digits that starts before a run of digits ends before
    it. *)
Lemma prefix_before_digits (sub x : string) (d : ascii) (t : string) :
  digit_free sub = true -> is_digit d = true ->
  String.prefix sub (x +:+ String d t) = String.prefix sub x.
Proof.
  intros Hsub Hd. revert x. induction sub as [|s0 sub IH]; intros x.
  - rewrite !prefix_nil. reflexivity.
  - cbn [digit_free list_ascii_of_string forallb] in Hsub.
    apply andb_true_iff in Hsub as [Hs0 Hsub]. apply negb_true_iff in Hs0.
    destruct x as [|c x].
    + rewrite append_nil, prefix_cons, (is_digit_neq s0 d Hs0 Hd). reflexivity.
    + rewrite append_cons, !prefix_cons, (IH Hsub). reflexivity.
Qed.

(** A word without digits occurs around a run of digits only before it or
    after it. *)
Lemma includes_around_digits (a ds b : string) (c : ascii) (sub : string) :
  ds <> ""%string -> digits_only ds = true ->
  digit_free (String c sub) = true ->
  includes (a +:+ ds +:+ b) (String c sub)
  = includes a (String c sub) || includes b (String c sub).
Proof.
  intros Hne Hds Hsub.
  assert (Hc : is_digit c = false).
  { cbn [digit_free list_ascii_of_string forallb] in Hsub.
    apply andb_true_iff in Hsub as [Hc _]. apply negb_true_iff in Hc. exact Hc. }
  induction a as [|a0 a IH].
  - rewrite append_nil, includes_digits, includes_nil by assumption. reflexivity.
  - rewrite append_cons, !includes_cons, IH.
    destruct ds as [|d ds']; [congruence|].
    cbn [digits_only list_ascii_of_string forallb] in Hds.
    apply andb_true_iff in Hds as [Hd _].
    change (String a0 (a +:+ String d ds' +:+ b))
      with (String a0 a +:+ String d (ds' +:+ b)).
    rewrite (prefix_before_digits _ (String a0 a) d _ Hsub Hd).
    rewrite orb_assoc. reflexivity.
Qed.

Lemma match_blk_layer (ds rest : string) :
  ds <> ""%string -> digits_only ds = true ->
  match_blk ("blk." +:+ ds +:+ "." +:+ rest) = Some ds.
Proof.
  intros Hne Hds.
  apply match_blk_here with (rest := "." +:+ rest).
  - unfold literal_digits. rewrite !append_cons, !append_nil.
    rewrite !prefix_cons, prefix_nil. cbn [Ascii.eqb Bool.eqb andb].
    cbn [string_drop String.length].
    rewrite take_digits_app by (assumption || reflexivity).
    destruct ds; congruence.
  - rewrite append_cons, prefix_cons, prefix_nil. reflexivity.
Qed.

Lemma match_expert_after_blk (ds tail : string) :
  digits_only ds = true ->
  match_expert ("blk." +:+ ds +:+ "." +:+ tail) = match_expert tail.
Proof.
  intros Hds. rewrite !append_cons, !append_nil.
  rewrite !match_expert_skip by reflexivity.
  rewrite match_expert_digits by assumption.
  rewrite match_expert_skip by reflexivity. reflexivity.
Qed.

Lemma toLowerCase_blk (ds tail : string) :
  digits_only ds = true ->
  toLowerCase ("blk." +:+ ds +:+ tail) = "blk." +:+ ds +:+ toLowerCase tail.
Proof.
  intros Hds. rewrite !toLowerCase_app, (toLowerCase_digits ds) by assumption.
  reflexivity.
Qed.

(** ** Names of layers and experts *)

(** The classification of a tensor of layer [ds], in terms of what follows
    the layer number. *)
Lemma classifyTensor_of_layer (ds tail : string) :
  ds <> ""%string -> digits_only ds = true ->
  classifyTensor ("blk." +:+ ds +:+ "." +:+ tail)
  = {| category := category (classifyTensor ("blk.0." +:+ tail));
       layerIdx := parseInt ds;
       expertIdx := match match_expert (toLowerCase tail) with
                    | Some es => parseInt es
                    | None => -1
                    end |}.
Proof.
  intros Hne Hds.
  assert (Hn : toLowerCase ("blk." +:+ ds +:+ "." +:+ tail)
               = "blk." +:+ ds +:+ "." +:+ toLowerCase tail).
  { rewrite toLowerCase_blk, toLowerCase_app by assumption. reflexivity. }
  assert (H0 : toLowerCase ("blk.0." +:+ tail)
               = "blk." +:+ "0" +:+ "." +:+ toLowerCase tail).
  { rewrite toLowerCase_app. reflexivity. }
  unfold classifyTensor at 1. rewrite Hn.
  rewrite match_blk_layer, match_expert_after_blk by assumption.
  f_equal.
  unfold classifyTensor, category. rewrite H0.
  set (n := "." +:+ toLowerCase tail).
  rewrite !(includes_around_digits "blk." ds n) by (assumption || reflexivity).
  rewrite !(includes_around_digits "blk." "0" n) by (discriminate || reflexivity).
  reflexivity.
Qed.

(** X14.  For a name ["blk.<digits>.<tail>"] (at most 15 digits, so that
    [parseInt] is exact) the layer index is the number the digits spell, and
    the category and the expert index do not depend on the layer: they are
    those of ["blk.0.<tail>"]. *)
Theorem classifyTensor_layer_number (ds tail : string) :
  ds <> ""%string -> digits_only ds = true -> (String.length ds <= 15)%nat ->
  layerIdx (classifyTensor ("blk." +:+ ds +:+ "." +:+ tail)) = parseInt ds /\
  category (classifyTensor ("blk." +:+ ds +:+ "." +:+ tail))
  = category (classifyTensor ("blk.0." +:+ tail)) /\
  expertIdx (classifyTensor ("blk." +:+ ds +:+ "." +:+ tail))
  = expertIdx (classifyTensor ("blk.0." +:+ tail)).
Proof.
  intros Hne Hds _.
  rewrite (classifyTensor_of_layer ds tail Hne Hds).
  cbn [layerIdx category expertIdx].
  split; [reflexivity|]. split; [reflexivity|].
  change ("blk.0." +:+ tail) with ("blk." +:+ "0" +:+ "." +:+ tail).
  rewrite (classifyTensor_of_layer "0" tail ltac:(discriminate) eq_refl).
  reflexivity.
Qed.

Lemma classifyTensor_layer_number_witness :
  classifyTensor "blk.17.attn_q.weight"
  = {| category := "attn_q"; layerIdx := 17; expertIdx := -1 |}.
Proof.
  destruct (classifyTensor_layer_number "17" "attn_q.weight")
    as (Hl & Hc & He); [discriminate|reflexivity|vm_compute; lia|].
  change ("blk." +:+ "17" +:+ "." +:+ "attn_q.weight")
    with "blk.17.attn_q.weight"%string in *.
  destruct (classifyTensor "blk.17.attn_q.weight") as [c l e].
  cbn [layerIdx category expertIdx] in *.
  rewrite Hl, Hc, He. vm_compute. reflexivity.
Defined.

(** X15.  The tensors of an expert: ["blk.<l>.ffn_gate.<e>.weight"],
    ["blk.<l>.ffn_up.<e>.weight"] and ["blk.<l>.ffn_down.<e>.weight"] are
    classified as [ffn_gate], [ffn_up] and [ffn_down] of layer [l] and
    expert [e] (numbers of at most 15 digits). *)
Theorem classifyTensor_expert_names (ds es : string) :
  ds <> ""%string -> digits_only ds = true -> (String.length ds <= 15)%nat ->
  es <> ""%string -> digits_only es = true -> (String.length es <= 15)%nat ->
  classifyTensor ("blk." +:+ ds +:+ ".ffn_gate." +:+ es +:+ ".weight")
  = {| category := "ffn_gate"; layerIdx := parseInt ds; expertIdx := parseInt es |} /\
  classifyTensor ("blk." +:+ ds +:+ ".ffn_up." +:+ es +:+ ".weight")
  = {| category := "ffn_up"; layerIdx := parseInt ds; expertIdx := parseInt es |} /\
  classifyTensor ("blk." +:+ ds +:+ ".ffn_down." +:+ es +:+ ".weight")
  = {| category := "ffn_down"; layerIdx := parseInt ds; expertIdx := parseInt es |}.
Proof.
  intros Hne Hds _ Hnee Hes _.
  assert (Ht : take_digits (es +:+ ".weight") = (es, ".weight"%string))
    by (apply take_digits_app; [assumption|reflexivity]).
  destruct (match_expert_here (es +:+ ".weight") es ".weight" Ht Hnee)
    as (Hg & Hu & Hd).
  assert (Hn : forall w,
            toLowerCase w = w ->
            toLowerCase ("blk." +:+ ds +:+ "." +:+ w +:+ es +:+ ".weight")
            = "blk." +:+ ds +:+ "." +:+ (w +:+ es +:+ ".weight")).
  { intros w Hw.
    rewrite toLowerCase_blk, !toLowerCase_app, (toLowerCase_digits es), Hw
      by assumption.
    reflexivity. }
  repeat split;
    [ change ("blk." +:+ ds +:+ ".ffn_gate." +:+ es +:+ ".weight")
        with ("blk." +:+ ds +:+ "." +:+ "ffn_gate." +:+ es +:+ ".weight")
    | change ("blk." +:+ ds +:+ ".ffn_up." +:+ es +:+ ".weight")
        with ("blk." +:+ ds +:+ "." +:+ "ffn_up." +:+ es +:+ ".weight")
    | change ("blk." +:+ ds +:+ ".ffn_down." +:+ es +:+ ".weight")
        with ("blk." +:+ ds +:+ "." +:+ "ffn_down." +:+ es +:+ ".weight") ];
    unfold classifyTensor; rewrite Hn by reflexivity;
    rewrite match_blk_layer, match_expert_after_blk by assumption;
    [rewrite Hg | rewrite Hu | rewrite Hd];
    f_equal.
  - change ("blk." +:+ ds +:+ "." +:+ "ffn_gate." +:+ es +:+ ".weight")
      with ("blk." +:+ ds +:+ (".ffn_gate." +:+ es +:+ ".weight")).
    rewrite !(includes_around_digits "blk." ds) by (assumption || reflexivity).
    rewrite !(includes_around_digits ".ffn_gate." es) by (assumption || reflexivity).
    vm_compute. reflexivity.
  - change ("blk." +:+ ds +:+ "." +:+ "ffn_up." +:+ es +:+ ".weight")
      with ("blk." +:+ ds +:+ (".ffn_up." +:+ es +:+ ".weight")).
    rewrite !(includes_around_digits "blk." ds) by (assumption || reflexivity).
    rewrite !(includes_around_digits ".ffn_up." es) by (assumption || reflexivity).
    vm_compute. reflexivity.
  - change ("blk." +:+ ds +:+ "." +:+ "ffn_down." +:+ es +:+ ".weight")
      with ("blk." +:+ ds +:+ (".ffn_down." +:+ es +:+ ".weight")).
    rewrite !(includes_around_digits "blk." ds) by (assumption || reflexivity).
    rewrite !(includes_around_digits ".ffn_down." es) by (assumption || reflexivity).
    vm_compute. reflexivity.
Qed.

Lemma classifyTensor_expert_names_witness :
  classifyTensor "blk.2.ffn_gate.5.weight"
  = {| category := "ffn_gate"; layerIdx := 2; expertIdx := 5 |}.
Proof.
  apply (proj1 (classifyTensor_expert_names "2" "5"
                  ltac:(discriminate) eq_refl ltac:(vm_compute; lia)
                  ltac:(discriminate) eq_refl ltac:(vm_compute; lia))).
Defined.

(** X16.  The attention output projection of a layer, named
    ["blk.<l>.attn_output.weight"], is classified as ['output'] (the test
    for ["output.weight"] comes before the test for ["attn_output"]), with
    the layer index [l]. *)
Theorem classifyTensor_attn_output_is_output (ds : string) :
  ds <> ""%string -> digits_only ds = true -> (String.length ds <= 15)%nat ->
  classifyTensor ("blk." +:+ ds +:+ ".attn_output.weight")
  = {| category := "output"; layerIdx := parseInt ds; expertIdx := -1 |}.
Proof.
  intros Hne Hds _.
  change ("blk." +:+ ds +:+ ".attn_output.weight")
    with ("blk." +:+ ds +:+ "." +:+ "attn_output.weight").
  rewrite (classifyTensor_of_layer ds "attn_output.weight" Hne Hds).
  reflexivity.
Qed.

Lemma classifyTensor_attn_output_is_output_witness :
  classifyTensor "blk.3.attn_output.weight"
  = {| category := "output"; layerIdx := 3; expertIdx := -1 |}.
Proof.
  apply (classifyTensor_attn_output_is_output "3");
    [discriminate|reflexivity|vm_compute; lia].
Defined.

(** X17.  Whatever the name, the category that [classifyTensor] returns
    has an entry in [TENSOR_COLORS] and a non-empty entry in
    [KNOWN_NAMES]: the fallbacks of the two tables are never needed for a
    classified tensor. *)
Theorem classifyTensor_category_known (name : string) :
  exists color knownName,
    assoc_string (category (classifyTensor name)) TENSOR_COLORS = Some color /\
    assoc_string (category (classifyTensor name)) KNOWN_NAMES = Some knownName /\
    knownName <> ""%string.
Proof.
  unfold classifyTensor. cbn [category].
  repeat lazymatch goal with
         | |- context [assoc_string (if ?c then _ else _) TENSOR_COLORS] =>
             destruct c;
             [do 2 eexists; repeat split; discriminate|]
         end.
  do 2 eexists; repeat split; discriminate.
Qed.

(* ================================================================== *)
(** * Further properties of the point cloud *)
(* ================================================================== *)

(** ** Allocation and normalisation *)

Lemma Math_max_floor (b : Number) :
  JS.Math_max MIN_POINTS_PER_TENSOR b = JS.NaN \/
  JS.le MIN_POINTS_PER_TENSOR (JS.Math_max MIN_POINTS_PER_TENSOR b) = true.
Proof.
  unfold JS.Math_max.
  change MIN_POINTS_PER_TENSOR with (S754_finite false 7036874417766400 (-44)).
  destruct b as [s|s| |s m e]; try (left; reflexivity).
  - right. destruct s; reflexivity.
  - right. destruct s; reflexivity.
  - right.
    destruct (SFltb (S754_finite false 7036874417766400 (-44)) (S754_finite s m e)) eqn:E.
    + unfold JS.le, SFleb. unfold SFltb in E.
      destruct (SFcompare _ _) as [[]|]; try discriminate; reflexivity.
    + reflexivity.
Qed.

(** The allocations are those of the tensors, in their order. *)
Lemma allocatePoints_tensors (tensors : list Tensor) (targetPointCount : Number) :
  map alloc_tensor (allocatePoints tensors targetPointCount) = tensors.
Proof.
  unfold allocatePoints, rescaleAllocs, rawAllocs. cbv zeta.
  destruct (JS.gt _ JS.pos_zero); rewrite !map_map; cbn [alloc_tensor];
    apply map_id.
Qed.

(** X18.  The allocation keeps the tensors in their order, classifies each
    by its name, and gives each a point count that is at least
    [MIN_POINTS_PER_TENSOR] = 400, or NaN. *)
Theorem allocatePoints_keeps_tensors (tensors : list Tensor) (targetPointCount : Number) :
  map alloc_tensor (allocatePoints tensors targetPointCount) = tensors /\
  map alloc_cls (allocatePoints tensors targetPointCount)
  = map (fun t => classifyTensor (name t)) tensors /\
  Forall (fun a => pointCount a = JS.NaN \/
                   JS.le MIN_POINTS_PER_TENSOR (pointCount a) = true)
         (allocatePoints tensors targetPointCount).
Proof.
  unfold allocatePoints, rescaleAllocs, rawAllocs. cbv zeta.
  destruct (JS.gt _ JS.pos_zero).
  - rewrite !map_map. cbn [alloc_tensor alloc_cls pointCount].
    split; [apply map_id|]. split; [reflexivity|].
    rewrite !Forall_map. apply Forall_forall. intros t _.
    cbn [pointCount]. apply Math_max_floor.
  - rewrite !map_map. cbn [alloc_tensor alloc_cls pointCount].
    split; [apply map_id|]. split; [reflexivity|].
    rewrite !Forall_map. apply Forall_forall. intros t _.
    cbn [pointCount]. apply Math_max_floor.
Qed.

(** A number that is finite and above zero. *)
Lemma gt_zero_finite_cases (m : Number) :
  JS.gt m JS.pos_zero = true -> JS.isFinite m = true ->
  exists mm e, m = S754_finite false mm e.
Proof.
  intros Hgt Hfin.
  destruct m as [[]|s| |[] mm e]; try discriminate Hfin; try discriminate Hgt.
  eauto.
Qed.

Lemma maxAbs_step (maxAbs w : Number) :
  maxAbs = JS.pos_zero \/
  (JS.gt maxAbs JS.pos_zero = true /\ JS.isFinite maxAbs = true) ->
  let a := JS.Math_abs w in
  let maxAbs' := if JS.gt a maxAbs && JS.isFinite a then a else maxAbs in
  maxAbs' = JS.pos_zero \/
  (JS.gt maxAbs' JS.pos_zero = true /\ JS.isFinite maxAbs' = true).
Proof.
  intros I. cbv zeta.
  destruct (JS.gt (JS.Math_abs w) maxAbs && JS.isFinite (JS.Math_abs w)) eqn:E;
    [|exact I].
  apply andb_true_iff in E as [Hgt Hfin]. right. split; [|exact Hfin].
  destruct I as [->|[Hm Hf]]; [exact Hgt|].
  destruct (gt_zero_finite_cases maxAbs Hm Hf) as (mm & e & ->).
  destruct (JS.Math_abs w) as [s|s| |s ma ea]; cbn in *; try discriminate.
  destruct s; [discriminate|reflexivity].
Qed.

(** X19.  The normalisation constant of sampled weights is a positive
    finite number, whatever the samples are (none, all zero, NaN,
    infinities). *)
Theorem maxAbsOf_positive_finite (ws : list Number) :
  JS.gt (maxAbsOf (Some ws)) JS.pos_zero = true /\
  JS.isFinite (maxAbsOf (Some ws)) = true.
Proof.
  unfold maxAbsOf.
  assert (I : forall ws m,
            m = JS.pos_zero \/
            (JS.gt m JS.pos_zero = true /\ JS.isFinite m = true) ->
            let m' := fold_left
                        (fun maxAbs w =>
                           let a := JS.Math_abs w in
                           if JS.gt a maxAbs && JS.isFinite a then a else maxAbs)
                        ws m in
            m' = JS.pos_zero \/
            (JS.gt m' JS.pos_zero = true /\ JS.isFinite m' = true)).
  { clear. induction ws as [|w ws IH]; intros m Hm; [exact Hm|].
    cbn [fold_left]. apply IH. apply (maxAbs_step m w Hm). }
  specialize (I ws JS.pos_zero (or_introl eq_refl)). cbv zeta in I.
  cbv zeta.
  destruct I as [-> | [Hgt Hfin]].
  - split; reflexivity.
  - destruct (gt_zero_finite_cases _ Hgt Hfin) as (mm & e & ->).
    split; reflexivity.
Qed.

(** ** The region table *)

Lemma tensorLoop_tiles (random : nat -> Number) (archInfo : Arch)
    (colorMode : string) (L : Layout)
    (allocs : list (TensorAlloc * option (list Number))) :
  forall st regions st1 regions1,
    tensorLoop random archInfo colorMode L allocs st regions
    = Returns (st1, regions1) ->
    exists new,
      regions1 = regions ++ new /\
      tiles (globalIdx st) new (globalIdx st1) = true /\
      map tr_name new = map (fun aw => name (alloc_tensor (fst aw))) allocs /\
      map (fun tr => Some (Z.to_nat (endIdx tr - startIdx tr))) new
      = map (fun aw => turns (pointCount (fst aw))) allocs.
Proof.
  induction allocs as [|[a w] rest IH]; intros st regions st1 regions1;
    cbn [tensorLoop].
  - intros [= <- <-]. exists []. rewrite app_nil_r. cbn. rewrite Z.eqb_refl. auto.
  - unfold tensorBody at 1.
    destruct (turns (pointCount a)) as [n|] eqn:Hn; [|discriminate].
    set (region := getRegion L (category (alloc_cls a))
                     (layerIdx (alloc_cls a)) (expertIdx (alloc_cls a))).
    set (st' := pointLoop _ n 0 st).
    destruct (pointLoop_writes random archInfo colorMode (alloc_tensor a)
                (alloc_cls a) (pointCount a) region w (maxAbsOf w) n 0 st)
      as (G & _).
    cbv zeta in G. fold st' in G.
    intros Hrest. destruct (IH _ _ _ _ Hrest) as (new & Hnew & Ht & Hnames & Hsizes).
    eexists (_ :: new). split; [rewrite Hnew, <- app_assoc; reflexivity|].
    cbn [tiles map startIdx endIdx tr_name fst]. rewrite Z.eqb_refl, Ht.
    split; [|split].
    + replace (globalIdx st <=? globalIdx st') with true
        by (symmetry; apply Z.leb_le; lia). reflexivity.
    + rewrite Hnames. reflexivity.
    + rewrite Hsizes, Hn. do 2 f_equal. lia.
Qed.

(** X20.  The region table of a generated cloud has one entry per tensor,
    in the order of the tensors, and its entries tile the points: the first
    region starts at point 0, each region starts where the one before ends,
    and the last one ends at [actualPointCount].  The two buffers have the
    same length. *)
Theorem tensorRegions_tile_the_points (random : nat -> Number)
    (sampleTensorWeights : Tensor -> Number -> option (list Number))
    (archInfo : Arch) (tensors : list Tensor) (targetPointCount : Number)
    (colorMode : string) (pc : PointCloud) :
  generatePointCloud random sampleTensorWeights archInfo tensors
    targetPointCount colorMode = Returns pc ->
  tiles 0 (tensorRegions pc) (actualPointCount pc) = true /\
  map tr_name (tensorRegions pc) = map name tensors /\
  length (pc_colors pc) = length (pc_positions pc).
Proof.
  unfold generatePointCloud. cbv zeta.
  destruct (new_Float32Array _) as [buffer| |]; try discriminate.
  destruct (tensorLoop _ _ _ _ _ _ _) as [[st regions]| |] eqn:E; try discriminate.
  intros [= <-]. cbn [tensorRegions actualPointCount pc_colors pc_positions].
  destruct (tensorLoop_tiles _ _ _ _ _ _ _ _ _ E) as (new & Hnew & Ht & Hnames & _).
  cbn [app] in Hnew. subst regions. cbn [globalIdx] in Ht.
  split; [exact Ht|]. split.
  - rewrite Hnames.
    assert (Hlen : length (sampleAll sampleTensorWeights colorMode
                             (allocatePoints tensors targetPointCount))
                   = length (allocatePoints tensors targetPointCount)).
    { unfold sampleAll. destruct (String.eqb _ _); apply length_map. }
    rewrite <- (map_map fst (fun a => name (alloc_tensor a))).
    rewrite map_fst_combine by exact Hlen.
    rewrite <- (map_map alloc_tensor name), allocatePoints_tensors. reflexivity.
  - eapply tensorLoop_writes in E as (_ & Lp & Lc & _);
      [|cbn; lia|reflexivity].
    cbn [positions colors] in Lp, Lc. congruence.
Qed.

Lemma tensorRegions_tile_the_points_witness :
  exists pc,
    generatePointCloud random_half (fun _ _ => None) sample_arch two_tensors
      (JS.fromZ 100) "layer" = Returns pc /\
    tiles 0 (tensorRegions pc) (actualPointCount pc) = true /\
    map tr_name (tensorRegions pc) = map name two_tensors.
Proof.
  assert (H : match generatePointCloud random_half (fun _ _ => None) sample_arch
                      two_tensors (JS.fromZ 100) "layer" with
              | Returns _ => true
              | _ => false
              end = true) by (vm_compute; reflexivity).
  destruct (generatePointCloud random_half (fun _ _ => None) sample_arch
              two_tensors (JS.fromZ 100) "layer") as [pc| |] eqn:E;
    [|discriminate H|discriminate H].
  exists pc. split; [reflexivity|].
  destruct (tensorRegions_tile_the_points _ _ _ _ _ _ _ E) as (Ht & Hn & _).
  split; [exact Ht | exact Hn].
Defined.

Lemma tiles_total (regions : list TensorRegion) :
  forall from to,
    tiles from regions to = true ->
    to = from + total (map (fun tr => endIdx tr - startIdx tr) regions) /\
    Forall (fun tr => startIdx tr <= endIdx tr) regions.
Proof.
  induction regions as [|tr rest IH]; intros from to; cbn [tiles map total fold_right].
  - intros H. apply Z.eqb_eq in H. split; [lia|constructor].
  - intros H. apply andb_true_iff in H as [H H3]. apply andb_true_iff in H as [H1 H2].
    apply Z.eqb_eq in H1. apply Z.leb_le in H2.
    destruct (IH _ _ H3) as [Ht Hf]. fold (total (map (fun tr => endIdx tr - startIdx tr) rest)).
    split; [lia|]. constructor; assumption.
Qed.

Lemma total_bounds (qs : list Z) :
  Forall (fun q => 1 <= q) qs -> Forall (fun q => 1 <= q <= total qs) qs.
Proof.
  induction 1 as [|q qs Hq Hqs IH]; [constructor|].
  cbn [total fold_right]. fold (total qs).
  assert (0 <= total qs) by (apply total_nonneg; eapply Forall_impl; [exact Hqs|]; cbn; intros; lia).
  constructor; [lia|]. eapply Forall_impl; [exact IH|]. cbn. intros. lia.
Qed.

(** X21.  When the allocations are whole numbers [q_i >= 1] with
    [3 * sum q_i < 2^53], the generation returns; tensor [i] gets exactly
    [q_i] points, [actualPointCount] is the sum, and each buffer has exactly
    three entries per point. *)
Theorem generatePointCloud_point_counts (random : nat -> Number)
    (sampleTensorWeights : Tensor -> Number -> option (list Number))
    (archInfo : Arch) (tensors : list Tensor) (targetPointCount : Number)
    (colorMode : string) (qs : list Z) :
  map pointCount (allocatePoints tensors targetPointCount) = map JS.fromZ qs ->
  forallb (Z.leb 1) qs = true ->
  3 * total qs < 2 ^ 53 ->
  exists pc,
    generatePointCloud random sampleTensorWeights archInfo tensors
      targetPointCount colorMode = Returns pc /\
    map (fun tr => endIdx tr - startIdx tr) (tensorRegions pc) = qs /\
    actualPointCount pc = total qs /\
    Z.of_nat (length (pc_positions pc)) = 3 * total qs /\
    Z.of_nat (length (pc_colors pc)) = 3 * total qs.
Proof.
  intros Hmap Hqs Htot.
  assert (Hq1 : Forall (fun q => 1 <= q) qs).
  { apply (forallb_Forall_Z (Z.leb 1)); [|exact Hqs]. intros z Hz. apply Z.leb_le, Hz. }
  assert (Hq0 : Forall (fun q => 0 < q) qs)
    by (eapply Forall_impl; [exact Hq1|]; cbn; intros; lia).
  pose proof (total_nonneg qs Hq0) as Hnn.
  pose proof (total_bounds qs Hq1) as Hqb.
  unfold generatePointCloud. cbv zeta.
  set (allocs := allocatePoints tensors targetPointCount) in *.
  rewrite (sum_by_fromZ pointCount allocs qs Hmap Hq0 ltac:(lia)).
  assert (Hbuf : new_Float32Array (JS.mul (JS.fromZ (total qs)) (JS.fromZ 3))
                 = Returns (replicate (Z.to_nat (3 * total qs)) JS.pos_zero)).
  { destruct (Z.eq_dec (total qs) 0) as [E0|NE].
    - rewrite E0. reflexivity.
    - rewrite mul_fromZ by lia.
      replace (total qs * 3) with (3 * total qs) by lia.
      unfold new_Float32Array.
      rewrite trunc_fromZ by lia.
      replace (_ || _) with false
        by (symmetry; apply orb_false_iff; split;
            [apply Z.ltb_ge; lia | rewrite Z.gtb_ltb; apply Z.ltb_ge; lia]).
      destruct (3 * total qs) as [|p|p] eqn:E3; try lia.
      destruct (fromZ_pos_small p ltac:(lia)) as (m & e & -> & _). reflexivity. }
  rewrite Hbuf.
  set (ws := sampleAll sampleTensorWeights colorMode allocs).
  assert (Hlen : length ws = length allocs).
  { unfold ws, sampleAll. destruct (String.eqb _ _); apply length_map. }
  assert (Hturns : map (fun aw : TensorAlloc * option (list Number) =>
                          turns (pointCount (fst aw))) (combine allocs ws)
                   = map (fun q => Some (Z.to_nat q)) qs).
  { rewrite <- (map_map fst (fun a => turns (pointCount a))).
    rewrite map_fst_combine by exact Hlen.
    rewrite <- (map_map pointCount turns), Hmap, map_map.
    clear -Hqb Htot. induction Hqb as [|q l Hq _ IH]; [reflexivity|].
    cbn [map]. rewrite IH, turns_fromZ by lia. reflexivity. }
  destruct (tensorLoop_returns random archInfo colorMode (combine allocs ws))
    with (L := computeLayout archInfo)
         (st := {| positions := replicate (Z.to_nat (3 * total qs)) JS.pos_zero;
                   colors := replicate (Z.to_nat (3 * total qs)) JS.pos_zero;
                   globalIdx := 0; drawn := 0 |})
         (regions := @nil TensorRegion) as (st1 & regions1 & E).
  { clear -Hturns. revert qs Hturns.
    induction (combine allocs ws) as [|aw l IH]; intros qs Hturns; [constructor|].
    destruct qs as [|q qs]; [discriminate|]. cbn [map] in Hturns.
    injection Hturns as Ha Hl. constructor; [congruence|]. apply (IH qs Hl). }
  rewrite E. eexists. split; [reflexivity|].
  cbn [tensorRegions actualPointCount pc_positions pc_colors].
  destruct (tensorLoop_tiles _ _ _ _ _ _ _ _ _ E) as (new & Hnew & Ht & _ & Hsizes).
  cbn [app] in Hnew. subst regions1. cbn [globalIdx] in Ht.
  destruct (tiles_total _ _ _ Ht) as [Hto Hord].
  rewrite Hturns in Hsizes.
  assert (Hsz : map (fun tr => endIdx tr - startIdx tr) new = qs).
  { clear -Hsizes Hord Hq1. revert qs Hsizes Hq1.
    induction Hord as [|tr l Htr _ IH]; intros [|q qs] Hs Hq1; try discriminate Hs;
      [reflexivity|].
    cbn [map] in *. injection Hs as Hs1 Hs2.
    apply Forall_cons in Hq1 as [Hq Hq1].
    f_equal; [lia | apply IH; assumption]. }
  split; [exact Hsz|]. split; [rewrite Hto, Hsz; lia|].
  eapply tensorLoop_writes in E as (_ & Lp & Lc & _); [|cbn; lia|reflexivity].
  cbn [positions colors] in Lp, Lc. rewrite Lp, Lc, length_replicate. lia.
Qed.

Lemma generatePointCloud_point_counts_witness :
  exists pc,
    generatePointCloud random_half (fun _ _ => None) sample_arch two_tensors
      (JS.fromZ 100) "layer" = Returns pc /\
    map (fun tr => endIdx tr - startIdx tr) (tensorRegions pc) = [400; 400] /\
    actualPointCount pc = 800 /\
    Z.of_nat (length (pc_positions pc)) = 2400 /\
    Z.of_nat (length (pc_colors pc)) = 2400.
Proof.
  assert (Hmap : map pointCount (allocatePoints two_tensors (JS.fromZ 100))
                 = map JS.fromZ [400; 400]) by (vm_compute; reflexivity).
  apply (generatePointCloud_point_counts random_half (fun _ _ => None) sample_arch
           two_tensors (JS.fromZ 100) "layer" [400; 400] Hmap);
    [reflexivity | cbn; lia].
Defined.

(* ================================================================== *)
(** * Failed sampling *)
(* ================================================================== *)


Section FailedSampling.

Variable random : nat -> Number.
Variable sampleTensorWeights : Tensor -> Number -> option (list Number).
Variable archInfo : Arch.



End FailedSampling.


(* ================================================================== *)
(** * Further properties of the connections *)
(* ================================================================== *)

(** ** The line buffers *)

Lemma runJobs_lengths (random : nat -> Number) (positions : list Number)
    (jobs : list Job) :
  forall st st',
    runJobs random positions jobs st = Returns st' ->
    exists n : nat,
      length (linePositions st') = (length (linePositions st) + 6 * n)%nat /\
      length (lineColors st') = (length (lineColors st) + 6 * n)%nat /\
      line_drawn st' = (line_drawn st + 2 * n)%nat.
Proof.
  induction jobs as [|[[[src tgt] density] dimFactor] rest IH]; intros st st';
    cbn [runJobs].
  - intros [= <-]. exists O. lia.
  - destruct (_sampleLines _ _ _ _ _ _ _) as [st1| |] eqn:E; try discriminate.
    intros Hrest. destruct (IH _ _ Hrest) as (n & P & C & D).
    unfold _sampleLines in E. cbv zeta in E.
    destruct (_ || _).
    + injection E as <-. exists n. auto.
    + destruct (turns _) as [k|]; [|discriminate]. injection E as <-.
      destruct (lineLoop_lengths random src tgt positions dimFactor k st)
        as (P' & C' & D').
      cbv zeta in P', C', D'. exists (k + n)%nat. lia.
Qed.

(** X22.  The two line buffers have six entries per line, [lineCount] is
    a whole number, and the connection pass takes exactly two draws of
    [Math.random] per line. *)
Theorem generateConnections_buffers (random : nat -> Number) (drawn0 : nat)
    (tensorRegions : list TensorRegion) (positions : list Number)
    (density : Number) (conn : Connections) :
  generateConnections random drawn0 tensorRegions positions density
  = Returns conn ->
  0 <= lineCount conn /\
  Z.of_nat (length (conn_positions conn)) = 6 * lineCount conn /\
  Z.of_nat (length (conn_colors conn)) = 6 * lineCount conn /\
  Z.of_nat (conn_drawn conn) = Z.of_nat drawn0 + 2 * lineCount conn.
Proof.
  unfold generateConnections.
  destruct (runJobs _ _ _ _) as [st| |] eqn:E; try discriminate.
  intros [= <-]. cbn [lineCount conn_positions conn_colors conn_drawn].
  destruct (runJobs_lengths _ _ _ _ _ E) as (n & P & C & D).
  cbn [linePositions lineColors line_drawn length] in P, C, D.
  rewrite !length_map, P, C, D.
  replace (Z.of_nat (0 + 6 * n)) with (Z.of_nat n * 6) by lia.
  rewrite Z.div_mul by lia. lia.
Qed.

Lemma generateConnections_buffers_witness :
  exists conn,
    generateConnections random_half 0 norm_and_query (replicate 24 JS.pos_zero)
      (JS.fromZ 1) = Returns conn /\
    lineCount conn = 8 /\
    Z.of_nat (length (conn_positions conn)) = 6 * lineCount conn.
Proof.
  assert (H : match generateConnections random_half 0 norm_and_query
                      (replicate 24 JS.pos_zero) (JS.fromZ 1) with
              | Returns conn => lineCount conn =? 8
              | _ => false
              end = true) by (vm_compute; reflexivity).
  destruct (generateConnections random_half 0 norm_and_query
              (replicate 24 JS.pos_zero) (JS.fromZ 1)) as [conn| |] eqn:E;
    [|discriminate H|discriminate H].
  exists conn. split; [reflexivity|]. split; [apply Z.eqb_eq, H|].
  destruct (generateConnections_buffers _ _ _ _ _ _ E) as (_ & Hp & _).
  exact Hp.
Defined.

(** X23.  When no region belongs to a layer, no line is generated (none
    from the embedding to the output either) and no random number is
    drawn. *)
Theorem generateConnections_needs_layers (random : nat -> Number) (drawn0 : nat)
    (tensorRegions : list TensorRegion) (positions : list Number)
    (density : Number) :
  forallb (fun r => tr_layerIdx r <? 0) tensorRegions = true ->
  generateConnections random drawn0 tensorRegions positions density
  = Returns {| conn_positions := []; conn_colors := [];
               lineCount := 0; conn_drawn := drawn0 |}.
Proof.
  intros H.
  assert (Hl : layersOf tensorRegions = []).
  { unfold layersOf.
    replace (filter (fun r => tr_layerIdx r >=? 0) tensorRegions) with (@nil TensorRegion);
      [reflexivity|].
    symmetry. induction tensorRegions as [|r rs IH]; [reflexivity|].
    cbn [forallb] in H. apply andb_true_iff in H as [Hr Hrs].
    rewrite filter_cons. destruct (decide _) as [Hd|Hd].
    - apply Z.ltb_lt in Hr. exfalso. apply Is_true_true in Hd.
      apply Z.geb_le in Hd. lia.
    - apply IH, Hrs. }
  unfold generateConnections, connectionJobs, intraJobs. cbv zeta.
  rewrite Hl. reflexivity.
Qed.

Lemma generateConnections_needs_layers_witness :
  generateConnections random_half 0 embedding_and_output
    (replicate 24 JS.pos_zero) (JS.fromZ 1)
  = Returns {| conn_positions := []; conn_colors := [];
               lineCount := 0; conn_drawn := 0 |}.
Proof.
  apply generateConnections_needs_layers. reflexivity.
Defined.

(** ** Which regions get connected *)

Lemma In_filter_bool {A} (P : A -> bool) (l : list A) (x : A) :
  In x (filter P l) <-> P x = true /\ In x l.
Proof.
  rewrite <- !list_elem_of_In, list_elem_of_filter.
  split; intros [H1 H2]; (split; [|exact H2]).
  - apply Is_true_true, H1.
  - apply Is_true_true, H1.
Qed.

Lemma In_pairs (sources targets : list TensorRegion) (density dimFactor : Number)
    (src tgt : TensorRegion) (d f : Number) :
  In (src, tgt, d, f) (pairs sources targets density dimFactor) ->
  In src sources /\ In tgt targets.
Proof.
  unfold pairs. rewrite in_flat_map. intros (s & Hs & H).
  apply in_map_iff in H as (t & [= <- <- _ _] & Ht). auto.
Qed.

Lemma In_regionsOfLayer (regions : list TensorRegion) (l : Z) (r : TensorRegion) :
  In r (regionsOfLayer regions l) -> tr_layerIdx r = l /\ In r regions.
Proof.
  unfold regionsOfLayer. rewrite In_filter_bool. intros [H Hin].
  apply andb_true_iff in H as [_ H]. apply Z.eqb_eq in H. auto.
Qed.

Lemma In_with_category (cats : list string) (regions : list TensorRegion)
    (r : TensorRegion) :
  In r (with_category cats regions) ->
  among cats (tr_category r) = true /\ In r regions.
Proof. unfold with_category. rewrite In_filter_bool. auto. Qed.

Lemma among_In (l : list string) (s : string) : among l s = true <-> In s l.
Proof.
  unfold among. rewrite existsb_exists. split.
  - intros (x & Hx & E). apply String.eqb_eq in E. congruence.
  - intros H. exists s. split; [exact H|apply String.eqb_refl].
Qed.

Lemma among_singleton (c s : string) : among [c] s = true -> s = c.
Proof.
  unfold among. cbn [existsb]. rewrite orb_false_r. apply String.eqb_eq.
Qed.

Lemma In_entryOf (regions : list TensorRegion) (r : TensorRegion) :
  In r (entryOf regions) ->
  among ["attn_norm"; "attn_q"; "attn_k"; "attn_v"]%string (tr_category r) = true /\
  In r regions.
Proof.
  unfold entryOf.
  destruct (with_category ["attn_norm"%string] regions) as [|n ns] eqn:E.
  - intros H. apply In_with_category in H as [Hc Hin]. split; [|exact Hin].
    apply among_In. apply among_In in Hc. cbn [In] in *. tauto.
  - rewrite <- E. intros H. apply In_with_category in H as [Hc Hin].
    split; [|exact Hin]. apply among_singleton in Hc. rewrite Hc. reflexivity.
Qed.

(** A job of the intra-layer pass comes from one rule, applied to two
    regions of one layer. *)
Lemma In_intraJobs (regions : list TensorRegion) (density : Number)
    (src tgt : TensorRegion) (d f : Number) :
  In (src, tgt, d, f) (intraJobs regions density) ->
  exists rule,
    In rule INTRA_LAYER_RULES /\
    among (rule_from rule) (tr_category src) = true /\
    among (rule_to rule) (tr_category tgt) = true /\
    tr_layerIdx src = tr_layerIdx tgt /\
    In src regions /\ In tgt regions /\
    (matchExpert rule = true ->
     tr_expertIdx src = tr_expertIdx tgt \/
     (tr_expertIdx src < 0 /\ tr_expertIdx tgt < 0)).
Proof.
  unfold intraJobs. rewrite in_flat_map. intros (l & _ & H).
  cbv zeta in H. apply in_flat_map in H as (rule & Hrule & H).
  apply in_flat_map in H as (s & Hs & H).
  apply in_map_iff in H as (t & [= <- <- _ _] & Ht).
  apply In_with_category in Hs as [Hsc Hs].
  apply In_regionsOfLayer in Hs as [Hsl Hs].
  assert (Ht' : In t (with_category (rule_to rule) (regionsOfLayer regions l)) /\
                (matchExpert rule = true ->
                 tr_expertIdx s = tr_expertIdx t \/
                 (tr_expertIdx s < 0 /\ tr_expertIdx t < 0))).
  { destruct (matchExpert rule).
    - apply In_filter_bool in Ht as [Hm Ht]. split; [exact Ht|]. intros _.
      apply orb_true_iff in Hm as [Hm|Hm].
      + left. apply Z.eqb_eq, Hm.
      + right. apply andb_true_iff in Hm as [H1 H2].
        apply Z.ltb_lt in H1, H2. auto.
    - split; [exact Ht|discriminate]. }
  destruct Ht' as [Ht' Hexp].
  apply In_with_category in Ht' as [Htc Ht'].
  apply In_regionsOfLayer in Ht' as [Htl Ht'].
  exists rule. repeat split; try assumption. congruence.
Qed.

Lemma In_crossJobs (regions : list TensorRegion) (layers : list Z)
    (density : Number) (src tgt : TensorRegion) (d f : Number) :
  In (src, tgt, d, f) (crossJobs regions layers density) ->
  among ["ffn_down"; "moe_down"]%string (tr_category src) = true /\
  In src regions /\ In tgt regions.
Proof.
  induction layers as [|current [|next rest] IH]; cbn [crossJobs]; try contradiction.
  rewrite in_app_iff. intros [H|H]; [|apply IH, H].
  apply In_pairs in H as [Hs Ht].
  apply In_with_category in Hs as [Hsc Hs]. apply In_regionsOfLayer in Hs as [_ Hs].
  apply In_entryOf in Ht as [_ Ht]. apply In_regionsOfLayer in Ht as [_ Ht]. auto.
Qed.

Lemma In_globalsOf (regions : list TensorRegion) (r : TensorRegion) :
  In r (globalsOf regions) -> In r regions.
Proof. unfold globalsOf. rewrite In_filter_bool. intros [_ H]. exact H. Qed.

Lemma In_boundaryJobs (regions : list TensorRegion) (layers : list Z)
    (density : Number) (src tgt : TensorRegion) (d f : Number) :
  In (src, tgt, d, f) (boundaryJobs regions layers density) ->
  among ["embedding"; "ffn_down"; "moe_down"; "output_norm"]%string
        (tr_category src) = true /\
  In src regions /\ In tgt regions.
Proof.
  unfold boundaryJobs. destruct layers as [|first rest]; [contradiction|].
  cbv zeta. rewrite !in_app_iff. intros [H|[H|H]]; apply In_pairs in H as [Hs Ht].
  - apply In_with_category in Hs as [Hsc Hs]. apply In_globalsOf in Hs.
    apply In_entryOf in Ht as [_ Ht]. apply In_regionsOfLayer in Ht as [_ Ht].
    apply among_singleton in Hsc. rewrite Hsc. auto.
  - apply In_with_category in Hs as [Hsc Hs]. apply In_regionsOfLayer in Hs as [_ Hs].
    split; [|split; [exact Hs|]].
    + apply among_In. apply among_In in Hsc. cbn [In] in *. tauto.
    + destruct (with_category ["output_norm"%string] (globalsOf regions)) eqn:E.
      * apply In_with_category in Ht as [_ Ht]. apply In_globalsOf, Ht.
      * rewrite <- E in Ht. apply In_with_category in Ht as [_ Ht].
        apply In_globalsOf, Ht.
  - apply In_with_category in Hs as [Hsc Hs]. apply In_globalsOf in Hs.
    apply In_with_category in Ht as [_ Ht]. apply In_globalsOf in Ht.
    apply among_singleton in Hsc. rewrite Hsc. auto.
Qed.

(** X24.  Every call of [_sampleLines] connects two regions of the table;
    and a call whose source is an FFN gate or up projection goes to an FFN
    down projection of the same layer and the same expert (or both regions
    belong to no expert). *)
Theorem connections_keep_experts_apart (tensorRegions : list TensorRegion)
    (density : Number) (src tgt : TensorRegion) (d f : Number) :
  In (src, tgt, d, f) (connectionJobs tensorRegions density) ->
  In src tensorRegions /\ In tgt tensorRegions /\
  (among ["ffn_gate"; "ffn_up"]%string (tr_category src) = true ->
   tr_category tgt = "ffn_down"%string /\
   tr_layerIdx src = tr_layerIdx tgt /\
   (tr_expertIdx src = tr_expertIdx tgt \/
    (tr_expertIdx src < 0 /\ tr_expertIdx tgt < 0))).
Proof.
  unfold connectionJobs. cbv zeta. rewrite !in_app_iff. intros [H|[H|H]].
  - apply In_intraJobs in H
      as (rule & Hrule & Hfrom & Hto & Hl & Hs & Ht & Hexp).
    split; [exact Hs|]. split; [exact Ht|]. intros Hsrc.
    unfold among in Hsrc. cbn [existsb] in Hsrc. rewrite orb_false_r in Hsrc.
    unfold INTRA_LAYER_RULES in Hrule. cbn [In] in Hrule.
    repeat (destruct Hrule as [<-|Hrule];
            [cbn [rule_from rule_to matchExpert] in *;
             first
               [ apply among_singleton in Hfrom; rewrite Hfrom in Hsrc;
                 discriminate Hsrc
               | apply among_singleton in Hto;
                 split; [exact Hto|]; split; [exact Hl|]; apply Hexp; reflexivity ]
            |]).
    contradiction.
  - apply In_crossJobs in H as (Hc & Hs & Ht).
    split; [exact Hs|]. split; [exact Ht|]. intros Hsrc. exfalso.
    apply among_In in Hc, Hsrc. cbn [In] in Hc, Hsrc.
    destruct Hsrc as [E|[E|[]]]; rewrite <- E in Hc;
      repeat (destruct Hc as [Hc|Hc]; [discriminate Hc|]); exact Hc.
  - apply In_boundaryJobs in H as (Hc & Hs & Ht).
    split; [exact Hs|]. split; [exact Ht|]. intros Hsrc. exfalso.
    apply among_In in Hc, Hsrc. cbn [In] in Hc, Hsrc.
    destruct Hsrc as [E|[E|[]]]; rewrite <- E in Hc;
      repeat (destruct Hc as [Hc|Hc]; [discriminate Hc|]); exact Hc.
Qed.

Lemma connections_keep_experts_apart_witness :
  In (expert_region "ffn_gate" 0 1 4 4, expert_region "ffn_down" 0 1 12 4,
      JS.fromZ 1, JS.lit 5 1)
     (connectionJobs two_experts (JS.fromZ 1)) /\
  tr_expertIdx (expert_region "ffn_gate" 0 1 4 4)
  = tr_expertIdx (expert_region "ffn_down" 0 1 12 4).
Proof.
  assert (Hin : In (expert_region "ffn_gate" 0 1 4 4,
                    expert_region "ffn_down" 0 1 12 4, JS.fromZ 1, JS.lit 5 1)
                   (connectionJobs two_experts (JS.fromZ 1))).
  { vm_compute. right. left. reflexivity. }
  split; [exact Hin|].
  destruct (connections_keep_experts_apart two_experts (JS.fromZ 1) _ _ _ _ Hin)
    as (_ & _ & H).
  destruct (H ltac:(reflexivity)) as (_ & _ & [He|[Hneg _]]);
    [exact He | cbn in Hneg; lia].
Defined.

(** ** Where the lines end *)

(** A draw is at most [1 - 2^-53]. *)
Lemma unit_draw_below_one (m : positive) (e : Z) :
  unit_draw (S754_finite false m e) = true ->
  Z.pos (digits2_pos m) = 53 /\ -1074 <= e <= -53 /\
  (Qval (S754_finite false m e) <= 1 - eps)%Q.
Proof.
  cbn [unit_draw]. intros H.
  apply andb_true_iff in H as [H He2]. apply andb_true_iff in H as [Hd He1].
  apply Z.eqb_eq in Hd. apply Z.leb_le in He1, He2.
  split; [exact Hd|]. split; [lia|].
  apply digits_bracket in Hd.
  cbn [Qval JS.smant].
  assert (Hm : (inject_Z (Z.pos m) <= inject_Z (2 ^ 53 - 1))%Q)
    by (rewrite <- Zle_Qle; lia).
  assert (Hp : (2 ^ e <= 2 ^ (-53))%Q)
    by (apply Qpower_le_compat_l; [lia|discriminate]).
  pose proof (Qpow2_pos e) as Hpos.
  assert (H0 : (0 < inject_Z (Z.pos m))%Q)
    by (change 0%Q with (inject_Z 0); rewrite <- Zlt_Qlt; lia).
  change (inject_Z (2 ^ 53 - 1)) with (9007199254740991 # 1)%Q in Hm.
  change (2 ^ (-53))%Q with (1 # 9007199254740992)%Q in Hp.
  unfold eps.
  set (x := inject_Z (Z.pos m)) in *. set (P := (2 ^ e)%Q) in *.
  nra.
Qed.

(** [Math.floor(Math.random() * count)] is an index below [count]. *)
Lemma floor_draw (x : Number) (c : Z) :
  unit_draw x = true -> 0 < c < 2 ^ 52 ->
  exists f, JS.Math_floor (JS.mul x (JS.fromZ c)) = JS.fromZ f /\ 0 <= f < c.
Proof.
  intros Hx Hc.
  assert (Hc53 : 0 < c < 2 ^ 53) by (change (2 ^ 53) with (2 ^ 52 * 2); lia).
  destruct (fromZ_normal c Hc53) as (mc & ec & Ec & Dc & Rc).
  pose proof (Qval_fromZ c Hc53) as Vc. rewrite Ec in *.
  destruct x as [[]| | |[] m e]; try discriminate Hx.
  - exists 0. split; [reflexivity|lia].
  - destruct (unit_draw_below_one m e Hx) as (Dm & Re & Vm).
    destruct (Qval_mul m mc e ec Dm Dc ltac:(lia)) as (m' & e' & -> & D' & [_ Hup]).
    rewrite Vc in Hup.
    pose proof (Qval_normal_pos m e) as Hpos.
    assert (Hcq : (0 < inject_Z c)%Q)
      by (change 0%Q with (inject_Z 0); rewrite <- Zlt_Qlt; lia).
    assert (Hlt : (Qval (S754_finite false m' e') < inject_Z c)%Q).
    { unfold eps in *.
      set (r := Qval (S754_finite false m e)) in *.
      set (v := Qval (S754_finite false m' e')) in *.
      set (cq := inject_Z c) in *. nra. }
    assert (Hc52 : (inject_Z c <= inject_Z (2 ^ 52))%Q) by (rewrite <- Zle_Qle; lia).
    destruct (Math_floor_normal m' e' D' ltac:(lra)) as (f & -> & Hf & Hfv).
    exists f. split; [reflexivity|]. split; [lia|].
    rewrite Zlt_Qlt. lra.
Qed.

Lemma add_fromZ_nonneg (a b : Z) :
  0 <= a -> 0 <= b -> a + b < 2 ^ 53 ->
  JS.add (JS.fromZ a) (JS.fromZ b) = JS.fromZ (a + b).
Proof.
  intros Ha Hb Hab. destruct (Z.eq_dec b 0) as [->|Hb0].
  - rewrite Z.add_0_r. destruct (Z.eq_dec a 0) as [->|Ha0]; [reflexivity|].
    destruct (fromZ_normal a ltac:(lia)) as (m & e & -> & _). reflexivity.
  - apply add_fromZ; lia.
Qed.

Lemma mul_fromZ_nonneg (a b : Z) :
  0 <= a -> 0 < b < 2 ^ 53 -> a * b < 2 ^ 53 ->
  JS.mul (JS.fromZ a) (JS.fromZ b) = JS.fromZ (a * b).
Proof.
  intros Ha Hb Hab. destruct (Z.eq_dec a 0) as [->|Ha0].
  - destruct (fromZ_normal b Hb) as (m & e & -> & _). reflexivity.
  - apply mul_fromZ; lia.
Qed.

Lemma typed_get_fromZ (positions : list Number) (z : Z) :
  0 <= z < 2 ^ 53 -> typed_get positions (JS.fromZ z) = array_get positions z.
Proof. intros Hz. unfold typed_get. rewrite fromZ_exact by lia. reflexivity. Qed.

(** The coordinates that a segment reads for the point a draw selects. *)
Lemma endpoint_coordinates (positions : list Number) (r : TensorRegion) (x : Number) :
  unit_draw x = true -> countable_region r = true -> startIdx r < endIdx r ->
  exists p,
    startIdx r <= p < endIdx r /\
    let idx := JS.add (JS.fromZ (startIdx r))
                 (JS.Math_floor (JS.mul x (JS.fromZ (endIdx r - startIdx r)))) in
    [ typed_get positions (JS.mul idx (JS.fromZ 3));
      typed_get positions (JS.add (JS.mul idx (JS.fromZ 3)) (JS.fromZ 1));
      typed_get positions (JS.add (JS.mul idx (JS.fromZ 3)) (JS.fromZ 2)) ]
    = point_at positions p.
Proof.
  intros Hx Hr Hne. unfold countable_region in Hr.
  apply andb_true_iff in Hr as [Hr H3]. apply andb_true_iff in Hr as [H0 Hle].
  apply Z.leb_le in H0, Hle. apply Z.ltb_lt in H3.
  change (2 ^ 53) with (2 ^ 52 * 2) in H3.
  destruct (floor_draw x (endIdx r - startIdx r) Hx ltac:(lia)) as (f & Hf & Rf).
  exists (startIdx r + f). split; [lia|]. cbv zeta. rewrite Hf.
  change (2 ^ 52 * 2) with (2 ^ 53) in H3.
  rewrite add_fromZ_nonneg by lia.
  rewrite mul_fromZ_nonneg by lia.
  rewrite !add_fromZ by lia.
  rewrite !typed_get_fromZ by lia.
  reflexivity.
Qed.

Lemma lineBody_joins (random : nat -> Number) (src tgt : TensorRegion)
    (positions : list Number) (dimFactor : Number) (st : LineState) :
  (forall k, unit_draw (random k) = true) ->
  countable_region src = true -> countable_region tgt = true ->
  startIdx src < endIdx src -> startIdx tgt < endIdx tgt ->
  exists seg,
    linePositions (lineBody random src tgt positions dimFactor st)
    = linePositions st ++ seg /\
    joins positions src tgt seg.
Proof.
  intros Hrand Hs Ht Hsn Htn. unfold lineBody.
  destruct (tensor_color (tr_category src)) as [[sr sg] sb].
  destruct (tensor_color (tr_category tgt)) as [[tr tg] tb].
  cbn [linePositions].
  destruct (endpoint_coordinates positions src (random (line_drawn st))
              (Hrand _) Hs Hsn) as (p & Hp & Ep).
  destruct (endpoint_coordinates positions tgt (random (S (line_drawn st)))
              (Hrand _) Ht Htn) as (q & Hq & Eq).
  cbv zeta in Ep, Eq.
  eexists. split; [reflexivity|].
  exists p, q. split; [exact Hp|]. split; [exact Hq|].
  rewrite <- Ep, <- Eq. reflexivity.
Qed.

Lemma lineLoop_joins (random : nat -> Number) (src tgt : TensorRegion)
    (positions : list Number) (dimFactor : Number) (n : nat) :
  (forall k, unit_draw (random k) = true) ->
  countable_region src = true -> countable_region tgt = true ->
  startIdx src < endIdx src -> startIdx tgt < endIdx tgt ->
  forall st,
    exists segs,
      linePositions (lineLoop (lineBody random src tgt positions dimFactor) n st)
      = linePositions st ++ concat segs /\
      length segs = n /\
      Forall (joins positions src tgt) segs.
Proof.
  intros Hrand Hs Ht Hsn Htn.
  induction n as [|n IH]; intros st; cbn [lineLoop].
  - exists []. cbn. rewrite app_nil_r. auto.
  - destruct (lineBody_joins random src tgt positions dimFactor st
                Hrand Hs Ht Hsn Htn) as (seg & E & J).
    destruct (IH (lineBody random src tgt positions dimFactor st)) as (segs & E' & L & F).
    exists (seg :: segs). cbn [concat length].
    split; [rewrite E', E, <- app_assoc; reflexivity|].
    split; [lia|]. constructor; assumption.
Qed.

Lemma forallb_In_true {A} (P : A -> bool) (l : list A) (x : A) :
  forallb P l = true -> In x l -> P x = true.
Proof. intros H. rewrite forallb_forall in H. apply H. Qed.

Lemma runJobs_joins (random : nat -> Number) (positions : list Number)
    (regions : list TensorRegion) (jobs : list Job) :
  (forall k, unit_draw (random k) = true) ->
  forallb countable_region regions = true ->
  Forall (fun job : Job =>
            In (fst (fst (fst job))) regions /\ In (snd (fst (fst job))) regions)
         jobs ->
  forall st st',
    runJobs random positions jobs st = Returns st' ->
    exists segs,
      linePositions st' = linePositions st ++ concat segs /\
      Forall (fun seg => exists src tgt,
                In src regions /\ In tgt regions /\ joins positions src tgt seg)
             segs.
Proof.
  intros Hrand Hreg Hjobs.
  induction Hjobs as [|[[[src tgt] density] dimFactor] jobs [Hs Ht] _ IH];
    intros st st'; cbn [runJobs].
  - intros [= <-]. exists []. cbn. rewrite app_nil_r. auto.
  - cbn [fst snd] in Hs, Ht.
    destruct (_sampleLines _ _ _ _ _ _ _) as [st1| |] eqn:E; try discriminate.
    intros Hrest. destruct (IH _ _ Hrest) as (segs' & E' & F').
    unfold _sampleLines in E. cbv zeta in E.
    destruct (Z.eqb_spec (endIdx src - startIdx src) 0) as [|Hsn];
      [injection E as <-; exists segs'; auto|].
    destruct (Z.eqb_spec (endIdx tgt - startIdx tgt) 0) as [|Htn];
      [injection E as <-; exists segs'; auto|].
    cbn [orb] in E.
    destruct (turns _) as [n|]; [|discriminate]. injection E as <-.
    pose proof (forallb_In_true _ _ _ Hreg Hs) as Cs.
    pose proof (forallb_In_true _ _ _ Hreg Ht) as Ct.
    assert (Hsl : startIdx src < endIdx src).
    { unfold countable_region in Cs. apply andb_true_iff in Cs as [Cs _].
      apply andb_true_iff in Cs as [_ Cs]. apply Z.leb_le in Cs. lia. }
    assert (Htl : startIdx tgt < endIdx tgt).
    { unfold countable_region in Ct. apply andb_true_iff in Ct as [Ct _].
      apply andb_true_iff in Ct as [_ Ct]. apply Z.leb_le in Ct. lia. }
    destruct (lineLoop_joins random src tgt positions dimFactor n
                Hrand Cs Ct Hsl Htl st) as (segs & Es & _ & Fs).
    exists (segs ++ segs').
    split; [rewrite E', Es, concat_app, app_assoc; reflexivity|].
    apply Forall_app. split; [|exact F'].
    eapply Forall_impl; [exact Fs|]. intros seg J. exists src, tgt. auto.
Qed.

(** The two regions of every call are regions of the table. *)
Lemma connectionJobs_regions (tensorRegions : list TensorRegion) (density : Number) :
  Forall (fun job : Job =>
            In (fst (fst (fst job))) tensorRegions /\
            In (snd (fst (fst job))) tensorRegions)
         (connectionJobs tensorRegions density).
Proof.
  apply List.Forall_forall. intros [[[src tgt] d] f] Hin. cbn [fst snd].
  unfold connectionJobs in Hin. cbv zeta in Hin.
  rewrite !in_app_iff in Hin. destruct Hin as [H|[H|H]].
  - apply In_intraJobs in H as (_ & _ & _ & _ & _ & Hs & Ht & _). auto.
  - apply In_crossJobs in H as (_ & Hs & Ht). auto.
  - apply In_boundaryJobs in H as (_ & Hs & Ht). auto.
Qed.

(** X26.  When [Math.random] returns [+0] or a normal double below 1,
    and the regions of the table hold whole points counted below
    [2^53 / 3], every line of the connection buffer runs from a point of a
    region of the table to a point of a region of the table: its six entries are the
    three coordinates of a point [p] of the source region, then those of a
    point [q] of the target region, with [startIdx <= p < endIdx] in each.
    The index [startIdx + Math.floor(Math.random() * count)] never leaves
    its region. *)
Theorem connections_join_points_of_regions (random : nat -> Number) (drawn0 : nat)
    (tensorRegions : list TensorRegion) (positions : list Number)
    (density : Number) (conn : Connections) :
  (forall k, unit_draw (random k) = true) ->
  forallb countable_region tensorRegions = true ->
  generateConnections random drawn0 tensorRegions positions density
  = Returns conn ->
  exists segs,
    conn_positions conn = map JS.fround (concat segs) /\
    Forall (fun seg => exists src tgt,
              In src tensorRegions /\ In tgt tensorRegions /\
              joins positions src tgt seg)
           segs.
Proof.
  intros Hrand Hreg. unfold generateConnections.
  destruct (runJobs _ _ _ _) as [st| |] eqn:E; try discriminate.
  intros [= <-]. cbn [conn_positions].
  destruct (runJobs_joins random positions tensorRegions _ Hrand Hreg
              (connectionJobs_regions tensorRegions density) _ _ E)
    as (segs & Es & Fs).
  cbn [linePositions app] in Es. exists segs. rewrite Es. auto.
Qed.

Lemma connections_join_points_of_regions_witness :
  exists conn segs,
    generateConnections random_half 0 norm_and_query (replicate 24 JS.pos_zero)
      (JS.fromZ 1) = Returns conn /\
    conn_positions conn = map JS.fround (concat segs) /\
    Forall (fun seg => exists src tgt,
              In src norm_and_query /\ In tgt norm_and_query /\
              joins (replicate 24 JS.pos_zero) src tgt seg)
           segs.
Proof.
  assert (H : match generateConnections random_half 0 norm_and_query
                      (replicate 24 JS.pos_zero) (JS.fromZ 1) with
              | Returns _ => true
              | _ => false
              end = true) by (vm_compute; reflexivity).
  destruct (generateConnections random_half 0 norm_and_query
              (replicate 24 JS.pos_zero) (JS.fromZ 1)) as [conn| |] eqn:E;
    [|discriminate H|discriminate H].
  destruct (connections_join_points_of_regions random_half 0 norm_and_query
              (replicate 24 JS.pos_zero) (JS.fromZ 1) conn
              (fun _ => eq_refl) eq_refl E) as (segs & Ep & F).
  exists conn, segs. auto.
Defined.

(* ================================================================== *)
(** * Layer bounding boxes *)
(* ================================================================== *)

(** ** The key of a component *)

Lemma no_colon_pretty_N_go (x : N) :
  forall s, no_colon s = true -> no_colon (pretty_N_go x s) = true.
Proof.
  induction (N.lt_wf_0 x) as [x _ IH]. intros s Hs.
  destruct (N.eq_dec x 0%N) as [->|Hx]; [exact Hs|].
  rewrite pretty_N_go_step by lia. apply IH; [apply N.div_lt; lia|].
  unfold no_colon. cbn [list_ascii_of_string forallb]. fold (no_colon s).
  rewrite Hs, andb_true_r.
  unfold pretty_N_char. repeat case_match; reflexivity.
Qed.

Lemma no_colon_decimal (z : Z) : no_colon (decimal z) = true.
Proof.
  assert (HN : forall p, no_colon (pretty (N.pos p)) = true).
  { intros p. unfold pretty, pretty_N. destruct (decide _); [reflexivity|].
    apply no_colon_pretty_N_go. reflexivity. }
  unfold decimal, pretty, pretty_Z. destruct z as [|p|p].
  - reflexivity.
  - apply HN.
  - change ("-" +:+ pretty p) with (String "-" (pretty (N.pos p))).
    unfold no_colon. cbn [list_ascii_of_string forallb].
    apply andb_true_iff. split; [reflexivity|apply HN].
Qed.

Lemma split_at_colon (a b x y : string) :
  no_colon a = true -> no_colon b = true ->
  a +:+ String ":" x = b +:+ String ":" y -> a = b /\ x = y.
Proof.
  revert b. induction a as [|c a IH]; intros [|d b] Ha Hb;
    rewrite ?append_nil, ?append_cons.
  - intros [= <-]. auto.
  - intros [= <- _]. discriminate Hb.
  - intros [= -> _]. discriminate Ha.
  - intros [= <- H].
    unfold no_colon in Ha, Hb. cbn [list_ascii_of_string forallb] in Ha, Hb.
    apply andb_true_iff in Ha as [_ Ha]. apply andb_true_iff in Hb as [_ Hb].
    destruct (IH b Ha Hb H) as [-> ->]. auto.
Qed.

(** The key names the layer and the category. *)
Lemma group_key_inj (l l' : Z) (c c' : string) :
  group_key l c = group_key l' c' -> l = l' /\ c = c'.
Proof.
  unfold group_key. change (":" +:+ c) with (String ":" c).
  change (":" +:+ c') with (String ":" c'). intros H.
  apply split_at_colon in H as [Hl Hc]; try apply no_colon_decimal.
  split; [|exact Hc]. unfold decimal in Hl. apply (inj pretty) in Hl. exact Hl.
Qed.

Lemma group_key_eqb (l l' : Z) (c c' : string) :
  String.eqb (group_key l c) (group_key l' c') = (l =? l') && String.eqb c c'.
Proof.
  destruct (String.eqb_spec (group_key l c) (group_key l' c')) as [E|NE].
  - apply group_key_inj in E as [-> ->]. rewrite Z.eqb_refl, String.eqb_refl.
    reflexivity.
  - symmetry. apply not_true_is_false. intros H.
    apply andb_true_iff in H as [Hl Hc]. apply Z.eqb_eq in Hl.
    apply String.eqb_eq in Hc. subst. contradiction.
Qed.

(** ** The loop over the regions *)

Lemma Map_has_In (key : string) (groups : list (string * Group)) :
  Map_has key groups = true <-> In key (map fst groups).
Proof.
  unfold Map_has. rewrite existsb_exists, in_map_iff. split.
  - intros (kv & Hin & E). apply String.eqb_eq in E. eauto.
  - intros (kv & E & Hin). exists kv. split; [exact Hin|].
    apply String.eqb_eq, E.
Qed.

Lemma Map_update_keys (key : string) (f : Group -> Group)
    (groups : list (string * Group)) :
  map fst (Map_update key f groups) = map fst groups.
Proof.
  induction groups as [|[k b] rest IH]; [reflexivity|]. cbn [Map_update].
  destruct (String.eqb k key); cbn [map fst]; [reflexivity|]. f_equal. exact IH.
Qed.

Lemma In_Map_update (key : string) (f : Group -> Group)
    (groups : list (string * Group)) (k : string) (b : Group) :
  List.NoDup (map fst groups) ->
  In (k, b) (Map_update key f groups) ->
  (k = key /\ exists b0, In (k, b0) groups /\ b = f b0) \/
  (k <> key /\ In (k, b) groups).
Proof.
  induction groups as [|[k0 b0] rest IH]; [contradiction|].
  cbn [Map_update map fst]. intros Hnd. apply List.NoDup_cons_iff in Hnd as [Hk0 Hnd].
  destruct (String.eqb_spec k0 key) as [->|NE].
  - intros [[= <- <-]|Hin].
    + left. split; [reflexivity|]. exists b0. split; [left; reflexivity|reflexivity].
    + right. split; [|right; exact Hin].
      intros ->. apply Hk0. apply in_map_iff. exists (key, b). auto.
  - intros [[= <- <-]|Hin].
    + right. split; [exact NE|left; reflexivity].
    + destruct (IH Hnd Hin) as [(-> & b1 & Hb1 & ->)|[Hne Hin']].
      * left. split; [reflexivity|]. exists b1. split; [right; exact Hb1|reflexivity].
      * right. split; [exact Hne|right; exact Hin'].
Qed.

Lemma with_key_app (k : string) (done : list TensorRegion) (r : TensorRegion) :
  with_key k (done ++ [r])
  = with_key k done ++ (if String.eqb (key_of r) k then [r] else []).
Proof. unfold with_key. rewrite List.filter_app. reflexivity. Qed.

Lemma with_key_nil (k : string) (done : list TensorRegion) :
  (forall r, In r done -> key_of r <> k) -> with_key k done = [].
Proof.
  intros H. unfold with_key. induction done as [|r done IH]; [reflexivity|].
  cbn [List.filter]. destruct (String.eqb_spec (key_of r) k) as [E|_].
  - exfalso. apply (H r); [left; reflexivity|exact E].
  - apply IH. intros r' Hr'. apply H. right. exact Hr'.
Qed.

Lemma groupBody_grouped (done : list TensorRegion) (groups : list (string * Group))
    (r : TensorRegion) :
  grouped done groups -> grouped (done ++ [r]) (groupBody groups r).
Proof.
  intros (Hnd & Hcov & Hall). unfold groupBody. cbv zeta. fold (key_of r).
  set (groups1 := if negb (Map_has (key_of r) groups)
                  then groups ++ [(key_of r, new_group (tr_layerIdx r) (tr_category r))]
                  else groups).
  assert (Hnd1 : List.NoDup (map fst groups1)).
  { unfold groups1. destruct (Map_has (key_of r) groups) eqn:Hhas; cbn [negb];
      [exact Hnd|].
    rewrite map_app. cbn [map fst]. apply List.NoDup_app; [exact Hnd| |].
    - apply List.NoDup_cons; [intros []|constructor].
    - intros k Hk Hk'. cbn [In] in Hk'. destruct Hk' as [<-|[]].
      apply Map_has_In in Hk. congruence. }
  assert (Hkey1 : In (key_of r) (map fst groups1)).
  { unfold groups1. destruct (Map_has (key_of r) groups) eqn:Hhas; cbn [negb].
    - apply Map_has_In, Hhas.
    - rewrite map_app, in_app_iff. right. left. reflexivity. }
  assert (Hin1 : forall k b, In (k, b) groups1 ->
            In (k, b) groups \/
            (Map_has (key_of r) groups = false /\ k = key_of r /\
             b = new_group (tr_layerIdx r) (tr_category r))).
  { unfold groups1. intros k b. destruct (Map_has (key_of r) groups); cbn [negb];
      [auto|].
    rewrite in_app_iff. intros [H|[[= <- <-]|[]]]; auto. }
  assert (Hsub : forall k, In k (map fst groups) -> In k (map fst groups1)).
  { unfold groups1. intros k Hk. destruct (Map_has (key_of r) groups); cbn [negb];
      [exact Hk|]. rewrite map_app, in_app_iff. left. exact Hk. }
  split; [|split].
  - rewrite Map_update_keys. exact Hnd1.
  - intros r' Hr'. rewrite Map_update_keys. apply in_app_iff in Hr' as [Hr'|[<-|[]]].
    + apply Hsub, Hcov, Hr'.
    + exact Hkey1.
  - intros k b Hin. rewrite with_key_app.
    apply In_Map_update in Hin as [(-> & b0 & Hb0 & ->)|[Hne Hin]]; [| |exact Hnd1].
    + rewrite String.eqb_refl.
      apply Hin1 in Hb0 as [Hb0|(Hhas & _ & ->)].
      * destruct (Hall _ _ Hb0) as (r0 & rest & Hw & ->).
        exists r0, (rest ++ [r]). split; [rewrite Hw; reflexivity|].
        rewrite map_app, fold_left_app. reflexivity.
      * assert (Hw : with_key (key_of r) done = []).
        { apply with_key_nil. intros r' Hr' E. apply Hcov in Hr'.
          rewrite E in Hr'. apply Map_has_In in Hr'. congruence. }
        rewrite Hw. exists r, []. split; reflexivity.
    + replace (String.eqb (key_of r) k) with false
        by (symmetry; apply String.eqb_neq; congruence).
      rewrite app_nil_r.
      apply Hin1 in Hin as [Hin|(_ & -> & _)]; [|contradiction].
      apply Hall, Hin.
Qed.

Lemma groups_grouped (regions : list TensorRegion) :
  forall done groups,
    grouped done groups ->
    grouped (done ++ regions) (fold_left groupBody regions groups).
Proof.
  induction regions as [|r regions IH]; intros done groups H; cbn [fold_left].
  - rewrite app_nil_r. exact H.
  - replace (done ++ r :: regions) with ((done ++ [r]) ++ regions)
      by (rewrite <- app_assoc; reflexivity).
    apply IH, groupBody_grouped, H.
Qed.

(** What widening by a list of regions gives. *)
Lemma widen_all (rs : list Region) :
  forall g,
    let g' := fold_left widen rs g in
    g_layerIdx g' = g_layerIdx g /\ g_category g' = g_category g /\
    minX g' = fold_left JS.Math_min (map region_x rs) (minX g) /\
    minY g' = fold_left JS.Math_min (map region_y rs) (minY g) /\
    minZ g' = fold_left JS.Math_min (map region_z rs) (minZ g) /\
    maxX g' = fold_left JS.Math_max
                (map (fun r => JS.add (region_x r) (region_width r)) rs) (maxX g) /\
    maxY g' = fold_left JS.Math_max
                (map (fun r => JS.add (region_y r) (region_height r)) rs) (maxY g) /\
    maxZ g' = fold_left JS.Math_max
                (map (fun r => JS.add (region_z r) (region_depth r)) rs) (maxZ g).
Proof.
  induction rs as [|r rs IH]; intros g; cbn [fold_left map].
  - cbv zeta. repeat split; reflexivity.
  - specialize (IH (widen g r)). cbv zeta in *. exact IH.
Qed.

(** ** The sort *)

Lemma insert_box_perm (x : Box) (l : list Box) : Permutation (insert_box x l) (x :: l).
Proof.
  induction l as [|y l IH]; cbn [insert_box]; [reflexivity|].
  destruct (_ <=? _); [reflexivity|].
  rewrite IH. apply perm_swap.
Qed.

Lemma sort_boxes_perm (l : list Box) : Permutation (sort_boxes l) l.
Proof.
  induction l as [|x l IH]; cbn [sort_boxes fold_right]; [reflexivity|].
  fold (sort_boxes l). rewrite insert_box_perm, IH. reflexivity.
Qed.

Lemma insert_box_sorted (x : Box) (l : list Box) :
  StronglySorted Z.le (map box_layerIdx l) ->
  StronglySorted Z.le (map box_layerIdx (insert_box x l)).
Proof.
  induction l as [|y l IH]; cbn [insert_box map]; intros H.
  - constructor; constructor.
  - apply StronglySorted_inv in H as [Hs Hall].
    destruct (Z.leb_spec (box_layerIdx x) (box_layerIdx y)).
    + cbn [map]. constructor; [constructor; assumption|].
      constructor; [assumption|].
      eapply Forall_impl; [exact Hall|]. cbn. intros; lia.
    + cbn [map]. constructor; [apply IH, Hs|].
      assert (Hp := insert_box_perm x l).
      apply (Permutation_map box_layerIdx) in Hp.
      eapply Permutation_Forall; [symmetry; exact Hp|].
      cbn [map]. constructor; [lia|exact Hall].
Qed.

Lemma sort_boxes_sorted (l : list Box) :
  StronglySorted Z.le (map box_layerIdx (sort_boxes l)).
Proof.
  induction l as [|x l IH]; cbn [sort_boxes fold_right]; [constructor|].
  apply insert_box_sorted, IH.
Qed.

(** X25.  [computeLayerBounds] returns the boxes sorted by layer, exactly
    one for each pair of a layer and a category that occurs among the
    regions.  The box of a component has the palette color of its category
    and spans, padded by 0.3, the least [x], [y], [z] and the greatest
    [x + width], [y + height], [z + depth] over exactly the regions of that
    component, folded with [Math.min] and [Math.max] in the order of the
    table. *)
Theorem computeLayerBounds_one_box_per_component (tensorRegions : list TensorRegion) :
  let bounds := computeLayerBounds tensorRegions in
  StronglySorted Z.le (map box_layerIdx bounds) /\
  List.NoDup (map (fun b => (box_layerIdx b, box_category b)) bounds) /\
  (forall r, In r tensorRegions ->
     exists b, In b bounds /\
               box_layerIdx b = tr_layerIdx r /\ box_category b = tr_category r) /\
  (forall b, In b bounds ->
     let ms := members (box_layerIdx b) (box_category b) tensorRegions in
     let pad := JS.lit 3 1 in
     ms <> [] /\
     box_color b = tensor_color (box_category b) /\
     box_min b
     = (JS.sub (lowest (map region_x ms)) pad,
        JS.sub (lowest (map region_y ms)) pad,
        JS.sub (lowest (map region_z ms)) pad) /\
     box_max b
     = (JS.add (highest (map (fun r => JS.add (region_x r) (region_width r)) ms)) pad,
        JS.add (highest (map (fun r => JS.add (region_y r) (region_height r)) ms)) pad,
        JS.add (highest (map (fun r => JS.add (region_z r) (region_depth r)) ms)) pad)).
Proof.
  cbv zeta. unfold computeLayerBounds. cbv zeta.
  assert (G : grouped tensorRegions (fold_left groupBody tensorRegions [])).
  { apply (groups_grouped tensorRegions [] []).
    split; [constructor|]. split; intros; contradiction. }
  set (groups := fold_left groupBody tensorRegions []) in *.
  destruct G as (Hnd & Hcov & Hall).
  (* every group is the hull of the members of its component *)
  assert (Hgroup : forall k b, In (k, b) groups ->
            k = group_key (g_layerIdx b) (g_category b) /\
            members (g_layerIdx b) (g_category b) tensorRegions <> [] /\
            b = fold_left widen (members (g_layerIdx b) (g_category b) tensorRegions)
                  (new_group (g_layerIdx b) (g_category b))).
  { intros k b Hin. destruct (Hall k b Hin) as (r0 & rest & Hw & Hb).
    assert (Hr0 : In r0 (with_key k tensorRegions)) by (rewrite Hw; left; reflexivity).
    apply List.filter_In in Hr0 as [_ Hk]. apply String.eqb_eq in Hk.
    destruct (widen_all (map tr_region (with_key k tensorRegions))
                (new_group (tr_layerIdx r0) (tr_category r0))) as (Hl & Hc & _).
    cbv zeta in Hl, Hc. rewrite <- Hb in Hl, Hc. cbn [new_group g_layerIdx g_category] in Hl, Hc.
    assert (Hm : members (g_layerIdx b) (g_category b) tensorRegions
                 = map tr_region (with_key k tensorRegions)).
    { unfold members, with_key. f_equal. apply List.filter_ext. intros r.
      rewrite <- Hk. unfold key_of. rewrite group_key_eqb, Hl, Hc. reflexivity. }
    split; [rewrite Hl, Hc; symmetry; exact Hk|].
    split; [rewrite Hm, Hw; discriminate|].
    rewrite Hm, Hl, Hc. exact Hb. }
  split; [apply sort_boxes_sorted|]. split; [|split].
  - eapply Permutation_NoDup;
      [symmetry; apply Permutation_map, sort_boxes_perm|].
    rewrite map_map.
    assert (Hinj : forall kv kv', In kv groups -> In kv' groups ->
              (g_layerIdx (snd kv), g_category (snd kv))
              = (g_layerIdx (snd kv'), g_category (snd kv')) -> fst kv = fst kv').
    { intros [k b] [k' b'] Hin Hin' [= El Ec]. cbn [fst].
      destruct (Hgroup _ _ Hin) as (-> & _). destruct (Hgroup _ _ Hin') as (-> & _).
      cbn [snd] in El, Ec. congruence. }
    clear -Hnd Hinj. induction groups as [|kv groups IH]; [constructor|].
    cbn [map] in *. apply List.NoDup_cons_iff in Hnd as [Hk Hnd].
    apply List.NoDup_cons.
    + intros Hin. apply in_map_iff in Hin as (kv' & E & Hin').
      apply Hk. apply in_map_iff. exists kv'. split; [|exact Hin'].
      cbn [box_of box_layerIdx box_category] in E.
      apply Hinj; [right; exact Hin'|left; reflexivity|exact E].
    + apply IH; [exact Hnd|].
      intros a b Ha Hb. apply Hinj; right; assumption.
  - intros r Hr. specialize (Hcov r Hr). apply in_map_iff in Hcov as ([k b] & Ek & Hin).
    cbn [fst] in Ek. subst k.
    destruct (Hgroup _ _ Hin) as (Hk & _).
    apply group_key_inj in Hk as [Hl Hc].
    exists (box_of b). split.
    + eapply Permutation_in; [symmetry; apply sort_boxes_perm|].
      apply in_map_iff. exists (key_of r, b). auto.
    + cbn [box_of box_layerIdx box_category]. auto.
  - intros b Hb.
    eapply Permutation_in in Hb; [|apply sort_boxes_perm].
    apply in_map_iff in Hb as ([k g] & <- & Hin). cbn [snd].
    destruct (Hgroup _ _ Hin) as (_ & Hne & Hg).
    cbn [box_of box_layerIdx box_category box_color box_min box_max].
    split; [exact Hne|]. split; [reflexivity|].
    destruct (widen_all (members (g_layerIdx g) (g_category g) tensorRegions)
                (new_group (g_layerIdx g) (g_category g)))
      as (_ & _ & Hx & Hy & Hz & HX & HY & HZ).
    cbv zeta in Hx, Hy, Hz, HX, HY, HZ. rewrite <- Hg in Hx, Hy, Hz, HX, HY, HZ.
    cbn [new_group minX minY minZ maxX maxY maxZ] in Hx, Hy, Hz, HX, HY, HZ.
    unfold lowest, highest. rewrite Hx, Hy, Hz, HX, HY, HZ. split; reflexivity.
Qed.

